(** * Showroom viewer: collision, camera, transform, render queue, animation

    A shallow embedding of the C++ sources (Collision.cpp / Collision.h,
    Camera.cpp, Model.cpp, Renderer.cpp, Animation.cpp) and the properties
    the specification states about them, followed by further properties of
    these sources and of CarModel.cpp, ShowroomScene.cpp, Mesh.cpp, Input.cpp
    and Shader.cpp.

    Numbers.  The program computes with C++ [float].  It is modelled as IEEE-754
    binary32 with round-to-nearest-even, every operation rounded on its own
    (no fused multiply-add, no extended intermediate precision), through the
    executable specification [SpecFloat] of the standard library instantiated
    at precision 24 and maximal exponent 128.  Where an expression of the
    program is of type [double] (the unqualified [cos] and [sin] of
    Camera.cpp), it is computed in binary64, precision 53 and maximal
    exponent 1024, and rounded to binary32 where it is stored in a [float].
    The collision code is written over an interface of scalar operations,
    instantiated at binary32.

    Library code.  [std::min], [std::clamp] and the vector operations of GLM
    are written out.  [std::sort] is taken by its contract, the matrix
    builders of GLM and the functions of libm ([cos], [sin], [pow]) are
    parameters: [cosf], [sinf], [std::cos], [std::sin] and [std::pow] on
    [float], and the C functions [cos] and [sin] on [double]. *)

From Stdlib Require Import ZArith QArith Qabs Qpower List Bool Lia Lqa.
From Stdlib Require String.
From Stdlib Require Import SpecFloat Permutation Sorted.
Import ListNotations.

Set Implicit Arguments.
Open Scope Z_scope.

(* ================================================================== *)
(** * Part I: the program                                              *)
(* ================================================================== *)

(** ** C++ [float] as IEEE-754 binary32 *)

Module F32.

Definition float : Type := spec_float.

Definition prec : Z := 24.
Definition emax : Z := 128.

Definition add : float -> float -> float := SFadd prec emax.
Definition sub : float -> float -> float := SFsub prec emax.
Definition mul : float -> float -> float := SFmul prec emax.
Definition div : float -> float -> float := SFdiv prec emax.
Definition sqrt : float -> float := SFsqrt prec emax.
Definition neg : float -> float := SFopp.

(** The comparison operators of C++: all of them answer [false] when an
    operand is a NaN; [a > b] is [b < a] and [a >= b] is [b <= a]. *)
Definition ltb : float -> float -> bool := SFltb.
Definition leb : float -> float -> bool := SFleb.
Definition eqb : float -> float -> bool := SFeqb.
Definition gtb (a b : float) : bool := ltb b a.
Definition geb (a b : float) : bool := leb b a.

(** An integer converted to [float] (rounded when it has more than 24
    significant bits). *)
Definition of_Z (n : Z) : float := binary_normalize prec emax n 0 false.

(** The decimal literal [n/d] with the suffix [f].  IEEE division is
    correctly rounded, so when [n] and [d] are themselves floats (fewer than
    24 significant bits) the quotient is the float nearest to [n/d], which is
    what the compiler stores for the literal. *)
Definition lit (n : Z) (d : positive) : float := div (of_Z n) (of_Z (Zpos d)).

Definition zero : float := of_Z 0.
Definition one : float := of_Z 1.

(** [3.14159265359f]: bits 0x40490FDB. *)
Definition lit_pi : float := S754_finite false 13176795 (-22).

(** [static_cast<float>(0.01745329251994329576923690768489)], the factor of
    [glm::radians]: bits 0x3C8EFA35. *)
Definition lit_deg2rad : float := S754_finite false 9370165 (-29).

(** [std::abs] on a [float], and [std::numeric_limits<float>::max()],
    (2^24 - 1) * 2^104. *)
Definition abs : float -> float := SFabs.
Definition FLT_MAX : float := S754_finite false 16777215 104.

Definition is_nan (x : float) : bool :=
  match x with S754_nan => true | _ => false end.

(** Finite: a zero or a finite non-zero number (no NaN, no infinity). *)
Definition is_finite (x : float) : bool :=
  match x with S754_zero _ | S754_finite _ _ _ => true | _ => false end.

(** The rational value of a finite float (0 for the others). *)
Definition to_Q (x : float) : Q :=
  match x with
  | S754_finite s m e =>
      let v := match e with
               | Zneg p => Zpos m # Pos.shiftl 1 (Npos p)
               | _ => inject_Z (Zpos m * 2 ^ e)
               end in
      if s then Qopp v else v
  | _ => 0%Q
  end.

(** [nearest q x]: [x] is a valid finite binary32 number and no neighbour of
    it is closer to the rational [q]. *)
Definition nearest (q : Q) (x : float) : bool :=
  let d y := Qabs (to_Q y - q) in
  is_finite x && valid_binary prec emax x
  && Qle_bool (d x) (d (SFsucc prec emax x))
  && Qle_bool (d x) (d (SFpred prec emax x)).

(** The order the comparisons decide, read off the representation: the class
    of a number ([k1]: -infinity, negative, zero, positive, +infinity), then
    its exponent, then its mantissa (both negated for a negative number).
    [nanz x] is 0 unless [x] is a NaN. *)
Definition nanz (x : float) : Z := if is_nan x then 1 else 0.
Definition k1 (x : float) : Z :=
  match x with
  | S754_infinity true => -2
  | S754_infinity false => 2
  | S754_finite false _ _ => 1
  | S754_finite true _ _ => -1
  | _ => 0
  end.
Definition k2 (x : float) : Z :=
  match x with
  | S754_finite false _ e => e
  | S754_finite true _ e => - e
  | _ => 0
  end.
Definition k3 (x : float) : Z :=
  match x with
  | S754_finite false m _ => Zpos m
  | S754_finite true m _ => Zneg m
  | _ => 0
  end.

Definition LT (x y : float) : Prop :=
  nanz x = 0 /\ nanz y = 0 /\
  (k1 x < k1 y \/ (k1 x = k1 y /\ (k2 x < k2 y \/ (k2 x = k2 y /\ k3 x < k3 y)))).
Definition LE (x y : float) : Prop :=
  nanz x = 0 /\ nanz y = 0 /\
  (k1 x < k1 y \/ (k1 x = k1 y /\ (k2 x < k2 y \/ (k2 x = k2 y /\ k3 x <= k3 y)))).

End F32.

(** ** C++ [double] as IEEE-754 binary64 *)

Module F64.

Definition float : Type := spec_float.

Definition prec : Z := 53.
Definition emax : Z := 1024.

Definition add : float -> float -> float := SFadd prec emax.
Definition sub : float -> float -> float := SFsub prec emax.
Definition mul : float -> float -> float := SFmul prec emax.
Definition div : float -> float -> float := SFdiv prec emax.
Definition leb : float -> float -> bool := SFleb.
Definition abs : float -> float := SFabs.

Definition of_Z (n : Z) : float := binary_normalize prec emax n 0 false.
Definition zero : float := of_Z 0.
Definition one : float := of_Z 1.

(** A [float] converted to [double], as for the argument of a function that
    takes a [double] and for the operand of an operation whose other operand
    is a [double]: the same number, in the representation of binary64. *)
Definition of_F32 (x : F32.float) : float :=
  match x with
  | S754_finite s m e => binary_round prec emax s m e
  | _ => x
  end.

(** A [double] stored in a [float]: rounded to the nearest binary32 number,
    ties to even, to an infinity when it is too large. *)
Definition to_F32 (x : float) : F32.float :=
  match x with
  | S754_finite s m e => binary_round F32.prec F32.emax s m e
  | _ => x
  end.

End F64.


(** ** The scalar interface of the collision code

    The arithmetic and the two comparisons the collision code uses, and the
    decimal literals ([s_lit n d] is the literal [n/d]). *)

Class Scalar (F : Type) : Type := {
  s_lit : Z -> positive -> F;
  s_add : F -> F -> F;
  s_sub : F -> F -> F;
  s_mul : F -> F -> F;
  s_ltb : F -> F -> bool;
  s_leb : F -> F -> bool }.

(** [a > b] is [b < a]. *)
Definition s_gtb {F : Type} `{Scalar F} (a b : F) : bool := s_ltb b a.

(** [a >= b] is [b <= a]. *)
Definition s_geb {F : Type} `{Scalar F} (a b : F) : bool := s_leb b a.

(** The program's numbers: binary32. *)
#[export] Instance Scalar_float : Scalar F32.float := {|
  s_lit := F32.lit;
  s_add := F32.add;
  s_sub := F32.sub;
  s_mul := F32.mul;
  s_ltb := F32.ltb;
  s_leb := F32.leb |}.

Declare Scope scalar_scope.
Delimit Scope scalar_scope with s.
Infix "+" := s_add : scalar_scope.
Infix "-" := s_sub : scalar_scope.
Infix "*" := s_mul : scalar_scope.
Infix "<?" := s_ltb : scalar_scope.
Infix "<=?" := s_leb : scalar_scope.
Infix ">?" := s_gtb : scalar_scope.
Infix ">=?" := s_geb : scalar_scope.

(** ** The C++ standard library: [std::min], [std::max], [std::clamp] *)

Module Std.
Section WithScalar.
Context {F : Type} `{Scalar F}.

(** [std::min(a, b)] is [(b < a) ? b : a]. *)
Definition min (a b : F) : F := if (b <? a)%s then b else a.

(** [std::max(a, b)] is [(a < b) ? b : a]. *)
Definition max (a b : F) : F := if (a <? b)%s then b else a.

(** [std::clamp(v, lo, hi)] is [(v < lo) ? lo : (hi < v) ? hi : v]. *)
Definition clamp (v lo hi : F) : F :=
  if (v <? lo)%s then lo else if (hi <? v)%s then hi else v.

End WithScalar.
End Std.

(** ** GLM: vectors and matrices *)

Module Glm.

Record vec3 (F : Type) : Type := mkVec3 { x : F; y : F; z : F }.
Record vec4 (F : Type) : Type := mkVec4 { x4 : F; y4 : F; z4 : F; w4 : F }.
Record vec2 (F : Type) : Type := mkVec2 { x2 : F; y2 : F }.

(** [glm::mat4] is column-major: [m[i]] is the column [i]. *)
Record mat4 (F : Type) : Type :=
  mkMat4 { col0 : vec4 F; col1 : vec4 F; col2 : vec4 F; col3 : vec4 F }.

Section WithScalar.
Context {F : Type} `{Scalar F}.

(** [glm::vec3(s)] *)
Definition splat (s : F) : vec3 F := mkVec3 s s s.

(** [a + b], [a - b] and [v * s] on [glm::vec3] are componentwise. *)
Definition add (a b : vec3 F) : vec3 F :=
  mkVec3 (x a + x b)%s (y a + y b)%s (z a + z b)%s.
Definition sub (a b : vec3 F) : vec3 F :=
  mkVec3 (x a - x b)%s (y a - y b)%s (z a - z b)%s.
Definition scale (v : vec3 F) (s : F) : vec3 F :=
  mkVec3 (x v * s)%s (y v * s)%s (z v * s)%s.

(** [glm::min(a, b)] and [glm::max(a, b)] apply [(b < a) ? b : a] and
    [(a < b) ? b : a] to each component. *)
Definition min (a b : vec3 F) : vec3 F :=
  mkVec3 (Std.min (x a) (x b)) (Std.min (y a) (y b)) (Std.min (z a) (z b)).
Definition max (a b : vec3 F) : vec3 F :=
  mkVec3 (Std.max (x a) (x b)) (Std.max (y a) (y b)) (Std.max (z a) (z b)).

(** [glm::clamp(v, lo, hi)] is [min(max(v, lo), hi)]. *)
Definition clamp (v lo hi : vec3 F) : vec3 F := min (max v lo) hi.

(** [v[i]], for [i] in 0, 1, 2. *)
Definition component (v : vec3 F) (i : nat) : F :=
  match i with 0%nat => x v | 1%nat => y v | _ => z v end.

(** [glm::vec3(m[3])]: the translation column of a transform. *)
Definition translation (m : mat4 F) : vec3 F :=
  mkVec3 (x4 (col3 m)) (y4 (col3 m)) (z4 (col3 m)).

(** [glm::mat4(s)]: [s] on the diagonal. *)
Definition diag (s : F) : mat4 F :=
  let o := s_lit 0 1 in
  mkMat4 (mkVec4 s o o o) (mkVec4 o s o o) (mkVec4 o o s o) (mkVec4 o o o s).

End WithScalar.

(** The operations below divide or take square roots: binary32 only. *)

(** [glm::dot(a, b)]: [tmp = a * b; tmp.x + tmp.y + tmp.z]. *)
Definition dot (a b : vec3 F32.float) : F32.float :=
  F32.add (F32.add (F32.mul (x a) (x b)) (F32.mul (y a) (y b))) (F32.mul (z a) (z b)).

(** [glm::length(v)] is [sqrt(dot(v, v))]. *)
Definition length (v : vec3 F32.float) : F32.float := F32.sqrt (dot v v).

(** [glm::inversesqrt(s)] is [1 / sqrt(s)] and [glm::normalize(v)] is
    [v * inversesqrt(dot(v, v))]. *)
Definition inversesqrt (s : F32.float) : F32.float := F32.div F32.one (F32.sqrt s).
Definition normalize (v : vec3 F32.float) : vec3 F32.float :=
  scale v (inversesqrt (dot v v)).

(** [glm::cross(a, b)] *)
Definition cross (a b : vec3 F32.float) : vec3 F32.float :=
  mkVec3 (F32.sub (F32.mul (y a) (z b)) (F32.mul (y b) (z a)))
         (F32.sub (F32.mul (z a) (x b)) (F32.mul (z b) (x a)))
         (F32.sub (F32.mul (x a) (y b)) (F32.mul (x b) (y a))).

(** [glm::radians(degrees)] is [degrees * 0.01745329251994329576923690768489]. *)
Definition radians (degrees : F32.float) : F32.float :=
  F32.mul degrees F32.lit_deg2rad.

End Glm.

(** The matrix builders of GLM and the functions of libm are not part of the
    program: they are parameters of the model. *)

Class GlmTransform : Type := {
  glm_translate : Glm.mat4 F32.float -> Glm.vec3 F32.float -> Glm.mat4 F32.float;
  glm_rotate : Glm.mat4 F32.float -> F32.float -> Glm.vec3 F32.float -> Glm.mat4 F32.float;
  glm_scale : Glm.mat4 F32.float -> Glm.vec3 F32.float -> Glm.mat4 F32.float }.

(** [m_cos], [m_sin], [m_pow]: the functions on [float] ([cosf], [sinf],
    [std::cos], [std::sin], [std::pow]); [c_cos], [c_sin]: the C functions
    [double cos(double)] and [double sin(double)]. *)
Class Libm : Type := {
  m_cos : F32.float -> F32.float;
  m_sin : F32.float -> F32.float;
  m_pow : F32.float -> F32.float -> F32.float;
  c_cos : F64.float -> F64.float;
  c_sin : F64.float -> F64.float }.

(** ** Collision.h / Collision.cpp *)

Record AABB (F : Type) : Type := mkAABB { min : Glm.vec3 F; max : Glm.vec3 F }.

Record CollisionResult (F : Type) : Type := mkCollisionResult {
  hit : bool;
  point : Glm.vec3 F;
  normal : Glm.vec3 F;
  penetration : F }.

Section CollisionTypes.
Context {F : Type} `{Scalar F}.

(** [AABB::getCenter]: [(min + max) * 0.5f] *)
Definition getCenter (a : AABB F) : Glm.vec3 F :=
  Glm.scale (Glm.add (min a) (max a)) (s_lit 1 2).

(** [CollisionResult()]: [hit(false), point(0.0f), normal(0.0f), penetration(0.0f)] *)
Definition CollisionResult_init : CollisionResult F :=
  mkCollisionResult false (Glm.splat (s_lit 0 1)) (Glm.splat (s_lit 0 1)) (s_lit 0 1).

(** A box moved by [push]: [box.min += push; box.max += push]. *)
Definition translated (box : AABB F) (push : Glm.vec3 F) : AABB F :=
  mkAABB (Glm.add (min box) push) (Glm.add (max box) push).

(** [AABB::containsPoint] *)
Definition containsPoint (a : AABB F) (point : Glm.vec3 F) : bool :=
  (Glm.x point >=? Glm.x (min a))%s && (Glm.x point <=? Glm.x (max a))%s &&
  (Glm.y point >=? Glm.y (min a))%s && (Glm.y point <=? Glm.y (max a))%s &&
  (Glm.z point >=? Glm.z (min a))%s && (Glm.z point <=? Glm.z (max a))%s.

(** [AABB::expandToInclude(const glm::vec3&)] and
    [AABB::expandToInclude(const AABB&)]: the box after the call. *)
Definition expandToInclude (a : AABB F) (point : Glm.vec3 F) : AABB F :=
  mkAABB (Glm.min (min a) point) (Glm.max (max a) point).

Definition expandToIncludeAABB (a other : AABB F) : AABB F :=
  mkAABB (Glm.min (min a) (min other)) (Glm.max (max a) (max other)).

End CollisionTypes.

Module Collision.
Section WithScalar.
Context {F : Type} `{Scalar F}.

Definition testAABBvsAABB (a b : AABB F) : bool :=
  if (Glm.x (max a) <? Glm.x (min b))%s || (Glm.x (min a) >? Glm.x (max b))%s then false
  else if (Glm.y (max a) <? Glm.y (min b))%s || (Glm.y (min a) >? Glm.y (max b))%s then false
  else if (Glm.z (max a) <? Glm.z (min b))%s || (Glm.z (min a) >? Glm.z (max b))%s then false
  else true.

(** The three per-axis overlaps of [testAABBvsAABBResponse]. *)
Definition overlapX (a b : AABB F) : F :=
  Std.min (Glm.x (max a) - Glm.x (min b))%s (Glm.x (max b) - Glm.x (min a))%s.
Definition overlapY (a b : AABB F) : F :=
  Std.min (Glm.y (max a) - Glm.y (min b))%s (Glm.y (max b) - Glm.y (min a))%s.
Definition overlapZ (a b : AABB F) : F :=
  Std.min (Glm.z (max a) - Glm.z (min b))%s (Glm.z (max b) - Glm.z (min a))%s.

Definition testAABBvsAABBResponse (a b : AABB F) : CollisionResult F :=
  let result := CollisionResult_init in
  if negb (testAABBvsAABB a b) then result
  else
    let m1 := s_lit (-1) 1 in
    let o := s_lit 0 1 in
    let p1 := s_lit 1 1 in
    let overlapX := overlapX a b in
    let overlapY := overlapY a b in
    let overlapZ := overlapZ a b in
    let '(pen, nrm) :=
      if (overlapX <=? overlapY)%s && (overlapX <=? overlapZ)%s then
        (overlapX,
         if (Glm.x (getCenter a) <? Glm.x (getCenter b))%s
         then Glm.mkVec3 m1 o o else Glm.mkVec3 p1 o o)
      else if (overlapY <=? overlapX)%s && (overlapY <=? overlapZ)%s then
        (overlapY,
         if (Glm.y (getCenter a) <? Glm.y (getCenter b))%s
         then Glm.mkVec3 o m1 o else Glm.mkVec3 o p1 o)
      else
        (overlapZ,
         if (Glm.z (getCenter a) <? Glm.z (getCenter b))%s
         then Glm.mkVec3 o o m1 else Glm.mkVec3 o o p1) in
    mkCollisionResult true
      (Glm.scale (Glm.add (Glm.max (min a) (min b)) (Glm.min (max a) (max b))) (s_lit 1 2))
      nrm pen.

(** [resolveAABBCollision]: the displacement pushing [a] out of [b]. *)
Definition resolveAABBCollision (a b : AABB F) : Glm.vec3 F :=
  let result := testAABBvsAABBResponse a b in
  if negb (hit result) then Glm.splat (s_lit 0 1)
  else Glm.scale (normal result) (penetration result).

(** [closestPointOnAABB] *)
Definition closestPointOnAABB (box : AABB F) (point : Glm.vec3 F) : Glm.vec3 F :=
  Glm.clamp point (min box) (max box).

End WithScalar.

(** [Ray]; the constructor [Ray(origin, direction)] normalises the
    direction. *)
Record Ray : Type := mkRay {
  origin : Glm.vec3 F32.float;
  direction : Glm.vec3 F32.float }.

Definition Ray_init (origin direction : Glm.vec3 F32.float) : Ray :=
  mkRay origin (Glm.normalize direction).

(** One turn of the loop of [testRayVsAABB], for the axis [i]; the state is
    [tmin] and [tmax], and [None] is [return false]. *)
Definition slab (ray : Ray) (box : AABB F32.float) (st : F32.float * F32.float) (i : nat)
  : option (F32.float * F32.float) :=
  let '(tmin, tmax) := st in
  if F32.ltb (F32.abs (Glm.component (direction ray) i)) (F32.lit 1 10000) then
    if F32.ltb (Glm.component (origin ray) i) (Glm.component (min box) i)
       || F32.gtb (Glm.component (origin ray) i) (Glm.component (max box) i)
    then None
    else Some (tmin, tmax)
  else
    let ood := F32.div (F32.lit 1 1) (Glm.component (direction ray) i) in
    let t1 := F32.mul (F32.sub (Glm.component (min box) i) (Glm.component (origin ray) i)) ood in
    let t2 := F32.mul (F32.sub (Glm.component (max box) i) (Glm.component (origin ray) i)) ood in
    let '(t1, t2) := if F32.gtb t1 t2 then (t2, t1) else (t1, t2) in
    let tmin := Std.max tmin t1 in
    let tmax := Std.min tmax t2 in
    if F32.gtb tmin tmax then None else Some (tmin, tmax).

(** [testRayVsAABB]: [Some t] is [return true] with [t] written, [None] is
    [return false] ([t] is then left alone). *)
Definition testRayVsAABB (ray : Ray) (box : AABB F32.float) : option F32.float :=
  match fold_left (fun st i => match st with Some s => slab ray box s i | None => None end)
                  [0; 1; 2]%nat (Some (F32.lit 0 1, F32.FLT_MAX)) with
  | Some (tmin, _) => Some tmin
  | None => None
  end.

End Collision.

Module CollisionWorld.
Section WithScalar.
Context {F : Type} `{Scalar F}.

(** The world is its vector [m_staticBoxes], in insertion order. *)
Definition t : Type := list (AABB F).

(** [addStaticAABB]: [push_back], returns the index of the new box. *)
Definition addStaticAABB (w : t) (box : AABB F) : t * nat :=
  (w ++ [box], List.length w).

(** [clear] *)
Definition clear (w : t) : t := [].

(** One turn of the loop of [testAgainstStatic]. *)
Definition deeper (movingBox : AABB F) (deepest : CollisionResult F) (staticBox : AABB F)
  : CollisionResult F :=
  let result := Collision.testAABBvsAABBResponse movingBox staticBox in
  if hit result && (penetration result >? penetration deepest)%s then result else deepest.

Definition testAgainstStatic (w : t) (movingBox : AABB F) : CollisionResult F :=
  let deepest := CollisionResult_init in
  let deepest := mkCollisionResult (hit deepest) (point deepest) (normal deepest) (s_lit 0 1) in
  fold_left (deeper movingBox) w deepest.

(** The loop of [resolveCollisions] with [n] iterations left; the state is
    [resolvedPos] and [testBox]. *)
Fixpoint resolveLoop (n : nat) (w : t) (resolvedPos : Glm.vec3 F) (testBox : AABB F)
  : Glm.vec3 F * AABB F :=
  match n with
  | O => (resolvedPos, testBox)
  | S n' =>
      let result := testAgainstStatic w testBox in
      if negb (hit result) then (resolvedPos, testBox)
      else
        let push := Glm.scale (normal result) (penetration result + s_lit 1 1000)%s in
        resolveLoop n' w (Glm.add resolvedPos push) (translated testBox push)
  end.

Definition resolveCollisions (w : t) (movingBox : AABB F) (currentPos : Glm.vec3 F)
  : Glm.vec3 F :=
  fst (resolveLoop 4 w currentPos movingBox).

(** The test box the loop of [resolveCollisions] ends with. *)
Definition resolvedBox (w : t) (movingBox : AABB F) (currentPos : Glm.vec3 F) : AABB F :=
  snd (resolveLoop 4 w currentPos movingBox).

End WithScalar.

(** One turn of the loop of [raycast], for the box [box] at the index [i];
    the state is [hitT], [hitIndex] and [anyHit]. *)
Definition nearer (ray : Collision.Ray) (st : F32.float * nat * bool)
                  (ib : nat * AABB F32.float) : F32.float * nat * bool :=
  match Collision.testRayVsAABB ray (snd ib) with
  | Some t =>
      if F32.ltb t (fst (fst st)) && F32.geb t (F32.lit 0 1) then (t, fst ib, true) else st
  | None => st
  end.

(** [raycast]: what it returns, then [hitT] and [hitIndex] after the call;
    [hitIndex] is the caller's variable, written on a hit only. *)
Definition raycast (w : list (AABB F32.float)) (ray : Collision.Ray)
                   (maxDistance : F32.float) (hitIndex : nat) : bool * F32.float * nat :=
  let st := fold_left (nearer ray) (combine (seq 0 (List.length w)) w)
                      (maxDistance, hitIndex, false) in
  (snd st, fst (fst st), snd (fst st)).

End CollisionWorld.

(** ** The words of the specification: collision *)

Inductive Axis : Type := AxisX | AxisY | AxisZ.

(** The priority order of the axes: X, then Y, then Z. *)
Definition priority (k : Axis) : nat :=
  match k with AxisX => 0%nat | AxisY => 1%nat | AxisZ => 2%nat end.

Definition coord {F : Type} (k : Axis) (v : Glm.vec3 F) : F :=
  match k with AxisX => Glm.x v | AxisY => Glm.y v | AxisZ => Glm.z v end.

Section CollisionWords.
Context {F : Type} `{Scalar F}.

(** The overlap on one axis: [min(aMax - bMin, bMax - aMin)]. *)
Definition axisOverlap (a b : AABB F) (k : Axis) : F :=
  Std.min (coord k (max a) - coord k (min b))%s (coord k (max b) - coord k (min a))%s.

(** [k] is the axis of smallest overlap, the first one in priority order
    on ties: no axis has a smaller overlap and every axis before [k] has a
    greater one. *)
Definition smallestOverlapAxis (a b : AABB F) (k : Axis) : Prop :=
  (forall j, (axisOverlap a b k <=? axisOverlap a b j)%s = true) /\
  (forall j, (priority j < priority k)%nat ->
             (axisOverlap a b k <? axisOverlap a b j)%s = true).

(** The axis the chain of comparisons of [testAABBvsAABBResponse] arrives at,
    from the three overlaps. *)
Definition pickAxis (overlapX overlapY overlapZ : F) : Axis :=
  if (overlapX <=? overlapY)%s && (overlapX <=? overlapZ)%s then AxisX
  else if (overlapY <=? overlapX)%s && (overlapY <=? overlapZ)%s then AxisY
  else AxisZ.

(** The vector with [s] on axis [k] and zero elsewhere. *)
Definition alongAxis (k : Axis) (s : F) : Glm.vec3 F :=
  let o := s_lit 0 1 in
  match k with
  | AxisX => Glm.mkVec3 s o o
  | AxisY => Glm.mkVec3 o s o
  | AxisZ => Glm.mkVec3 o o s
  end.

(** The centre of a box on the axis [k], as the specification has it: half
    the sum of its two corners on that axis, [(min + max) * 0.5]. *)
Definition centreOn (a : AABB F) (k : Axis) : F :=
  ((coord k (min a) + coord k (max a)) * s_lit 1 2)%s.

(** The unit normal along [k] that pushes [a] away from the centre of [b]:
    negative when the centre of [a] is below the centre of [b] on that axis,
    positive otherwise. *)
Definition awayNormal (a b : AABB F) (k : Axis) : Glm.vec3 F :=
  if (centreOn a k <? centreOn b k)%s
  then alongAxis k (s_lit (-1) 1) else alongAxis k (s_lit 1 1).

(** The midpoint of the intersection region:
    [(max(aMin, bMin) + min(aMax, bMax)) * 0.5]. *)
Definition overlapMidpoint (a b : AABB F) : Glm.vec3 F :=
  Glm.scale (Glm.add (Glm.max (min a) (min b)) (Glm.min (max a) (max b))) (s_lit 1 2).

End CollisionWords.

(** The pairwise result of the moving box [a] against the static box [b]. *)
Definition pairwise {F : Type} `{Scalar F} (a b : AABB F) : CollisionResult F :=
  Collision.testAABBvsAABBResponse a b.

(** The claim on [testAgainstStatic] as the specification words it: the answer
    is the pairwise result of the overlapping static box of greatest
    penetration, the earlier box on a tie, and a non-hit of penetration 0 when
    no static box overlaps. *)
Definition deepestOverlapAsStated {F : Type} `{Scalar F} (w : list (AABB F)) (a : AABB F)
  : Prop :=
  (forall k b,
      nth_error w k = Some b ->
      Collision.testAABBvsAABB a b = true ->
      (forall j c, nth_error w j = Some c -> Collision.testAABBvsAABB a c = true ->
                   (penetration (pairwise a c) <=? penetration (pairwise a b))%s = true) ->
      (forall j c, (j < k)%nat -> nth_error w j = Some c ->
                   Collision.testAABBvsAABB a c = true ->
                   (penetration (pairwise a c) <? penetration (pairwise a b))%s = true) ->
      CollisionWorld.testAgainstStatic w a = pairwise a b) /\
  ((forall b, In b w -> Collision.testAABBvsAABB a b = false) ->
   hit (CollisionWorld.testAgainstStatic w a) = false /\
   penetration (CollisionWorld.testAgainstStatic w a) = s_lit 0 1).

(** What [testAgainstStatic] does: only a static box whose pairwise
    penetration is strictly positive counts.  Either no static box overlaps
    with positive penetration and the answer is the initial non-hit, or the
    answer is the pairwise result of the box at some index [k], which overlaps
    with positive penetration, no overlapping box has a greater penetration,
    and none before [k] has one as great. *)
Definition deepestPositiveOverlap {F : Type} `{Scalar F} (w : list (AABB F)) (a : AABB F)
  : Prop :=
  let r := CollisionWorld.testAgainstStatic w a in
  ((forall b, In b w ->
       Collision.testAABBvsAABB a b = true ->
       (s_lit 0 1 <? penetration (pairwise a b))%s = false) /\
   r = CollisionResult_init)
  \/
  (exists k b,
      nth_error w k = Some b /\
      r = pairwise a b /\
      Collision.testAABBvsAABB a b = true /\
      (s_lit 0 1 <? penetration r)%s = true /\
      (forall j c, nth_error w j = Some c -> Collision.testAABBvsAABB a c = true ->
                   (penetration r <? penetration (pairwise a c))%s = false) /\
      (forall j c, (j < k)%nat -> nth_error w j = Some c ->
                   Collision.testAABBvsAABB a c = true ->
                   (penetration r <=? penetration (pairwise a c))%s = false)).

(** The displacement [resolveCollisions] applies for a hit:
    [normal * (penetration + 0.001f)]. *)
Definition pushOf {F : Type} `{Scalar F} (r : CollisionResult F) : Glm.vec3 F :=
  Glm.scale (normal r) (penetration r + s_lit 1 1000)%s.

(** [pushesFrom w box ps]: [ps] are successive displacements of [box], each
    one the displacement for the deepest hit of the box as displaced so far,
    which is a hit. *)
Inductive pushesFrom {F : Type} `{Scalar F} (w : list (AABB F))
  : AABB F -> list (Glm.vec3 F) -> Prop :=
| pushes_nil : forall box, pushesFrom w box []
| pushes_cons : forall box ps,
    hit (CollisionWorld.testAgainstStatic w box) = true ->
    pushesFrom w (translated box (pushOf (CollisionWorld.testAgainstStatic w box))) ps ->
    pushesFrom w box (pushOf (CollisionWorld.testAgainstStatic w box) :: ps).

(** The convergence claim as the specification words it, for one wall: a
    moving box that overlaps the wall no longer overlaps it once resolved. *)
Definition separatedAsStated {F : Type} `{Scalar F} (wall a : AABB F) (pos : Glm.vec3 F)
  : Prop :=
  Collision.testAABBvsAABB a wall = true ->
  Collision.testAABBvsAABB (CollisionWorld.resolvedBox [wall] a pos) wall = false.

(** A vector, a box of finite floats (no NaN, no infinity). *)
Definition finiteVec (v : Glm.vec3 F32.float) : Prop :=
  F32.is_finite (Glm.x v) = true /\ F32.is_finite (Glm.y v) = true /\
  F32.is_finite (Glm.z v) = true.
Definition finiteBox (a : AABB F32.float) : Prop := finiteVec (min a) /\ finiteVec (max a).

(** Vectors and boxes from decimal literals. *)
Definition vec3f (a b c : Z * positive) : Glm.vec3 F32.float :=
  Glm.mkVec3 (F32.lit (fst a) (snd a)) (F32.lit (fst b) (snd b)) (F32.lit (fst c) (snd c)).
Definition vec3i (a b c : Z) : Glm.vec3 F32.float :=
  Glm.mkVec3 (F32.of_Z a) (F32.of_Z b) (F32.of_Z c).

(** ** The numbers of [SpecFloat]

    What the proofs about rounding speak of: the rational value of a float,
    canonical finite floats, and the relation between an exact number and
    the float an operation returns for it. *)

(** [2^e] as a rational, for any integer [e]. *)
Definition pow2Q (e : Z) : Q := (2 ^ e)%Q.

(** The rational value of a finite float (0 for the others). *)
Definition Fval (x : spec_float) : Q :=
  match x with
  | S754_finite s m e => inject_Z (cond_Zopp s (Zpos m)) * pow2Q e
  | _ => 0
  end.

(** A zero or a finite number. *)
Definition SFfinite (x : spec_float) : bool :=
  match x with S754_zero _ | S754_finite _ _ _ => true | _ => false end.

(** What a shift record holds of the number [M] after [k] shifts. *)
Definition shr_inv (M k : Z) (r : shr_record) : Prop :=
  0 <= shr_m r /\
  exists rem, 0 <= rem < 2 ^ k /\ M = shr_m r * 2 ^ k + rem /\
    (shr_r r = true <-> 2 ^ k <= 2 * rem) /\
    (shr_s r = true <-> rem <> 0 /\ 2 * rem <> 2 ^ k).

(** The float of sign [s], mantissa [m2] and exponent [e2] that
    [binary_round_aux] ends with, in the format of precision [prec] and
    greatest exponent [emax]. *)
Definition SFbuild (prec emax : Z) (s : bool) (m2 e2 : Z) : spec_float :=
  match m2 with
  | Z0 => S754_zero s
  | Zpos p => if e2 <=? emax - prec then S754_finite s p e2 else S754_infinity s
  | Zneg _ => S754_nan
  end.

(** A float of the format: a zero or a finite number in canonical form. *)
Definition SFfin (prec emax : Z) (x : spec_float) : Prop :=
  SFfinite x = true /\ valid_binary prec emax x = true.

(** [SFrounded prec emax t r]: the number [r] is the exact number [t]
    rounded: within [2^-prec] of its own magnitude of [t], or within half
    the smallest positive number of the format. *)
Definition SFrounded (prec emax : Z) (t r : Q) : Prop :=
  (inject_Z (2 ^ prec) * Qabs (r - t) <= Qabs r)%Q \/
  (Qabs (r - t) <= pow2Q (SpecFloat.emin prec emax - 1))%Q.

(** The same without underflow. *)
Definition SFroundedRel (prec : Z) (t r : Q) : Prop :=
  (inject_Z (2 ^ prec) * Qabs (r - t) <= Qabs r)%Q.

(** ** binary32 numbers in range *)

(** A binary32 number in canonical form that is a zero or finite. *)
Definition fin32 (x : F32.float) : Prop := SFfin 24 128 x.

(** A binary32 number in canonical form of magnitude at most [R], and
    vectors and boxes of such numbers.  (A C++ [float] is always in
    canonical form; the type [spec_float] has other representations of the
    same numbers, which the comparisons do not order.) *)
Definition within (R : Z) (x : F32.float) : Prop :=
  valid_binary 24 128 x = true /\ F32.leb (F32.abs x) (F32.of_Z R) = true.
Definition vecWithin (R : Z) (v : Glm.vec3 F32.float) : Prop :=
  within R (Glm.x v) /\ within R (Glm.y v) /\ within R (Glm.z v).
Definition boxWithin (R : Z) (a : AABB F32.float) : Prop :=
  vecWithin R (min a) /\ vecWithin R (max a).

(** The box [a] is strictly inside the box [b], by the comparisons of
    binary32. *)
Definition strictlyInside (a b : AABB F32.float) : Prop :=
  F32.ltb (Glm.x (min b)) (Glm.x (min a)) = true /\
  F32.leb (Glm.x (min a)) (Glm.x (max a)) = true /\
  F32.ltb (Glm.x (max a)) (Glm.x (max b)) = true /\
  F32.ltb (Glm.y (min b)) (Glm.y (min a)) = true /\
  F32.leb (Glm.y (min a)) (Glm.y (max a)) = true /\
  F32.ltb (Glm.y (max a)) (Glm.y (max b)) = true /\
  F32.ltb (Glm.z (min b)) (Glm.z (min a)) = true /\
  F32.leb (Glm.z (min a)) (Glm.z (max a)) = true /\
  F32.ltb (Glm.z (max a)) (Glm.z (max b)) = true.


(** ** Camera.h / Camera.cpp *)

Module Camera.

Inductive CameraMode : Type := FREE_ROAM | ORBIT | DRIVER_SEAT.

Record t : Type := mk {
  m_position : Glm.vec3 F32.float;
  m_front : Glm.vec3 F32.float;
  m_up : Glm.vec3 F32.float;
  m_right : Glm.vec3 F32.float;
  m_worldUp : Glm.vec3 F32.float;
  m_yaw : F32.float;
  m_pitch : F32.float;
  m_movementSpeed : F32.float;
  m_mouseSensitivity : F32.float;
  m_fov : F32.float;
  m_nearPlane : F32.float;
  m_farPlane : F32.float;
  m_mode : CameraMode;
  m_orbitTarget : Glm.vec3 F32.float;
  m_orbitRadius : F32.float;
  m_orbitYaw : F32.float;
  m_orbitPitch : F32.float;
  m_driverSeatPosition : Glm.vec3 F32.float;
  m_driverSeatYawLimit : F32.float;
  m_driverSeatPitchLimit : F32.float }.

(** Assignments to the members. *)
Definition set_position (c : t) (v_position : Glm.vec3 F32.float) : t :=
  mk v_position (m_front c) (m_up c) (m_right c) (m_worldUp c) (m_yaw c) (m_pitch c)
     (m_movementSpeed c) (m_mouseSensitivity c) (m_fov c) (m_nearPlane c) (m_farPlane c)
     (m_mode c) (m_orbitTarget c) (m_orbitRadius c) (m_orbitYaw c) (m_orbitPitch c)
     (m_driverSeatPosition c) (m_driverSeatYawLimit c) (m_driverSeatPitchLimit c) .
Definition set_axes (c : t)
    (v_front : Glm.vec3 F32.float) (v_right : Glm.vec3 F32.float) (v_up : Glm.vec3 F32.float) : t :=
  mk (m_position c) v_front v_up v_right (m_worldUp c) (m_yaw c) (m_pitch c)
     (m_movementSpeed c) (m_mouseSensitivity c) (m_fov c) (m_nearPlane c) (m_farPlane c)
     (m_mode c) (m_orbitTarget c) (m_orbitRadius c) (m_orbitYaw c) (m_orbitPitch c)
     (m_driverSeatPosition c) (m_driverSeatYawLimit c) (m_driverSeatPitchLimit c) .
Definition set_yaw (c : t) (v_yaw : F32.float) : t :=
  mk (m_position c) (m_front c) (m_up c) (m_right c) (m_worldUp c) v_yaw (m_pitch c)
     (m_movementSpeed c) (m_mouseSensitivity c) (m_fov c) (m_nearPlane c) (m_farPlane c)
     (m_mode c) (m_orbitTarget c) (m_orbitRadius c) (m_orbitYaw c) (m_orbitPitch c)
     (m_driverSeatPosition c) (m_driverSeatYawLimit c) (m_driverSeatPitchLimit c) .
Definition set_pitch (c : t) (v_pitch : F32.float) : t :=
  mk (m_position c) (m_front c) (m_up c) (m_right c) (m_worldUp c) (m_yaw c) v_pitch
     (m_movementSpeed c) (m_mouseSensitivity c) (m_fov c) (m_nearPlane c) (m_farPlane c)
     (m_mode c) (m_orbitTarget c) (m_orbitRadius c) (m_orbitYaw c) (m_orbitPitch c)
     (m_driverSeatPosition c) (m_driverSeatYawLimit c) (m_driverSeatPitchLimit c) .
Definition set_fov (c : t) (v_fov : F32.float) : t :=
  mk (m_position c) (m_front c) (m_up c) (m_right c) (m_worldUp c) (m_yaw c) (m_pitch c)
     (m_movementSpeed c) (m_mouseSensitivity c) v_fov (m_nearPlane c) (m_farPlane c)
     (m_mode c) (m_orbitTarget c) (m_orbitRadius c) (m_orbitYaw c) (m_orbitPitch c)
     (m_driverSeatPosition c) (m_driverSeatYawLimit c) (m_driverSeatPitchLimit c) .
Definition set_clip (c : t) (v_nearPlane : F32.float) (v_farPlane : F32.float) : t :=
  mk (m_position c) (m_front c) (m_up c) (m_right c) (m_worldUp c) (m_yaw c) (m_pitch c)
     (m_movementSpeed c) (m_mouseSensitivity c) (m_fov c) v_nearPlane v_farPlane (m_mode c)
     (m_orbitTarget c) (m_orbitRadius c) (m_orbitYaw c) (m_orbitPitch c)
     (m_driverSeatPosition c) (m_driverSeatYawLimit c) (m_driverSeatPitchLimit c) .
Definition set_mode (c : t) (v_mode : CameraMode) : t :=
  mk (m_position c) (m_front c) (m_up c) (m_right c) (m_worldUp c) (m_yaw c) (m_pitch c)
     (m_movementSpeed c) (m_mouseSensitivity c) (m_fov c) (m_nearPlane c) (m_farPlane c)
     v_mode (m_orbitTarget c) (m_orbitRadius c) (m_orbitYaw c) (m_orbitPitch c)
     (m_driverSeatPosition c) (m_driverSeatYawLimit c) (m_driverSeatPitchLimit c) .
Definition set_orbitTarget (c : t) (v_orbitTarget : Glm.vec3 F32.float) : t :=
  mk (m_position c) (m_front c) (m_up c) (m_right c) (m_worldUp c) (m_yaw c) (m_pitch c)
     (m_movementSpeed c) (m_mouseSensitivity c) (m_fov c) (m_nearPlane c) (m_farPlane c)
     (m_mode c) v_orbitTarget (m_orbitRadius c) (m_orbitYaw c) (m_orbitPitch c)
     (m_driverSeatPosition c) (m_driverSeatYawLimit c) (m_driverSeatPitchLimit c) .
Definition set_orbitRadius (c : t) (v_orbitRadius : F32.float) : t :=
  mk (m_position c) (m_front c) (m_up c) (m_right c) (m_worldUp c) (m_yaw c) (m_pitch c)
     (m_movementSpeed c) (m_mouseSensitivity c) (m_fov c) (m_nearPlane c) (m_farPlane c)
     (m_mode c) (m_orbitTarget c) v_orbitRadius (m_orbitYaw c) (m_orbitPitch c)
     (m_driverSeatPosition c) (m_driverSeatYawLimit c) (m_driverSeatPitchLimit c) .
Definition set_orbitYaw (c : t) (v_orbitYaw : F32.float) : t :=
  mk (m_position c) (m_front c) (m_up c) (m_right c) (m_worldUp c) (m_yaw c) (m_pitch c)
     (m_movementSpeed c) (m_mouseSensitivity c) (m_fov c) (m_nearPlane c) (m_farPlane c)
     (m_mode c) (m_orbitTarget c) (m_orbitRadius c) v_orbitYaw (m_orbitPitch c)
     (m_driverSeatPosition c) (m_driverSeatYawLimit c) (m_driverSeatPitchLimit c) .
Definition set_orbitPitch (c : t) (v_orbitPitch : F32.float) : t :=
  mk (m_position c) (m_front c) (m_up c) (m_right c) (m_worldUp c) (m_yaw c) (m_pitch c)
     (m_movementSpeed c) (m_mouseSensitivity c) (m_fov c) (m_nearPlane c) (m_farPlane c)
     (m_mode c) (m_orbitTarget c) (m_orbitRadius c) (m_orbitYaw c) v_orbitPitch
     (m_driverSeatPosition c) (m_driverSeatYawLimit c) (m_driverSeatPitchLimit c) .
Definition set_movementSpeed (c : t) (v_movementSpeed : F32.float) : t :=
  mk (m_position c) (m_front c) (m_up c) (m_right c) (m_worldUp c) (m_yaw c) (m_pitch c)
     v_movementSpeed (m_mouseSensitivity c) (m_fov c) (m_nearPlane c) (m_farPlane c)
     (m_mode c) (m_orbitTarget c) (m_orbitRadius c) (m_orbitYaw c) (m_orbitPitch c)
     (m_driverSeatPosition c) (m_driverSeatYawLimit c) (m_driverSeatPitchLimit c) .
Definition set_mouseSensitivity (c : t) (v_mouseSensitivity : F32.float) : t :=
  mk (m_position c) (m_front c) (m_up c) (m_right c) (m_worldUp c) (m_yaw c) (m_pitch c)
     (m_movementSpeed c) v_mouseSensitivity (m_fov c) (m_nearPlane c) (m_farPlane c)
     (m_mode c) (m_orbitTarget c) (m_orbitRadius c) (m_orbitYaw c) (m_orbitPitch c)
     (m_driverSeatPosition c) (m_driverSeatYawLimit c) (m_driverSeatPitchLimit c) .

Definition lit (n : Z) : F32.float := F32.lit n 1.

Section WithLibm.
Context `{Libm}.

(** [cos(x)] and [sin(x)] for a [float] [x] in Camera.cpp.  The file includes
    [<cmath>] and has no using-directive, and the calls are not qualified:
    they are calls of the C functions [double cos(double)] and
    [double sin(double)] on the argument converted to [double], and their
    value is a [double]. *)
Definition cos (x : F32.float) : F64.float := c_cos (F64.of_F32 x).
Definition sin (x : F32.float) : F64.float := c_sin (F64.of_F32 x).

(** [updateCameraVectors]: the front vector from yaw and pitch, then right
    and up.  The products of the front vector are products of [double]s,
    rounded when they are stored in the [float]s of [front]. *)
Definition updateCameraVectors (c : t) : t :=
  let front :=
    Glm.mkVec3
      (F64.to_F32 (F64.mul (cos (Glm.radians (m_yaw c))) (cos (Glm.radians (m_pitch c)))))
      (F64.to_F32 (sin (Glm.radians (m_pitch c))))
      (F64.to_F32 (F64.mul (sin (Glm.radians (m_yaw c))) (cos (Glm.radians (m_pitch c))))) in
  let front := Glm.normalize front in
  let right := Glm.normalize (Glm.cross front (m_worldUp c)) in
  let up := Glm.normalize (Glm.cross right front) in
  set_axes c front right up.

(** [updateOrbitPosition]: the position on the sphere around the target, then
    the axes looking at the target.  [pitchRad] and [yawRad] are [float]s;
    in [m_orbitRadius * cos(pitchRad) * cos(yawRad)] the radius is converted
    to [double], the two products are products of [double]s, from left to
    right, and the result is rounded when it is stored in the [float]
    [offset.x]; the same for [offset.y] and [offset.z]. *)
Definition updateOrbitPosition (c : t) : t :=
  let pitchRad := Glm.radians (m_orbitPitch c) in
  let yawRad := Glm.radians (m_orbitYaw c) in
  let offset :=
    Glm.mkVec3
      (F64.to_F32 (F64.mul (F64.mul (F64.of_F32 (m_orbitRadius c)) (cos pitchRad)) (cos yawRad)))
      (F64.to_F32 (F64.mul (F64.of_F32 (m_orbitRadius c)) (sin pitchRad)))
      (F64.to_F32 (F64.mul (F64.mul (F64.of_F32 (m_orbitRadius c)) (cos pitchRad)) (sin yawRad))) in
  let c := set_position c (Glm.add (m_orbitTarget c) offset) in
  let front := Glm.normalize (Glm.sub (m_orbitTarget c) (m_position c)) in
  let right := Glm.normalize (Glm.cross front (m_worldUp c)) in
  let up := Glm.normalize (Glm.cross right front) in
  set_axes c front right up.

(** [Camera()] *)
Definition init : t :=
  updateCameraVectors
    (mk (vec3f (0, 1%positive) (2, 1%positive) (5, 1%positive))
        (vec3i 0 0 (-1)) (vec3i 0 1 0) (vec3i 1 0 0) (vec3i 0 1 0)
        (lit (-90)) (lit 0) (lit 5) (F32.lit 1 10) (lit 45) (F32.lit 1 10) (lit 100)
        FREE_ROAM (Glm.splat (lit 0)) (lit 5) (lit 0) (lit 20)
        (vec3f (0, 1%positive) (1, 1%positive) (1, 2%positive)) (lit 120) (lit 45)).

(** [setMode] *)
Definition setMode (c : t) (mode : CameraMode) : t :=
  let c := set_mode c mode in
  match mode with
  | FREE_ROAM => c
  | ORBIT => updateOrbitPosition c
  | DRIVER_SEAT =>
      let c := set_position c (m_driverSeatPosition c) in
      let c := set_yaw c (lit (-90)) in
      let c := set_pitch c (lit 0) in
      updateCameraVectors c
  end.

(** [setOrbitTarget] *)
Definition setOrbitTarget (c : t) (target : Glm.vec3 F32.float) : t :=
  let c := set_orbitTarget c target in
  match m_mode c with
  | ORBIT => updateOrbitPosition c
  | _ => c
  end.

(** [processKeyboard] *)
Definition processKeyboard (c : t) (forward right up deltaTime : F32.float) : t :=
  let velocity := F32.mul (m_movementSpeed c) deltaTime in
  match m_mode c with
  | FREE_ROAM =>
      let c := set_position c
                 (Glm.add (m_position c) (Glm.scale (Glm.scale (m_front c) forward) velocity)) in
      let c := set_position c
                 (Glm.add (m_position c) (Glm.scale (Glm.scale (m_right c) right) velocity)) in
      set_position c
        (Glm.add (m_position c) (Glm.scale (Glm.scale (m_worldUp c) up) velocity))
  | ORBIT =>
      let c := set_orbitYaw c
                 (F32.add (m_orbitYaw c) (F32.mul (F32.mul right velocity) (lit 20))) in
      let c := set_orbitPitch c
                 (F32.add (m_orbitPitch c) (F32.mul (F32.mul up velocity) (lit 20))) in
      let c := set_orbitPitch c (Std.clamp (m_orbitPitch c) (lit (-80)) (lit 80)) in
      let c := set_orbitRadius c
                 (F32.sub (m_orbitRadius c) (F32.mul (F32.mul forward velocity) (lit 2))) in
      let c := set_orbitRadius c (Std.clamp (m_orbitRadius c) (lit 2) (lit 20)) in
      updateOrbitPosition c
  | DRIVER_SEAT => c
  end.

(** [processMouseMovement] *)
Definition processMouseMovement (c : t) (xoffset yoffset : F32.float) (constrainPitch : bool)
  : t :=
  let xoffset := F32.mul xoffset (m_mouseSensitivity c) in
  let yoffset := F32.mul yoffset (m_mouseSensitivity c) in
  match m_mode c with
  | FREE_ROAM =>
      let c := set_yaw c (F32.add (m_yaw c) xoffset) in
      let c := set_pitch c (F32.add (m_pitch c) yoffset) in
      let c := if constrainPitch
               then set_pitch c (Std.clamp (m_pitch c) (lit (-89)) (lit 89))
               else c in
      updateCameraVectors c
  | ORBIT =>
      let c := set_orbitYaw c (F32.sub (m_orbitYaw c) xoffset) in
      let c := set_orbitPitch c (F32.add (m_orbitPitch c) yoffset) in
      let c := set_orbitPitch c (Std.clamp (m_orbitPitch c) (lit (-80)) (lit 80)) in
      updateOrbitPosition c
  | DRIVER_SEAT =>
      let c := set_yaw c (F32.add (m_yaw c) xoffset) in
      let c := set_pitch c (F32.add (m_pitch c) yoffset) in
      let c := set_yaw c (Std.clamp (m_yaw c)
                            (F32.sub (lit (-90)) (m_driverSeatYawLimit c))
                            (F32.add (lit (-90)) (m_driverSeatYawLimit c))) in
      let c := set_pitch c (Std.clamp (m_pitch c)
                              (F32.neg (m_driverSeatPitchLimit c))
                              (m_driverSeatPitchLimit c)) in
      updateCameraVectors c
  end.

(** [processMouseScroll] *)
Definition processMouseScroll (c : t) (yoffset : F32.float) : t :=
  match m_mode c with
  | FREE_ROAM =>
      let c := set_fov c (F32.sub (m_fov c) yoffset) in
      set_fov c (Std.clamp (m_fov c) (lit 1) (lit 90))
  | ORBIT =>
      let c := set_orbitRadius c (F32.sub (m_orbitRadius c) (F32.mul yoffset (F32.lit 1 2))) in
      let c := set_orbitRadius c (Std.clamp (m_orbitRadius c) (lit 2) (lit 20)) in
      updateOrbitPosition c
  | DRIVER_SEAT =>
      let c := set_fov c (F32.sub (m_fov c) yoffset) in
      set_fov c (Std.clamp (m_fov c) (lit 30) (lit 60))
  end.

(** [setYaw], [setPitch], [setFOV], [setClipPlanes], [setOrbitRadius] *)
Definition setYaw (c : t) (yaw : F32.float) : t :=
  updateCameraVectors (set_yaw c yaw).

Definition setPitch (c : t) (pitch : F32.float) : t :=
  updateCameraVectors (set_pitch c (Std.clamp pitch (lit (-89)) (lit 89))).

Definition setFOV (c : t) (fov : F32.float) : t :=
  set_fov c (Std.clamp fov (lit 1) (lit 120)).

Definition setClipPlanes (c : t) (near far : F32.float) : t := set_clip c near far.

Definition setOrbitRadius (c : t) (radius : F32.float) : t :=
  let c := set_orbitRadius c (Std.clamp radius (lit 1) (lit 50)) in
  match m_mode c with
  | ORBIT => updateOrbitPosition c
  | _ => c
  end.

(** A run of mouse movements with the pitch constraint on. *)
Definition mouseMoves (c : t) (deltas : list (F32.float * F32.float)) : t :=
  fold_left (fun c d => processMouseMovement c (fst d) (snd d) true) deltas c.

End WithLibm.

(** The inputs the application forwards to the camera:
    [processKeyboard], [processMouseMovement], [processMouseScroll]. *)
Inductive input : Type :=
| Keyboard (forward right up deltaTime : F32.float)
| MouseMovement (xoffset yoffset : F32.float) (constrainPitch : bool)
| MouseScroll (yoffset : F32.float).

Definition handle `{Libm} (c : t) (i : input) : t :=
  match i with
  | Keyboard forward rightward up deltaTime =>
      processKeyboard c forward rightward up deltaTime
  | MouseMovement xoffset yoffset constrainPitch =>
      processMouseMovement c xoffset yoffset constrainPitch
  | MouseScroll yoffset => processMouseScroll c yoffset
  end.

(** A run of inputs. *)
Definition inputs `{Libm} (c : t) (l : list input) : t := fold_left handle l c.

(** An input of finite numbers. *)
Definition finiteInput (i : input) : Prop :=
  match i with
  | Keyboard forward rightward up deltaTime =>
      F32.is_finite forward = true /\ F32.is_finite rightward = true /\
      F32.is_finite up = true /\ F32.is_finite deltaTime = true
  | MouseMovement xoffset yoffset _ =>
      F32.is_finite xoffset = true /\ F32.is_finite yoffset = true
  | MouseScroll yoffset => F32.is_finite yoffset = true
  end.

(** A keyboard input whose velocity, [speed * deltaTime], does not
    overflow. *)
Definition steadyInput (speed : F32.float) (i : input) : Prop :=
  match i with
  | Keyboard _ _ _ deltaTime => F32.is_finite (F32.mul speed deltaTime) = true
  | _ => True
  end.

(** The view of the driver-seat camera is within the limits of the
    constructor, 120 degrees of yaw about -90 and 45 degrees of pitch. *)
Definition driverSeatView (c : t) : Prop :=
  F32.leb (lit (-210)) (m_yaw c) = true /\ F32.leb (m_yaw c) (lit 30) = true /\
  F32.leb (lit (-45)) (m_pitch c) = true /\ F32.leb (m_pitch c) (lit 45) = true.

(** The orbit camera is within the limits of its inputs: a pitch between -80
    and 80 degrees, a radius between 2 and 20. *)
Definition orbitInLimits (c : t) : Prop :=
  F32.leb (lit (-80)) (m_orbitPitch c) = true /\ F32.leb (m_orbitPitch c) (lit 80) = true /\
  F32.leb (lit 2) (m_orbitRadius c) = true /\ F32.leb (m_orbitRadius c) (lit 20) = true.

(** The words of the specification: the pitch is in the clamped range. *)
Definition pitchInRange (c : t) : Prop :=
  F32.leb (lit (-89)) (m_pitch c) = true /\ F32.leb (m_pitch c) (lit 89) = true.

(** The words of the specification for the orbit camera, on numbers.

    The radians of a degree, pi/180 with pi to 16 digits; [radiansOf deg a]:
    the [double] [a] is the angle of [deg] degrees in radians, to the
    precision of a [float]. *)
Definition degree : Q := ((3141592653589793 # 1000000000000000) / 180)%Q.

Definition radiansOf (deg : F32.float) (a : F64.float) : Prop :=
  SFfin 53 1024 a /\
  (Qabs (Fval a - Fval deg * degree)
   <= Qabs (Fval deg * degree) * pow2Q (-23) + pow2Q (-149))%Q.

(** [target + radius * (cos(pitch)*cos(yaw), sin(pitch), cos(pitch)*sin(yaw))]
    for the cosines and sines [cp], [sp], [cy], [sy] of the two angles. *)
Definition onSphere (target : Glm.vec3 Q) (radius cp sp cy sy : Q) : Glm.vec3 Q :=
  (Glm.mkVec3 (Glm.x target + radius * (cp * cy))
              (Glm.y target + radius * sp)
              (Glm.z target + radius * (cp * sy)))%Q.

(** The coordinate [p] of the camera is the coordinate [q] of the point of
    the sphere, to the precision of a [float]: within [2^-23] of the
    magnitudes of the coordinate [t] of the target and of twice the radius
    [r]. *)
Definition placed (t r : Q) (p : F32.float) (q : Q) : Prop :=
  fin32 p /\
  (Qabs (Fval p - q) <= (Qabs t + 2 * Qabs r) * pow2Q (-23) + pow2Q (-149))%Q.

(** A value of [cos] or [sin]: a [double] of magnitude at most 1. *)
Definition unit (v : F64.float) : Prop :=
  valid_binary 53 1024 v = true /\ F64.leb (F64.abs v) F64.one = true.

End Camera.

(** ** A stand-in for libm

    Truncated Taylor series for [cos] and [sin], on [float] and on [double],
    exact at 0; [pow] is the constant 1.  It only shows that what the properties below assume of libm
    ([cos 0 = 1], [sin 0 = 0]) can be met. *)

Definition taylorCos (x : F32.float) : F32.float :=
  let x2 := F32.mul x x in
  F32.add (F32.sub F32.one (F32.div x2 (F32.of_Z 2)))
          (F32.div (F32.mul x2 x2) (F32.of_Z 24)).

Definition taylorSin (x : F32.float) : F32.float :=
  let x2 := F32.mul x x in
  F32.add (F32.sub x (F32.div (F32.mul x x2) (F32.of_Z 6)))
          (F32.div (F32.mul (F32.mul x x2) x2) (F32.of_Z 120)).

Definition taylorCos64 (x : F64.float) : F64.float :=
  let x2 := F64.mul x x in
  F64.add (F64.sub F64.one (F64.div x2 (F64.of_Z 2)))
          (F64.div (F64.mul x2 x2) (F64.of_Z 24)).

Definition taylorSin64 (x : F64.float) : F64.float :=
  let x2 := F64.mul x x in
  F64.add (F64.sub x (F64.div (F64.mul x x2) (F64.of_Z 6)))
          (F64.div (F64.mul (F64.mul x x2) x2) (F64.of_Z 120)).

Definition taylorLibm : Libm :=
  {| m_cos := taylorCos; m_sin := taylorSin; m_pow := fun _ _ => F32.one;
     c_cos := taylorCos64; c_sin := taylorSin64 |}.

(** ** GLM's matrix builders, as the library (GLM 0.9.9, [matrix_transform])
    writes them.  The library is not part of the repository; the properties
    of the model matrix below hold for any builders, and these show that the
    interface can be met. *)

Module GlmReference.

Definition add4 (a b : Glm.vec4 F32.float) : Glm.vec4 F32.float :=
  Glm.mkVec4 (F32.add (Glm.x4 a) (Glm.x4 b)) (F32.add (Glm.y4 a) (Glm.y4 b))
             (F32.add (Glm.z4 a) (Glm.z4 b)) (F32.add (Glm.w4 a) (Glm.w4 b)).

Definition scale4 (a : Glm.vec4 F32.float) (s : F32.float) : Glm.vec4 F32.float :=
  Glm.mkVec4 (F32.mul (Glm.x4 a) s) (F32.mul (Glm.y4 a) s)
             (F32.mul (Glm.z4 a) s) (F32.mul (Glm.w4 a) s).

(** [Result[3] = m[0] * v[0] + m[1] * v[1] + m[2] * v[2] + m[3]] *)
Definition translate (m : Glm.mat4 F32.float) (v : Glm.vec3 F32.float) : Glm.mat4 F32.float :=
  Glm.mkMat4 (Glm.col0 m) (Glm.col1 m) (Glm.col2 m)
    (add4 (add4 (add4 (scale4 (Glm.col0 m) (Glm.x v)) (scale4 (Glm.col1 m) (Glm.y v)))
                (scale4 (Glm.col2 m) (Glm.z v)))
          (Glm.col3 m)).

(** [Result[i] = m[i] * v[i]] for the first three columns. *)
Definition scale (m : Glm.mat4 F32.float) (v : Glm.vec3 F32.float) : Glm.mat4 F32.float :=
  Glm.mkMat4 (scale4 (Glm.col0 m) (Glm.x v)) (scale4 (Glm.col1 m) (Glm.y v))
             (scale4 (Glm.col2 m) (Glm.z v)) (Glm.col3 m).

Definition rotate `{Libm} (m : Glm.mat4 F32.float) (angle : F32.float)
                  (v : Glm.vec3 F32.float) : Glm.mat4 F32.float :=
  let c := m_cos angle in
  let s := m_sin angle in
  let axis := Glm.normalize v in
  let temp := Glm.mkVec3 (F32.mul (F32.sub F32.one c) (Glm.x axis))
                         (F32.mul (F32.sub F32.one c) (Glm.y axis))
                         (F32.mul (F32.sub F32.one c) (Glm.z axis)) in
  let r00 := F32.add c (F32.mul (Glm.x temp) (Glm.x axis)) in
  let r01 := F32.add (F32.mul (Glm.x temp) (Glm.y axis)) (F32.mul s (Glm.z axis)) in
  let r02 := F32.sub (F32.mul (Glm.x temp) (Glm.z axis)) (F32.mul s (Glm.y axis)) in
  let r10 := F32.sub (F32.mul (Glm.y temp) (Glm.x axis)) (F32.mul s (Glm.z axis)) in
  let r11 := F32.add c (F32.mul (Glm.y temp) (Glm.y axis)) in
  let r12 := F32.add (F32.mul (Glm.y temp) (Glm.z axis)) (F32.mul s (Glm.x axis)) in
  let r20 := F32.add (F32.mul (Glm.z temp) (Glm.x axis)) (F32.mul s (Glm.y axis)) in
  let r21 := F32.sub (F32.mul (Glm.z temp) (Glm.y axis)) (F32.mul s (Glm.x axis)) in
  let r22 := F32.add c (F32.mul (Glm.z temp) (Glm.z axis)) in
  let combine a b d :=
    add4 (add4 (scale4 (Glm.col0 m) a) (scale4 (Glm.col1 m) b)) (scale4 (Glm.col2 m) d) in
  Glm.mkMat4 (combine r00 r01 r02) (combine r10 r11 r12) (combine r20 r21 r22) (Glm.col3 m).

Definition builders (L : Libm) : GlmTransform :=
  {| glm_translate := translate; glm_rotate := @rotate L; glm_scale := scale |}.

End GlmReference.

(** ** Material.h *)

Record Material : Type := mkMaterial {
  ambient : Glm.vec3 F32.float;
  diffuse : Glm.vec3 F32.float;
  specular : Glm.vec3 F32.float;
  shininess : F32.float;
  opacity : F32.float;
  diffuseMap : N;
  specularMap : N;
  normalMap : N }.

(** [Material::isTransparent]: [opacity < 1.0f] *)
Definition isTransparent (m : Material) : bool := F32.ltb (opacity m) (F32.lit 1 1).

(** ** Model.h / Model.cpp *)

Module Model.

(** The members of [Model]; a mesh is the handle of the [Mesh] object the
    model owns.  [updates] is no member: it counts the calls of
    [updateModelMatrix]. *)
Record t : Type := mk {
  m_name : String.string;
  m_meshes : list N;
  m_meshMaterials : list Material;
  m_material : Material;
  m_position : Glm.vec3 F32.float;
  m_rotation : Glm.vec3 F32.float;
  m_scale : Glm.vec3 F32.float;
  m_visible : bool;
  m_modelMatrix : Glm.mat4 F32.float;
  m_modelMatrixDirty : bool;
  updates : nat }.

(** [Model(name)], with the default material [mat]; [Model()] is
    [Model("Unnamed")]. *)
Definition init (name : String.string) (mat : Material) : t :=
  mk name [] [] mat (Glm.splat (F32.lit 0 1)) (Glm.splat (F32.lit 0 1)) (Glm.splat (F32.lit 1 1))
     true (Glm.diag (F32.lit 1 1)) true 0.

Definition setPosition (m : t) (position : Glm.vec3 F32.float) : t :=
  mk (m_name m) (m_meshes m) (m_meshMaterials m) (m_material m) position (m_rotation m) (m_scale m)
     (m_visible m) (m_modelMatrix m) true (updates m).

Definition setRotation (m : t) (rotation : Glm.vec3 F32.float) : t :=
  mk (m_name m) (m_meshes m) (m_meshMaterials m) (m_material m) (m_position m) rotation (m_scale m)
     (m_visible m) (m_modelMatrix m) true (updates m).

Definition setScale (m : t) (scale : Glm.vec3 F32.float) : t :=
  mk (m_name m) (m_meshes m) (m_meshMaterials m) (m_material m) (m_position m) (m_rotation m) scale
     (m_visible m) (m_modelMatrix m) true (updates m).

(** [setScale(float uniformScale)] *)
Definition setScaleUniform (m : t) (uniformScale : F32.float) : t :=
  mk (m_name m) (m_meshes m) (m_meshMaterials m) (m_material m) (m_position m) (m_rotation m)
     (Glm.splat uniformScale) (m_visible m) (m_modelMatrix m) true (updates m).

Definition setVisible (m : t) (visible : bool) : t :=
  mk (m_name m) (m_meshes m) (m_meshMaterials m) (m_material m) (m_position m) (m_rotation m) (m_scale m)
     visible (m_modelMatrix m) (m_modelMatrixDirty m) (updates m).

(** [addMesh(mesh)] and [addMesh(mesh, material)] *)
Definition addMesh (m : t) (mesh : N) : t :=
  mk (m_name m) (m_meshes m ++ [mesh]) (m_meshMaterials m ++ [m_material m]) (m_material m)
     (m_position m) (m_rotation m) (m_scale m) (m_visible m) (m_modelMatrix m)
     (m_modelMatrixDirty m) (updates m).

Definition addMeshWith (m : t) (mesh : N) (material : Material) : t :=
  mk (m_name m) (m_meshes m ++ [mesh]) (m_meshMaterials m ++ [material]) (m_material m)
     (m_position m) (m_rotation m) (m_scale m) (m_visible m) (m_modelMatrix m)
     (m_modelMatrixDirty m) (updates m).

(** [getMeshCount] and [getMesh]: [nullptr] past the end. *)
Definition getMeshCount (m : t) : nat := List.length (m_meshes m).

Definition getMesh (m : t) (index : nat) : option N :=
  if (index <? List.length (m_meshes m))%nat then nth_error (m_meshes m) index else None.

Definition setName (m : t) (name : String.string) : t :=
  mk name (m_meshes m) (m_meshMaterials m) (m_material m) (m_position m) (m_rotation m)
     (m_scale m) (m_visible m) (m_modelMatrix m) (m_modelMatrixDirty m) (updates m).

(** [setMaterial]: the default material and every mesh material. *)
Definition setMaterial (m : t) (material : Material) : t :=
  mk (m_name m) (m_meshes m) (map (fun _ => material) (m_meshMaterials m)) material
     (m_position m) (m_rotation m) (m_scale m) (m_visible m) (m_modelMatrix m)
     (m_modelMatrixDirty m) (updates m).

(** What the loop of [draw] over the meshes asks for, in order:
    [applyToShader] of a material and [draw] of a mesh. *)
Inductive MeshCall : Type :=
| ApplyMaterial (material : Material)
| MeshDraw (mesh : N).

(** One turn of that loop, for the mesh at the index [i]: its own material
    when there is one, the default material otherwise. *)
Definition drawMesh (m : t) (i : nat) (mesh : N) : list MeshCall :=
  [ApplyMaterial (if (i <? List.length (m_meshMaterials m))%nat
                  then nth i (m_meshMaterials m) (m_material m)
                  else m_material m);
   MeshDraw mesh].

Definition drawMeshes (m : t) : list MeshCall :=
  flat_map (fun im => drawMesh m (fst im) (snd im))
           (combine (seq 0 (List.length (m_meshes m))) (m_meshes m)).

(** The calls that change the meshes and the materials of a model. *)
Inductive meshCall : Type :=
| AddMesh (mesh : N)
| AddMeshWith (mesh : N) (material : Material)
| SetMaterial (material : Material).

Definition applyMeshCall (m : t) (c : meshCall) : t :=
  match c with
  | AddMesh mesh => addMesh m mesh
  | AddMeshWith mesh material => addMeshWith m mesh material
  | SetMaterial material => setMaterial m material
  end.

Definition build (m : t) (calls : list meshCall) : t := fold_left applyMeshCall calls m.

Section WithGlm.
Context `{GlmTransform}.

(** [updateModelMatrix]: translation, then the rotations about Z, Y and X,
    then the scale; clears the dirty flag. *)
Definition updateModelMatrix (m : t) : t :=
  let M := Glm.diag (F32.lit 1 1) in
  let M := glm_translate M (m_position m) in
  let M := glm_rotate M (Glm.radians (Glm.z (m_rotation m))) (vec3i 0 0 1) in
  let M := glm_rotate M (Glm.radians (Glm.y (m_rotation m))) (vec3i 0 1 0) in
  let M := glm_rotate M (Glm.radians (Glm.x (m_rotation m))) (vec3i 1 0 0) in
  let M := glm_scale M (m_scale m) in
  mk (m_name m) (m_meshes m) (m_meshMaterials m) (m_material m) (m_position m) (m_rotation m) (m_scale m)
     (m_visible m) M false (S (updates m)).

(** [getModelMatrix]: the matrix and the model after the call (the cache
    members are [mutable]). *)
Definition getModelMatrix (m : t) : Glm.mat4 F32.float * t :=
  let m := if m_modelMatrixDirty m then updateModelMatrix m else m in
  (m_modelMatrix m, m).

(** The words of the specification: the world matrix of a position, a
    rotation in degrees and a scale,
    [Translate * RotateZ * RotateY * RotateX * Scale]. *)
Definition worldMatrix (position rotation scale : Glm.vec3 F32.float) : Glm.mat4 F32.float :=
  glm_scale
    (glm_rotate
       (glm_rotate
          (glm_rotate (glm_translate (Glm.diag (F32.lit 1 1)) position)
                      (Glm.radians (Glm.z rotation)) (vec3i 0 0 1))
          (Glm.radians (Glm.y rotation)) (vec3i 0 1 0))
       (Glm.radians (Glm.x rotation)) (vec3i 1 0 0))
    scale.

(** The calls a user of a model can make on its transform. *)
Inductive call : Type :=
| CallSetPosition (position : Glm.vec3 F32.float)
| CallSetRotation (rotation : Glm.vec3 F32.float)
| CallSetScale (scale : Glm.vec3 F32.float)
| CallSetScaleUniform (uniformScale : F32.float)
| CallSetVisible (visible : bool)
| CallAddMesh (mesh : N)
| CallSetMaterial (material : Material)
| CallSetName (name : String.string)
| CallGetModelMatrix.

Definition step (m : t) (c : call) : t :=
  match c with
  | CallSetPosition v => setPosition m v
  | CallSetRotation v => setRotation m v
  | CallSetScale v => setScale m v
  | CallSetScaleUniform s => setScaleUniform m s
  | CallSetVisible b => setVisible m b
  | CallAddMesh mesh => addMesh m mesh
  | CallSetMaterial mat => setMaterial m mat
  | CallSetName name => setName m name
  | CallGetModelMatrix => snd (getModelMatrix m)
  end.

Definition run (m : t) (calls : list call) : t := fold_left step calls m.

(** The words of the specification: the position, rotation and scale most
    recently set by a sequence of calls, from the ones set before it;
    [setScale(float s)] sets the scale [(s, s, s)]. *)
Record transform : Type := mkTransform {
  positionSet : Glm.vec3 F32.float;
  rotationSet : Glm.vec3 F32.float;
  scaleSet : Glm.vec3 F32.float }.

Fixpoint lastSet (calls : list call) (t0 : transform) : transform :=
  match calls with
  | [] => t0
  | CallSetPosition v :: rest => lastSet rest (mkTransform v (rotationSet t0) (scaleSet t0))
  | CallSetRotation v :: rest => lastSet rest (mkTransform (positionSet t0) v (scaleSet t0))
  | CallSetScale v :: rest => lastSet rest (mkTransform (positionSet t0) (rotationSet t0) v)
  | CallSetScaleUniform s :: rest =>
      lastSet rest (mkTransform (positionSet t0) (rotationSet t0) (Glm.mkVec3 s s s))
  | _ :: rest => lastSet rest t0
  end.

(** A new model is at the origin, not rotated, of scale 1. *)
Definition newTransform : transform :=
  mkTransform (vec3i 0 0 0) (vec3i 0 0 0) (vec3i 1 1 1).

(** The cache is fresh: when the dirty flag is clear the cached matrix is
    the world matrix of the current position, rotation and scale. *)
Definition fresh (m : t) : Prop :=
  m_modelMatrixDirty m = false ->
  m_modelMatrix m = worldMatrix (m_position m) (m_rotation m) (m_scale m).

End WithGlm.
End Model.

(** ** CarModel.h / CarModel.cpp *)

Module CarModel.

(** The members of [CarModel]; [base] is the [Model] it derives from, whose
    protected members [move] and [turn] write. *)
Record t : Type := mk {
  base : Model.t;
  m_bodyMeshIndex : nat;
  m_wheelMeshIndices : list nat;
  m_doorMeshIndices : list nat;
  m_windowMeshIndex : nat;
  m_interiorMeshIndex : nat;
  m_wheelRotation : F32.float;
  m_wheelSpeed : F32.float;
  m_doorOpenAmount : list F32.float;
  m_doorTargetOpen : list bool;
  m_doorAnimSpeed : F32.float;
  m_currentSpeed : F32.float;
  m_heading : F32.float;
  m_headlightsOn : bool;
  m_hasInterior : bool;
  m_length : F32.float;
  m_width : F32.float;
  m_height : F32.float;
  m_wheelRadius : F32.float }.

(** Assignments to the members. *)
Definition set_base (c : t) (v_base : Model.t) : t :=
  mk v_base (m_bodyMeshIndex c) (m_wheelMeshIndices c) (m_doorMeshIndices c)
     (m_windowMeshIndex c) (m_interiorMeshIndex c) (m_wheelRotation c) (m_wheelSpeed c)
     (m_doorOpenAmount c) (m_doorTargetOpen c) (m_doorAnimSpeed c) (m_currentSpeed c)
     (m_heading c) (m_headlightsOn c) (m_hasInterior c) (m_length c) (m_width c)
     (m_height c) (m_wheelRadius c).
Definition set_currentSpeed (c : t) (v_currentSpeed : F32.float) : t :=
  mk (base c) (m_bodyMeshIndex c) (m_wheelMeshIndices c) (m_doorMeshIndices c)
     (m_windowMeshIndex c) (m_interiorMeshIndex c) (m_wheelRotation c) (m_wheelSpeed c)
     (m_doorOpenAmount c) (m_doorTargetOpen c) (m_doorAnimSpeed c) v_currentSpeed
     (m_heading c) (m_headlightsOn c) (m_hasInterior c) (m_length c) (m_width c)
     (m_height c) (m_wheelRadius c).
Definition set_heading (c : t) (v_heading : F32.float) : t :=
  mk (base c) (m_bodyMeshIndex c) (m_wheelMeshIndices c) (m_doorMeshIndices c)
     (m_windowMeshIndex c) (m_interiorMeshIndex c) (m_wheelRotation c) (m_wheelSpeed c)
     (m_doorOpenAmount c) (m_doorTargetOpen c) (m_doorAnimSpeed c) (m_currentSpeed c)
     v_heading (m_headlightsOn c) (m_hasInterior c) (m_length c) (m_width c)
     (m_height c) (m_wheelRadius c).

(** [m_position = position; m_modelMatrixDirty = true;] and
    [m_rotation.y = heading; m_modelMatrixDirty = true;] on the base. *)
Definition writePosition (m : Model.t) (position : Glm.vec3 F32.float) : Model.t :=
  Model.mk (Model.m_name m) (Model.m_meshes m) (Model.m_meshMaterials m) (Model.m_material m)
           position (Model.m_rotation m) (Model.m_scale m) (Model.m_visible m)
           (Model.m_modelMatrix m) true (Model.updates m).

Definition writeRotationY (m : Model.t) (heading : F32.float) : Model.t :=
  Model.mk (Model.m_name m) (Model.m_meshes m) (Model.m_meshMaterials m) (Model.m_material m)
           (Model.m_position m)
           (Glm.mkVec3 (Glm.x (Model.m_rotation m)) heading (Glm.z (Model.m_rotation m)))
           (Model.m_scale m) (Model.m_visible m) (Model.m_modelMatrix m) true (Model.updates m).

Section WithLibm.
Context `{Libm}.

(** [move] *)
Definition move (c : t) (amount deltaTime : F32.float) : t :=
  let c := set_currentSpeed c amount in
  let headingRad := Glm.radians (m_heading c) in
  let direction := Glm.mkVec3 (m_sin headingRad) (F32.lit 0 1) (m_cos headingRad) in
  set_base c
    (writePosition (base c)
       (Glm.add (Model.m_position (base c)) (Glm.scale (Glm.scale direction amount) deltaTime))).

(** [turn] *)
Definition turn (c : t) (angle deltaTime : F32.float) : t :=
  let c := set_heading c (F32.add (m_heading c) (F32.mul angle deltaTime)) in
  set_base c (writeRotationY (base c) (m_heading c)).

(** [getOrbitTarget] *)
Definition getOrbitTarget (c : t) : Glm.vec3 F32.float :=
  Glm.add (Model.m_position (base c))
          (Glm.mkVec3 (F32.lit 0 1) (F32.mul (m_height c) (F32.lit 1 2)) (F32.lit 0 1)).

(** [getDriverSeatPosition] *)
Definition getDriverSeatPosition (c : t) : Glm.vec3 F32.float :=
  let headingRad := Glm.radians (m_heading c) in
  let forward := Glm.mkVec3 (m_sin headingRad) (F32.lit 0 1) (m_cos headingRad) in
  let rightward := Glm.mkVec3 (m_cos headingRad) (F32.lit 0 1) (F32.neg (m_sin headingRad)) in
  Glm.sub
    (Glm.add (Glm.add (Model.m_position (base c)) (vec3i 0 1 0))
             (Glm.scale forward (F32.lit 3 10)))
    (Glm.scale rightward (F32.lit 4 10)).

Context `{GlmTransform}.

(** The calls a user of a car can make on its transform: [move], [turn] and
    the calls of the base class. *)
Inductive call : Type :=
| CallMove (amount deltaTime : F32.float)
| CallTurn (angle deltaTime : F32.float)
| CallModel (c : Model.call).

Definition step (c : t) (k : call) : t :=
  match k with
  | CallMove amount deltaTime => move c amount deltaTime
  | CallTurn angle deltaTime => turn c angle deltaTime
  | CallModel k => set_base c (Model.step (base c) k)
  end.

Definition run (c : t) (calls : list call) : t := fold_left step calls c.

End WithLibm.
End CarModel.

(** ** [std::sort], by its contract

    The comparison must be a strict weak ordering on the elements sorted:
    irreflexive, transitive, and with a transitive incomparability.  The
    result is then a permutation in which no element is ordered before an
    earlier one.  Nothing is promised about the order of equivalent
    elements. *)

Definition strictWeakOrder {A : Type} (comp : A -> A -> bool) (l : list A) : Prop :=
  (forall x, In x l -> comp x x = false) /\
  (forall x y z, In x l -> In y l -> In z l ->
                 comp x y = true -> comp y z = true -> comp x z = true) /\
  (forall x y z, In x l -> In y l -> In z l ->
                 comp x y = false -> comp y x = false ->
                 comp y z = false -> comp z y = false ->
                 comp x z = false /\ comp z x = false).

Definition sortedBy {A : Type} (comp : A -> A -> bool) (l : list A) : Prop :=
  StronglySorted (fun x y => comp y x = false) l.

Class StdSort : Type := {
  std_sort : forall A : Type, (A -> A -> bool) -> list A -> list A;
  std_sort_permutation :
    forall (A : Type) (comp : A -> A -> bool) (l : list A),
      strictWeakOrder comp l -> Permutation l (std_sort comp l);
  std_sort_sorted :
    forall (A : Type) (comp : A -> A -> bool) (l : list A),
      strictWeakOrder comp l -> sortedBy comp (std_sort comp l) }.

(** An implementation of the contract: insertion sort. *)
Fixpoint insertBy {A : Type} (comp : A -> A -> bool) (x : A) (l : list A) : list A :=
  match l with
  | [] => [x]
  | y :: l' => if comp y x then y :: insertBy comp x l' else x :: l
  end.

Definition insertionSort {A : Type} (comp : A -> A -> bool) (l : list A) : list A :=
  fold_right (insertBy comp) [] l.

(** ** Light.h *)

Record DirectionalLight : Type := mkDirectionalLight {
  dl_ambient : Glm.vec3 F32.float;
  dl_diffuse : Glm.vec3 F32.float;
  dl_specular : Glm.vec3 F32.float;
  dl_enabled : bool;
  dl_direction : Glm.vec3 F32.float }.

Record PointLight : Type := mkPointLight {
  pl_ambient : Glm.vec3 F32.float;
  pl_diffuse : Glm.vec3 F32.float;
  pl_specular : Glm.vec3 F32.float;
  pl_enabled : bool;
  pl_position : Glm.vec3 F32.float;
  pl_constant : F32.float;
  pl_linear : F32.float;
  pl_quadratic : F32.float }.

Record SpotLight : Type := mkSpotLight {
  sl_ambient : Glm.vec3 F32.float;
  sl_diffuse : Glm.vec3 F32.float;
  sl_specular : Glm.vec3 F32.float;
  sl_enabled : bool;
  sl_position : Glm.vec3 F32.float;
  sl_direction : Glm.vec3 F32.float;
  sl_innerCutoff : F32.float;
  sl_outerCutoff : F32.float;
  sl_constant : F32.float;
  sl_linear : F32.float;
  sl_quadratic : F32.float }.

(** ** Renderer.h / Renderer.cpp *)

Module Renderer.

(** A render command; [model] is the address of the model it points to. *)
Record RenderCommand : Type := mkRenderCommand {
  model : N;
  transform : Glm.mat4 F32.float;
  transparent : bool;
  distanceToCamera : F32.float }.

(** What the renderer asks of the graphics API and of the models, in the
    order it asks.  [ApplyLighting] stands for the uniforms [applyLighting]
    sets, [ModelDraw] for [model->draw(shader, transform)]. *)
Inductive GLCall : Type :=
| GlClearColor (r g b a : F32.float)
| GlClear
| ShaderUse
| SetView (m : Glm.mat4 F32.float)
| SetProjection (m : Glm.mat4 F32.float)
| SetViewPos (v : Glm.vec3 F32.float)
| ApplyLighting (d : option DirectionalLight) (p : list PointLight) (s : list SpotLight)
| GlDepthMask (flag : bool)
| GlEnableBlend
| GlDisableBlend
| GlBlendFuncSrcAlphaOneMinusSrcAlpha
| ModelDraw (model : N) (transform : Glm.mat4 F32.float).

Definition MAX_POINT_LIGHTS : nat := 4.
Definition MAX_SPOT_LIGHTS : nat := 2.

Record t : Type := mk {
  m_width : Z;
  m_height : Z;
  m_viewMatrix : Glm.mat4 F32.float;
  m_projectionMatrix : Glm.mat4 F32.float;
  m_cameraPosition : Glm.vec3 F32.float;
  m_opaqueCommands : list RenderCommand;
  m_transparentCommands : list RenderCommand;
  m_directionalLight : option DirectionalLight;
  m_pointLights : list PointLight;
  m_spotLights : list SpotLight;
  m_clearColor : Glm.vec3 F32.float;
  m_wireframeMode : bool;
  m_cullingEnabled : bool;
  m_drawCallCount : Z;
  m_triangleCount : Z }.

Definition set_size (r : t) (v_width : Z) (v_height : Z) : t :=
  mk v_width v_height (m_viewMatrix r) (m_projectionMatrix r) (m_cameraPosition r)
     (m_opaqueCommands r) (m_transparentCommands r) (m_directionalLight r)
     (m_pointLights r) (m_spotLights r) (m_clearColor r) (m_wireframeMode r)
     (m_cullingEnabled r) (m_drawCallCount r) (m_triangleCount r).
Definition set_camera (r : t) (v_viewMatrix : Glm.mat4 F32.float) (v_projectionMatrix : Glm.mat4 F32.float) (v_cameraPosition : Glm.vec3 F32.float) : t :=
  mk (m_width r) (m_height r) v_viewMatrix v_projectionMatrix v_cameraPosition
     (m_opaqueCommands r) (m_transparentCommands r) (m_directionalLight r)
     (m_pointLights r) (m_spotLights r) (m_clearColor r) (m_wireframeMode r)
     (m_cullingEnabled r) (m_drawCallCount r) (m_triangleCount r).
Definition set_opaqueCommands (r : t) (v_opaqueCommands : list RenderCommand) : t :=
  mk (m_width r) (m_height r) (m_viewMatrix r) (m_projectionMatrix r) (m_cameraPosition r)
     v_opaqueCommands (m_transparentCommands r) (m_directionalLight r) (m_pointLights r)
     (m_spotLights r) (m_clearColor r) (m_wireframeMode r) (m_cullingEnabled r)
     (m_drawCallCount r) (m_triangleCount r).
Definition set_transparentCommands (r : t) (v_transparentCommands : list RenderCommand) : t :=
  mk (m_width r) (m_height r) (m_viewMatrix r) (m_projectionMatrix r) (m_cameraPosition r)
     (m_opaqueCommands r) v_transparentCommands (m_directionalLight r) (m_pointLights r)
     (m_spotLights r) (m_clearColor r) (m_wireframeMode r) (m_cullingEnabled r)
     (m_drawCallCount r) (m_triangleCount r).
Definition set_directionalLight (r : t) (v_directionalLight : option DirectionalLight) : t :=
  mk (m_width r) (m_height r) (m_viewMatrix r) (m_projectionMatrix r) (m_cameraPosition r)
     (m_opaqueCommands r) (m_transparentCommands r) v_directionalLight (m_pointLights r)
     (m_spotLights r) (m_clearColor r) (m_wireframeMode r) (m_cullingEnabled r)
     (m_drawCallCount r) (m_triangleCount r).
Definition set_pointLights (r : t) (v_pointLights : list PointLight) : t :=
  mk (m_width r) (m_height r) (m_viewMatrix r) (m_projectionMatrix r) (m_cameraPosition r)
     (m_opaqueCommands r) (m_transparentCommands r) (m_directionalLight r) v_pointLights
     (m_spotLights r) (m_clearColor r) (m_wireframeMode r) (m_cullingEnabled r)
     (m_drawCallCount r) (m_triangleCount r).
Definition set_spotLights (r : t) (v_spotLights : list SpotLight) : t :=
  mk (m_width r) (m_height r) (m_viewMatrix r) (m_projectionMatrix r) (m_cameraPosition r)
     (m_opaqueCommands r) (m_transparentCommands r) (m_directionalLight r)
     (m_pointLights r) v_spotLights (m_clearColor r) (m_wireframeMode r)
     (m_cullingEnabled r) (m_drawCallCount r) (m_triangleCount r).
Definition set_clearColor (r : t) (v_clearColor : Glm.vec3 F32.float) : t :=
  mk (m_width r) (m_height r) (m_viewMatrix r) (m_projectionMatrix r) (m_cameraPosition r)
     (m_opaqueCommands r) (m_transparentCommands r) (m_directionalLight r)
     (m_pointLights r) (m_spotLights r) v_clearColor (m_wireframeMode r)
     (m_cullingEnabled r) (m_drawCallCount r) (m_triangleCount r).
Definition set_wireframeMode (r : t) (v_wireframeMode : bool) : t :=
  mk (m_width r) (m_height r) (m_viewMatrix r) (m_projectionMatrix r) (m_cameraPosition r)
     (m_opaqueCommands r) (m_transparentCommands r) (m_directionalLight r)
     (m_pointLights r) (m_spotLights r) (m_clearColor r) v_wireframeMode
     (m_cullingEnabled r) (m_drawCallCount r) (m_triangleCount r).
Definition set_cullingEnabled (r : t) (v_cullingEnabled : bool) : t :=
  mk (m_width r) (m_height r) (m_viewMatrix r) (m_projectionMatrix r) (m_cameraPosition r)
     (m_opaqueCommands r) (m_transparentCommands r) (m_directionalLight r)
     (m_pointLights r) (m_spotLights r) (m_clearColor r) (m_wireframeMode r)
     v_cullingEnabled (m_drawCallCount r) (m_triangleCount r).
Definition set_drawCallCount (r : t) (v_drawCallCount : Z) : t :=
  mk (m_width r) (m_height r) (m_viewMatrix r) (m_projectionMatrix r) (m_cameraPosition r)
     (m_opaqueCommands r) (m_transparentCommands r) (m_directionalLight r)
     (m_pointLights r) (m_spotLights r) (m_clearColor r) (m_wireframeMode r)
     (m_cullingEnabled r) v_drawCallCount (m_triangleCount r).
Definition set_triangleCount (r : t) (v_triangleCount : Z) : t :=
  mk (m_width r) (m_height r) (m_viewMatrix r) (m_projectionMatrix r) (m_cameraPosition r)
     (m_opaqueCommands r) (m_transparentCommands r) (m_directionalLight r)
     (m_pointLights r) (m_spotLights r) (m_clearColor r) (m_wireframeMode r)
     (m_cullingEnabled r) (m_drawCallCount r) v_triangleCount.

(** [beginFrame] *)
Definition beginFrame (r : t) : t * list GLCall :=
  let r := set_drawCallCount r 0 in
  let r := set_triangleCount r 0 in
  let r := set_opaqueCommands r [] in
  let r := set_transparentCommands r [] in
  let r := set_pointLights r [] in
  let r := set_spotLights r [] in
  let r := set_directionalLight r None in
  (r, [GlClearColor (Glm.x (m_clearColor r)) (Glm.y (m_clearColor r)) (Glm.z (m_clearColor r))
                    (F32.lit 1 1);
       GlClear]).

(** [setDirectionalLight], [addPointLight], [addSpotLight], [clearLights] *)
Definition setDirectionalLight (r : t) (light : DirectionalLight) : t :=
  set_directionalLight r (Some light).

Definition addPointLight (r : t) (light : PointLight) : t :=
  if (List.length (m_pointLights r) <? MAX_POINT_LIGHTS)%nat
  then set_pointLights r (m_pointLights r ++ [light]) else r.

Definition addSpotLight (r : t) (light : SpotLight) : t :=
  if (List.length (m_spotLights r) <? MAX_SPOT_LIGHTS)%nat
  then set_spotLights r (m_spotLights r ++ [light]) else r.

Definition clearLights (r : t) : t :=
  set_directionalLight (set_spotLights (set_pointLights r []) []) None.

(** [submit]: [addr] is the address of the model [m]; [unset] is what the
    member [distanceToCamera], left uninitialised for an opaque command,
    happens to hold. *)
Definition submit (r : t) (addr : N) (m : Model.t) (transform : Glm.mat4 F32.float)
                  (unset : F32.float) : t :=
  if isTransparent (Model.m_material m) then
    let modelPos := Glm.translation transform in
    let cmd := mkRenderCommand addr transform true
                 (Glm.length (Glm.sub (m_cameraPosition r) modelPos)) in
    set_transparentCommands r (m_transparentCommands r ++ [cmd])
  else
    set_opaqueCommands r (m_opaqueCommands r ++ [mkRenderCommand addr transform false unset]).

(** The comparison of [sortTransparentCommands]:
    [a.distanceToCamera > b.distanceToCamera]. *)
Definition farther (a b : RenderCommand) : bool :=
  F32.gtb (distanceToCamera a) (distanceToCamera b).

(** The counters are [int]: the model has them as integers, which is what
    [m_drawCallCount++] does as long as the counter is below [INT_MAX],
    2^31 - 1. *)
Definition INT_MAX : Z := 2147483647.

Section WithSort.
Context `{StdSort}.

Definition sortTransparentCommands (r : t) : t :=
  set_transparentCommands r (std_sort farther (m_transparentCommands r)).

(** [executeCommand]: [models] gives the model at an address ([None] for a
    null pointer); the model is drawn when it is there and visible. *)
Definition executeCommand (models : N -> option Model.t) (r : t) (cmd : RenderCommand)
  : t * list GLCall :=
  match models (model cmd) with
  | Some m =>
      if Model.m_visible m
      then (set_drawCallCount r (m_drawCallCount r + 1), [ModelDraw (model cmd) (transform cmd)])
      else (r, [])
  | None => (r, [])
  end.

(** [for (const auto& cmd : cmds) executeCommand(cmd);] *)
Definition executeAll (models : N -> option Model.t) (r : t) (cmds : list RenderCommand)
  : t * list GLCall :=
  fold_left (fun acc cmd =>
               let '(r, calls) := acc in
               let '(r, drawn) := executeCommand models r cmd in
               (r, calls ++ drawn))
            cmds (r, []).

(** [endFrame] *)
Definition endFrame (models : N -> option Model.t) (r : t) : t * list GLCall :=
  let calls := [ShaderUse; SetView (m_viewMatrix r); SetProjection (m_projectionMatrix r);
                SetViewPos (m_cameraPosition r);
                ApplyLighting (m_directionalLight r) (m_pointLights r) (m_spotLights r);
                GlDepthMask true; GlDisableBlend] in
  let '(r, drawn) := executeAll models r (m_opaqueCommands r) in
  let calls := calls ++ drawn in
  let r := sortTransparentCommands r in
  let calls := calls ++ [GlDepthMask false; GlEnableBlend; GlBlendFuncSrcAlphaOneMinusSrcAlpha] in
  let '(r, drawn) := executeAll models r (m_transparentCommands r) in
  let calls := calls ++ drawn in
  (r, calls ++ [GlDepthMask true; GlDisableBlend]).

End WithSort.

(** The words of the specification. *)

(** What executing one command asks for: the draw of its model, when the
    model is there and visible. *)
Definition drawOf (models : N -> option Model.t) (cmd : RenderCommand) : list GLCall :=
  match models (model cmd) with
  | Some m => if Model.m_visible m then [ModelDraw (model cmd) (transform cmd)] else []
  | None => []
  end.

(** The draws among the calls. *)
Definition isModelDraw (c : GLCall) : bool :=
  match c with ModelDraw _ _ => true | _ => false end.

(** Farthest first: no command is farther from the camera than an earlier
    one. *)
Definition farthestFirst (cmds : list RenderCommand) : Prop :=
  StronglySorted (fun a b => F32.leb (distanceToCamera b) (distanceToCamera a) = true) cmds.

(** A submission: the address of a model, the model, its transform. *)
Definition submission : Type := N * Model.t * Glm.mat4 F32.float.

Definition submitAll (r : t) (subs : list submission) (unset : F32.float) : t :=
  fold_left (fun r s => submit r (fst (fst s)) (snd (fst s)) (snd s) unset) subs r.

(** The transform that translates by [(x, y, z)]. *)
Definition translationTo (x y z : Z) : Glm.mat4 F32.float :=
  let o := F32.of_Z 0 in
  let i := F32.of_Z 1 in
  Glm.mkMat4 (Glm.mkVec4 i o o o) (Glm.mkVec4 o i o o) (Glm.mkVec4 o o i o)
             (Glm.mkVec4 (F32.of_Z x) (F32.of_Z y) (F32.of_Z z) i).

End Renderer.

(** The command [submit] queues for a submission, with the camera at [cam]. *)
Definition commandOf (cam : Glm.vec3 F32.float) (unset : F32.float)
                     (s : Renderer.submission) : Renderer.RenderCommand :=
  if isTransparent (Model.m_material (snd (fst s)))
  then Renderer.mkRenderCommand (fst (fst s)) (snd s) true
         (Glm.length (Glm.sub cam (Glm.translation (snd s))))
  else Renderer.mkRenderCommand (fst (fst s)) (snd s) false unset.

Definition submittedTransparent (s : Renderer.submission) : bool :=
  isTransparent (Model.m_material (snd (fst s))).

(** The calls of [endFrame] before the first command is executed. *)
Definition frameHeader (r : Renderer.t) : list Renderer.GLCall :=
  [Renderer.ShaderUse; Renderer.SetView (Renderer.m_viewMatrix r);
   Renderer.SetProjection (Renderer.m_projectionMatrix r);
   Renderer.SetViewPos (Renderer.m_cameraPosition r);
   Renderer.ApplyLighting (Renderer.m_directionalLight r) (Renderer.m_pointLights r)
                          (Renderer.m_spotLights r);
   Renderer.GlDepthMask true; Renderer.GlDisableBlend].

Definition blendOn : list Renderer.GLCall :=
  [Renderer.GlDepthMask false; Renderer.GlEnableBlend;
   Renderer.GlBlendFuncSrcAlphaOneMinusSrcAlpha].

Definition blendOff : list Renderer.GLCall :=
  [Renderer.GlDepthMask true; Renderer.GlDisableBlend].

(** The frame of the transparency example: three transparent models
    submitted at the camera distances 3, 1 and 5. *)
Definition exampleSubmissions (m1 m2 m3 : Model.t) : list Renderer.submission :=
  [(1%N, m1, Renderer.translationTo 3 0 0);
   (2%N, m2, Renderer.translationTo 1 0 0);
   (3%N, m3, Renderer.translationTo 5 0 0)].

Definition exampleCommand (addr : N) (dist : Z) : Renderer.RenderCommand :=
  Renderer.mkRenderCommand addr (Renderer.translationTo dist 0 0) true (F32.of_Z dist).

(** ** Animation.h / Animation.cpp *)

Module Easing.

Definition linear (t : F32.float) : F32.float := t.

Definition easeInQuad (t : F32.float) : F32.float := F32.mul t t.

Definition easeOutQuad (t : F32.float) : F32.float :=
  F32.mul t (F32.sub (F32.lit 2 1) t).

Definition easeInOutQuad (t : F32.float) : F32.float :=
  if F32.ltb t (F32.lit 1 2) then F32.mul (F32.mul (F32.lit 2 1) t) t
  else F32.add (F32.lit (-1) 1)
               (F32.mul (F32.sub (F32.lit 4 1) (F32.mul (F32.lit 2 1) t)) t).

Definition easeInCubic (t : F32.float) : F32.float := F32.mul (F32.mul t t) t.

Definition easeOutCubic (t : F32.float) : F32.float :=
  let f := F32.sub t (F32.lit 1 1) in
  F32.add (F32.mul (F32.mul f f) f) (F32.lit 1 1).

Definition easeInOutCubic (t : F32.float) : F32.float :=
  if F32.ltb t (F32.lit 1 2) then F32.mul (F32.mul (F32.mul (F32.lit 4 1) t) t) t
  else
    let f := F32.sub (F32.mul (F32.lit 2 1) t) (F32.lit 2 1) in
    F32.add (F32.mul (F32.mul (F32.mul (F32.lit 1 2) f) f) f) (F32.lit 1 1).

Section WithLibm.
Context `{Libm}.

Definition easeInElastic (t : F32.float) : F32.float :=
  if F32.eqb t (F32.lit 0 1) || F32.eqb t (F32.lit 1 1) then t
  else
    let p := F32.lit 3 10 in
    let s := F32.div p (F32.lit 4 1) in
    let postFix := m_pow (F32.lit 2 1) (F32.mul (F32.lit 10 1) (F32.sub t (F32.lit 1 1))) in
    F32.neg
      (F32.mul postFix
         (m_sin (F32.div
                   (F32.mul (F32.sub (F32.sub t (F32.lit 1 1)) s)
                            (F32.mul (F32.lit 2 1) F32.lit_pi))
                   p))).

Definition easeOutElastic (t : F32.float) : F32.float :=
  if F32.eqb t (F32.lit 0 1) || F32.eqb t (F32.lit 1 1) then t
  else
    let p := F32.lit 3 10 in
    let s := F32.div p (F32.lit 4 1) in
    F32.add
      (F32.mul (m_pow (F32.lit 2 1) (F32.mul (F32.lit (-10) 1) t))
               (m_sin (F32.div
                         (F32.mul (F32.sub t s) (F32.mul (F32.lit 2 1) F32.lit_pi))
                         p)))
      (F32.lit 1 1).

End WithLibm.

Definition easeOutBounce (t : F32.float) : F32.float :=
  let c := F32.lit 75625 10000 in
  let d := F32.lit 275 100 in
  if F32.ltb t (F32.div (F32.lit 1 1) d) then F32.mul (F32.mul c t) t
  else if F32.ltb t (F32.div (F32.lit 2 1) d) then
    let postFix := F32.sub t (F32.div (F32.lit 15 10) d) in
    F32.add (F32.mul (F32.mul c postFix) postFix) (F32.lit 75 100)
  else if F32.ltb t (F32.div (F32.lit 25 10) d) then
    let postFix := F32.sub t (F32.div (F32.lit 225 100) d) in
    F32.add (F32.mul (F32.mul c postFix) postFix) (F32.lit 9375 10000)
  else
    let postFix := F32.sub t (F32.div (F32.lit 2625 1000) d) in
    F32.add (F32.mul (F32.mul c postFix) postFix) (F32.lit 984375 1000000).

(** The supplied easing functions. *)
Definition supplied `{Libm} : list (F32.float -> F32.float) :=
  [linear; easeInQuad; easeOutQuad; easeInOutQuad; easeInCubic; easeOutCubic;
   easeInOutCubic; easeInElastic; easeOutElastic; easeOutBounce].

End Easing.

Module Animation.

(** The members of [Animation].  A completion callback is known by a name;
    [None] is the empty [std::function]. *)
Record t : Type := mk {
  m_startValue : F32.float;
  m_endValue : F32.float;
  m_currentValue : F32.float;
  m_duration : F32.float;
  m_elapsed : F32.float;
  m_complete : bool;
  m_paused : bool;
  m_easing : F32.float -> F32.float;
  m_completionCallback : option N }.

(** [Animation(startValue, endValue, duration, easing)] *)
Definition init (startValue endValue duration : F32.float) (easing : F32.float -> F32.float)
  : t :=
  mk startValue endValue startValue duration (F32.lit 0 1) false false easing None.

Definition getValue (a : t) : F32.float := m_currentValue a.
Definition isComplete (a : t) : bool := m_complete a.
Definition isPaused (a : t) : bool := m_paused a.

Definition setPaused (a : t) (paused : bool) : t :=
  mk (m_startValue a) (m_endValue a) (m_currentValue a) (m_duration a) (m_elapsed a)
     (m_complete a) paused (m_easing a) (m_completionCallback a).

Definition onComplete (a : t) (callback : N) : t :=
  mk (m_startValue a) (m_endValue a) (m_currentValue a) (m_duration a) (m_elapsed a)
     (m_complete a) (m_paused a) (m_easing a) (Some callback).

(** The callbacks a call invokes, in order. *)
Definition invoke (callback : option N) : list N :=
  match callback with Some f => [f] | None => [] end.

(** [update]: the value returned, the animation after the call and the
    callbacks invoked. *)
Definition update (a : t) (deltaTime : F32.float) : F32.float * t * list N :=
  if m_complete a || m_paused a then (m_currentValue a, a, [])
  else
    let elapsed := F32.add (m_elapsed a) deltaTime in
    let t := F32.div elapsed (m_duration a) in
    let reached := F32.geb t (F32.lit 1 1) in
    let t := if reached then F32.lit 1 1 else t in
    let complete := if reached then true else m_complete a in
    let invoked := if reached then invoke (m_completionCallback a) else [] in
    let easedT := m_easing a t in
    let current :=
      F32.add (m_startValue a) (F32.mul (F32.sub (m_endValue a) (m_startValue a)) easedT) in
    (current,
     mk (m_startValue a) (m_endValue a) current (m_duration a) elapsed complete (m_paused a)
        (m_easing a) (m_completionCallback a),
     invoked).

Definition reset (a : t) : t :=
  mk (m_startValue a) (m_endValue a) (m_startValue a) (m_duration a) (F32.lit 0 1)
     false (m_paused a) (m_easing a) (m_completionCallback a).

Definition reverse (a : t) : t :=
  mk (m_endValue a) (m_startValue a) (m_currentValue a) (m_duration a) (F32.lit 0 1)
     false (m_paused a) (m_easing a) (m_completionCallback a).

(** A run of updates: the animation after them and the callbacks invoked. *)
Definition updates (a : t) (deltas : list F32.float) : t * list N :=
  fold_left (fun acc dt =>
               let '(a, invoked) := acc in
               let '(_, a, now) := update a dt in
               (a, invoked ++ now))
            deltas (a, []).

End Animation.

(** [AnimationController]: its vector of animations. *)
Module AnimationController.

Definition t : Type := list Animation.t.

Definition addAnimation (c : t) (animation : Animation.t) : t * nat :=
  (c ++ [animation], List.length c).

(** [update]: every animation is updated; the callbacks invoked, in order. *)
Definition update (c : t) (deltaTime : F32.float) : t * list N :=
  fold_left (fun acc anim =>
               let '(done, invoked) := acc in
               let '(_, anim, now) := Animation.update anim deltaTime in
               (done ++ [anim], invoked ++ now))
            c ([], []).

(** [getAnimation]: [nullptr] past the end. *)
Definition getAnimation (c : t) (id : nat) : option Animation.t :=
  if (id <? List.length c)%nat then nth_error c id else None.

(** [cleanupCompleted]: [erase(remove_if(..., isComplete))] *)
Definition cleanupCompleted (c : t) : t :=
  filter (fun a => negb (Animation.isComplete a)) c.

Definition clear (c : t) : t := [].

End AnimationController.

(** ** ShowroomScene.cpp: the collision queries of the scene *)

Module ShowroomScene.
Section WithScalar.
Context {F : Type} `{Scalar F}.

(** The box of the given size centred on the position:
    [position - size * 0.5f] to [position + size * 0.5f]. *)
Definition testBox (position size : Glm.vec3 F) : AABB F :=
  mkAABB (Glm.sub position (Glm.scale size (s_lit 1 2)))
         (Glm.add position (Glm.scale size (s_lit 1 2))).

Definition isPositionValid (m_collisionWorld : list (AABB F)) (position size : Glm.vec3 F)
  : bool :=
  negb (hit (CollisionWorld.testAgainstStatic m_collisionWorld (testBox position size))).

Definition constrainPosition (m_collisionWorld : list (AABB F)) (position size : Glm.vec3 F)
  : Glm.vec3 F :=
  CollisionWorld.resolveCollisions m_collisionWorld (testBox position size) position.

End WithScalar.

(** [setupCollision]: the colliders after its four calls of
    [addStaticAABB], from [m_showroomSize]. *)
Definition setupCollision (m_showroomSize : Glm.vec3 F32.float) : list (AABB F32.float) :=
  let halfWidth := F32.div (Glm.x m_showroomSize) (F32.lit 2 1) in
  let halfDepth := F32.div (Glm.z m_showroomSize) (F32.lit 2 1) in
  let wallThickness := F32.lit 1 2 in
  let m_collisionWorld := @nil (AABB F32.float) in
  (* Back wall *)
  let m_collisionWorld :=
    fst (CollisionWorld.addStaticAABB m_collisionWorld
           (mkAABB (Glm.mkVec3 (F32.neg halfWidth) (F32.lit 0 1)
                               (F32.sub (F32.neg halfDepth) wallThickness))
                   (Glm.mkVec3 halfWidth (Glm.y m_showroomSize) (F32.neg halfDepth)))) in
  (* Front wall *)
  let m_collisionWorld :=
    fst (CollisionWorld.addStaticAABB m_collisionWorld
           (mkAABB (Glm.mkVec3 (F32.neg halfWidth) (F32.lit 0 1) halfDepth)
                   (Glm.mkVec3 halfWidth (Glm.y m_showroomSize)
                               (F32.add halfDepth wallThickness)))) in
  (* Left wall *)
  let m_collisionWorld :=
    fst (CollisionWorld.addStaticAABB m_collisionWorld
           (mkAABB (Glm.mkVec3 (F32.sub (F32.neg halfWidth) wallThickness) (F32.lit 0 1)
                               (F32.neg halfDepth))
                   (Glm.mkVec3 (F32.neg halfWidth) (Glm.y m_showroomSize) halfDepth))) in
  (* Right wall *)
  fst (CollisionWorld.addStaticAABB m_collisionWorld
         (mkAABB (Glm.mkVec3 halfWidth (F32.lit 0 1) (F32.neg halfDepth))
                 (Glm.mkVec3 (F32.add halfWidth wallThickness) (Glm.y m_showroomSize)
                             halfDepth))).

End ShowroomScene.

(** A vector, a box without a NaN component. *)
Definition numberVec (v : Glm.vec3 F32.float) : Prop :=
  F32.is_nan (Glm.x v) = false /\ F32.is_nan (Glm.y v) = false /\
  F32.is_nan (Glm.z v) = false.
Definition numberBox (a : AABB F32.float) : Prop := numberVec (min a) /\ numberVec (max a).

(** A box whose minimum corner is not above its maximum corner. *)
Definition wellFormed (a : AABB F32.float) : Prop :=
  F32.leb (Glm.x (min a)) (Glm.x (max a)) = true /\
  F32.leb (Glm.y (min a)) (Glm.y (max a)) = true /\
  F32.leb (Glm.z (min a)) (Glm.z (max a)) = true.

(** ** Input.h / Input.cpp *)

Module Input.

Inductive KeyState : Type := RELEASED | PRESSED | HELD | RELEASED_THIS_FRAME.

(** [std::unordered_map<int, KeyState>]: the entry found for a key is the
    last one assigned. *)
Definition keyMap : Type := list (Z * KeyState).

Fixpoint find (m : keyMap) (key : Z) : option KeyState :=
  match m with
  | [] => None
  | (k, v) :: m' => if (k =? key)%Z then Some v else find m' key
  end.

(** [m[key] = v] *)
Definition assign (m : keyMap) (key : Z) (v : KeyState) : keyMap := (key, v) :: m.

Definition GLFW_RELEASE : Z := 0.
Definition GLFW_PRESS : Z := 1.
Definition GLFW_REPEAT : Z := 2.

(** The members of [Input] that the functions below read or write; a
    callback is known by a name. *)
Record t : Type := mk {
  m_keyStates : keyMap;
  m_previousKeyStates : keyMap;
  m_mousePosition : Glm.vec2 F32.float;
  m_lastMousePosition : Glm.vec2 F32.float;
  m_mouseDelta : Glm.vec2 F32.float;
  m_firstMouse : bool;
  m_mouseButtonStates : keyMap;
  m_previousMouseButtonStates : keyMap;
  m_scrollOffset : F32.float;
  m_accumulatedScroll : F32.float;
  m_cursorCaptured : bool;
  m_keyPressCallbacks : list N }.

(** [it->second == KeyState::PRESSED || it->second == KeyState::HELD], for an
    entry that is there. *)
Definition down (m : keyMap) (key : Z) : bool :=
  match find m key with
  | Some PRESSED | Some HELD => true
  | _ => false
  end.

(** [update]: [currentPos] is the cursor position the window reports,
    converted to [float]. *)
Definition update (s : t) (currentPos : Glm.vec2 F32.float) : t :=
  let last := if m_firstMouse s then currentPos else m_lastMousePosition s in
  mk (m_keyStates s) (m_keyStates s)
     currentPos currentPos
     (Glm.mkVec2 (F32.sub (Glm.x2 currentPos) (Glm.x2 last))
                 (F32.sub (Glm.y2 currentPos) (Glm.y2 last)))
     false
     (m_mouseButtonStates s) (m_mouseButtonStates s)
     (m_accumulatedScroll s) (F32.lit 0 1)
     (m_cursorCaptured s) (m_keyPressCallbacks s).

Definition isKeyHeld (s : t) (key : Z) : bool := down (m_keyStates s) key.

Definition isKeyPressed (s : t) (key : Z) : bool :=
  let currentlyHeld := down (m_keyStates s) key in
  let previouslyHeld := down (m_previousKeyStates s) key in
  currentlyHeld && negb previouslyHeld.

Definition isKeyReleased (s : t) (key : Z) : bool :=
  let currentlyHeld := down (m_keyStates s) key in
  let previouslyHeld := down (m_previousKeyStates s) key in
  negb currentlyHeld && previouslyHeld.

Definition getKeyState (s : t) (key : Z) : KeyState :=
  match find (m_keyStates s) key with
  | Some v => v
  | None => RELEASED
  end.

Definition isMouseButtonHeld (s : t) (button : Z) : bool := down (m_mouseButtonStates s) button.

Definition isMouseButtonPressed (s : t) (button : Z) : bool :=
  let currentlyHeld := down (m_mouseButtonStates s) button in
  let previouslyHeld := down (m_previousMouseButtonStates s) button in
  currentlyHeld && negb previouslyHeld.

Definition set_keyStates (s : t) (v_keyStates : keyMap) : t :=
  mk v_keyStates (m_previousKeyStates s) (m_mousePosition s) (m_lastMousePosition s)
     (m_mouseDelta s) (m_firstMouse s) (m_mouseButtonStates s)
     (m_previousMouseButtonStates s) (m_scrollOffset s) (m_accumulatedScroll s)
     (m_cursorCaptured s) (m_keyPressCallbacks s).

(** [handleKey]: the state after the event and the callbacks notified, each
    with the key. *)
Definition handleKey (s : t) (key action : Z) : t * list (N * Z) :=
  if (action =? GLFW_PRESS)%Z then
    (set_keyStates s (assign (m_keyStates s) key PRESSED),
     map (fun callback => (callback, key)) (m_keyPressCallbacks s))
  else if (action =? GLFW_RELEASE)%Z then
    (set_keyStates s (assign (m_keyStates s) key RELEASED), [])
  else if (action =? GLFW_REPEAT)%Z then
    (set_keyStates s (assign (m_keyStates s) key HELD), [])
  else (s, []).

(** [captureCursor] and [releaseCursor] *)
Definition captureCursor (s : t) : t :=
  mk (m_keyStates s) (m_previousKeyStates s) (m_mousePosition s) (m_lastMousePosition s)
     (m_mouseDelta s) true (m_mouseButtonStates s)
     (m_previousMouseButtonStates s) (m_scrollOffset s) (m_accumulatedScroll s)
     true (m_keyPressCallbacks s).

Definition releaseCursor (s : t) : t :=
  mk (m_keyStates s) (m_previousKeyStates s) (m_mousePosition s) (m_lastMousePosition s)
     (m_mouseDelta s) (m_firstMouse s) (m_mouseButtonStates s)
     (m_previousMouseButtonStates s) (m_scrollOffset s) (m_accumulatedScroll s)
     false (m_keyPressCallbacks s).

End Input.

(** ** Mesh.h / Mesh.cpp: the mesh generators *)

Module MeshGenerator.

Record Vertex : Type := mkVertex {
  Position : Glm.vec3 F32.float;
  Normal : Glm.vec3 F32.float;
  TexCoords : Glm.vec2 F32.float }.

(** What a generator hands to the constructor of [Mesh]: the vertices and
    the indices.  An [int] is a [Z]; no [int] of the generators wraps around
    for the sizes the properties are stated for. *)
Record MeshData : Type := mkMeshData {
  vertices : list Vertex;
  indices : list Z }.

(** The values of [j] in [for (int j = 0; j <= n; ++j)] and in
    [for (int j = 0; j < n; ++j)]. *)
Definition upTo (n : Z) : list Z := map Z.of_nat (seq 0 (Z.to_nat (n + 1))).
Definition below (n : Z) : list Z := map Z.of_nat (seq 0 (Z.to_nat n)).

Section WithLibm.
Context `{Libm}.

(** [createCylinder]; [cosf] and [sinf] are those of libm. *)
Definition createCylinder (radius height : F32.float) (sectors : Z) : MeshData :=
  let halfHeight := F32.div height (F32.lit 2 1) in
  let sectorStep := F32.div (F32.mul (F32.of_Z 2) F32.lit_pi) (F32.of_Z sectors) in
  (* Side vertices *)
  let side (i : Z) :=
    let y := if (i =? 0)%Z then F32.neg halfHeight else halfHeight in
    let v := F32.of_Z i in
    map (fun j =>
           let sectorAngle := F32.mul (F32.of_Z j) sectorStep in
           let x := F32.mul radius (m_cos sectorAngle) in
           let z := F32.mul radius (m_sin sectorAngle) in
           mkVertex (Glm.mkVec3 x y z)
                    (Glm.normalize (Glm.mkVec3 x (F32.of_Z 0) z))
                    (Glm.mkVec2 (F32.div (F32.of_Z j) (F32.of_Z sectors)) v))
        (upTo sectors) in
  let vertices := flat_map side (upTo 1) in
  (* Side indices *)
  let indices :=
    flat_map (fun j =>
                let k1 := j in
                let k2 := j + sectors + 1 in
                [k1; k2; k1 + 1; k1 + 1; k2; k2 + 1])
             (below sectors) in
  (* Top cap *)
  let cap (centreY : F32.float) (up : Glm.vec3 F32.float) :=
    mkVertex (Glm.mkVec3 (F32.of_Z 0) centreY (F32.of_Z 0)) up
             (Glm.mkVec2 (F32.lit 1 2) (F32.lit 1 2))
    :: map (fun j =>
              let sectorAngle := F32.mul (F32.of_Z j) sectorStep in
              let x := F32.mul radius (m_cos sectorAngle) in
              let z := F32.mul radius (m_sin sectorAngle) in
              mkVertex (Glm.mkVec3 x centreY z) up
                       (Glm.mkVec2
                          (F32.add (F32.lit 1 2) (F32.mul (F32.lit 1 2) (m_cos sectorAngle)))
                          (F32.add (F32.lit 1 2) (F32.mul (F32.lit 1 2) (m_sin sectorAngle)))))
           (upTo sectors) in
  let baseIndex := Z.of_nat (List.length vertices) in
  let vertices := vertices ++ cap halfHeight (vec3i 0 1 0) in
  let indices :=
    indices ++ flat_map (fun j => [baseIndex; baseIndex + j + 2; baseIndex + j + 1])
                        (below sectors) in
  (* Bottom cap *)
  let baseIndex := Z.of_nat (List.length vertices) in
  let vertices := vertices ++ cap (F32.neg halfHeight) (vec3i 0 (-1) 0) in
  let indices :=
    indices ++ flat_map (fun j => [baseIndex; baseIndex + j + 1; baseIndex + j + 2])
                        (below sectors) in
  mkMeshData vertices indices.

(** [createWheel] *)
Definition createWheel (radius width : F32.float) : MeshData :=
  createCylinder radius width 24.

(** One turn of the inner loop of the indices of [createSphere]; the state
    is [k1], [k2] and the indices. *)
Definition sphereQuad (stacks i : Z) (st : Z * Z * list Z) (j : Z) : Z * Z * list Z :=
  let '(k1, k2, indices) := st in
  let indices := if negb (i =? 0)%Z then indices ++ [k1; k2; k1 + 1] else indices in
  let indices :=
    if negb (i =? stacks - 1)%Z then indices ++ [k1 + 1; k2; k2 + 1] else indices in
  (k1 + 1, k2 + 1, indices).

(** One turn of the outer loop. *)
Definition sphereStack (sectors stacks : Z) (indices : list Z) (i : Z) : list Z :=
  let k1 := i * (sectors + 1) in
  let k2 := k1 + sectors + 1 in
  snd (fold_left (sphereQuad stacks i) (below sectors) (k1, k2, indices)).

(** [createSphere] *)
Definition createSphere (radius : F32.float) (sectors stacks : Z) : MeshData :=
  let sectorStep := F32.div (F32.mul (F32.of_Z 2) F32.lit_pi) (F32.of_Z sectors) in
  let stackStep := F32.div F32.lit_pi (F32.of_Z stacks) in
  let vertices :=
    flat_map (fun i =>
                let stackAngle :=
                  F32.sub (F32.div F32.lit_pi (F32.of_Z 2)) (F32.mul (F32.of_Z i) stackStep) in
                let xy := F32.mul radius (m_cos stackAngle) in
                let z := F32.mul radius (m_sin stackAngle) in
                map (fun j =>
                       let sectorAngle := F32.mul (F32.of_Z j) sectorStep in
                       let x := F32.mul xy (m_cos sectorAngle) in
                       let y := F32.mul xy (m_sin sectorAngle) in
                       let pos := Glm.mkVec3 x z y in
                       mkVertex pos (Glm.normalize pos)
                                (Glm.mkVec2 (F32.div (F32.of_Z j) (F32.of_Z sectors))
                                            (F32.div (F32.of_Z i) (F32.of_Z stacks))))
                    (upTo sectors))
             (upTo stacks) in
  let indices := fold_left (sphereStack sectors stacks) (below stacks) [] in
  mkMeshData vertices indices.

End WithLibm.

(** The indices the stack [i] of the sphere contributes for one sector, from
    the values [k1] and [k2] of that turn. *)
Definition sphereQuadAt (stacks i k1 k2 : Z) : list Z :=
  (if negb (i =? 0)%Z then [k1; k2; k1 + 1] else [])
  ++ (if negb (i =? stacks - 1)%Z then [k1 + 1; k2; k2 + 1] else []).

(** Every index names a vertex. *)
Definition indicesInRange (m : MeshData) : Prop :=
  Forall (fun k => 0 <= k < Z.of_nat (List.length (vertices m))) (indices m).

End MeshGenerator.

(** ** [BoundingSphere] (Collision.h / Collision.cpp) *)

Module BoundingSphere.

Record t : Type := mk {
  center : Glm.vec3 F32.float;
  radius : F32.float }.

(** [BoundingSphere::containsPoint]: [glm::length(point - center) <= radius] *)
Definition containsPoint (s : t) (point : Glm.vec3 F32.float) : bool :=
  F32.leb (Glm.length (Glm.sub point (center s))) (radius s).

End BoundingSphere.

(** ** Shader.h / Shader.cpp: who owns the program *)

Module Shader.

(** A shader object is its member [m_programID]; 0 is no program. *)
Definition t : Type := Z.

Inductive GLCall : Type := GlDeleteProgram (program : Z).

(** [~Shader]: what the destructor asks of the graphics API. *)
Definition destroy (m_programID : t) : list GLCall :=
  if negb (m_programID =? 0)%Z then [GlDeleteProgram m_programID] else [].

(** The shader objects alive, each at its address (its place in the list). *)
Definition store : Type := list t.

(** The store with [v] written at the address [i]. *)
Definition assign (s : store) (i : nat) (v : t) : store :=
  firstn i s ++ v :: skipn (S i) s.

(** [Shader(Shader&& other)], which makes a new object, and
    [operator=(Shader&& other)] on the object at [this]; an address that holds
    no object makes no operation. *)
Inductive op : Type :=
| MoveConstruct (other : nat)
| MoveAssign (this other : nat).

Definition step (st : store * list GLCall) (o : op) : store * list GLCall :=
  match o with
  | MoveConstruct other =>
      match nth_error (fst st) other with
      | Some theirs => (assign (fst st) other 0 ++ [theirs], snd st)
      | None => st
      end
  | MoveAssign this other =>
      match nth_error (fst st) this, nth_error (fst st) other with
      | Some mine, Some theirs =>
          if negb (this =? other)%nat
          then (assign (assign (fst st) this theirs) other 0, snd st ++ destroy mine)
          else st
      | _, _ => st
      end
  end.

Definition run (s : store) (ops : list op) : store * list GLCall := fold_left step ops (s, []).

(** The destructors of all the objects of the store. *)
Definition destroyAll (s : store) : list GLCall := flat_map destroy s.

End Shader.

(** ** The words of the further properties *)

(** The state of the loop of [testRayVsAABB] is in order:
    [0 <= tmin <= tmax <= FLT_MAX]. *)
Definition slabOrdered (st : F32.float * F32.float) : Prop :=
  F32.leb (F32.lit 0 1) (fst st) = true /\ F32.leb (fst st) (snd st) = true /\
  F32.leb (snd st) F32.FLT_MAX = true.

(** What [raycast] answers, [r], for the boxes [w], the ray, the greatest
    distance and the caller's [hitIndex]: on a hit, the index of a box the ray
    enters at the distance [hitT], below the greatest distance, no box being
    entered nearer and every box before it being entered strictly farther; on
    no hit, the greatest distance and the caller's index, no box being entered
    below the greatest distance. *)
Definition nearestHit (w : list (AABB F32.float)) (ray : Collision.Ray)
                      (maxDistance : F32.float) (hitIndex0 : nat)
                      (r : bool * F32.float * nat) : Prop :=
  let anyHit := fst (fst r) in
  let hitT := snd (fst r) in
  let hitIndex := snd r in
  if anyHit then
    exists box,
      nth_error w hitIndex = Some box /\
      Collision.testRayVsAABB ray box = Some hitT /\
      F32.ltb hitT maxDistance = true /\
      (forall i b t, nth_error w i = Some b -> Collision.testRayVsAABB ray b = Some t ->
                     F32.ltb t hitT = false) /\
      (forall i b t, (i < hitIndex)%nat -> nth_error w i = Some b ->
                     Collision.testRayVsAABB ray b = Some t -> F32.ltb hitT t = true)
  else
    hitT = maxDistance /\ hitIndex = hitIndex0 /\
    (forall i b t, nth_error w i = Some b -> Collision.testRayVsAABB ray b = Some t ->
                   F32.ltb t maxDistance = false).

(* ================================================================== *)
(** * Part II: the properties                                          *)
(* ================================================================== *)

(** ** The literals are the floats the compiler stores *)

Lemma lit_values_nearest :
  F32.nearest (1 # 1000) (F32.lit 1 1000) = true /\
  F32.nearest (1 # 2) (F32.lit 1 2) = true /\
  F32.nearest (1 # 10) (F32.lit 1 10) = true /\
  F32.nearest (3 # 10) (F32.lit 3 10) = true /\
  F32.nearest (314159265359 # 100000000000) F32.lit_pi = true /\
  F32.nearest (1745329251994329576923690768489 # 100000000000000000000000000000000)
              F32.lit_deg2rad = true.
Proof. vm_compute. repeat split. Qed.

(** ** The comparisons of binary32 *)

Lemma ltbP x y : reflect (F32.LT x y) (F32.ltb x y).
Proof.
  apply iff_reflect. unfold F32.ltb, SFltb, F32.LT, F32.nanz.
  destruct x as [sx|sx| |sx mx ex], y as [sy|sy| |sy my ey]; simpl;
    try destruct sx; try destruct sy; simpl;
    try rewrite Pos.compare_cont_spec; simpl;
    try (destruct (Z.compare_spec ex ey); destruct (Pos.compare_spec mx my); simpl);
    split; intros; try discriminate; try reflexivity; try lia.
Qed.

Lemma lebP x y : reflect (F32.LE x y) (F32.leb x y).
Proof.
  apply iff_reflect. unfold F32.leb, SFleb, F32.LE, F32.nanz.
  destruct x as [sx|sx| |sx mx ex], y as [sy|sy| |sy my ey]; simpl;
    try destruct sx; try destruct sy; simpl;
    try rewrite Pos.compare_cont_spec; simpl;
    try (destruct (Z.compare_spec ex ey); destruct (Pos.compare_spec mx my); simpl);
    split; intros; try discriminate; try reflexivity; try lia.
Qed.

Lemma is_nan_nanz x : F32.is_nan x = false <-> F32.nanz x = 0.
Proof.
  unfold F32.nanz. destruct (F32.is_nan x); split; intros; try discriminate; try lia; reflexivity.
Qed.

Lemma is_finite_not_nan x : F32.is_finite x = true -> F32.is_nan x = false.
Proof. destruct x; simpl; intros; try discriminate; reflexivity. Qed.

(** Every comparison of the context and of the goal becomes a fact on the
    integer keys, which [lia] decides. *)
Ltac fnorm := cbn [s_ltb s_leb s_add s_sub s_mul s_lit Scalar_float] in *.

Ltac forder_hyps :=
  repeat match goal with
  | H : F32.ltb ?x ?y = true |- _ => apply (reflect_iff _ _ (ltbP x y)) in H
  | H : F32.leb ?x ?y = true |- _ => apply (reflect_iff _ _ (lebP x y)) in H
  | H : F32.ltb ?x ?y = false |- _ =>
      let H' := fresh in
      assert (H' : ~ F32.LT x y) by (destruct (ltbP x y); [discriminate H | assumption]);
      clear H
  | H : F32.leb ?x ?y = false |- _ =>
      let H' := fresh in
      assert (H' : ~ F32.LE x y) by (destruct (lebP x y); [discriminate H | assumption]);
      clear H
  | H : F32.is_nan ?x = false |- _ => apply is_nan_nanz in H
  end.

Ltac forder_goal :=
  repeat match goal with
  | |- context [F32.ltb ?x ?y] => destruct (ltbP x y)
  | |- context [F32.leb ?x ?y] => destruct (lebP x y)
  | |- F32.is_nan ?x = false => apply is_nan_nanz
  end.

Ltac forder :=
  unfold F32.gtb, F32.geb, s_gtb in *; fnorm;
  forder_hyps; forder_goal; unfold F32.LT, F32.LE in *;
  cbn [F32.nanz F32.is_nan F32.k1 F32.k2 F32.k3] in *;
  first [discriminate | reflexivity | lia].

Lemma ltb_trans x y z : F32.ltb x y = true -> F32.ltb y z = true -> F32.ltb x z = true.
Proof. intros. forder. Qed.

Lemma ltb_irrefl x : F32.ltb x x = false.
Proof. forder. Qed.

Lemma leb_total x y :
  F32.is_nan x = false -> F32.is_nan y = false -> F32.leb x y = negb (F32.ltb y x).
Proof. intros. forder. Qed.

(** ** No NaN out of finite operands *)

Lemma iter_pos_inv (A : Type) (P : A -> Prop) (f : A -> A) :
  (forall a, P a -> P (f a)) -> forall n a, P a -> P (iter_pos f n a).
Proof. intros Hf. induction n; simpl; intros a Ha; auto. Qed.

Lemma shr_1_nonneg mrs : 0 <= shr_m mrs -> 0 <= shr_m (shr_1 mrs).
Proof.
  destruct mrs as [m r s]; simpl. destruct m as [|p|p]; simpl; try lia.
  destruct p; simpl; lia.
Qed.

Lemma shr_nonneg mrs e n : 0 <= shr_m mrs -> 0 <= shr_m (fst (shr mrs e n)).
Proof.
  intros Hm. unfold shr. destruct n; simpl; auto.
  apply iter_pos_inv with (P := fun r => 0 <= shr_m r); auto using shr_1_nonneg.
Qed.

Lemma shr_fexp_nonneg p e m ex l : 0 <= m -> 0 <= shr_m (fst (shr_fexp p e m ex l)).
Proof.
  intros Hm. unfold shr_fexp. apply shr_nonneg. destruct l as [|[ | | ]]; simpl; auto.
Qed.

Lemma round_nearest_even_nonneg m l : 0 <= m -> 0 <= round_nearest_even m l.
Proof.
  unfold round_nearest_even. destruct l as [|[ | | ]]; try destruct (Z.even m); lia.
Qed.

Lemma binary_round_aux_not_nan p e sx mx ex lx :
  0 <= mx -> F32.is_nan (binary_round_aux p e sx mx ex lx) = false.
Proof.
  intros Hm. unfold binary_round_aux.
  pose proof (@shr_fexp_nonneg p e mx ex lx Hm) as H1.
  destruct (shr_fexp p e mx ex lx) as [mrs' e'] eqn:E1. simpl in H1.
  pose proof (@shr_fexp_nonneg p e _ e' loc_Exact
                (@round_nearest_even_nonneg _ (loc_of_shr_record mrs') H1)) as H2.
  destruct (shr_fexp p e _ e' loc_Exact) as [mrs'' e''] eqn:E2. simpl in H2.
  destruct (shr_m mrs'') as [|q|q]; try reflexivity.
  - destruct (e'' <=? e - p); reflexivity.
  - lia.
Qed.

Lemma binary_normalize_not_nan p e m ex s :
  F32.is_nan (binary_normalize p e m ex s) = false.
Proof.
  unfold binary_normalize, binary_round. destruct m; try reflexivity;
  destruct (shl_align _ _ _); apply binary_round_aux_not_nan; lia.
Qed.

Lemma sub_finite_not_nan x y :
  F32.is_finite x = true -> F32.is_finite y = true -> F32.is_nan (F32.sub x y) = false.
Proof.
  destruct x as [sx|sx| |sx mx ex], y as [sy|sy| |sy my ey]; simpl;
    try discriminate; intros _ _.
  - destruct sx, sy; reflexivity.
  - reflexivity.
  - reflexivity.
  - apply binary_normalize_not_nan.
Qed.

Lemma add_finite_not_nan x y :
  F32.is_finite x = true -> F32.is_finite y = true -> F32.is_nan (F32.add x y) = false.
Proof.
  destruct x as [sx|sx| |sx mx ex], y as [sy|sy| |sy my ey]; simpl;
    try discriminate; intros _ _.
  - destruct sx, sy; reflexivity.
  - reflexivity.
  - reflexivity.
  - apply binary_normalize_not_nan.
Qed.

Lemma mul_finite_not_nan x y :
  F32.is_finite x = true -> F32.is_finite y = true -> F32.is_nan (F32.mul x y) = false.
Proof.
  destruct x as [sx|sx| |sx mx ex], y as [sy|sy| |sy my ey]; simpl;
    try discriminate; intros _ _; try reflexivity.
  apply binary_round_aux_not_nan. lia.
Qed.

(** ** Collision: the pairwise response *)

Lemma min_not_nan x y :
  F32.is_nan x = false -> F32.is_nan y = false -> F32.is_nan (Std.min x y) = false.
Proof. intros Hx Hy. unfold Std.min. destruct (s_ltb y x); assumption. Qed.

Lemma axisOverlap_not_nan (a b : AABB F32.float) k :
  finiteBox a -> finiteBox b -> F32.is_nan (axisOverlap a b k) = false.
Proof.
  intros [[? [? ?]] [? [? ?]]] [[? [? ?]] [? [? ?]]].
  unfold axisOverlap. apply min_not_nan; destruct k; simpl; apply sub_finite_not_nan; assumption.
Qed.

Lemma pickAxis_smallest (o : Axis -> F32.float) :
  (forall k, F32.is_nan (o k) = false) ->
  let k := pickAxis (o AxisX) (o AxisY) (o AxisZ) in
  (forall j, F32.leb (o k) (o j) = true) /\
  (forall j, (priority j < priority k)%nat -> F32.ltb (o k) (o j) = true).
Proof.
  intros N. pose proof (N AxisX) as Nx. pose proof (N AxisY) as Ny. pose proof (N AxisZ) as Nz.
  unfold pickAxis. cbn [s_leb Scalar_float].
  destruct (F32.leb (o AxisX) (o AxisY)) eqn:Exy;
    destruct (F32.leb (o AxisX) (o AxisZ)) eqn:Exz; cbn [andb]; cbv iota.
  1: split; intros [ | | ]; cbn [priority]; intros; try lia; forder.
  all: destruct (F32.leb (o AxisY) (o AxisX)) eqn:Eyx;
    destruct (F32.leb (o AxisY) (o AxisZ)) eqn:Eyz; cbn [andb]; cbv iota;
    split; intros [ | | ]; cbn [priority]; intros; try lia; forder.
Qed.

(** C3.  For boxes of finite floats that overlap, the response names the axis
    of smallest overlap (X before Y before Z on ties), its normal is the unit
    vector along that axis pushing [a] away from the centre of [b], its
    penetration is the overlap on that axis and its contact point is the
    midpoint of the intersection region; for a = [(-1,-1,-1),(1,1,1)] and
    b = [(0.5,-1,-1),(2.5,1,1)] this is the X axis, normal (-1,0,0),
    penetration 0.5. *)
Theorem response_picks_smallest_overlap_axis :
  (forall a b : AABB F32.float,
      finiteBox a -> finiteBox b ->
      Collision.testAABBvsAABB a b = true ->
      exists k,
        smallestOverlapAxis a b k /\
        Collision.testAABBvsAABBResponse a b =
          mkCollisionResult true (overlapMidpoint a b) (awayNormal a b k) (axisOverlap a b k)) /\
  (let a := mkAABB (vec3i (-1) (-1) (-1)) (vec3i 1 1 1) in
   let b := mkAABB (vec3f (1, 2%positive) (-1, 1%positive) (-1, 1%positive))
                   (vec3f (5, 2%positive) (1, 1%positive) (1, 1%positive)) in
   smallestOverlapAxis a b AxisX /\
   Collision.testAABBvsAABBResponse a b =
     mkCollisionResult true
       (vec3f (75, 100%positive) (0, 1%positive) (0, 1%positive))
       (vec3i (-1) 0 0) (F32.lit 5 10)).
Proof.
  split.
  - intros a b Ha Hb Hov.
    exists (pickAxis (axisOverlap a b AxisX) (axisOverlap a b AxisY) (axisOverlap a b AxisZ)).
    split.
    + apply (pickAxis_smallest (axisOverlap a b)).
      intros k. apply axisOverlap_not_nan; assumption.
    + unfold Collision.testAABBvsAABBResponse. rewrite Hov. cbn [negb].
      change (Collision.overlapX a b) with (axisOverlap a b AxisX).
      change (Collision.overlapY a b) with (axisOverlap a b AxisY).
      change (Collision.overlapZ a b) with (axisOverlap a b AxisZ).
      unfold pickAxis.
      destruct ((axisOverlap a b AxisX <=? axisOverlap a b AxisY)%s
                && (axisOverlap a b AxisX <=? axisOverlap a b AxisZ)%s); [reflexivity|].
      destruct ((axisOverlap a b AxisY <=? axisOverlap a b AxisX)%s
                && (axisOverlap a b AxisY <=? axisOverlap a b AxisZ)%s); reflexivity.
  - cbv zeta. split.
    + split; intros [ | | ]; cbn [priority]; intros; try lia; vm_compute; reflexivity.
    + vm_compute. reflexivity.
Qed.

(** ** Collision: the deepest hit against the static boxes *)

Lemma hit_pairwise (F : Type) `{Scalar F} (a b : AABB F) :
  hit (pairwise a b) = Collision.testAABBvsAABB a b.
Proof.
  unfold pairwise, Collision.testAABBvsAABBResponse.
  destruct (Collision.testAABBvsAABB a b); cbn [negb]; [|reflexivity].
  destruct (_ && _); [reflexivity|]. destruct (_ && _); reflexivity.
Qed.

Lemma testAgainstStatic_snoc (F : Type) `{Scalar F} (w : list (AABB F)) (b a : AABB F) :
  CollisionWorld.testAgainstStatic (w ++ [b]) a =
  CollisionWorld.deeper a (CollisionWorld.testAgainstStatic w a) b.
Proof. unfold CollisionWorld.testAgainstStatic. rewrite fold_left_app. reflexivity. Qed.

Lemma zero_lit : F32.lit 0 1 = S754_zero false.
Proof. reflexivity. Qed.

(** C2, as amended.  [testAgainstStatic] answers with the pairwise result of
    the static box of greatest strictly positive penetration, the earliest
    one on a tie, and with the initial non-hit (penetration 0) when no static
    box overlaps with strictly positive penetration. *)
Theorem testAgainstStatic_deepest_positive (w : list (AABB F32.float)) (a : AABB F32.float) :
  deepestPositiveOverlap w a.
Proof.
  unfold deepestPositiveOverlap.
  induction w as [|b w IH] using rev_ind.
  - left. split; [intros b []|reflexivity].
  - rewrite testAgainstStatic_snoc. unfold CollisionWorld.deeper.
    fold (pairwise a b). rewrite hit_pairwise.
    set (r := CollisionWorld.testAgainstStatic w a) in *.
    cbn [s_lit s_ltb s_leb Scalar_float] in *. rewrite zero_lit in *.
    destruct (Collision.testAABBvsAABB a b) eqn:Hov; cbn [andb].
    2:{ (* [b] does not overlap: the answer for [w] stands *)
      destruct IH as [[Hnone Hr] | (k & b0 & Hk & Hr & Hov0 & Hpos & Hmax & Hfirst)].
      - left. split; [|assumption].
        intros c Hc Hovc. apply in_app_or in Hc. destruct Hc as [Hc|[Hc|[]]].
        + auto.
        + subst c. congruence.
      - right. exists k, b0. split; [|split; [|split; [|split; [|split]]]]; auto.
        + rewrite nth_error_app1; [assumption|]. apply nth_error_Some. congruence.
        + intros j c Hj Hovc.
          destruct (Nat.lt_ge_cases j (List.length w)) as [Hlt|Hge].
          * rewrite nth_error_app1 in Hj by assumption. eauto.
          * rewrite nth_error_app2 in Hj by assumption.
            destruct (j - List.length w)%nat as [|n]; cbn in Hj.
            -- inversion Hj; subst c. congruence.
            -- destruct n; discriminate.
        + intros j c Hjk Hj Hovc.
          assert (k < List.length w)%nat by (apply nth_error_Some; congruence).
          rewrite nth_error_app1 in Hj by lia. eauto. }
    unfold s_gtb. cbn [s_ltb Scalar_float].
    destruct (F32.ltb (penetration r) (penetration (pairwise a b))) eqn:Hdeeper.
    + (* [b] is strictly deeper: it becomes the answer *)
      right. exists (List.length w), b.
      assert (Hpos : F32.ltb (S754_zero false) (penetration (pairwise a b)) = true).
      { destruct IH as [[Hnone Hr] | (k & b0 & Hk & Hr & Hov0 & Hpos & Hmax & Hfirst)].
        - rewrite Hr in Hdeeper. cbn [penetration CollisionResult_init s_lit Scalar_float] in Hdeeper.
          rewrite zero_lit in Hdeeper. exact Hdeeper.
        - forder. }
      split; [|split; [|split; [|split; [|split]]]]; auto.
      * rewrite nth_error_app2 by lia. rewrite Nat.sub_diag. reflexivity.
      * intros j c Hj Hovc.
        destruct (Nat.lt_ge_cases j (List.length w)) as [Hlt|Hge].
        -- rewrite nth_error_app1 in Hj by assumption.
           destruct IH as [[Hnone Hr] | (k & b0 & Hk & Hr & Hov0 & Hpos0 & Hmax & Hfirst)].
           ++ assert (Hc : F32.ltb (S754_zero false) (penetration (pairwise a c)) = false)
                by (apply Hnone; [eapply nth_error_In; eassumption | assumption]).
              forder.
           ++ pose proof (Hmax j c Hj Hovc) as Hc. forder.
        -- rewrite nth_error_app2 in Hj by assumption.
           destruct (j - List.length w)%nat as [|n]; cbn in Hj.
           ++ inversion Hj; subst c. apply ltb_irrefl.
           ++ destruct n; discriminate.
      * intros j c Hjk Hj Hovc.
        rewrite nth_error_app1 in Hj by assumption.
        destruct IH as [[Hnone Hr] | (k & b0 & Hk & Hr & Hov0 & Hpos0 & Hmax & Hfirst)].
        -- assert (Hc : F32.ltb (S754_zero false) (penetration (pairwise a c)) = false)
             by (apply Hnone; [eapply nth_error_In; eassumption | assumption]).
           forder.
        -- pose proof (Hmax j c Hj Hovc) as Hc. forder.
    + (* [b] overlaps but is not strictly deeper: the answer for [w] stands *)
      destruct IH as [[Hnone Hr] | (k & b0 & Hk & Hr & Hov0 & Hpos & Hmax & Hfirst)].
      * left. split; [|assumption].
        intros c Hc Hovc. apply in_app_or in Hc. destruct Hc as [Hc|[Hc|[]]].
        -- auto.
        -- subst c. rewrite Hr in Hdeeper.
           cbn [penetration CollisionResult_init s_lit Scalar_float] in Hdeeper.
           rewrite zero_lit in Hdeeper. exact Hdeeper.
      * right. exists k, b0. split; [|split; [|split; [|split; [|split]]]]; auto.
        -- rewrite nth_error_app1; [assumption|]. apply nth_error_Some. congruence.
        -- intros j c Hj Hovc.
           destruct (Nat.lt_ge_cases j (List.length w)) as [Hlt|Hge].
           ++ rewrite nth_error_app1 in Hj by assumption. eauto.
           ++ rewrite nth_error_app2 in Hj by assumption.
              destruct (j - List.length w)%nat as [|n]; cbn in Hj.
              ** inversion Hj; subst c. exact Hdeeper.
              ** destruct n; discriminate.
        -- intros j c Hjk Hj Hovc.
           assert (k < List.length w)%nat by (apply nth_error_Some; congruence).
           rewrite nth_error_app1 in Hj by lia. eauto.
Qed.

(** C2 as stated fails for a box that only touches a wall: the slab test
    counts the wall as overlapping, its penetration 0 is the greatest there is,
    and the answer is still the initial non-hit. *)
Lemma testAgainstStatic_touching_counterexample :
  ~ deepestOverlapAsStated
      [mkAABB (vec3i 1 0 0) (vec3i 2 1 1)]
      (mkAABB (vec3i 0 0 0) (vec3i 1 1 1)).
Proof.
  intros [Hhit _].
  specialize (Hhit 0%nat (mkAABB (vec3i 1 0 0) (vec3i 2 1 1)) eq_refl eq_refl).
  assert (Heq : CollisionWorld.testAgainstStatic
                  [mkAABB (vec3i 1 0 0) (vec3i 2 1 1)] (mkAABB (vec3i 0 0 0) (vec3i 1 1 1))
                = pairwise (mkAABB (vec3i 0 0 0) (vec3i 1 1 1))
                           (mkAABB (vec3i 1 0 0) (vec3i 2 1 1))).
  { apply Hhit.
    - intros [|[|j]] c Hj Hc; cbn in Hj; try discriminate.
      inversion Hj; subst c. vm_compute. reflexivity.
    - intros j c Hlt. lia. }
  vm_compute in Heq. discriminate Heq.
Qed.

(** ** Collision: the resolution loop *)

Lemma response_shape (F : Type) `{Scalar F} (a b : AABB F) :
  Collision.testAABBvsAABB a b = true ->
  pairwise a b =
  mkCollisionResult true (overlapMidpoint a b)
    (awayNormal a b (pickAxis (axisOverlap a b AxisX) (axisOverlap a b AxisY)
                              (axisOverlap a b AxisZ)))
    (axisOverlap a b (pickAxis (axisOverlap a b AxisX) (axisOverlap a b AxisY)
                               (axisOverlap a b AxisZ))).
Proof.
  intros Hov.
  unfold pairwise, Collision.testAABBvsAABBResponse. rewrite Hov. cbn [negb].
  change (Collision.overlapX a b) with (axisOverlap a b AxisX).
  change (Collision.overlapY a b) with (axisOverlap a b AxisY).
  change (Collision.overlapZ a b) with (axisOverlap a b AxisZ).
  unfold pickAxis.
  destruct ((axisOverlap a b AxisX <=? axisOverlap a b AxisY)%s
            && (axisOverlap a b AxisX <=? axisOverlap a b AxisZ)%s); [reflexivity|].
  destruct ((axisOverlap a b AxisY <=? axisOverlap a b AxisX)%s
            && (axisOverlap a b AxisY <=? axisOverlap a b AxisZ)%s); reflexivity.
Qed.

Lemma resolveLoop_pushes (F : Type) `{Scalar F} (w : list (AABB F)) (n : nat) :
  forall (pos : Glm.vec3 F) (box : AABB F),
  exists ps,
    (List.length ps <= n)%nat /\
    pushesFrom w box ps /\
    CollisionWorld.resolveLoop n w pos box
      = (fold_left Glm.add ps pos, fold_left translated ps box) /\
    (List.length ps = n \/
     hit (CollisionWorld.testAgainstStatic w (fold_left translated ps box)) = false).
Proof.
  induction n as [|n IH]; intros pos box.
  - exists []. cbn. repeat split; auto. constructor.
  - cbn [CollisionWorld.resolveLoop].
    destruct (hit (CollisionWorld.testAgainstStatic w box)) eqn:Hhit; cbn [negb].
    + fold (pushOf (CollisionWorld.testAgainstStatic w box)).
      destruct (IH (Glm.add pos (pushOf (CollisionWorld.testAgainstStatic w box)))
                   (translated box (pushOf (CollisionWorld.testAgainstStatic w box))))
        as (ps & Hlen & Hps & Heq & Hend).
      exists (pushOf (CollisionWorld.testAgainstStatic w box) :: ps).
      cbn [List.length fold_left]. repeat split.
      * lia.
      * constructor; assumption.
      * exact Heq.
      * destruct Hend as [Hend|Hend]; [left; lia | right; exact Hend].
    + exists []. cbn [List.length fold_left]. repeat split.
      * lia.
      * constructor.
      * right. exact Hhit.
Qed.

(** ** Rounding: what [SpecFloat] computes, as numbers *)

Lemma digits2_size (p : positive) : digits2_pos p = Pos.size p.
Proof. induction p as [p IH|p IH|]; cbn; congruence. Qed.

Lemma digits2_bounds (p : positive) :
  2 ^ (Zpos (digits2_pos p) - 1) <= Zpos p < 2 ^ Zpos (digits2_pos p).
Proof.
  rewrite digits2_size. split.
  - pose proof (Pos.size_le p) as H.
    assert (H' : 2 ^ Zpos (Pos.size p) <= 2 * Zpos p).
    { change 2 with (Zpos 2) at 1. rewrite <- Pos2Z.inj_pow. 
      change (2 * Zpos p) with (Zpos (p~0)). apply Pos2Z.pos_le_pos. exact H. }
    replace (Zpos (Pos.size p)) with (Z.succ (Zpos (Pos.size p) - 1)) in H' by lia.
    rewrite Z.pow_succ_r in H' by lia. lia.
  - pose proof (Pos.size_gt p) as H.
    change 2 with (Zpos 2). rewrite <- Pos2Z.inj_pow. apply Pos2Z.pos_lt_pos. exact H.
Qed.

Lemma pow2_pos (k : Z) : 0 <= k -> 0 < 2 ^ k.
Proof. intros. apply Z.pow_pos_nonneg; lia. Qed.

Lemma pow2_le (a b : Z) : 0 <= a <= b -> 2 ^ a <= 2 ^ b.
Proof. intros. apply Z.pow_le_mono_r; lia. Qed.

Lemma pow2_lt (a b : Z) : 0 <= a < b -> 2 ^ a < 2 ^ b.
Proof. intros. apply Z.pow_lt_mono_r; lia. Qed.

Lemma pow2_succ (k : Z) : 0 <= k -> 2 ^ (k + 1) = 2 * 2 ^ k.
Proof. intros. rewrite Z.pow_add_r by lia. lia. Qed.

Lemma digits2_unique (p : positive) (d : Z) :
  2 ^ (d - 1) <= Zpos p < 2 ^ d -> 0 < d -> Zpos (digits2_pos p) = d.
Proof.
  intros [Hl Hu] Hd. pose proof (digits2_bounds p) as [Hl' Hu'].
  set (d' := Zpos (digits2_pos p)) in *. assert (0 < d') by (unfold d'; lia).
  destruct (Z.lt_trichotomy d' d) as [Hlt|[Heq|Hgt]]; [|exact Heq|].
  - assert (2 ^ d' <= 2 ^ (d - 1)) by (apply pow2_le; lia). lia.
  - assert (2 ^ d <= 2 ^ (d' - 1)) by (apply pow2_le; lia). lia.
Qed.

(** ** Shifting right *)

Lemma iter_pos_iter (A : Type) (f : A -> A) (n : positive) (x : A) :
  iter_pos f n x = Pos.iter f x n.
Proof.
  revert x. induction n as [n IH|n IH|]; intros x; cbn.
  - rewrite !IH. rewrite <- !Pos.iter_swap. reflexivity.
  - rewrite !IH. reflexivity.
  - reflexivity.
Qed.

Lemma shr_inv_start (M : Z) : 0 <= M -> shr_inv M 0 (Build_shr_record M false false).
Proof.
  intros HM. split; [exact HM|]. exists 0. cbn [shr_m shr_r shr_s].
  rewrite Z.pow_0_r. repeat split; try lia; try discriminate.
Qed.

Lemma shr_1_inv (M k : Z) (r : shr_record) :
  0 <= k -> shr_inv M k r -> shr_inv M (k + 1) (shr_1 r).
Proof.
  intros Hk [Hm (rem & Hrem & HM & Hr & Hs)].
  destruct r as [m r s]. cbn [shr_m shr_r shr_s] in *.
  unfold shr_inv. rewrite pow2_succ by exact Hk.
  pose proof (pow2_pos Hk) as HP. set (P := 2 ^ k) in *.
  assert (Hrs : orb r s = true <-> rem <> 0).
  { destruct r, s; cbn; intuition (try discriminate; try lia). }
  assert (Hcase : forall m' (b : bool),
             0 <= m' -> m = 2 * m' + (if b then 1 else 0) ->
             0 <= m' /\
             exists rem', 0 <= rem' < 2 * P /\ M = m' * (2 * P) + rem' /\
               (b = true <-> 2 * P <= 2 * rem') /\
               (orb r s = true <-> rem' <> 0 /\ 2 * rem' <> 2 * P)).
  { intros m' b Hm' E. split; [exact Hm'|].
    exists (rem + (if b then P else 0)).
    destruct b; repeat split; intros;
      repeat match goal with H : orb _ _ = true |- _ => apply Hrs in H end;
      try discriminate; try lia; try (apply Hrs; lia); try nia. }
  destruct m as [|[p|p|]|p]; cbn [shr_1 shr_m shr_r shr_s]; try lia.
  - apply (Hcase 0 false); lia.
  - apply (Hcase (Zpos p) true); lia.
  - apply (Hcase (Zpos p) false); lia.
  - apply (Hcase 0 true); lia.
Qed.

Lemma shr_iter_inv (M : Z) (r : shr_record) (n : positive) :
  shr_inv M 0 r -> shr_inv M (Zpos n) (iter_pos shr_1 n r).
Proof.
  intros H0. rewrite iter_pos_iter. induction n as [|n IH] using Pos.peano_ind.
  - cbn [Pos.iter]. change (Zpos 1) with (0 + 1). apply shr_1_inv; [lia|exact H0].
  - rewrite Pos.iter_succ. rewrite Pos2Z.inj_succ. unfold Z.succ.
    apply shr_1_inv; [lia|exact IH].
Qed.

(** Rounding to nearest, ties to even, after [k] shifts of [M]. *)
Lemma round_nearest_even_spec (M k : Z) (r : shr_record) :
  0 <= k -> shr_inv M k r ->
  let m1 := round_nearest_even (shr_m r) (loc_of_shr_record r) in
  shr_m r <= m1 <= shr_m r + 1 /\
  Z.abs (m1 * 2 ^ k - M) * 2 <= 2 ^ k /\
  ((2 ^ k | M) -> m1 * 2 ^ k = M).
Proof.
  intros Hk [Hm (rem & Hrem & HM & Hr & Hs)].
  destruct r as [m r s]. cbn [shr_m shr_r shr_s] in *.
  pose proof (pow2_pos Hk) as HP. set (P := 2 ^ k) in *.
  assert (Hdiv : (P | M) -> rem = 0).
  { intros [q Hq]. assert (rem = (q - m) * P) by lia.
    destruct (Z.eq_dec (q - m) 0) as [E|E]; [rewrite E in *; lia|].
    assert (q - m >= 1 \/ q - m <= -1) as [G|G] by lia; nia. }
  destruct r, s; cbn [loc_of_shr_record round_nearest_even]; cbv zeta.
  - assert (P <= 2 * rem) by (apply Hr; reflexivity).
    assert (rem <> 0 /\ 2 * rem <> P) by (apply Hs; reflexivity).
    repeat split; try lia. intros D. apply Hdiv in D. lia.
  - assert (P <= 2 * rem) by (apply Hr; reflexivity).
    assert (2 * rem = P).
    { destruct (Z.eq_dec (2 * rem) P) as [E|E]; [exact E|].
      assert (false = true) by (apply Hs; lia). discriminate. }
    destruct (Z.even m); repeat split; try lia; intros D; apply Hdiv in D; lia.
  - assert (~ P <= 2 * rem) by (intros C; apply Hr in C; discriminate).
    repeat split; try lia. intros D. apply Hdiv in D. lia.
  - assert (~ P <= 2 * rem) by (intros C; apply Hr in C; discriminate).
    assert (rem = 0).
    { destruct (Z.eq_dec rem 0) as [E|E]; [exact E|].
      assert (false = true) by (apply Hs; lia). discriminate. }
    repeat split; try lia.
Qed.

Lemma Zdigits2_bounds (m : Z) :
  0 < m -> 0 < Zdigits2 m /\ 2 ^ (Zdigits2 m - 1) <= m < 2 ^ Zdigits2 m.
Proof.
  intros Hm. destruct m as [|p|p]; try lia. cbn [Zdigits2].
  split; [lia|apply digits2_bounds].
Qed.

Lemma Zdigits2_unique (m d : Z) :
  2 ^ (d - 1) <= m < 2 ^ d -> 0 < d -> Zdigits2 m = d.
Proof.
  intros H Hd. assert (0 < m).
  { assert (0 < 2 ^ (d - 1)) by (apply pow2_pos; lia). lia. }
  destruct m as [|p|p]; try lia. cbn [Zdigits2]. apply digits2_unique; assumption.
Qed.


Lemma pow2Q_pos (e : Z) : (0 < pow2Q e)%Q.
Proof. unfold pow2Q. apply Qpower_0_lt. reflexivity. Qed.

Lemma pow2Q_add (a b : Z) : (pow2Q (a + b) == pow2Q a * pow2Q b)%Q.
Proof. unfold pow2Q. apply Qpower_plus. discriminate. Qed.

Lemma pow2Q_inj (k : Z) : 0 <= k -> (inject_Z (2 ^ k) == pow2Q k)%Q.
Proof. intros Hk. unfold pow2Q. rewrite (Zpower_Qpower 2 k Hk). reflexivity. Qed.

Lemma pow2Q_split (a b : Z) : a <= b -> (pow2Q b == inject_Z (2 ^ (b - a)) * pow2Q a)%Q.
Proof.
  intros H. rewrite pow2Q_inj by lia. rewrite <- pow2Q_add. 
  replace (b - a + a) with b by lia. reflexivity.
Qed.

Lemma pow2Q_le (a b : Z) : a <= b -> (pow2Q a <= pow2Q b)%Q.
Proof.
  intros H. rewrite (pow2Q_split H).
  pose proof (pow2Q_pos a) as Hp.
  assert (H1 : (1 <= inject_Z (2 ^ (b - a)))%Q).
  { change 1%Q with (inject_Z 1). rewrite <- Zle_Qle.
    pose proof (@pow2_pos (b - a) ltac:(lia)). lia. }
  nra.
Qed.

(** Integer inequalities between multiples of a power of two, as rational
    ones. *)
Lemma scaled_le (a b : Z) (e : Z) :
  a <= b -> (inject_Z a * pow2Q e <= inject_Z b * pow2Q e)%Q.
Proof.
  intros H. pose proof (pow2Q_pos e). apply Qmult_le_compat_r; [|lra].
  rewrite <- Zle_Qle. exact H.
Qed.

Lemma Qabs_scaled (a : Z) (e : Z) :
  (Qabs (inject_Z a * pow2Q e) == inject_Z (Z.abs a) * pow2Q e)%Q.
Proof.
  pose proof (pow2Q_pos e). rewrite Qabs_Qmult. rewrite (Qabs_pos (pow2Q e)) by lra.
  apply Qmult_comp; [|reflexivity].
  destruct a; cbn; reflexivity.
Qed.

Section Round.

Variables prec emax : Z.
Hypothesis Hprec : 2 <= prec.
Hypothesis Hemax : prec < emax.


Lemma fexp_cases (e : Z) :
  (SpecFloat.emin prec emax) <= (SpecFloat.fexp prec emax) e /\ e - prec <= (SpecFloat.fexp prec emax) e /\ ((SpecFloat.fexp prec emax) e = e - prec \/ (SpecFloat.fexp prec emax) e = (SpecFloat.emin prec emax)).
Proof. unfold SpecFloat.fexp. lia. Qed.

Lemma shr_fexp_first (M e : Z) :
  0 < M -> e <= (SpecFloat.fexp prec emax) (Zdigits2 M + e) ->
  exists r, shr_fexp prec emax M e loc_Exact = (r, (SpecFloat.fexp prec emax) (Zdigits2 M + e)) /\
            shr_inv M ((SpecFloat.fexp prec emax) (Zdigits2 M + e) - e) r.
Proof.
  intros HM He. unfold shr_fexp, shr. cbn [shr_record_of_loc].
  destruct ((SpecFloat.fexp prec emax) (Zdigits2 M + e) - e) as [|q|q] eqn:E; try lia.
  - eexists. split; [f_equal; lia|]. apply shr_inv_start. lia.
  - eexists. split; [f_equal; lia|]. apply shr_iter_inv. apply shr_inv_start. lia.
Qed.

Lemma shr_fexp_second (m1 e1 : Z) :
  0 <= m1 <= 2 ^ prec -> (SpecFloat.emin prec emax) <= e1 ->
  exists r2 e2, shr_fexp prec emax m1 e1 loc_Exact = (r2, e2) /\
    0 <= shr_m r2 < 2 ^ prec /\ e1 <= e2 <= e1 + 1 /\
    shr_m r2 * 2 ^ (e2 - e1) = m1 /\
    (e2 = e1 + 1 -> shr_m r2 = 2 ^ (prec - 1)).
Proof.
  intros Hm He. unfold shr_fexp, shr. cbn [shr_record_of_loc].
  assert (HP : 0 < 2 ^ prec) by (apply pow2_pos; lia).
  destruct (Z.eq_dec m1 (2 ^ prec)) as [Etop|Ntop].
  - assert (Hd : Zdigits2 m1 = prec + 1).
    { apply Zdigits2_unique; [|lia]. replace (prec + 1 - 1) with prec by lia.
      rewrite pow2_succ by lia. lia. }
    rewrite Hd.
    assert (Hf : (SpecFloat.fexp prec emax) (prec + 1 + e1) - e1 = 1) by (unfold SpecFloat.fexp; lia).
    rewrite Hf. cbn [iter_pos].
    pose proof (@shr_1_inv m1 0 (Build_shr_record m1 false false) ltac:(lia)
                  (@shr_inv_start m1 ltac:(lia))) as [H0 (rem & Hrem & HM & _)].
    cbn [Z.add] in Hrem, HM. rewrite Z.pow_1_r in Hrem, HM.
    assert (Hh : 2 ^ prec = 2 * 2 ^ (prec - 1)).
    { replace prec with ((prec - 1) + 1) at 1 by lia. apply pow2_succ. lia. }
    assert (0 < 2 ^ (prec - 1)) by (apply pow2_pos; lia).
    do 2 eexists. split; [reflexivity|].
    replace (e1 + 1 - e1) with 1 by lia. rewrite Z.pow_1_r.
    repeat split; try lia.
  - assert (Hshift : (SpecFloat.fexp prec emax) (Zdigits2 m1 + e1) - e1 <= 0).
    { destruct (Z.eq_dec m1 0) as [E0|N0].
      - rewrite E0. cbn [Zdigits2]. unfold SpecFloat.fexp. lia.
      - destruct (@Zdigits2_bounds m1 ltac:(lia)) as [Hd [Hl Hu]].
        assert (Zdigits2 m1 <= prec).
        { destruct (Z_le_gt_dec (Zdigits2 m1) prec) as [L|G]; [exact L|].
          assert (2 ^ prec <= 2 ^ (Zdigits2 m1 - 1)) by (apply pow2_le; lia). lia. }
        unfold SpecFloat.fexp. lia. }
    destruct ((SpecFloat.fexp prec emax) (Zdigits2 m1 + e1) - e1) as [|q|q] eqn:E; try lia.
    + do 2 eexists. split; [reflexivity|]. cbn [shr_m].
      rewrite Z.sub_diag, Z.pow_0_r. repeat split; try lia.
    + do 2 eexists. split; [reflexivity|]. cbn [shr_m].
      rewrite Z.sub_diag, Z.pow_0_r. repeat split; try lia.
Qed.

(** [binary_round_aux] on an exact number [M * 2^e] that needs no shift to
    the left: the result is canonical, within half a unit of its last place
    of the number, and equal to it when the number is representable. *)
Lemma binary_round_aux_spec (s : bool) (M e : Z) :
  0 < M -> e <= (SpecFloat.fexp prec emax) (Zdigits2 M + e) ->
  exists m2 e2,
    binary_round_aux prec emax s M e loc_Exact = SFbuild prec emax s m2 e2 /\
    0 <= m2 < 2 ^ prec /\ e <= e2 /\ (SpecFloat.emin prec emax) <= e2 /\
    (0 < m2 -> (SpecFloat.fexp prec emax) (Zdigits2 m2 + e2) = e2) /\
    ((SpecFloat.emin prec emax) < e2 -> 2 ^ (prec - 1) <= m2) /\
    Z.abs (m2 * 2 ^ (e2 - e) - M) * 2 <= 2 ^ (e2 - e) /\
    ((2 ^ ((SpecFloat.fexp prec emax) (Zdigits2 M + e) - e) | M) -> m2 * 2 ^ (e2 - e) = M).
Proof.
  intros HM He.
  destruct (@Zdigits2_bounds M HM) as [Hd [Hl Hu]].
  set (d := Zdigits2 M) in *. set (e1 := (SpecFloat.fexp prec emax) (d + e)) in *.
  destruct (fexp_cases (d + e)) as (Hemin & Hge & Hcase). fold e1 in Hemin, Hge, Hcase.
  destruct (@shr_fexp_first M e HM He) as (r & E1 & Hinv). fold d in E1, Hinv. fold e1 in E1, Hinv.
  set (k := e1 - e) in *. assert (Hk : 0 <= k) by (unfold k; lia).
  destruct (@round_nearest_even_spec M k r Hk Hinv) as (Hm1 & Herr & Hexact).
  cbv zeta in Hm1, Herr, Hexact.
  set (m1 := round_nearest_even (shr_m r) (loc_of_shr_record r)) in *.
  destruct Hinv as [Hm0 (rem & Hrem & HMeq & _)].
  set (m := shr_m r) in *.
  pose proof (pow2_pos Hk) as HPk.
  assert (HPp : 0 < 2 ^ prec) by (apply pow2_pos; lia).
  assert (HPp1 : 0 < 2 ^ (prec - 1)) by (apply pow2_pos; lia).
  assert (Hpp : 2 ^ prec = 2 * 2 ^ (prec - 1)).
  { replace prec with ((prec - 1) + 1) at 1 by lia. apply pow2_succ. lia. }
  (* the mantissa after the first shift has at most [prec] digits *)
  assert (Hmlt : m < 2 ^ prec).
  { destruct (Z_lt_ge_dec m (2 ^ prec)) as [L|G]; [exact L|].
    assert (2 ^ d <= 2 ^ (prec + k)) by (apply pow2_le; unfold k; lia).
    rewrite Z.pow_add_r in H by lia. nia. }
  (* and exactly [prec] digits above the smallest exponent *)
  assert (Hmge : (SpecFloat.emin prec emax) < e1 -> 2 ^ (prec - 1) <= m).
  { intros G. assert (Ek : d = prec + k) by (unfold k; lia).
    assert (E2 : 2 ^ (d - 1) = 2 ^ (prec - 1) * 2 ^ k).
    { rewrite <- Z.pow_add_r by lia. f_equal. lia. }
    nia. }
  destruct (@shr_fexp_second m1 e1 ltac:(lia) Hemin) as (r2 & e2 & E2 & Hm2 & He2 & Hval & Htop).
  exists (shr_m r2), e2.
  assert (Hscale : shr_m r2 * 2 ^ (e2 - e) = m1 * 2 ^ k).
  { replace (e2 - e) with ((e2 - e1) + k) by (unfold k; lia).
    rewrite Z.pow_add_r by lia. rewrite Z.mul_assoc, Hval. reflexivity. }
  assert (Hkle : 2 ^ k <= 2 ^ (e2 - e)) by (apply pow2_le; unfold k; lia).
  split.
  { unfold binary_round_aux. rewrite E1. cbv beta iota.
    change (round_nearest_even (shr_m r) (loc_of_shr_record r)) with m1.
    rewrite E2. reflexivity. }
  split; [exact Hm2|]. split; [lia|]. split; [lia|]. split; [|split; [|split]].
  - intros Hpos. destruct (Z.eq_dec e2 e1) as [Ee|Ne].
    + rewrite Ee in *. rewrite Z.sub_diag, Z.pow_0_r, Z.mul_1_r in Hval.
      destruct (@Zdigits2_bounds (shr_m r2) Hpos) as [Hd2 [Hl2 Hu2]].
      assert (Zdigits2 (shr_m r2) <= prec).
      { destruct (Z_le_gt_dec (Zdigits2 (shr_m r2)) prec) as [L|G]; [exact L|].
        assert (2 ^ prec <= 2 ^ (Zdigits2 (shr_m r2) - 1)) by (apply pow2_le; lia). lia. }
      destruct (Z.eq_dec e1 (SpecFloat.emin prec emax)) as [Em|Nm].
      * unfold SpecFloat.fexp. lia.
      * assert (Zdigits2 (shr_m r2) = prec).
        { apply Zdigits2_unique; [|lia]. specialize (Hmge ltac:(lia)). lia. }
        unfold SpecFloat.fexp. lia.
    + assert (Et : shr_m r2 = 2 ^ (prec - 1)) by (apply Htop; lia).
      assert (Zdigits2 (shr_m r2) = prec).
      { apply Zdigits2_unique; [|lia]. rewrite Et. lia. }
      unfold SpecFloat.fexp. lia.
  - intros G. destruct (Z.eq_dec e2 e1) as [Ee|Ne].
    + rewrite Ee in *. rewrite Z.sub_diag, Z.pow_0_r, Z.mul_1_r in Hval.
      specialize (Hmge G). lia.
    + rewrite (Htop ltac:(lia)). lia.
  - rewrite Hscale. lia.
  - intros D. rewrite Hscale. apply Hexact. exact D.
Qed.


(** ** The value of a rounded number *)

Lemma Fval_build (s : bool) (m2 e2 : Z) :
  0 <= m2 -> e2 <= emax - prec ->
  (Fval (SFbuild prec emax s m2 e2) == inject_Z (cond_Zopp s m2) * pow2Q e2)%Q.
Proof.
  intros Hm He. unfold SFbuild. destruct m2 as [|p|p]; try lia.
  - destruct s; cbn; ring.
  - replace (e2 <=? emax - prec) with true by (symmetry; apply Z.leb_le; exact He).
    reflexivity.
Qed.

Lemma build_finite (s : bool) (m2 e2 : Z) :
  0 <= m2 -> e2 <= emax - prec -> (0 < m2 -> (SpecFloat.fexp prec emax) (Zdigits2 m2 + e2) = e2) ->
  SFfinite (SFbuild prec emax s m2 e2) = true /\ valid_binary prec emax (SFbuild prec emax s m2 e2) = true.
Proof.
  intros Hm He Hc. unfold SFbuild. destruct m2 as [|p|p]; try lia.
  - split; reflexivity.
  - replace (e2 <=? emax - prec) with true by (symmetry; apply Z.leb_le; exact He).
    split; [reflexivity|]. cbn [valid_binary]. unfold bounded, canonical_mantissa.
    apply andb_true_intro. split.
    + apply Z.eqb_eq. apply (Hc ltac:(lia)).
    + apply Z.leb_le. exact He.
Qed.

Lemma inject_Z_cond_Zopp (s : bool) (m : Z) :
  (Qabs (inject_Z (cond_Zopp s m)) == inject_Z (Z.abs m))%Q.
Proof. destruct s, m; cbn; reflexivity. Qed.

Lemma round_aux_value (s : bool) (M e : Z) :
  0 < M -> e <= (SpecFloat.fexp prec emax) (Zdigits2 M + e) ->
  (inject_Z M * pow2Q e <= pow2Q (emax - 1))%Q ->
  let R := binary_round_aux prec emax s M e loc_Exact in
  let t := (inject_Z (cond_Zopp s M) * pow2Q e)%Q in
  SFfinite R = true /\ valid_binary prec emax R = true /\
  SFrounded prec emax t (Fval R) /\
  ((SpecFloat.emin prec emax) <= e -> SFroundedRel prec t (Fval R)) /\
  ((2 ^ ((SpecFloat.fexp prec emax) (Zdigits2 M + e) - e) | M) -> (Fval R == t)%Q).
Proof.
  intros HM He Hov R t.
  destruct (@binary_round_aux_spec s M e HM He)
    as (m2 & e2 & ER & Hm2 & Hee & Hemin & Hcan & Hnorm & Herr & Hex).
  fold R in ER.
  set (W := 2 ^ (e2 - e)) in *. assert (HW : 0 < W) by (apply pow2_pos; lia).
  pose proof (pow2Q_pos e) as Hc.
  assert (HWq : (pow2Q e2 == inject_Z W * pow2Q e)%Q) by (apply pow2Q_split; lia).
  assert (HPp1 : 0 < 2 ^ (prec - 1)) by (apply pow2_pos; lia).
  assert (Hpp : 2 ^ prec = 2 * 2 ^ (prec - 1)).
  { replace prec with ((prec - 1) + 1) at 1 by lia. apply pow2_succ. lia. }
  (* no overflow *)
  assert (Hno : e2 <= emax - prec).
  { destruct (Z_le_gt_dec e2 (emax - prec)) as [L|G]; [exact L|exfalso].
    assert (Hn : 2 ^ (prec - 1) <= m2) by (apply Hnorm; unfold SpecFloat.emin; lia).
    assert (HZ : (2 ^ prec - 1) * W <= 2 * M) by nia.
    assert (H1 : (inject_Z ((2 ^ prec - 1) * W) * pow2Q e <= inject_Z (2 * M) * pow2Q e)%Q)
      by (apply scaled_le; exact HZ).
    rewrite !inject_Z_mult in H1.
    assert (H2 : (pow2Q (emax - prec + 1) <= pow2Q e2)%Q) by (apply pow2Q_le; lia).
    assert (H3 : (pow2Q (emax - prec + 1) == 2 * pow2Q (emax - prec))%Q).
    { rewrite Z.add_comm, pow2Q_add. reflexivity. }
    assert (H4 : (pow2Q emax == inject_Z (2 ^ prec) * pow2Q (emax - prec))%Q).
    { rewrite (@pow2Q_split (emax - prec) emax) by lia.
      replace (emax - (emax - prec)) with prec by lia. reflexivity. }
    assert (H5 : (pow2Q emax == 2 * pow2Q (emax - 1))%Q).
    { replace emax with (1 + (emax - 1)) at 1 by lia. rewrite pow2Q_add. reflexivity. }
    pose proof (pow2Q_pos (emax - prec)) as Hc'.
    assert (H6 : (4 <= inject_Z (2 ^ prec))%Q).
    { change 4%Q with (inject_Z 4). rewrite <- Zle_Qle.
      assert (2 ^ 2 <= 2 ^ prec) by (apply pow2_le; lia). change (2 ^ 2) with 4 in H. lia. }
    unfold Z.sub in H1 at 1. rewrite inject_Z_plus in H1. change (inject_Z (- (1))) with (-1)%Q in H1.
    change (inject_Z 2) with 2%Q in H1.
    set (Pq := inject_Z (2 ^ prec)) in *. set (c := pow2Q e) in *.
    set (Wq := inject_Z W) in *. set (Mq := inject_Z M) in *.
    set (c' := pow2Q (emax - prec)) in *.
    rewrite H3 in H2. rewrite HWq in H2. rewrite H4 in H5.
    nra. }
  destruct (@build_finite s m2 e2 ltac:(lia) Hno Hcan) as [Hfin Hval].
  rewrite ER. split; [exact Hfin|]. split; [exact Hval|].
  assert (Hv : (Fval (SFbuild prec emax s m2 e2) == inject_Z (cond_Zopp s (m2 * W)) * pow2Q e)%Q).
  { rewrite Fval_build by lia. rewrite HWq.
    destruct s; cbn [cond_Zopp]; rewrite ?inject_Z_opp, !inject_Z_mult; ring. }
  assert (Hd : (Fval (SFbuild prec emax s m2 e2) - t == inject_Z (cond_Zopp s (m2 * W - M)) * pow2Q e)%Q).
  { rewrite Hv. unfold t. destruct s; cbn [cond_Zopp];
      rewrite ?inject_Z_opp; unfold Z.sub; rewrite ?inject_Z_plus, ?inject_Z_opp; ring. }
  assert (Hda : (Qabs (Fval (SFbuild prec emax s m2 e2) - t) == inject_Z (Z.abs (m2 * W - M)) * pow2Q e)%Q).
  { rewrite Hd, Qabs_Qmult, inject_Z_cond_Zopp. rewrite (Qabs_pos (pow2Q e)) by lra.
    reflexivity. }
  assert (Hva : (Qabs (Fval (SFbuild prec emax s m2 e2)) == inject_Z (m2 * W) * pow2Q e)%Q).
  { rewrite Hv, Qabs_Qmult, inject_Z_cond_Zopp. rewrite (Qabs_pos (pow2Q e)) by lra.
    rewrite Z.abs_eq by nia. reflexivity. }
  assert (Hrel : (SpecFloat.emin prec emax) < e2 \/ e2 = e -> SFroundedRel prec t (Fval (SFbuild prec emax s m2 e2))).
  { intros Hcase. unfold SFroundedRel. rewrite Hda, Hva.
    rewrite Qmult_assoc, <- inject_Z_mult. apply scaled_le.
    destruct Hcase as [G|E].
    - specialize (Hnorm G). nia.
    - assert (W = 1) by (unfold W; rewrite E, Z.sub_diag; reflexivity). nia. }
  split; [|split].
  - destruct (Z.eq_dec e2 e) as [E|N]; [left; apply Hrel; right; exact E|].
    destruct (Z.eq_dec e2 (SpecFloat.emin prec emax)) as [Em|Nm]; [|left; apply Hrel; left; lia].
    right. rewrite Hda.
    rewrite (@pow2Q_split e ((SpecFloat.emin prec emax) - 1)) by lia. apply scaled_le.
    assert (HW2 : W = 2 * 2 ^ ((SpecFloat.emin prec emax) - 1 - e)).
    { unfold W. rewrite Em. replace ((SpecFloat.emin prec emax) - e) with (((SpecFloat.emin prec emax) - 1 - e) + 1) by lia.
      apply pow2_succ. lia. }
    lia.
  - intros Hge. destruct (Z.eq_dec e2 e) as [E|N]; [apply Hrel; right; exact E|].
    apply Hrel. left. lia.
  - intros D. specialize (Hex D). rewrite Hv. unfold t. fold W in Hex. rewrite Hex. reflexivity.
Qed.

(** ** [binary_round] and [binary_normalize] *)

Lemma iter_xO (m d : positive) : Zpos (Pos.iter xO m d) = Zpos m * 2 ^ Zpos d.
Proof.
  induction d as [|d IH] using Pos.peano_ind.
  - cbn [Pos.iter]. rewrite Z.pow_1_r. lia.
  - rewrite Pos.iter_succ, Pos2Z.inj_succ, Z.pow_succ_r by lia.
    rewrite Pos2Z.inj_xO, IH. ring.
Qed.

Lemma shl_align_spec (mx : positive) (ex ex' : Z) :
  snd (shl_align mx ex ex') = Z.min ex ex' /\
  Zpos (fst (shl_align mx ex ex')) = Zpos mx * 2 ^ (ex - Z.min ex ex').
Proof.
  unfold shl_align. destruct (ex' - ex) as [|d|d] eqn:E; cbn [fst snd].
  - rewrite Z.min_l by lia. rewrite Z.sub_diag, Z.pow_0_r. lia.
  - rewrite Z.min_l by lia. rewrite Z.sub_diag, Z.pow_0_r. lia.
  - rewrite Z.min_r by lia. split; [reflexivity|].
    rewrite iter_xO. f_equal. f_equal. lia.
Qed.

Lemma Zdigits2_shift (m j : Z) : 0 < m -> 0 <= j -> Zdigits2 (m * 2 ^ j) = Zdigits2 m + j.
Proof.
  intros Hm Hj. destruct (@Zdigits2_bounds m Hm) as [Hd [Hl Hu]].
  pose proof (pow2_pos Hj) as HP.
  apply Zdigits2_unique; [|lia].
  replace (Zdigits2 m + j - 1) with ((Zdigits2 m - 1) + j) by lia.
  rewrite !Z.pow_add_r by lia. nia.
Qed.

Lemma roundedRel_refl (t r : Q) : (r == t)%Q -> SFroundedRel prec t r.
Proof.
  intros E. unfold SFroundedRel.
  assert (H : (Qabs (r - t) == 0)%Q).
  { assert (H : (r - t == 0)%Q) by (rewrite E; ring). rewrite H. reflexivity. }
  rewrite H, Qmult_0_r. apply Qabs_nonneg.
Qed.

Lemma roundedRel_rounded (t r : Q) : SFroundedRel prec t r -> SFrounded prec emax t r.
Proof. intros H. left. exact H. Qed.

Lemma binary_round_value (s : bool) (mx : positive) (ex : Z) :
  (inject_Z (Zpos mx) * pow2Q ex <= pow2Q (emax - 1))%Q ->
  let R := binary_round prec emax s mx ex in
  let t := (inject_Z (cond_Zopp s (Zpos mx)) * pow2Q ex)%Q in
  SFfinite R = true /\ valid_binary prec emax R = true /\
  SFrounded prec emax t (Fval R) /\
  ((SpecFloat.emin prec emax) <= ex -> SFroundedRel prec t (Fval R)) /\
  ((SpecFloat.fexp prec emax) (Zpos (digits2_pos mx) + ex) <= ex -> (Fval R == t)%Q).
Proof.
  intros Hov R t. unfold binary_round in R.
  destruct (shl_align_spec mx ex ((SpecFloat.fexp prec emax) (Zpos (digits2_pos mx) + ex))) as [Hez Hmz].
  destruct (shl_align mx ex ((SpecFloat.fexp prec emax) (Zpos (digits2_pos mx) + ex))) as [mz ez] eqn:ES.
  cbn [fst snd] in Hez, Hmz. rewrite <- Hez in Hmz.
  assert (Hle : ez <= ex) by lia.
  assert (Hdig : Zdigits2 (Zpos mz) + ez = Zpos (digits2_pos mx) + ex).
  { rewrite Hmz. rewrite Zdigits2_shift by lia. cbn [Zdigits2]. lia. }
  assert (Hsc : forall a, (inject_Z (a * 2 ^ (ex - ez)) * pow2Q ez == inject_Z a * pow2Q ex)%Q).
  { intros a. rewrite (@pow2Q_split ez ex Hle), inject_Z_mult. ring. }
  assert (Ht : (inject_Z (cond_Zopp s (Zpos mz)) * pow2Q ez == t)%Q).
  { unfold t. rewrite Hmz. destruct s; cbn [cond_Zopp].
    - rewrite <- Z.mul_opp_l. apply Hsc.
    - apply Hsc. }
  destruct (@round_aux_value s (Zpos mz) ez ltac:(lia)) as (Hf & Hv & Hr & Hrel & Hex).
  - rewrite Hdig. lia.
  - rewrite Hmz, Hsc. exact Hov.
  - cbv zeta in Hf, Hv, Hr, Hrel, Hex. fold R in Hf, Hv, Hr, Hrel, Hex.
    split; [exact Hf|]. split; [exact Hv|]. split; [|split].
    + unfold SFrounded in *. rewrite <- Ht. exact Hr.
    + intros G. unfold SFroundedRel in *. rewrite <- Ht. apply Hrel.
      destruct (fexp_cases (Zpos (digits2_pos mx) + ex)) as (G1 & _). lia.
    + intros G. rewrite <- Ht. apply Hex. rewrite Hdig.
      replace ((SpecFloat.fexp prec emax) (Zpos (digits2_pos mx) + ex) - ez) with 0 by lia.
      rewrite Z.pow_0_r. apply Z.divide_1_l.
Qed.

Lemma binary_normalize_value (m e : Z) (szero : bool) :
  (Qabs (inject_Z m * pow2Q e) <= pow2Q (emax - 1))%Q ->
  let R := binary_normalize prec emax m e szero in
  let t := (inject_Z m * pow2Q e)%Q in
  SFfinite R = true /\ valid_binary prec emax R = true /\
  SFrounded prec emax t (Fval R) /\
  ((SpecFloat.emin prec emax) <= e -> SFroundedRel prec t (Fval R)) /\
  ((SpecFloat.fexp prec emax) (Zdigits2 m + e) <= e -> (Fval R == t)%Q).
Proof.
  intros Hov R t. rewrite Qabs_scaled in Hov.
  destruct m as [|p|p]; cbn [binary_normalize] in R.
  - assert (E : (Fval R == t)%Q) by (unfold R, t; cbn; ring).
    split; [reflexivity|]. split; [reflexivity|].
    split; [apply roundedRel_rounded, roundedRel_refl, E|].
    split; [intros _; apply roundedRel_refl, E|intros _; exact E].
  - exact (@binary_round_value false p e Hov).
  - exact (@binary_round_value true p e Hov).
Qed.

(** ** The operations *)

Lemma valid_finite (s : bool) (m : positive) (e : Z) :
  valid_binary prec emax (S754_finite s m e) = true ->
  (SpecFloat.fexp prec emax) (Zpos (digits2_pos m) + e) = e /\ e <= emax - prec /\ (SpecFloat.emin prec emax) <= e /\
  Zpos m < 2 ^ prec /\ ((SpecFloat.emin prec emax) < e -> 2 ^ (prec - 1) <= Zpos m) /\
  Zpos (digits2_pos m) <= prec /\ ((SpecFloat.emin prec emax) < e -> Zpos (digits2_pos m) = prec).
Proof.
  cbn [valid_binary]. unfold bounded, canonical_mantissa. intros H.
  apply andb_prop in H. destruct H as [H1 H2].
  apply Z.eqb_eq in H1. apply Z.leb_le in H2.
  pose proof (digits2_bounds m) as [Hl Hu].
  set (d := Zpos (digits2_pos m)) in *. assert (Hd : 0 < d) by (unfold d; lia).
  assert (Hdp : d <= prec) by (unfold SpecFloat.fexp in H1; lia).
  assert (Hn : (SpecFloat.emin prec emax) < e -> d = prec) by (unfold SpecFloat.fexp in H1; lia).
  split; [exact H1|]. split; [exact H2|]. split; [unfold SpecFloat.fexp in H1; lia|].
  split; [|split; [|split; [exact Hdp|exact Hn]]].
  - assert (2 ^ d <= 2 ^ prec) by (apply pow2_le; lia). lia.
  - intros G. rewrite (Hn G) in Hl. exact Hl.
Qed.

Lemma fin_zero (s : bool) : SFfin prec emax (S754_zero s).
Proof. split; reflexivity. Qed.

Lemma scaled_lt (a b : Z) (e : Z) :
  a < b -> (inject_Z a * pow2Q e < inject_Z b * pow2Q e)%Q.
Proof.
  intros H. pose proof (pow2Q_pos e). apply Qmult_lt_compat_r; [lra|].
  rewrite <- Zlt_Qlt. exact H.
Qed.

Lemma aligned_value (s : bool) (m : positive) (e ez : Z) :
  ez <= e ->
  (inject_Z (cond_Zopp s (Zpos (fst (shl_align m e ez)))) * pow2Q ez
   == Fval (S754_finite s m e))%Q.
Proof.
  intros H. destruct (shl_align_spec m e ez) as [_ Hm]. rewrite Hm.
  rewrite Z.min_r by lia. cbn [Fval]. rewrite (@pow2Q_split ez e H).
  destruct s; cbn [cond_Zopp]; rewrite ?inject_Z_opp, !inject_Z_mult; ring.
Qed.

(** Addition and subtraction: no underflow. *)
Lemma SFadd_value (x y : spec_float) :
  SFfin prec emax x -> SFfin prec emax y ->
  (Qabs (Fval x + Fval y) <= pow2Q (emax - 1))%Q ->
  SFfin prec emax (SFadd prec emax x y) /\ SFroundedRel prec (Fval x + Fval y) (Fval (SFadd prec emax x y)).
Proof.
  intros [Fx Vx] [Fy Vy] Hov.
  destruct x as [sx|sx| |sx mx ex]; try discriminate;
    destruct y as [sy|sy| |sy my ey]; try discriminate.
  - destruct sx, sy; (split; [apply fin_zero|apply roundedRel_refl; cbn; ring]).
  - split; [split; assumption|]. apply roundedRel_refl. cbn [SFadd]. cbn [Fval]. ring.
  - split; [split; assumption|]. apply roundedRel_refl. cbn [SFadd]. cbn [Fval]. ring.
  - cbn [SFadd]. cbv zeta.
    destruct (@valid_finite _ _ _ Vx) as (_ & _ & Hex & _). destruct (@valid_finite _ _ _ Vy) as (_ & _ & Hey & _).
    set (ez := Z.min ex ey).
    set (M := cond_Zopp sx (Zpos (fst (shl_align mx ex ez)))
              + cond_Zopp sy (Zpos (fst (shl_align my ey ez)))).
    assert (Ht : (inject_Z M * pow2Q ez == Fval (S754_finite sx mx ex) + Fval (S754_finite sy my ey))%Q).
    { unfold M. rewrite inject_Z_plus, Qmult_plus_distr_l.
      rewrite !aligned_value by (unfold ez; lia). reflexivity. }
    destruct (@binary_normalize_value M ez false) as (Hf & Hv & _ & Hrel & _).
    + rewrite Ht. exact Hov.
    + cbv zeta in Hf, Hv, Hrel. split; [split; assumption|].
      unfold SFroundedRel in *. rewrite <- Ht. apply Hrel. unfold ez. lia.
Qed.

Lemma SFsub_value (x y : spec_float) :
  SFfin prec emax x -> SFfin prec emax y ->
  (Qabs (Fval x - Fval y) <= pow2Q (emax - 1))%Q ->
  SFfin prec emax (SFsub prec emax x y) /\ SFroundedRel prec (Fval x - Fval y) (Fval (SFsub prec emax x y)).
Proof.
  intros [Fx Vx] [Fy Vy] Hov.
  destruct x as [sx|sx| |sx mx ex]; try discriminate;
    destruct y as [sy|sy| |sy my ey]; try discriminate.
  - destruct sx, sy; (split; [apply fin_zero|apply roundedRel_refl; cbn; ring]).
  - split; [split; [reflexivity|exact Vy]|]. apply roundedRel_refl. cbn [SFsub Fval].
    destruct sy; cbn [negb cond_Zopp]; rewrite ?inject_Z_opp; ring.
  - split; [split; assumption|]. apply roundedRel_refl. cbn [SFsub]. cbn [Fval]. ring.
  - cbn [SFsub]. cbv zeta.
    destruct (@valid_finite _ _ _ Vx) as (_ & _ & Hex & _). destruct (@valid_finite _ _ _ Vy) as (_ & _ & Hey & _).
    set (ez := Z.min ex ey).
    set (M := cond_Zopp sx (Zpos (fst (shl_align mx ex ez)))
              - cond_Zopp sy (Zpos (fst (shl_align my ey ez)))).
    assert (Ht : (inject_Z M * pow2Q ez == Fval (S754_finite sx mx ex) - Fval (S754_finite sy my ey))%Q).
    { unfold M, Z.sub. rewrite inject_Z_plus, inject_Z_opp, Qmult_plus_distr_l.
      rewrite <- (@aligned_value sx mx ex ez), <- (@aligned_value sy my ey ez)
        by (unfold ez; lia). ring. }
    destruct (@binary_normalize_value M ez false) as (Hf & Hv & _ & Hrel & _).
    + rewrite Ht. exact Hov.
    + cbv zeta in Hf, Hv, Hrel. split; [split; assumption|].
      unfold SFroundedRel in *. rewrite <- Ht. apply Hrel. unfold ez. lia.
Qed.

Lemma mul_value_exact (sx sy : bool) (mx my : positive) (ex ey : Z) :
  (inject_Z (cond_Zopp (xorb sx sy) (Zpos (mx * my))) * pow2Q (ex + ey)
   == Fval (S754_finite sx mx ex) * Fval (S754_finite sy my ey))%Q.
Proof.
  cbn [Fval]. rewrite pow2Q_add, Pos2Z.inj_mul.
  destruct sx, sy; cbn [xorb cond_Zopp]; rewrite ?inject_Z_opp, !inject_Z_mult; ring.
Qed.

Lemma mul_no_shift_left (sx sy : bool) (mx my : positive) (ex ey : Z) :
  valid_binary prec emax (S754_finite sx mx ex) = true ->
  valid_binary prec emax (S754_finite sy my ey) = true ->
  ex + ey <= (SpecFloat.fexp prec emax) (Zdigits2 (Zpos (mx * my)) + (ex + ey)).
Proof.
  intros Vx Vy.
  destruct (@valid_finite _ _ _ Vx) as (_ & _ & Hex & _ & Hnx & _).
  destruct (@valid_finite _ _ _ Vy) as (_ & _ & Hey & _ & Hny & _).
  destruct (@Zdigits2_bounds (Zpos (mx * my)) ltac:(lia)) as [Hd [Hl Hu]].
  set (d := Zdigits2 (Zpos (mx * my))) in *.
  assert (HPp1 : 0 < 2 ^ (prec - 1)) by (apply pow2_pos; lia).
  assert (Hbig : (SpecFloat.emin prec emax) < ex \/ (SpecFloat.emin prec emax) < ey -> prec <= d).
  { intros Hc. destruct (Z_le_gt_dec prec d) as [L|G]; [exact L|exfalso].
    assert (2 ^ d <= 2 ^ (prec - 1)) by (apply pow2_le; lia).
    rewrite Pos2Z.inj_mul in Hu. destruct Hc as [G1|G1].
    - specialize (Hnx G1). nia.
    - specialize (Hny G1). nia. }
  unfold SpecFloat.fexp.
  destruct (Z_lt_ge_dec (SpecFloat.emin prec emax) ex) as [G|G]; [specialize (Hbig (or_introl G)); lia|].
  destruct (Z_lt_ge_dec (SpecFloat.emin prec emax) ey) as [G'|G']; [specialize (Hbig (or_intror G')); lia|].
  unfold SpecFloat.emin in *. lia.
Qed.

(** Multiplication. *)
Lemma SFmul_value (x y : spec_float) :
  SFfin prec emax x -> SFfin prec emax y ->
  (Qabs (Fval x * Fval y) <= pow2Q (emax - 1))%Q ->
  SFfin prec emax (SFmul prec emax x y) /\ SFrounded prec emax (Fval x * Fval y) (Fval (SFmul prec emax x y)).
Proof.
  intros [Fx Vx] [Fy Vy] Hov.
  destruct x as [sx|sx| |sx mx ex]; try discriminate;
    destruct y as [sy|sy| |sy my ey]; try discriminate;
    try (split; [apply fin_zero|apply roundedRel_rounded, roundedRel_refl; cbn; ring]).
  cbn [SFmul].
  pose proof (@mul_value_exact sx sy mx my ex ey) as Ht.
  destruct (@round_aux_value (xorb sx sy) (Zpos (mx * my)) (ex + ey) ltac:(lia)
              (@mul_no_shift_left _ _ _ _ _ _ Vx Vy)) as (Hf & Hv & Hr & _).
  - rewrite <- Ht in Hov. rewrite Qabs_scaled in Hov.
    destruct (xorb sx sy); cbn [cond_Zopp Z.abs Z.opp] in Hov; exact Hov.
  - cbv zeta in Hf, Hv, Hr. split; [split; assumption|].
    unfold SFrounded in *. rewrite <- Ht. exact Hr.
Qed.

(** Multiplication by a power of two that keeps the number normal, or by
    1 or -1, is exact. *)
Lemma SFmul_unit_value (x : spec_float) (sy : bool) (my : positive) :
  SFfin prec emax x -> Zpos my = 2 ^ (prec - 1) ->
  (Qabs (Fval x) <= pow2Q (emax - 1))%Q ->
  SFfin prec emax (SFmul prec emax x (S754_finite sy my (1 - prec))) /\
  (Fval (SFmul prec emax x (S754_finite sy my (1 - prec)))
   == Fval x * Fval (S754_finite sy my (1 - prec)))%Q.
Proof.
  intros [Fx Vx] Hmy Hb.
  destruct x as [sx|sx| |sx mx ex]; try discriminate.
  - split; [apply fin_zero|]. cbn. ring.
  - cbn [SFmul].
    pose proof (@mul_value_exact sx sy mx my ex (1 - prec)) as Ht.
    destruct (@valid_finite _ _ _ Vx) as (Hcan & Hmaxe & Hemin & Hlt & _).
    assert (HPp1 : 0 < 2 ^ (prec - 1)) by (apply pow2_pos; lia).
    assert (HM : Zpos (mx * my) = Zpos mx * 2 ^ (prec - 1)) by (rewrite Pos2Z.inj_mul, Hmy; reflexivity).
    assert (Hdig : Zdigits2 (Zpos (mx * my)) = Zpos (digits2_pos mx) + (prec - 1)).
    { rewrite HM. rewrite Zdigits2_shift by lia. reflexivity. }
    assert (Hfe : (SpecFloat.fexp prec emax) (Zdigits2 (Zpos (mx * my)) + (ex + (1 - prec))) = ex).
    { rewrite Hdig. replace (Zpos (digits2_pos mx) + (prec - 1) + (ex + (1 - prec)))
        with (Zpos (digits2_pos mx) + ex) by lia. exact Hcan. }
    destruct (@round_aux_value (xorb sx sy) (Zpos (mx * my)) (ex + (1 - prec)) ltac:(lia))
      as (Hf & Hv & _ & _ & Hex).
    + rewrite Hfe. lia.
    + rewrite HM, inject_Z_mult, <- Qmult_assoc, pow2Q_inj by lia.
      rewrite <- pow2Q_add. replace (prec - 1 + (ex + (1 - prec))) with ex by lia.
      cbn [Fval] in Hb. rewrite Qabs_scaled in Hb.
      destruct sx; cbn [cond_Zopp Z.abs Z.opp] in Hb; exact Hb.
    + cbv zeta in Hf, Hv, Hex. split; [split; assumption|].
      rewrite <- Ht. apply Hex. rewrite Hfe.
      replace (ex - (ex + (1 - prec))) with (prec - 1) by lia.
      rewrite HM. apply Z.divide_factor_r.
Qed.

(** ** The order *)

Lemma Fval_sign (s : bool) (m : positive) (e : Z) :
  (if s then Fval (S754_finite s m e) < 0 else 0 < Fval (S754_finite s m e))%Q.
Proof.
  pose proof (pow2Q_pos e) as Hc. cbn [Fval].
  assert (H : (0 < inject_Z (Zpos m))%Q) by (change 0%Q with (inject_Z 0); rewrite <- Zlt_Qlt; lia).
  destruct s; cbn [cond_Zopp]; [change (- Zpos m) with (Z.opp (Zpos m)); rewrite inject_Z_opp|]; nra.
Qed.

Lemma canonical_lt (s1 s2 : bool) (m1 m2 : positive) (e1 e2 : Z) :
  valid_binary prec emax (S754_finite s1 m1 e1) = true ->
  valid_binary prec emax (S754_finite s2 m2 e2) = true ->
  e1 < e2 ->
  (inject_Z (Zpos m1) * pow2Q e1 < inject_Z (Zpos m2) * pow2Q e2)%Q.
Proof.
  intros V1 V2 He.
  destruct (@valid_finite _ _ _ V1) as (_ & _ & Hemin1 & Hlt1 & _).
  destruct (@valid_finite _ _ _ V2) as (_ & _ & _ & _ & Hn2 & _).
  specialize (Hn2 ltac:(lia)).
  rewrite (@pow2Q_split e1 e2) by lia. rewrite Qmult_assoc, <- inject_Z_mult.
  apply scaled_lt.
  assert (2 ^ 1 <= 2 ^ (e2 - e1)) by (apply pow2_le; lia). rewrite Z.pow_1_r in H.
  assert (Hpp : 2 ^ prec = 2 * 2 ^ (prec - 1)).
  { replace prec with ((prec - 1) + 1) at 1 by lia. apply pow2_succ. lia. }
  nia.
Qed.

Lemma compare_magnitude (s1 s2 : bool) (m1 m2 : positive) (e1 e2 : Z) :
  valid_binary prec emax (S754_finite s1 m1 e1) = true ->
  valid_binary prec emax (S754_finite s2 m2 e2) = true ->
  match match e1 ?= e2 with Lt => Lt | Gt => Gt | Eq => Pos.compare_cont Eq m1 m2 end with
  | Lt => (inject_Z (Zpos m1) * pow2Q e1 < inject_Z (Zpos m2) * pow2Q e2)%Q
  | Eq => (inject_Z (Zpos m1) * pow2Q e1 == inject_Z (Zpos m2) * pow2Q e2)%Q
  | Gt => (inject_Z (Zpos m2) * pow2Q e2 < inject_Z (Zpos m1) * pow2Q e1)%Q
  end.
Proof.
  intros V1 V2. destruct (Z.compare_spec e1 e2) as [E|L|G].
  - subst e2. change (Pos.compare_cont Eq m1 m2) with (Pos.compare m1 m2).
    destruct (Pos.compare_spec m1 m2) as [E|L|G].
    + subst. reflexivity.
    + apply scaled_lt. lia.
    + apply scaled_lt. lia.
  - exact (@canonical_lt _ _ _ _ _ _ V1 V2 L).
  - exact (@canonical_lt _ _ _ _ _ _ V2 V1 G).
Qed.

Lemma SFcompare_value (x y : spec_float) :
  SFfin prec emax x -> SFfin prec emax y ->
  match SFcompare x y with
  | Some Lt => (Fval x < Fval y)%Q
  | Some Eq => (Fval x == Fval y)%Q
  | Some Gt => (Fval y < Fval x)%Q
  | None => False
  end.
Proof.
  intros [Fx Vx] [Fy Vy].
  destruct x as [sx|sx| |sx mx ex]; try discriminate;
    destruct y as [sy|sy| |sy my ey]; try discriminate; cbn [SFcompare].
  - reflexivity.
  - pose proof (Fval_sign sy my ey) as H. destruct sy; exact H.
  - pose proof (Fval_sign sx mx ex) as H. destruct sx; exact H.
  - pose proof (Fval_sign sx mx ex) as Hx. pose proof (Fval_sign sy my ey) as Hy.
    pose proof (@compare_magnitude sx sy mx my ex ey Vx Vy) as Hc.
    destruct sx, sy; cbn [Fval cond_Zopp] in *.
    + change (- Zpos mx) with (Z.opp (Zpos mx)). change (- Zpos my) with (Z.opp (Zpos my)).
      rewrite !inject_Z_opp.
      destruct (ex ?= ey); [destruct (Pos.compare_cont Eq mx my)| |]; cbn [CompOpp]; lra.
    + lra.
    + lra.
    + destruct (ex ?= ey); [destruct (Pos.compare_cont Eq mx my)| |]; exact Hc.
Qed.

Lemma SFltb_value (x y : spec_float) :
  SFfin prec emax x -> SFfin prec emax y -> (SFltb x y = true <-> (Fval x < Fval y)%Q).
Proof.
  intros Hx Hy. pose proof (SFcompare_value Hx Hy) as H. unfold SFltb.
  destruct (SFcompare x y) as [[ | | ]|]; split; intros G; try reflexivity;
    try discriminate; try lra; try contradiction.
Qed.

Lemma SFleb_value (x y : spec_float) :
  SFfin prec emax x -> SFfin prec emax y -> (SFleb x y = true <-> (Fval x <= Fval y)%Q).
Proof.
  intros Hx Hy. pose proof (SFcompare_value Hx Hy) as H. unfold SFleb.
  destruct (SFcompare x y) as [[ | | ]|]; split; intros G; try reflexivity;
    try discriminate; try lra; try contradiction.
Qed.

Lemma SFopp_value (x : spec_float) :
  SFfin prec emax x -> SFfin prec emax (SFopp x) /\ (Fval (SFopp x) == - Fval x)%Q.
Proof.
  intros [Fx Vx]. destruct x as [s|s| |s m e]; try discriminate; cbn [SFopp].
  - split; [apply fin_zero|reflexivity].
  - split; [split; [reflexivity|exact Vx]|]. cbn [Fval].
    destruct s; cbn [negb cond_Zopp]; rewrite ?inject_Z_opp; ring.
Qed.

Lemma SFabs_value (x : spec_float) :
  SFfin prec emax x -> SFfin prec emax (SFabs x) /\ (Fval (SFabs x) == Qabs (Fval x))%Q.
Proof.
  intros [Fx Vx]. destruct x as [s|s| |s m e]; try discriminate; cbn [SFabs].
  - split; [apply fin_zero|reflexivity].
  - split; [split; [reflexivity|exact Vx]|]. cbn [Fval].
    rewrite Qabs_scaled. destruct s; reflexivity.
Qed.

(** ** Bounds a linear solver can use *)

(** A number rounded without underflow from [t], with [-B <= t <= B]. *)
Lemma roundedRel_bound (t r B : Q) :
  SFroundedRel prec t r -> (- B <= t <= B)%Q ->
  (- B <= (inject_Z (2 ^ prec) - 1) * (r - t) <= B)%Q.
Proof.
  unfold SFroundedRel. intros H [Hl Hu].
  assert (HP : (4 <= inject_Z (2 ^ prec))%Q).
  { change 4%Q with (inject_Z 4). rewrite <- Zle_Qle.
    assert (2 ^ 2 <= 2 ^ prec) by (apply pow2_le; lia). change (2 ^ 2) with 4 in H0. lia. }
  set (P := inject_Z (2 ^ prec)) in *.
  destruct (Qlt_le_dec (r - t) 0) as [N|N]; destruct (Qlt_le_dec r 0) as [N'|N'].
  - rewrite (Qabs_neg (r - t)), (Qabs_neg r) in H by lra. nra.
  - rewrite (Qabs_neg (r - t)), (Qabs_pos r) in H by lra. nra.
  - rewrite (Qabs_pos (r - t)), (Qabs_neg r) in H by lra. nra.
  - rewrite (Qabs_pos (r - t)), (Qabs_pos r) in H by lra. nra.
Qed.

Lemma rounded_bound (t r B : Q) :
  SFrounded prec emax t r -> (- B <= t <= B)%Q ->
  (- B - inject_Z (2 ^ prec) * pow2Q ((SpecFloat.emin prec emax) - 1)
   <= (inject_Z (2 ^ prec) - 1) * (r - t)
   <= B + inject_Z (2 ^ prec) * pow2Q ((SpecFloat.emin prec emax) - 1))%Q.
Proof.
  intros [H|H] Hb.
  - pose proof (@roundedRel_bound t r B H Hb). pose proof (pow2Q_pos ((SpecFloat.emin prec emax) - 1)).
    assert (HP : (0 <= inject_Z (2 ^ prec))%Q).
    { change 0%Q with (inject_Z 0). rewrite <- Zle_Qle. pose proof (@pow2_pos prec ltac:(lia)). lia. }
    nra.
  - assert (HP : (4 <= inject_Z (2 ^ prec))%Q).
    { change 4%Q with (inject_Z 4). rewrite <- Zle_Qle.
      assert (2 ^ 2 <= 2 ^ prec) by (apply pow2_le; lia). change (2 ^ 2) with 4 in H0. lia. }
    pose proof (pow2Q_pos ((SpecFloat.emin prec emax) - 1)). destruct Hb as [Hl Hu].
    set (P := inject_Z (2 ^ prec)) in *. set (h := pow2Q ((SpecFloat.emin prec emax) - 1)) in *.
    destruct (Qlt_le_dec (r - t) 0) as [N|N].
    + rewrite (Qabs_neg (r - t)) in H by lra. nra.
    + rewrite (Qabs_pos (r - t)) in H by lra. nra.
Qed.

End Round.

(** ** Rounding in binary32 *)

Lemma prec32 : 2 <= 24. Proof. lia. Qed.
Lemma emax32 : 24 < 128. Proof. lia. Qed.

Lemma Fval_of_Z_small (n : Z) :
  Z.abs n < 2 ^ 24 -> fin32 (F32.of_Z n) /\ (Fval (F32.of_Z n) == inject_Z n)%Q.
Proof.
  intros Hn. unfold F32.of_Z.
  destruct (@binary_normalize_value 24 128 prec32 emax32 n 0 false) as (Hf & Hv & _ & _ & Hex).
  - rewrite Qabs_scaled. unfold pow2Q at 1. cbn [Qpower]. rewrite Qmult_1_r.
    apply Qle_trans with (inject_Z (2 ^ 24)).
    + rewrite <- Zle_Qle. lia.
    + rewrite pow2Q_inj by lia. apply pow2Q_le. lia.
  - cbv zeta in Hf, Hv, Hex. split; [split; assumption|].
    rewrite Hex.
    + unfold pow2Q. cbn [Qpower]. ring.
    + destruct (Z.eq_dec n 0) as [->|N];
        [unfold SpecFloat.fexp, SpecFloat.emin; cbn [Zdigits2]; lia|].
      assert (Zdigits2 n <= 24).
      { destruct n as [|p|p]; try lia; cbn [Zdigits2];
          pose proof (digits2_bounds p) as [Hl Hu];
          (destruct (Z_le_gt_dec (Zpos (digits2_pos p)) 24) as [L|G]; [exact L|];
           assert (2 ^ 24 <= 2 ^ (Zpos (digits2_pos p) - 1)) by (apply pow2_le; lia); lia). }
      unfold SpecFloat.fexp, SpecFloat.emin. lia.
Qed.

Lemma within_fin (R : Z) (x : F32.float) :
  0 <= R < 2 ^ 24 -> within R x ->
  fin32 x /\ (- inject_Z R <= Fval x <= inject_Z R)%Q.
Proof.
  intros HR [Hv Hle].
  destruct (@Fval_of_Z_small R ltac:(lia)) as [HfR HvR].
  assert (Hf : SFfinite x = true).
  { destruct HfR as [HfR _]. destruct (F32.of_Z R) as [s|s| |s m e]; try discriminate;
      destruct x as [sx|sx| |sx mx ex]; try reflexivity; try discriminate. }
  assert (Hx : fin32 x) by (split; assumption).
  destruct (SFabs_value Hx) as [Ha Ea].
  apply (SFleb_value prec32 Ha HfR) in Hle. rewrite Ea, HvR in Hle.
  split; [exact Hx|]. apply Qabs_Qle_condition. exact Hle.
Qed.

Lemma small_no_overflow (B : Q) : (B <= 1000000)%Q -> (B <= pow2Q (128 - 1))%Q.
Proof.
  intros H. apply Qle_trans with (inject_Z (2 ^ 20)).
  - apply Qle_trans with 1000000%Q; [exact H|]. apply Qle_bool_iff. reflexivity.
  - rewrite pow2Q_inj by lia. apply pow2Q_le. lia.
Qed.

Lemma Qabs_le_bound (t B : Q) : (- B <= t <= B)%Q -> (Qabs t <= B)%Q.
Proof. intros H. apply Qabs_Qle_condition. exact H. Qed.

(** Addition, subtraction and multiplication in binary32, for a linear
    solver: the result is within [B / (2^24 - 1)] of the exact number when
    this one is within [B] of 0 (and a multiplication may underflow). *)
Lemma add32 (x y : F32.float) (B : Q) :
  fin32 x -> fin32 y -> (- B <= Fval x + Fval y <= B)%Q -> (B <= 1000000)%Q ->
  fin32 (F32.add x y) /\
  (- B <= 16777215 * (Fval (F32.add x y) - (Fval x + Fval y)) <= B)%Q.
Proof.
  intros Hx Hy Hb HB.
  destruct (@SFadd_value 24 128 prec32 emax32 x y Hx Hy) as [Hf Hr].
  - apply small_no_overflow. apply Qle_trans with B; [apply Qabs_le_bound; exact Hb|exact HB].
  - split; [exact Hf|].
    pose proof (@roundedRel_bound 24 prec32 _ _ B Hr Hb) as H.
    change (inject_Z (2 ^ 24) - 1)%Q with (16777216 - 1)%Q in H.
    change (SFadd 24 128 x y) with (F32.add x y) in H. lra.
Qed.

Lemma sub32 (x y : F32.float) (B : Q) :
  fin32 x -> fin32 y -> (- B <= Fval x - Fval y <= B)%Q -> (B <= 1000000)%Q ->
  fin32 (F32.sub x y) /\
  (- B <= 16777215 * (Fval (F32.sub x y) - (Fval x - Fval y)) <= B)%Q.
Proof.
  intros Hx Hy Hb HB.
  destruct (@SFsub_value 24 128 prec32 emax32 x y Hx Hy) as [Hf Hr].
  - apply small_no_overflow. apply Qle_trans with B; [apply Qabs_le_bound; exact Hb|exact HB].
  - split; [exact Hf|].
    pose proof (@roundedRel_bound 24 prec32 _ _ B Hr Hb) as H.
    change (inject_Z (2 ^ 24) - 1)%Q with (16777216 - 1)%Q in H.
    change (SFsub 24 128 x y) with (F32.sub x y) in H. lra.
Qed.

Lemma underflow32 : (inject_Z (2 ^ 24) * pow2Q (SpecFloat.emin 24 128 - 1) <= 1 # 1000000)%Q.
Proof. apply Qle_bool_iff. vm_compute. reflexivity. Qed.

Lemma mul32 (x y : F32.float) (B : Q) :
  fin32 x -> fin32 y -> (- B <= Fval x * Fval y <= B)%Q -> (B <= 1000000)%Q ->
  fin32 (F32.mul x y) /\
  (- B - (1 # 1000000) <= 16777215 * (Fval (F32.mul x y) - Fval x * Fval y)
   <= B + (1 # 1000000))%Q.
Proof.
  intros Hx Hy Hb HB.
  destruct (@SFmul_value 24 128 prec32 emax32 x y Hx Hy) as [Hf Hr].
  - apply small_no_overflow. apply Qle_trans with B; [apply Qabs_le_bound; exact Hb|exact HB].
  - split; [exact Hf|].
    pose proof (@rounded_bound 24 128 prec32 _ _ B Hr Hb) as H.
    pose proof underflow32 as Hu.
    change (inject_Z (2 ^ 24) - 1)%Q with (16777216 - 1)%Q in H.
    change (SFmul 24 128 x y) with (F32.mul x y) in H.
    set (u := (inject_Z (2 ^ 24) * pow2Q (SpecFloat.emin 24 128 - 1))%Q) in *. lra.
Qed.

Lemma SFmul_comm (prec emax : Z) (x y : spec_float) :
  SFmul prec emax x y = SFmul prec emax y x.
Proof.
  destruct x as [sx|sx| |sx mx ex], y as [sy|sy| |sy my ey]; cbn [SFmul];
    rewrite ?(xorb_comm sx sy); try reflexivity.
  rewrite (Pos.mul_comm mx my), (Z.add_comm ex ey). reflexivity.
Qed.

(** Multiplication by [1.0f] and by [-1.0f] is exact. *)
Lemma mul32_unit (s : bool) (x : F32.float) (B : Q) :
  fin32 x -> (- B <= Fval x <= B)%Q -> (B <= 1000000)%Q ->
  fin32 (F32.mul (S754_finite s 8388608 (-23)) x) /\
  (Fval (F32.mul (S754_finite s 8388608 (-23)) x) == (if s then - Fval x else Fval x))%Q.
Proof.
  intros Hx Hb HB. unfold F32.mul. rewrite SFmul_comm.
  destruct (@SFmul_unit_value 24 128 prec32 emax32 x s 8388608 Hx eq_refl) as [Hf Hv].
  - apply small_no_overflow. apply Qle_trans with B; [apply Qabs_le_bound; exact Hb|exact HB].
  - split; [exact Hf|]. change (1 - 24) with (-23) in Hv. rewrite Hv.
    destruct s.
    + assert (E : (Fval (S754_finite true 8388608 (-23)) == -1)%Q) by (vm_compute; reflexivity).
      rewrite E. ring.
    + assert (E : (Fval (S754_finite false 8388608 (-23)) == 1)%Q) by (vm_compute; reflexivity).
      rewrite E. ring.
Qed.

Lemma ltb32 (x y : F32.float) :
  fin32 x -> fin32 y -> (F32.ltb x y = true <-> (Fval x < Fval y)%Q).
Proof. intros Hx Hy. apply (SFltb_value prec32 Hx Hy). Qed.

Lemma leb32 (x y : F32.float) :
  fin32 x -> fin32 y -> (F32.leb x y = true <-> (Fval x <= Fval y)%Q).
Proof. intros Hx Hy. apply (SFleb_value prec32 Hx Hy). Qed.

Lemma ltb32_false (x y : F32.float) :
  fin32 x -> fin32 y -> F32.ltb x y = false -> (Fval y <= Fval x)%Q.
Proof.
  intros Hx Hy H. destruct (Qlt_le_dec (Fval x) (Fval y)) as [L|G]; [|exact G].
  apply (ltb32 Hx Hy) in L. congruence.
Qed.

Lemma fin32_eps : fin32 (F32.lit 1 1000) /\ (Fval (F32.lit 1 1000) == 8589935 # 8589934592)%Q.
Proof. split; [split; reflexivity|vm_compute; reflexivity]. Qed.

Lemma fin32_half : fin32 (F32.lit 1 2) /\ (Fval (F32.lit 1 2) == 1 # 2)%Q.
Proof. split; [split; reflexivity|vm_compute; reflexivity]. Qed.

Lemma fin32_zero : fin32 (F32.lit 0 1) /\ (Fval (F32.lit 0 1) == 0)%Q.
Proof. split; [split; reflexivity|vm_compute; reflexivity]. Qed.


Lemma testAgainstStatic_single (F : Type) `{Scalar F} (wall a : AABB F) :
  CollisionWorld.testAgainstStatic [wall] a =
  if hit (pairwise a wall) && (s_lit 0 1 <? penetration (pairwise a wall))%s
  then pairwise a wall else CollisionResult_init.
Proof. reflexivity. Qed.

Lemma single_wall_hit (F : Type) `{Scalar F} (wall a : AABB F) :
  hit (CollisionWorld.testAgainstStatic [wall] a) = true ->
  Collision.testAABBvsAABB a wall = true /\
  CollisionWorld.testAgainstStatic [wall] a = pairwise a wall.
Proof.
  rewrite testAgainstStatic_single, hit_pairwise.
  destruct (Collision.testAABBvsAABB a wall); cbn [andb]; [|discriminate].
  destruct (s_lit 0 1 <? penetration (pairwise a wall))%s; [|discriminate].
  auto.
Qed.

Lemma resolveLoop_step (F : Type) `{Scalar F} (w : list (AABB F)) n pos box :
  CollisionWorld.resolveLoop (S n) w pos box =
  if negb (hit (CollisionWorld.testAgainstStatic w box)) then (pos, box)
  else CollisionWorld.resolveLoop n w
         (Glm.add pos (pushOf (CollisionWorld.testAgainstStatic w box)))
         (translated box (pushOf (CollisionWorld.testAgainstStatic w box))).
Proof. reflexivity. Qed.

(** C4 as stated fails in two ways.  For a box that only touches the wall
    the slab test reports an overlap, the penetration is 0,
    [testAgainstStatic] reports no hit, the loop stops at once and the box
    still overlaps.  For the box [(-1,-1,-1),(1,1,1)] fully inside the wall
    of half-width 32768 the penetration is 32769, [32769 + 0.001f] is rounded
    to 32769, the displaced box ends on a face of the wall, which the slab
    test counts as an overlap, the next turn of the loop finds penetration 0
    and stops, and the box still overlaps. *)
Lemma resolveCollisions_still_overlapping_counterexample :
  ~ separatedAsStated
      (mkAABB (vec3i 1 0 0) (vec3i 2 1 1))
      (mkAABB (vec3i 0 0 0) (vec3i 1 1 1))
      (vec3f (1, 2%positive) (1, 2%positive) (1, 2%positive)) /\
  strictlyInside
      (mkAABB (vec3i (-1) (-1) (-1)) (vec3i 1 1 1))
      (mkAABB (vec3i (-32768) (-32768) (-32768)) (vec3i 32768 32768 32768)) /\
  ~ separatedAsStated
      (mkAABB (vec3i (-32768) (-32768) (-32768)) (vec3i 32768 32768 32768))
      (mkAABB (vec3i (-1) (-1) (-1)) (vec3i 1 1 1))
      (vec3i 0 0 0).
Proof.
  split; [|split].
  - intros Hsep. specialize (Hsep eq_refl). vm_compute in Hsep. discriminate Hsep.
  - repeat split; reflexivity.
  - intros Hsep. specialize (Hsep eq_refl). vm_compute in Hsep. discriminate Hsep.
Qed.

(** ** One axis of the displacement *)

Lemma axis_separates (am aM bm bM : F32.float) :
  within 1024 am -> within 1024 aM -> within 1024 bm -> within 1024 bM ->
  let pen := Std.min (F32.sub aM bm) (F32.sub bM am) in
  let q := F32.add pen (F32.lit 1 1000) in
  F32.ltb (F32.lit 0 1) pen = true ->
  if F32.ltb (F32.mul (F32.add am aM) (F32.lit 1 2)) (F32.mul (F32.add bm bM) (F32.lit 1 2))
  then F32.ltb (F32.add aM (F32.mul (F32.lit (-1) 1) q)) bm = true
  else F32.ltb bM (F32.add am (F32.mul (F32.lit 1 1) q)) = true.
Proof.
  intros Wam WaM Wbm WbM pen q Hpen.
  destruct (@within_fin 1024 am ltac:(lia) Wam) as [Fam Bam].
  destruct (@within_fin 1024 aM ltac:(lia) WaM) as [FaM BaM].
  destruct (@within_fin 1024 bm ltac:(lia) Wbm) as [Fbm Bbm].
  destruct (@within_fin 1024 bM ltac:(lia) WbM) as [FbM BbM].
  change (inject_Z 1024) with 1024%Q in *.
  destruct fin32_eps as [Feps Veps]. destruct fin32_half as [Fhalf Vhalf].
  destruct fin32_zero as [Fzero Vzero].
  set (a := Fval am) in *. set (A := Fval aM) in *.
  set (b := Fval bm) in *. set (B := Fval bM) in *.
  destruct (@sub32 aM bm 2048 FaM Fbm ltac:(fold A b; lra) ltac:(lra)) as [Fo1 Eo1].
  destruct (@sub32 bM am 2048 FbM Fam ltac:(fold B a; lra) ltac:(lra)) as [Fo2 Eo2].
  fold A b in Eo1. fold B a in Eo2.
  set (o1 := F32.sub aM bm) in *. set (o2 := F32.sub bM am) in *.
  assert (Fpen : fin32 pen) by (unfold pen, Std.min; destruct (s_ltb o2 o1); assumption).
  assert (Hmin : (Fval pen == Fval o2 /\ Fval o2 < Fval o1 \/
                  Fval pen == Fval o1 /\ Fval o1 <= Fval o2)%Q).
  { unfold pen, Std.min. cbn [s_ltb Scalar_float].
    destruct (F32.ltb o2 o1) eqn:E.
    - left. split; [reflexivity|]. apply (ltb32 Fo2 Fo1). exact E.
    - right. split; [reflexivity|]. apply (ltb32_false Fo2 Fo1). exact E. }
  apply (ltb32 Fzero Fpen) in Hpen. rewrite Vzero in Hpen.
  destruct (@add32 am aM 2048 Fam FaM ltac:(fold a A; lra) ltac:(lra)) as [Fsa Esa].
  destruct (@add32 bm bM 2048 Fbm FbM ltac:(fold b B; lra) ltac:(lra)) as [Fsb Esb].
  fold a A in Esa. fold b B in Esb.
  set (sa := F32.add am aM) in *. set (sb := F32.add bm bM) in *.
  destruct (@mul32 sa (F32.lit 1 2) 1025 Fsa Fhalf ltac:(rewrite Vhalf; lra) ltac:(lra)) as [Fca Eca].
  destruct (@mul32 sb (F32.lit 1 2) 1025 Fsb Fhalf ltac:(rewrite Vhalf; lra) ltac:(lra)) as [Fcb Ecb].
  rewrite Vhalf in Eca, Ecb.
  set (ca := F32.mul sa (F32.lit 1 2)) in *. set (cb := F32.mul sb (F32.lit 1 2)) in *.
  destruct (@add32 pen (F32.lit 1 1000) 2050 Fpen Feps ltac:(rewrite Veps; lra) ltac:(lra))
    as [Fq Eq]. rewrite Veps in Eq. fold q in Fq, Eq.
  change (F32.lit (-1) 1) with (S754_finite true 8388608 (-23)).
  change (F32.lit 1 1) with (S754_finite false 8388608 (-23)).
  destruct (F32.ltb ca cb) eqn:Ec.
  - apply (ltb32 Fca Fcb) in Ec.
    destruct (@mul32_unit true q 2051 Fq ltac:(lra) ltac:(lra)) as [Fp Ep].
    set (p := F32.mul (S754_finite true 8388608 (-23)) q) in *.
    destruct (@add32 aM p 1026 FaM Fp ltac:(fold A; rewrite Ep; lra) ltac:(lra)) as [Fr Er].
    fold A in Er. rewrite Ep in Er.
    apply (ltb32 Fr Fbm). fold b. lra.
  - apply (ltb32_false Fca Fcb) in Ec.
    destruct (@mul32_unit false q 2051 Fq ltac:(lra) ltac:(lra)) as [Fp Ep].
    set (p := F32.mul (S754_finite false 8388608 (-23)) q) in *.
    destruct (@add32 am p 1026 Fam Fp ltac:(fold a; rewrite Ep; lra) ltac:(lra)) as [Fr Er].
    fold a in Er. rewrite Ep in Er.
    apply (ltb32 FbM Fr). fold B. lra.
Qed.

(** ** The displacement separates the box from the wall *)

Lemma push_separates32 (a b : AABB F32.float) (k : Axis) :
  boxWithin 1024 a -> boxWithin 1024 b ->
  F32.ltb (F32.lit 0 1) (axisOverlap a b k) = true ->
  Collision.testAABBvsAABB
    (translated a (Glm.scale (awayNormal a b k) (axisOverlap a b k + s_lit 1 1000)%s)) b = false.
Proof.
  intros [(Wax & Way & Waz) (WaX & WaY & WaZ)] [(Wbx & Wby & Wbz) (WbX & WbY & WbZ)] Hpen.
  destruct a as [[ax ay az] [aX aY aZ]], b as [[bx by_ bz] [bX bY bZ]].
  cbn [min max Glm.x Glm.y Glm.z] in *.
  unfold axisOverlap in *.
  unfold Collision.testAABBvsAABB, translated, awayNormal, centreOn, alongAxis, s_gtb.
  destruct k; cbn [coord min max Glm.x Glm.y Glm.z] in *.
  - pose proof (@axis_separates ax aX bx bX Wax WaX Wbx WbX Hpen) as H.
    cbn [s_add s_sub s_mul s_ltb s_lit Scalar_float] in *.
    destruct (F32.ltb (F32.mul (F32.add ax aX) (F32.lit 1 2))
                      (F32.mul (F32.add bx bX) (F32.lit 1 2)));
      cbn [Glm.add Glm.scale min max Glm.x Glm.y Glm.z s_add s_sub s_mul s_ltb s_lit Scalar_float];
      rewrite H; rewrite ?orb_true_r; reflexivity.
  - pose proof (@axis_separates ay aY by_ bY Way WaY Wby WbY Hpen) as H.
    cbn [s_add s_sub s_mul s_ltb s_lit Scalar_float] in *.
    destruct (F32.ltb (F32.mul (F32.add ay aY) (F32.lit 1 2))
                      (F32.mul (F32.add by_ bY) (F32.lit 1 2)));
      cbn [Glm.add Glm.scale min max Glm.x Glm.y Glm.z s_add s_sub s_mul s_ltb s_lit Scalar_float];
      rewrite H; rewrite ?orb_true_r;
      match goal with |- (if ?c then false else _) = false => destruct c; reflexivity end.
  - pose proof (@axis_separates az aZ bz bZ Waz WaZ Wbz WbZ Hpen) as H.
    cbn [s_add s_sub s_mul s_ltb s_lit Scalar_float] in *.
    destruct (F32.ltb (F32.mul (F32.add az aZ) (F32.lit 1 2))
                      (F32.mul (F32.add bz bZ) (F32.lit 1 2)));
      cbn [Glm.add Glm.scale min max Glm.x Glm.y Glm.z s_add s_sub s_mul s_ltb s_lit Scalar_float];
      rewrite H; rewrite ?orb_true_r;
      match goal with |- (if ?c then false else _) = false => destruct c end;
      try reflexivity;
      match goal with |- (if ?c then false else _) = false => destruct c; reflexivity end.
Qed.

Lemma single_wall_resolved32 (wall a : AABB F32.float) (pos : Glm.vec3 F32.float) :
  boxWithin 1024 wall -> boxWithin 1024 a ->
  hit (CollisionWorld.testAgainstStatic [wall] a) = true ->
  CollisionWorld.resolveLoop 4 [wall] pos a =
    (Glm.add pos (pushOf (pairwise a wall)), translated a (pushOf (pairwise a wall))) /\
  Collision.testAABBvsAABB (translated a (pushOf (pairwise a wall))) wall = false.
Proof.
  intros Ww Wa Hhit. destruct (@single_wall_hit _ _ wall a Hhit) as [Hov Hr].
  assert (Hpen : (s_lit 0 1 <? penetration (pairwise a wall))%s = true).
  { rewrite testAgainstStatic_single, hit_pairwise, Hov in Hhit. cbn [andb] in Hhit.
    destruct (s_lit 0 1 <? penetration (pairwise a wall))%s; [reflexivity|].
    cbn in Hhit. discriminate. }
  assert (Hsep : Collision.testAABBvsAABB (translated a (pushOf (pairwise a wall))) wall = false).
  { unfold pushOf. rewrite (@response_shape _ _ a wall Hov) in *. cbn [normal penetration] in *.
    apply push_separates32; assumption. }
  split; [|exact Hsep].
  rewrite resolveLoop_step, Hhit. cbn [negb]. rewrite Hr.
  rewrite resolveLoop_step, testAgainstStatic_single, hit_pairwise, Hsep. reflexivity.
Qed.

Lemma sub32_positive (x y : F32.float) :
  fin32 x -> fin32 y -> (Fval y < Fval x)%Q -> (Fval x - Fval y <= 1000000)%Q ->
  fin32 (F32.sub x y) /\ (0 < Fval (F32.sub x y))%Q.
Proof.
  intros Hx Hy Hlt Hb.
  destruct (@sub32 x y (Fval x - Fval y) Hx Hy ltac:(lra) Hb) as [Hf He].
  split; [exact Hf|lra].
Qed.

Lemma strictlyInside_hit32 (wall a : AABB F32.float) :
  boxWithin 1024 wall -> boxWithin 1024 a -> strictlyInside a wall ->
  hit (CollisionWorld.testAgainstStatic [wall] a) = true.
Proof.
  intros [(Wbx & Wby & Wbz) (WbX & WbY & WbZ)] [(Wax & Way & Waz) (WaX & WaY & WaZ)] Hin.
  destruct a as [[ax ay az] [aX aY aZ]], wall as [[bx by_ bz] [bX bY bZ]].
  unfold strictlyInside in Hin. cbn [min max Glm.x Glm.y Glm.z] in *.
  destruct Hin as (I1 & I2 & I3 & I4 & I5 & I6 & I7 & I8 & I9).
  destruct (@within_fin 1024 ax ltac:(lia) Wax) as [Fax Bax].
  destruct (@within_fin 1024 ay ltac:(lia) Way) as [Fay Bay].
  destruct (@within_fin 1024 az ltac:(lia) Waz) as [Faz Baz].
  destruct (@within_fin 1024 aX ltac:(lia) WaX) as [FaX BaX].
  destruct (@within_fin 1024 aY ltac:(lia) WaY) as [FaY BaY].
  destruct (@within_fin 1024 aZ ltac:(lia) WaZ) as [FaZ BaZ].
  destruct (@within_fin 1024 bx ltac:(lia) Wbx) as [Fbx Bbx].
  destruct (@within_fin 1024 by_ ltac:(lia) Wby) as [Fby Bby].
  destruct (@within_fin 1024 bz ltac:(lia) Wbz) as [Fbz Bbz].
  destruct (@within_fin 1024 bX ltac:(lia) WbX) as [FbX BbX].
  destruct (@within_fin 1024 bY ltac:(lia) WbY) as [FbY BbY].
  destruct (@within_fin 1024 bZ ltac:(lia) WbZ) as [FbZ BbZ].
  change (inject_Z 1024) with 1024%Q in *.
  apply (ltb32 Fbx Fax) in I1. apply (leb32 Fax FaX) in I2. apply (ltb32 FaX FbX) in I3.
  apply (ltb32 Fby Fay) in I4. apply (leb32 Fay FaY) in I5. apply (ltb32 FaY FbY) in I6.
  apply (ltb32 Fbz Faz) in I7. apply (leb32 Faz FaZ) in I8. apply (ltb32 FaZ FbZ) in I9.
  assert (Hno : forall u v, fin32 u -> fin32 v -> (Fval v <= Fval u)%Q -> F32.ltb u v = false).
  { intros u v Fu Fv H. destruct (F32.ltb u v) eqn:E; [|reflexivity].
    apply (ltb32 Fu Fv) in E. lra. }
  assert (Hov : Collision.testAABBvsAABB
                  (mkAABB (Glm.mkVec3 ax ay az) (Glm.mkVec3 aX aY aZ))
                  (mkAABB (Glm.mkVec3 bx by_ bz) (Glm.mkVec3 bX bY bZ)) = true).
  { unfold Collision.testAABBvsAABB, s_gtb.
    cbn [min max Glm.x Glm.y Glm.z s_ltb Scalar_float].
    rewrite (Hno aX bx), (Hno bX ax), (Hno aY by_), (Hno bY ay), (Hno aZ bz), (Hno bZ az)
      by (try assumption; lra). reflexivity. }
  rewrite testAgainstStatic_single, hit_pairwise, Hov. cbn [andb].
  rewrite (@response_shape _ _ _ _ Hov). cbn [penetration hit].
  assert (Hpos : forall k, (s_lit 0 1 <? axisOverlap
                  (mkAABB (Glm.mkVec3 ax ay az) (Glm.mkVec3 aX aY aZ))
                  (mkAABB (Glm.mkVec3 bx by_ bz) (Glm.mkVec3 bX bY bZ)) k)%s = true).
  { intros k. destruct fin32_zero as [Fz Vz].
    unfold axisOverlap, Std.min. cbn [s_ltb s_sub s_lit Scalar_float].
    destruct k; cbn [coord min max Glm.x Glm.y Glm.z];
      match goal with |- F32.ltb _ (if ?c then F32.sub ?x ?y else F32.sub ?x' ?y') = true =>
        destruct (@sub32_positive x y) as [F1 P1]; try assumption; try lra;
        destruct (@sub32_positive x' y') as [F2 P2]; try assumption; try lra;
        destruct c; [apply (ltb32 Fz F1)|apply (ltb32 Fz F2)]; rewrite Vz; assumption
      end. }
  rewrite Hpos. reflexivity.
Qed.

(** In binary32 a hit of positive penetration can stay unresolved when the
    coordinates are large: for the box [(-1,-1,-1),(1,1,1)] strictly inside a
    wall of half-width 32768 the sum [penetration + 0.001f] is rounded to the
    penetration, the box ends on a face of the wall, which the slab test
    counts as an overlap, and the next turn of the loop finds penetration 0
    and stops. *)
Lemma resolveCollisions_rounding_example :
  let wall := mkAABB (vec3i (-32768) (-32768) (-32768)) (vec3i 32768 32768 32768) in
  let a := mkAABB (vec3i (-1) (-1) (-1)) (vec3i 1 1 1) in
  strictlyInside a wall /\
  hit (CollisionWorld.testAgainstStatic [wall] a) = true /\
  F32.add (penetration (CollisionWorld.testAgainstStatic [wall] a)) (F32.lit 1 1000) =
    penetration (CollisionWorld.testAgainstStatic [wall] a) /\
  Collision.testAABBvsAABB (CollisionWorld.resolvedBox [wall] a (vec3i 0 0 0)) wall = true.
Proof. vm_compute. repeat split. Qed.

(** C4, as amended.  [resolveCollisions] applies at most 4 displacements, each
    one [normal * (penetration + 0.001)] of the deepest hit of the box as
    displaced so far, to the position and to the test box alike, and stops as
    soon as [testAgainstStatic] reports no hit.  In binary32, with a single
    wall and the coordinates of the wall and of the box of magnitude at most
    1024, a moving box for which [testAgainstStatic] reports a hit (so with
    strictly positive penetration) is displaced once and no longer overlaps
    the wall; a box strictly inside the wall is such a box.  The box
    [(-1,-1,-1),(1,1,1)] inside the wall [(-2,-2,-2),(2,2,2)] ends clear of
    the wall, also when the box is rebuilt around the corrected position. *)
Theorem resolveCollisions_bounded_pushes_and_separation :
  (forall (F : Type) (S : Scalar F) (w : list (AABB F)) (box : AABB F) (pos : Glm.vec3 F),
      exists ps,
        (List.length ps <= 4)%nat /\
        pushesFrom w box ps /\
        CollisionWorld.resolveCollisions w box pos = fold_left Glm.add ps pos /\
        CollisionWorld.resolvedBox w box pos = fold_left translated ps box /\
        (List.length ps = 4%nat \/
         hit (CollisionWorld.testAgainstStatic w (CollisionWorld.resolvedBox w box pos)) = false)) /\
  (forall (wall a : AABB F32.float) (pos : Glm.vec3 F32.float),
      boxWithin 1024 wall -> boxWithin 1024 a ->
      hit (CollisionWorld.testAgainstStatic [wall] a) = true ->
      CollisionWorld.resolveCollisions [wall] a pos = Glm.add pos (pushOf (pairwise a wall)) /\
      CollisionWorld.resolvedBox [wall] a pos = translated a (pushOf (pairwise a wall)) /\
      Collision.testAABBvsAABB (CollisionWorld.resolvedBox [wall] a pos) wall = false) /\
  (forall (wall a : AABB F32.float) (pos : Glm.vec3 F32.float),
      boxWithin 1024 wall -> boxWithin 1024 a ->
      strictlyInside a wall ->
      hit (CollisionWorld.testAgainstStatic [wall] a) = true /\
      Collision.testAABBvsAABB (CollisionWorld.resolvedBox [wall] a pos) wall = false) /\
  (let wall := mkAABB (vec3i (-2) (-2) (-2)) (vec3i 2 2 2) in
   let a := mkAABB (vec3i (-1) (-1) (-1)) (vec3i 1 1 1) in
   let p := CollisionWorld.resolveCollisions [wall] a (vec3i 0 0 0) in
   Collision.testAABBvsAABB a wall = true /\
   Collision.testAABBvsAABB (CollisionWorld.resolvedBox [wall] a (vec3i 0 0 0)) wall = false /\
   Collision.testAABBvsAABB
     (mkAABB (Glm.sub p (vec3i 1 1 1)) (Glm.add p (vec3i 1 1 1))) wall = false).
Proof.
  split; [|split; [|split]].
  - intros F S w box pos.
    destruct (resolveLoop_pushes w 4 pos box) as (ps & Hlen & Hps & Heq & Hend).
    exists ps. unfold CollisionWorld.resolveCollisions, CollisionWorld.resolvedBox.
    rewrite Heq. cbn [fst snd]. auto.
  - intros wall a pos Ww Wa Hhit.
    destruct (@single_wall_resolved32 wall a pos Ww Wa Hhit) as [Heq Hsep].
    unfold CollisionWorld.resolveCollisions, CollisionWorld.resolvedBox.
    rewrite Heq. cbn [fst snd]. auto.
  - intros wall a pos Ww Wa Hin.
    pose proof (@strictlyInside_hit32 wall a Ww Wa Hin) as Hhit.
    destruct (@single_wall_resolved32 wall a pos Ww Wa Hhit) as [Heq Hsep].
    split; [exact Hhit|].
    unfold CollisionWorld.resolvedBox. rewrite Heq. exact Hsep.
  - vm_compute. repeat split.
Qed.

Lemma resolveCollisions_separation_witness :
  let wall := mkAABB (vec3i 0 0 0) (vec3i 4 4 4) in
  let a := mkAABB (vec3f (7, 2%positive) (1, 1%positive) (1, 1%positive)) (vec3i 5 2 2) in
  CollisionWorld.resolveCollisions [wall] a (vec3i 4 1 1) =
    Glm.add (vec3i 4 1 1) (pushOf (pairwise a wall)) /\
  CollisionWorld.resolvedBox [wall] a (vec3i 4 1 1) = translated a (pushOf (pairwise a wall)) /\
  Collision.testAABBvsAABB (CollisionWorld.resolvedBox [wall] a (vec3i 4 1 1)) wall = false.
Proof.
  intros wall a.
  apply (proj1 (proj2 resolveCollisions_bounded_pushes_and_separation) wall a (vec3i 4 1 1)).
  - repeat split; reflexivity.
  - repeat split; reflexivity.
  - vm_compute. reflexivity.
Defined.

Lemma response_axis_witness :
  exists k,
    smallestOverlapAxis (mkAABB (vec3i (-1) (-1) (-1)) (vec3i 1 1 1))
                        (mkAABB (vec3i 0 (-1) (-1)) (vec3i 2 1 1)) k /\
    Collision.testAABBvsAABBResponse
      (mkAABB (vec3i (-1) (-1) (-1)) (vec3i 1 1 1))
      (mkAABB (vec3i 0 (-1) (-1)) (vec3i 2 1 1)) =
    mkCollisionResult true
      (overlapMidpoint (mkAABB (vec3i (-1) (-1) (-1)) (vec3i 1 1 1))
                       (mkAABB (vec3i 0 (-1) (-1)) (vec3i 2 1 1)))
      (awayNormal (mkAABB (vec3i (-1) (-1) (-1)) (vec3i 1 1 1))
                  (mkAABB (vec3i 0 (-1) (-1)) (vec3i 2 1 1)) k)
      (axisOverlap (mkAABB (vec3i (-1) (-1) (-1)) (vec3i 1 1 1))
                   (mkAABB (vec3i 0 (-1) (-1)) (vec3i 2 1 1)) k).
Proof.
  apply (proj1 response_picks_smallest_overlap_axis).
  - repeat split; reflexivity.
  - repeat split; reflexivity.
  - vm_compute. reflexivity.
Defined.

(** ** Camera: the pitch clamp *)

Lemma lit_89 : Camera.lit 89 = S754_finite false 11665408 (-17).
Proof. reflexivity. Qed.

Lemma lit_m89 : Camera.lit (-89) = S754_finite true 11665408 (-17).
Proof. reflexivity. Qed.

(** [std::clamp] never answers above [hi] or below [lo], whatever [v]. *)
Lemma clamp_not_outside (v lo hi : F32.float) :
  F32.ltb hi lo = false ->
  F32.ltb hi (Std.clamp v lo hi) = false /\ F32.ltb (Std.clamp v lo hi) lo = false.
Proof.
  intros Hlh. unfold Std.clamp. cbn [s_ltb Scalar_float].
  destruct (F32.ltb v lo) eqn:E1; [split; [assumption | apply ltb_irrefl]|].
  destruct (F32.ltb hi v) eqn:E2; [split; [apply ltb_irrefl | assumption]|].
  split; assumption.
Qed.

(** [std::clamp] of a number (not a NaN) is between [lo] and [hi]. *)
Lemma clamp_in_range (v lo hi : F32.float) :
  F32.is_nan v = false -> F32.leb lo hi = true ->
  F32.leb lo (Std.clamp v lo hi) = true /\ F32.leb (Std.clamp v lo hi) hi = true.
Proof.
  intros Hv Hlh. unfold Std.clamp. cbn [s_ltb Scalar_float].
  destruct (F32.ltb v lo) eqn:E1; [split; forder|].
  destruct (F32.ltb hi v) eqn:E2; split; forder.
Qed.

Lemma add_finite_l_not_nan x y :
  F32.is_finite x = true -> F32.is_nan y = false -> F32.is_nan (F32.add x y) = false.
Proof.
  destruct x as [sx|sx| |sx mx ex], y as [sy|sy| |sy my ey]; simpl;
    try discriminate; intros _ _; try reflexivity.
  - destruct sx, sy; reflexivity.
  - apply binary_normalize_not_nan.
Qed.

Lemma pitchInRange_finite (c : Camera.t) :
  Camera.pitchInRange c -> F32.is_finite (Camera.m_pitch c) = true.
Proof.
  unfold Camera.pitchInRange. rewrite lit_89, lit_m89. intros [H1 H2].
  destruct (Camera.m_pitch c) as [s|s| |s m e]; try reflexivity; exfalso.
  - destruct s; forder.
  - forder.
Qed.

Section CameraProperties.
Context `{Libm}.

Lemma freeRoam_constrained_pitch (c : Camera.t) (xo yo : F32.float) :
  Camera.m_mode c = Camera.FREE_ROAM ->
  Camera.m_pitch (Camera.processMouseMovement c xo yo true) =
    Std.clamp (F32.add (Camera.m_pitch c) (F32.mul yo (Camera.m_mouseSensitivity c)))
              (Camera.lit (-89)) (Camera.lit 89) /\
  Camera.m_mode (Camera.processMouseMovement c xo yo true) = Camera.FREE_ROAM /\
  Camera.m_mouseSensitivity (Camera.processMouseMovement c xo yo true) =
    Camera.m_mouseSensitivity c.
Proof.
  intros Hm. unfold Camera.processMouseMovement. rewrite Hm. cbn. auto.
Qed.

Lemma mouseMoves_snoc (c : Camera.t) deltas d :
  Camera.mouseMoves c (deltas ++ [d]) =
  Camera.processMouseMovement (Camera.mouseMoves c deltas) (fst d) (snd d) true.
Proof. unfold Camera.mouseMoves. rewrite fold_left_app. reflexivity. Qed.

Lemma mouseMoves_mode (c : Camera.t) deltas :
  Camera.m_mode c = Camera.FREE_ROAM ->
  Camera.m_mode (Camera.mouseMoves c deltas) = Camera.FREE_ROAM /\
  Camera.m_mouseSensitivity (Camera.mouseMoves c deltas) = Camera.m_mouseSensitivity c.
Proof.
  intros Hm. induction deltas as [|d deltas IH] using rev_ind.
  - auto.
  - rewrite mouseMoves_snoc. destruct IH as [IH1 IH2].
    destruct (@freeRoam_constrained_pitch (Camera.mouseMoves c deltas) (fst d) (snd d) IH1)
      as (_ & Hm' & Hs').
    split; congruence.
Qed.

(** C5.  In FREE_ROAM mode with the pitch constraint on, a call of
    [processMouseMovement] never leaves the pitch above 89 or below -89,
    whatever the pitch before and the deltas; and from a pitch in
    [-89, 89], with a finite sensitivity, any run of finite mouse deltas
    leaves the pitch in [-89, 89]. *)
Theorem freeRoam_pitch_stays_clamped :
  (forall (c : Camera.t) (xo yo : F32.float),
      Camera.m_mode c = Camera.FREE_ROAM ->
      F32.ltb (Camera.lit 89) (Camera.m_pitch (Camera.processMouseMovement c xo yo true)) = false /\
      F32.ltb (Camera.m_pitch (Camera.processMouseMovement c xo yo true)) (Camera.lit (-89)) = false) /\
  (forall (c : Camera.t) (deltas : list (F32.float * F32.float)),
      Camera.m_mode c = Camera.FREE_ROAM ->
      Camera.pitchInRange c ->
      F32.is_finite (Camera.m_mouseSensitivity c) = true ->
      Forall (fun d => F32.is_finite (fst d) = true /\ F32.is_finite (snd d) = true) deltas ->
      Camera.pitchInRange (Camera.mouseMoves c deltas) /\
      F32.ltb (Camera.lit 89) (Camera.m_pitch (Camera.mouseMoves c deltas)) = false /\
      F32.ltb (Camera.m_pitch (Camera.mouseMoves c deltas)) (Camera.lit (-89)) = false /\
      Camera.m_mode (Camera.mouseMoves c deltas) = Camera.FREE_ROAM).
Proof.
  split.
  - intros c xo yo Hm.
    destruct (@freeRoam_constrained_pitch c xo yo Hm) as (Hp & _ & _). rewrite Hp.
    apply clamp_not_outside. reflexivity.
  - intros c deltas Hm Hr Hs Hd.
    assert (Hin : Camera.pitchInRange (Camera.mouseMoves c deltas)).
    { induction deltas as [|d deltas IH] using rev_ind.
      - exact Hr.
      - apply Forall_app in Hd. destruct Hd as [Hd Hlast].
        inversion Hlast as [|? ? [Hx Hy] _]; subst.
        specialize (IH Hd). rewrite mouseMoves_snoc.
        destruct (@mouseMoves_mode c deltas Hm) as [Hm' Hs'].
        destruct (@freeRoam_constrained_pitch (Camera.mouseMoves c deltas) (fst d) (snd d) Hm')
          as (Hp & _ & _).
        unfold Camera.pitchInRange. rewrite Hp. apply clamp_in_range; [|reflexivity].
        apply add_finite_l_not_nan.
        + apply pitchInRange_finite. exact IH.
        + apply mul_finite_not_nan; [exact Hy | rewrite Hs'; exact Hs]. }
    split; [exact Hin|]. destruct (@mouseMoves_mode c deltas Hm) as [Hm' _].
    destruct Hin as [Hlo Hhi]. repeat split; try assumption; forder.
Qed.

End CameraProperties.

Lemma freeRoam_pitch_witness :
  let c := @Camera.init taylorLibm in
  let deltas := [(F32.zero, F32.of_Z 100000); (F32.zero, F32.of_Z 100000);
                 (F32.zero, F32.of_Z 100000)] in
  Camera.pitchInRange (@Camera.mouseMoves taylorLibm c deltas) /\
  F32.ltb (Camera.lit 89) (Camera.m_pitch (@Camera.mouseMoves taylorLibm c deltas)) = false /\
  F32.ltb (Camera.m_pitch (@Camera.mouseMoves taylorLibm c deltas)) (Camera.lit (-89)) = false /\
  Camera.m_mode (@Camera.mouseMoves taylorLibm c deltas) = Camera.FREE_ROAM.
Proof.
  intros c deltas.
  apply (proj2 (@freeRoam_pitch_stays_clamped taylorLibm) c deltas).
  - reflexivity.
  - split; reflexivity.
  - reflexivity.
  - repeat constructor.
Defined.

(** ** Camera: the orbit position *)

(** ** Rounding in binary64, and between [float] and [double] *)

Lemma prec64 : 2 <= 53. Proof. lia. Qed.
Lemma emax64 : 53 < 1024. Proof. lia. Qed.

(** A [float] converted to [double] is the same number. *)
Lemma of_F32_value (x : F32.float) :
  fin32 x -> SFfin 53 1024 (F64.of_F32 x) /\ (Fval (F64.of_F32 x) == Fval x)%Q.
Proof.
  intros [Fx Vx]. destruct x as [s|s| |s m e]; try discriminate.
  - split; [apply fin_zero|reflexivity].
  - unfold F64.of_F32.
    destruct (@valid_finite 24 128 prec32 _ _ _ Vx) as (Hcan & Hmaxe & Hemin & Hlt & _).
    destruct (@binary_round_value 53 1024 prec64 emax64 s m e) as (Hf & Hv & _ & _ & Hex).
    + apply Qle_trans with (inject_Z (2 ^ 24) * pow2Q e)%Q.
      * apply scaled_le. lia.
      * rewrite pow2Q_inj, <- pow2Q_add by lia. apply pow2Q_le. lia.
    + cbv zeta in Hf, Hv, Hex. split; [split; assumption|].
      cbn [Fval]. apply Hex.
      unfold SpecFloat.fexp, SpecFloat.emin in *. lia.
Qed.

(** A [double] stored in a [float] is rounded. *)
Lemma to_F32_value (x : F64.float) :
  SFfinite x = true -> (Qabs (Fval x) <= pow2Q (128 - 1))%Q ->
  fin32 (F64.to_F32 x) /\ SFrounded 24 128 (Fval x) (Fval (F64.to_F32 x)).
Proof.
  intros Fx Hb. destruct x as [s|s| |s m e]; try discriminate.
  - split; [apply fin_zero|]. apply roundedRel_rounded, roundedRel_refl. reflexivity.
  - unfold F64.to_F32, F32.prec, F32.emax.
    destruct (@binary_round_value 24 128 prec32 emax32 s m e) as (Hf & Hv & Hr & _).
    + cbn [Fval] in Hb. rewrite Qabs_scaled in Hb.
      destruct s; cbn [cond_Zopp Z.abs Z.opp] in Hb; exact Hb.
    + cbv zeta in Hf, Hv, Hr. split; [split; assumption|exact Hr].
Qed.

Lemma tiny32 : (inject_Z (2 ^ 24) * pow2Q (SpecFloat.emin 24 128 - 1) == pow2Q (-126))%Q.
Proof. rewrite pow2Q_inj by lia. rewrite <- pow2Q_add. reflexivity. Qed.

Lemma tiny64 : (inject_Z (2 ^ 53) * pow2Q (SpecFloat.emin 53 1024 - 1) == pow2Q (-1022))%Q.
Proof. rewrite pow2Q_inj by lia. rewrite <- pow2Q_add. reflexivity. Qed.

Lemma small_no_overflow64 (B : Q) : (B <= 1000000)%Q -> (B <= pow2Q (1024 - 1))%Q.
Proof.
  intros H. apply Qle_trans with (inject_Z (2 ^ 20)).
  - apply Qle_trans with 1000000%Q; [exact H|]. apply Qle_bool_iff. reflexivity.
  - rewrite pow2Q_inj by lia. apply pow2Q_le. lia.
Qed.

(** The product of two [double]s and the [float] of a [double], for a
    linear solver. *)
Lemma mul64 (x y : F64.float) (B : Q) :
  SFfin 53 1024 x -> SFfin 53 1024 y -> (- B <= Fval x * Fval y <= B)%Q -> (B <= 1000000)%Q ->
  SFfin 53 1024 (F64.mul x y) /\
  (- B - pow2Q (-1022) <= 9007199254740991 * (Fval (F64.mul x y) - Fval x * Fval y)
   <= B + pow2Q (-1022))%Q.
Proof.
  intros Hx Hy Hb HB.
  destruct (@SFmul_value 53 1024 prec64 emax64 x y Hx Hy) as [Hf Hr].
  - apply small_no_overflow64. apply Qle_trans with B; [apply Qabs_le_bound; exact Hb|exact HB].
  - split; [exact Hf|].
    pose proof (@rounded_bound 53 1024 prec64 _ _ B Hr Hb) as H.
    rewrite tiny64 in H.
    change (inject_Z (2 ^ 53) - 1)%Q with (9007199254740992 - 1)%Q in H.
    change (SFmul 53 1024 x y) with (F64.mul x y) in H.
    set (u := pow2Q (-1022)) in *. lra.
Qed.

Lemma narrow32 (x : F64.float) (B : Q) :
  SFfin 53 1024 x -> (- B <= Fval x <= B)%Q -> (B <= 1000000)%Q ->
  fin32 (F64.to_F32 x) /\
  (- B - pow2Q (-126) <= 16777215 * (Fval (F64.to_F32 x) - Fval x) <= B + pow2Q (-126))%Q.
Proof.
  intros [Fx Vx] Hb HB.
  destruct (@to_F32_value x Fx) as [Hf Hr].
  - apply small_no_overflow. apply Qle_trans with B; [apply Qabs_le_bound; exact Hb|exact HB].
  - split; [exact Hf|].
    pose proof (@rounded_bound 24 128 prec32 _ _ B Hr Hb) as H.
    rewrite tiny32 in H.
    change (inject_Z (2 ^ 24) - 1)%Q with (16777216 - 1)%Q in H.
    set (u := pow2Q (-126)) in *. lra.
Qed.

(** A value of [cos] or [sin] is a number between -1 and 1. *)
Lemma unit_value (v : F64.float) :
  Camera.unit v -> SFfin 53 1024 v /\ (- (1) <= Fval v <= 1)%Q.
Proof.
  intros [Hv Hle].
  assert (H1 : SFfin 53 1024 F64.one) by (split; reflexivity).
  assert (E1 : (Fval F64.one == 1)%Q) by (vm_compute; reflexivity).
  assert (Hf : SFfinite v = true).
  { destruct v as [s|s| |s m e]; try reflexivity; try discriminate. }
  assert (Hx : SFfin 53 1024 v) by (split; assumption).
  destruct (SFabs_value Hx) as [Ha Ea].
  apply (SFleb_value prec64 Ha H1) in Hle. rewrite Ea, E1 in Hle.
  split; [exact Hx|]. apply Qabs_Qle_condition. exact Hle.
Qed.

(** Scaling by a number between -1 and 1 keeps a bound. *)
Lemma unit_scale (x c D : Q) :
  (- (1) <= c <= 1)%Q -> (- D <= x <= D)%Q -> (- D <= x * c <= D)%Q.
Proof. intros Hc Hx. nra. Qed.

Lemma Qabs_bounds (x : Q) : (0 <= Qabs x /\ - Qabs x <= x <= Qabs x)%Q.
Proof.
  split; [apply Qabs_nonneg|]. apply Qabs_Qle_condition. apply Qle_refl.
Qed.

Lemma tiny_facts :
  (0 < pow2Q (-150) /\ pow2Q (-149) == 2 * pow2Q (-150) /\
   pow2Q (-126) == 16777216 * pow2Q (-150) /\
   0 < pow2Q (-1022) /\ 8 * pow2Q (-1022) <= pow2Q (-150) /\ pow2Q (-150) <= 1 /\
   pow2Q (-23) == 1 # 8388608)%Q.
Proof.
  split; [apply pow2Q_pos|]. split; [|split; [|split; [|split; [|split]]]].
  - change (-149) with (-150 + 1). rewrite pow2Q_add. change (pow2Q 1) with 2%Q. ring.
  - change (-126) with (-150 + 24). rewrite pow2Q_add. rewrite <- (@pow2Q_inj 24) by lia.
    change (inject_Z (2 ^ 24)) with 16777216%Q. ring.
  - apply pow2Q_pos.
  - change 8%Q with (inject_Z (2 ^ 3)). rewrite pow2Q_inj by lia. rewrite <- pow2Q_add.
    apply pow2Q_le. lia.
  - change 1%Q with (pow2Q 0). apply pow2Q_le. lia.
  - reflexivity.
Qed.

(** One coordinate of the orbit position: [t + float(r * c1 * c2)], the
    products in [double]. *)
Lemma placed_two (t r : F32.float) (c1 c2 : F64.float) :
  within 100000 t -> within 100000 r -> Camera.unit c1 -> Camera.unit c2 ->
  Camera.placed (Fval t) (Fval r)
    (F32.add t (F64.to_F32 (F64.mul (F64.mul (F64.of_F32 r) c1) c2)))
    (Fval t + Fval r * (Fval c1 * Fval c2)).
Proof.
  intros Wt Wr U1 U2.
  destruct (@within_fin 100000 t ltac:(lia) Wt) as [Ft Bt].
  destruct (@within_fin 100000 r ltac:(lia) Wr) as [Fr Br].
  change (inject_Z 100000) with 100000%Q in *.
  destruct (of_F32_value Fr) as [Fr64 Er].
  destruct (unit_value U1) as [F1 B1]. destruct (unit_value U2) as [F2 B2].
  destruct tiny_facts as (Hh & H149 & H126 & Hg & Hgh & Hh1 & H23).
  destruct (Qabs_bounds (Fval t)) as [At0 At]. destruct (Qabs_bounds (Fval r)) as [Ar0 Ar].
  assert (ArB : (Qabs (Fval r) <= 100000)%Q) by (apply Qabs_Qle_condition; exact Br).
  assert (AtB : (Qabs (Fval t) <= 100000)%Q) by (apply Qabs_Qle_condition; exact Bt).
  (* r * c1 *)
  destruct (@mul64 (F64.of_F32 r) c1 (Qabs (Fval r)) Fr64 F1) as [Fp1 Ep1].
  { rewrite Er. apply unit_scale; assumption. }
  { lra. }
  rewrite Er in Ep1.
  set (p1 := F64.mul (F64.of_F32 r) c1) in *.
  destruct (Qabs_bounds (Fval p1)) as [A10 A1].
  pose proof (@unit_scale (Fval r) (Fval c1) (Qabs (Fval r)) B1 Ar) as E0.
  assert (A1B : (Qabs (Fval p1) <= Qabs (Fval r)
                   + (Qabs (Fval r) + pow2Q (-1022)) * (1 # 9007199254740991))%Q).
  { apply Qabs_Qle_condition. lra. }
  (* (r * c1) * c2 *)
  destruct (@mul64 p1 c2 (Qabs (Fval p1)) Fp1 F2) as [Fp2 Ep2].
  { apply unit_scale; assumption. }
  { lra. }
  set (p2 := F64.mul p1 c2) in *.
  destruct (Qabs_bounds (Fval p2)) as [A20 A2].
  pose proof (@unit_scale (Fval p1) (Fval c2) (Qabs (Fval p1)) B2 A1) as E1.
  assert (A2B : (Qabs (Fval p2) <= Qabs (Fval p1)
                   + (Qabs (Fval p1) + pow2Q (-1022)) * (1 # 9007199254740991))%Q).
  { apply Qabs_Qle_condition. lra. }
  pose proof (@unit_scale (9007199254740991 * (Fval p1 - Fval r * Fval c1)) (Fval c2)
                (Qabs (Fval r) + pow2Q (-1022)) B2 ltac:(lra)) as Ex.
  (* stored in a float *)
  destruct (@narrow32 p2 (Qabs (Fval p2)) Fp2 A2 ltac:(lra)) as [Fo Eo].
  set (o := F64.to_F32 p2) in *. rewrite H126 in Eo.
  destruct (Qabs_bounds (Fval o)) as [Ao0 Ao].
  assert (AoB : (Qabs (Fval o) <= Qabs (Fval p2)
                   + (Qabs (Fval p2) + 16777216 * pow2Q (-150)) * (1 # 16777215))%Q).
  { apply Qabs_Qle_condition. lra. }
  (* added to the target *)
  destruct (@add32 t o (Qabs (Fval t) + Qabs (Fval o)) Ft Fo ltac:(lra) ltac:(lra)) as [Fa Ea].
  split; [exact Fa|].
  apply Qabs_Qle_condition. rewrite H149, H23.
  set (h := pow2Q (-150)) in *. set (g := pow2Q (-1022)) in *.
  set (T := Qabs (Fval t)) in *. set (R := Qabs (Fval r)) in *.
  set (P1 := Qabs (Fval p1)) in *. set (P2 := Qabs (Fval p2)) in *.
  set (O := Qabs (Fval o)) in *.
  clear - Hh Hg Hgh Hh1 At0 At Ar0 Ar ArB AtB Ep1 A10 A1 E0 A1B Ep2 A20 A2 E1 A2B Ex Eo Ao0 Ao AoB Ea.
  split; lra.
Qed.

(** The same with one product: [t + float(r * c1)]. *)
Lemma placed_one (t r : F32.float) (c1 : F64.float) :
  within 100000 t -> within 100000 r -> Camera.unit c1 ->
  Camera.placed (Fval t) (Fval r)
    (F32.add t (F64.to_F32 (F64.mul (F64.of_F32 r) c1)))
    (Fval t + Fval r * Fval c1).
Proof.
  intros Wt Wr U1.
  destruct (@within_fin 100000 t ltac:(lia) Wt) as [Ft Bt].
  destruct (@within_fin 100000 r ltac:(lia) Wr) as [Fr Br].
  change (inject_Z 100000) with 100000%Q in *.
  destruct (of_F32_value Fr) as [Fr64 Er].
  destruct (unit_value U1) as [F1 B1].
  destruct tiny_facts as (Hh & H149 & H126 & Hg & Hgh & Hh1 & H23).
  destruct (Qabs_bounds (Fval t)) as [At0 At]. destruct (Qabs_bounds (Fval r)) as [Ar0 Ar].
  assert (ArB : (Qabs (Fval r) <= 100000)%Q) by (apply Qabs_Qle_condition; exact Br).
  assert (AtB : (Qabs (Fval t) <= 100000)%Q) by (apply Qabs_Qle_condition; exact Bt).
  destruct (@mul64 (F64.of_F32 r) c1 (Qabs (Fval r)) Fr64 F1) as [Fp1 Ep1].
  { rewrite Er. apply unit_scale; assumption. }
  { lra. }
  rewrite Er in Ep1.
  set (p1 := F64.mul (F64.of_F32 r) c1) in *.
  destruct (Qabs_bounds (Fval p1)) as [A10 A1].
  pose proof (@unit_scale (Fval r) (Fval c1) (Qabs (Fval r)) B1 Ar) as E0.
  assert (A1B : (Qabs (Fval p1) <= Qabs (Fval r)
                   + (Qabs (Fval r) + pow2Q (-1022)) * (1 # 9007199254740991))%Q).
  { apply Qabs_Qle_condition. lra. }
  destruct (@narrow32 p1 (Qabs (Fval p1)) Fp1 A1 ltac:(lra)) as [Fo Eo].
  set (o := F64.to_F32 p1) in *. rewrite H126 in Eo.
  destruct (Qabs_bounds (Fval o)) as [Ao0 Ao].
  assert (AoB : (Qabs (Fval o) <= Qabs (Fval p1)
                   + (Qabs (Fval p1) + 16777216 * pow2Q (-150)) * (1 # 16777215))%Q).
  { apply Qabs_Qle_condition. lra. }
  destruct (@add32 t o (Qabs (Fval t) + Qabs (Fval o)) Ft Fo ltac:(lra) ltac:(lra)) as [Fa Ea].
  split; [exact Fa|].
  apply Qabs_Qle_condition. rewrite H149, H23.
  set (h := pow2Q (-150)) in *. set (g := pow2Q (-1022)) in *.
  set (T := Qabs (Fval t)) in *. set (R := Qabs (Fval r)) in *.
  set (P1 := Qabs (Fval p1)) in *. set (O := Qabs (Fval o)) in *.
  clear - Hh Hg Hgh Hh1 At0 At Ar0 Ar ArB AtB Ep1 A10 A1 E0 A1B Eo Ao0 Ao AoB Ea.
  split; lra.
Qed.

(** [glm::radians]: the angle in radians, to the precision of a [float]. *)
Lemma radians_value (d : F32.float) :
  within 8388608 d -> Camera.radiansOf d (F64.of_F32 (Glm.radians d)).
Proof.
  intros Wd.
  destruct (@within_fin 8388608 d ltac:(lia) Wd) as [Fd Bd].
  change (inject_Z 8388608) with 8388608%Q in *.
  assert (Fk : fin32 F32.lit_deg2rad) by (split; reflexivity).
  assert (Ek : (Fval F32.lit_deg2rad == 9370165 # 536870912)%Q) by (vm_compute; reflexivity).
  assert (Eg : (Camera.degree == 3141592653589793 # 180000000000000000)%Q)
    by (vm_compute; reflexivity).
  destruct tiny_facts as (Hh & H149 & H126 & Hg & Hgh & Hh1 & H23).
  destruct (Qabs_bounds (Fval d)) as [Ad0 Ad].
  assert (AdB : (Qabs (Fval d) <= 8388608)%Q) by (apply Qabs_Qle_condition; exact Bd).
  assert (Hb : (- (Qabs (Fval d) * (9370165 # 536870912)) <= Fval d * Fval F32.lit_deg2rad
                <= Qabs (Fval d) * (9370165 # 536870912))%Q).
  { rewrite Ek. lra. }
  destruct (@SFmul_value 24 128 prec32 emax32 d F32.lit_deg2rad Fd Fk) as [Fa Ra].
  { apply small_no_overflow. apply Qle_trans with (Qabs (Fval d) * (9370165 # 536870912))%Q;
      [apply Qabs_le_bound; exact Hb|lra]. }
  pose proof (@rounded_bound 24 128 prec32 _ _ _ Ra Hb) as Ea.
  rewrite tiny32, H126, Ek in Ea.
  change (inject_Z (2 ^ 24) - 1)%Q with (16777216 - 1)%Q in Ea.
  change (SFmul 24 128 d F32.lit_deg2rad) with (Glm.radians d) in *.
  destruct (of_F32_value Fa) as [Fa64 Ea64].
  split; [exact Fa64|].
  rewrite Ea64, Qabs_Qmult, (Qabs_pos Camera.degree) by (rewrite Eg; lra).
  apply Qabs_Qle_condition. rewrite H149, H23, Eg.
  set (h := pow2Q (-150)) in *. set (D := Qabs (Fval d)) in *.
  clear - Hh Ad0 Ad AdB Ea.
  split; lra.
Qed.

Section OrbitProperties.
Context `{Libm}.

(** C6.  [updateOrbitPosition] puts the camera at
    [target + radius * (cos(pitch)*cos(yaw), sin(pitch), cos(pitch)*sin(yaw))]:
    for a target and a radius of magnitude at most 100000 and angles of at
    most 2^23 degrees, the arguments [cos] and [sin] are called with are the
    two angles in radians, to the precision of a [float], and, when the values
    they return are of magnitude at most 1, each coordinate of the position
    is the coordinate of this point, for these values, to the precision of a
    [float].  The front vector is the normalised vector from the position to
    the target, whatever the position before, and entering ORBIT mode puts
    the camera at the same position with the same front vector.  With
    [cos 0 = 1] and [sin 0 = 0], orbit yaw 0, pitch 0, radius 5 and target
    (0,0,0), the camera is at (5,0,0) with front vector (-1,0,0). *)
Theorem orbit_position_on_sphere :
  (forall c : Camera.t,
      let target := Camera.m_orbitTarget c in
      let radius := Camera.m_orbitRadius c in
      let pitchRad := F64.of_F32 (Glm.radians (Camera.m_orbitPitch c)) in
      let yawRad := F64.of_F32 (Glm.radians (Camera.m_orbitYaw c)) in
      let position := Camera.m_position (Camera.updateOrbitPosition c) in
      vecWithin 100000 target -> within 100000 radius ->
      within 8388608 (Camera.m_orbitPitch c) -> within 8388608 (Camera.m_orbitYaw c) ->
      Camera.unit (c_cos pitchRad) -> Camera.unit (c_sin pitchRad) ->
      Camera.unit (c_cos yawRad) -> Camera.unit (c_sin yawRad) ->
      Camera.radiansOf (Camera.m_orbitPitch c) pitchRad /\
      Camera.radiansOf (Camera.m_orbitYaw c) yawRad /\
      let q := Camera.onSphere
                 (Glm.mkVec3 (Fval (Glm.x target)) (Fval (Glm.y target)) (Fval (Glm.z target)))
                 (Fval radius)
                 (Fval (c_cos pitchRad)) (Fval (c_sin pitchRad))
                 (Fval (c_cos yawRad)) (Fval (c_sin yawRad)) in
      Camera.placed (Fval (Glm.x target)) (Fval radius) (Glm.x position) (Glm.x q) /\
      Camera.placed (Fval (Glm.y target)) (Fval radius) (Glm.y position) (Glm.y q) /\
      Camera.placed (Fval (Glm.z target)) (Fval radius) (Glm.z position) (Glm.z q)) /\
  (forall c : Camera.t,
      Camera.m_front (Camera.updateOrbitPosition c) =
        Glm.normalize (Glm.sub (Camera.m_orbitTarget c)
                               (Camera.m_position (Camera.updateOrbitPosition c))) /\
      Camera.m_mode (Camera.setMode c Camera.ORBIT) = Camera.ORBIT /\
      Camera.m_position (Camera.setMode c Camera.ORBIT) =
        Camera.m_position (Camera.updateOrbitPosition c) /\
      Camera.m_front (Camera.setMode c Camera.ORBIT) =
        Camera.m_front (Camera.updateOrbitPosition c)) /\
  (c_cos F64.zero = F64.one ->
   c_sin F64.zero = F64.zero ->
   forall c : Camera.t,
     Camera.m_orbitYaw c = Camera.lit 0 ->
     Camera.m_orbitPitch c = Camera.lit 0 ->
     Camera.m_orbitRadius c = Camera.lit 5 ->
     Camera.m_orbitTarget c = vec3i 0 0 0 ->
     Camera.m_position (Camera.updateOrbitPosition c) = vec3i 5 0 0 /\
     Camera.m_front (Camera.updateOrbitPosition c) = vec3i (-1) 0 0 /\
     Camera.m_position (Camera.setMode c Camera.ORBIT) = vec3i 5 0 0 /\
     Camera.m_front (Camera.setMode c Camera.ORBIT) = vec3i (-1) 0 0).
Proof.
  split; [|split].
  - intros c target radius pitchRad yawRad position (Wx & Wy & Wz) Wr Wp Wyaw Ucp Usp Ucy Usy.
    split; [apply radians_value; exact Wp|]. split; [apply radians_value; exact Wyaw|].
    cbv zeta. unfold Camera.onSphere. cbn [Glm.x Glm.y Glm.z].
    split; [|split].
    + exact (@placed_two _ _ _ _ Wx Wr Ucp Ucy).
    + exact (@placed_one _ _ _ Wy Wr Usp).
    + exact (@placed_two _ _ _ _ Wz Wr Ucp Usy).
  - intros c. repeat split; reflexivity.
  - intros Hcos Hsin c Hy Hp Hr Ht.
    assert (Hpos : forall c0, Camera.m_orbitYaw c0 = Camera.lit 0 ->
                              Camera.m_orbitPitch c0 = Camera.lit 0 ->
                              Camera.m_orbitRadius c0 = Camera.lit 5 ->
                              Camera.m_orbitTarget c0 = vec3i 0 0 0 ->
              Camera.m_position (Camera.updateOrbitPosition c0) = vec3i 5 0 0).
    { intros c0 Hy0 Hp0 Hr0 Ht0.
      unfold Camera.updateOrbitPosition, Camera.cos, Camera.sin.
      cbn [Camera.m_position Camera.set_axes Camera.set_position].
      rewrite Hy0, Hp0, Hr0, Ht0.
      change (F64.of_F32 (Glm.radians (Camera.lit 0))) with F64.zero.
      rewrite Hcos, Hsin. reflexivity. }
    assert (Hfront : forall c0, Camera.m_orbitTarget c0 = vec3i 0 0 0 ->
              Camera.m_position (Camera.updateOrbitPosition c0) = vec3i 5 0 0 ->
              Camera.m_front (Camera.updateOrbitPosition c0) = vec3i (-1) 0 0).
    { intros c0 Ht0 Hp0.
      change (Camera.m_front (Camera.updateOrbitPosition c0)) with
        (Glm.normalize (Glm.sub (Camera.m_orbitTarget c0)
                                (Camera.m_position (Camera.updateOrbitPosition c0)))).
      rewrite Hp0, Ht0. reflexivity. }
    assert (Hmode : Camera.setMode c Camera.ORBIT =
                    Camera.updateOrbitPosition (Camera.set_mode c Camera.ORBIT))
      by reflexivity.
    rewrite Hmode.
    repeat split.
    + apply Hpos; assumption.
    + apply Hfront; [assumption | apply Hpos; assumption].
    + apply Hpos; assumption.
    + apply Hfront; [assumption | apply Hpos; assumption].
Qed.

End OrbitProperties.

Lemma orbit_position_witness :
  (let c := Camera.mk (vec3i 0 2 5) (vec3i 0 0 (-1)) (vec3i 0 1 0) (vec3i 1 0 0) (vec3i 0 1 0)
              (Camera.lit (-90)) (Camera.lit 0) (Camera.lit 5) (F32.lit 1 10) (Camera.lit 45)
              (F32.lit 1 10) (Camera.lit 100) Camera.ORBIT (vec3i 1 2 3)
              (Camera.lit 5) (Camera.lit 30) (Camera.lit 20)
              (vec3i 0 1 0) (Camera.lit 120) (Camera.lit 45) in
   let pitchRad := F64.of_F32 (Glm.radians (Camera.lit 20)) in
   let yawRad := F64.of_F32 (Glm.radians (Camera.lit 30)) in
   let position := Camera.m_position (@Camera.updateOrbitPosition taylorLibm c) in
   Camera.radiansOf (Camera.lit 20) pitchRad /\
   Camera.radiansOf (Camera.lit 30) yawRad /\
   let q := Camera.onSphere
              (Glm.mkVec3 (Fval (F32.of_Z 1)) (Fval (F32.of_Z 2)) (Fval (F32.of_Z 3)))
              (Fval (Camera.lit 5))
              (Fval (taylorCos64 pitchRad)) (Fval (taylorSin64 pitchRad))
              (Fval (taylorCos64 yawRad)) (Fval (taylorSin64 yawRad)) in
   Camera.placed (Fval (F32.of_Z 1)) (Fval (Camera.lit 5)) (Glm.x position) (Glm.x q) /\
   Camera.placed (Fval (F32.of_Z 2)) (Fval (Camera.lit 5)) (Glm.y position) (Glm.y q) /\
   Camera.placed (Fval (F32.of_Z 3)) (Fval (Camera.lit 5)) (Glm.z position) (Glm.z q)) /\
  (let c := Camera.mk (vec3i 0 2 5) (vec3i 0 0 (-1)) (vec3i 0 1 0) (vec3i 1 0 0) (vec3i 0 1 0)
              (Camera.lit (-90)) (Camera.lit 0) (Camera.lit 5) (F32.lit 1 10) (Camera.lit 45)
              (F32.lit 1 10) (Camera.lit 100) Camera.FREE_ROAM (vec3i 0 0 0)
              (Camera.lit 5) (Camera.lit 0) (Camera.lit 0)
              (vec3i 0 1 0) (Camera.lit 120) (Camera.lit 45) in
   Camera.m_position (@Camera.updateOrbitPosition taylorLibm c) = vec3i 5 0 0 /\
   Camera.m_front (@Camera.updateOrbitPosition taylorLibm c) = vec3i (-1) 0 0 /\
   Camera.m_position (@Camera.setMode taylorLibm c Camera.ORBIT) = vec3i 5 0 0 /\
   Camera.m_front (@Camera.setMode taylorLibm c Camera.ORBIT) = vec3i (-1) 0 0).
Proof.
  split.
  - intros c.
    apply (proj1 (@orbit_position_on_sphere taylorLibm) c).
    + repeat split; reflexivity.
    + split; reflexivity.
    + split; reflexivity.
    + split; reflexivity.
    + split; reflexivity.
    + split; reflexivity.
    + split; reflexivity.
    + split; reflexivity.
  - intros c.
    apply (proj2 (proj2 (@orbit_position_on_sphere taylorLibm)) eq_refl eq_refl c);
      reflexivity.
Defined.

(** ** Model: the cached model matrix *)

Section ModelProperties.
Context `{GlmTransform}.

Lemma step_fresh (m : Model.t) (c : Model.call) : Model.fresh m -> Model.fresh (Model.step m c).
Proof.
  intros Hf. destruct c; cbn [Model.step]; unfold Model.fresh; cbn;
    try discriminate; try exact Hf.
  unfold Model.getModelMatrix.
  destruct (Model.m_modelMatrixDirty m) eqn:Hd; cbn [snd]; intros Hd'.
  - reflexivity.
  - apply Hf. exact Hd.
Qed.

Lemma run_fresh (calls : list Model.call) (m : Model.t) :
  Model.fresh m -> Model.fresh (Model.run m calls).
Proof.
  revert m. induction calls as [|c calls IH]; intros m Hf; cbn.
  - exact Hf.
  - apply IH. apply step_fresh. exact Hf.
Qed.

Lemma getModelMatrix_fresh (m : Model.t) :
  Model.fresh m ->
  fst (Model.getModelMatrix m) =
  Model.worldMatrix (Model.m_position m) (Model.m_rotation m) (Model.m_scale m).
Proof.
  intros Hf. unfold Model.getModelMatrix.
  destruct (Model.m_modelMatrixDirty m) eqn:Hd; cbn [fst].
  - reflexivity.
  - apply Hf. exact Hd.
Qed.

(** The transform a model holds after a sequence of calls is the one most
    recently set. *)
Lemma run_lastSet (calls : list Model.call) (m : Model.t) :
  let t := Model.lastSet calls
             (Model.mkTransform (Model.m_position m) (Model.m_rotation m) (Model.m_scale m)) in
  Model.m_position (Model.run m calls) = Model.positionSet t /\
  Model.m_rotation (Model.run m calls) = Model.rotationSet t /\
  Model.m_scale (Model.run m calls) = Model.scaleSet t.
Proof.
  revert m. induction calls as [|c calls IH]; intros m; cbn [Model.run fold_left Model.lastSet].
  - cbn. repeat split.
  - specialize (IH (Model.step m c)). cbv zeta in IH.
    destruct c; cbn [Model.step] in *; try exact IH.
    unfold Model.getModelMatrix in *.
    destruct (Model.m_modelMatrixDirty m); cbn [snd] in *; exact IH.
Qed.

(** C7.  Every setter of position, rotation or scale sets the dirty flag;
    [getModelMatrix] recomputes exactly when the flag is set and clears it;
    a second call right after a first one recomputes nothing and returns the
    same matrix; after any sequence of calls on a new model the matrix
    returned is the world matrix of the position, rotation and scale most
    recently set in that sequence (those of a new model where none was
    set); and right after each of the four setters it is the world matrix
    of the value just set and of the two other components as they were. *)
Theorem model_matrix_cache_never_stale :
  (forall (m : Model.t) (v : Glm.vec3 F32.float) (s : F32.float),
      Model.m_modelMatrixDirty (Model.setPosition m v) = true /\
      Model.m_modelMatrixDirty (Model.setRotation m v) = true /\
      Model.m_modelMatrixDirty (Model.setScale m v) = true /\
      Model.m_modelMatrixDirty (Model.setScaleUniform m s) = true) /\
  (forall m : Model.t,
      Model.m_modelMatrixDirty (snd (Model.getModelMatrix m)) = false /\
      Model.updates (snd (Model.getModelMatrix m)) =
        (if Model.m_modelMatrixDirty m then S (Model.updates m) else Model.updates m) /\
      (Model.m_modelMatrixDirty m = false ->
       Model.getModelMatrix m = (Model.m_modelMatrix m, m)) /\
      (Model.m_modelMatrixDirty m = true ->
       fst (Model.getModelMatrix m) =
       Model.worldMatrix (Model.m_position m) (Model.m_rotation m) (Model.m_scale m))) /\
  (forall m : Model.t,
      let first := Model.getModelMatrix m in
      let second := Model.getModelMatrix (snd first) in
      fst second = fst first /\
      snd second = snd first /\
      Model.updates (snd second) = Model.updates (snd first)) /\
  (forall (name : String.string) (mat : Material) (calls : list Model.call),
      let m := Model.run (Model.init name mat) calls in
      let t := Model.lastSet calls Model.newTransform in
      fst (Model.getModelMatrix m) =
      Model.worldMatrix (Model.positionSet t) (Model.rotationSet t) (Model.scaleSet t)) /\
  (forall (name : String.string) (mat : Material) (calls : list Model.call)
          (v : Glm.vec3 F32.float) (s : F32.float),
      let m := Model.run (Model.init name mat) calls in
      let t := Model.lastSet calls Model.newTransform in
      fst (Model.getModelMatrix (Model.setPosition m v)) =
        Model.worldMatrix v (Model.rotationSet t) (Model.scaleSet t) /\
      fst (Model.getModelMatrix (Model.setRotation m v)) =
        Model.worldMatrix (Model.positionSet t) v (Model.scaleSet t) /\
      fst (Model.getModelMatrix (Model.setScale m v)) =
        Model.worldMatrix (Model.positionSet t) (Model.rotationSet t) v /\
      fst (Model.getModelMatrix (Model.setScaleUniform m s)) =
        Model.worldMatrix (Model.positionSet t) (Model.rotationSet t) (Glm.mkVec3 s s s)).
Proof.
  split; [|split; [|split; [|split]]].
  - intros m v s. repeat split.
  - intros m. unfold Model.getModelMatrix.
    destruct (Model.m_modelMatrixDirty m) eqn:Hd; cbn [fst snd]; repeat split;
      try assumption; try discriminate; intros; reflexivity.
  - intros m. cbv zeta. unfold Model.getModelMatrix.
    destruct (Model.m_modelMatrixDirty m) eqn:Hd; cbn [fst snd].
    + repeat split.
    + rewrite Hd. repeat split.
  - intros name mat calls m t.
    destruct (run_lastSet calls (Model.init name mat)) as (Hp & Hr & Hs).
    fold m in Hp, Hr, Hs.
    change (Model.lastSet calls _) with t in Hp, Hr, Hs.
    rewrite <- Hp, <- Hr, <- Hs.
    apply getModelMatrix_fresh. apply run_fresh.
    unfold Model.fresh. cbn. discriminate.
  - intros name mat calls v s m t.
    destruct (run_lastSet calls (Model.init name mat)) as (Hp & Hr & Hs).
    fold m in Hp, Hr, Hs.
    change (Model.lastSet calls _) with t in Hp, Hr, Hs.
    rewrite <- Hp, <- Hr, <- Hs. repeat split.
Qed.

End ModelProperties.

Lemma model_matrix_second_call_witness :
  let G := GlmReference.builders taylorLibm in
  let m := snd (@Model.getModelMatrix G
                  (Model.setPosition
                     (Model.init String.EmptyString
                        (mkMaterial (vec3i 1 1 1) (vec3i 1 1 1) (vec3i 1 1 1) (F32.of_Z 32)
                                    (F32.of_Z 1) 0 0 0))
                     (vec3i 1 2 3))) in
  @Model.getModelMatrix G m = (Model.m_modelMatrix m, m).
Proof.
  intros G m.
  apply (proj1 (proj2 (proj2 (proj1 (proj2 (@model_matrix_cache_never_stale G)) m)))).
  reflexivity.
Defined.

(** ** [std::sort]: insertion sort meets the contract *)

Lemma insertBy_perm (A : Type) (comp : A -> A -> bool) (x : A) (l : list A) :
  Permutation (x :: l) (insertBy comp x l).
Proof.
  induction l as [|y l IH]; cbn.
  - apply Permutation_refl.
  - destruct (comp y x).
    + eapply perm_trans; [apply perm_swap|]. apply perm_skip. exact IH.
    + apply Permutation_refl.
Qed.

Lemma insertionSort_perm (A : Type) (comp : A -> A -> bool) (l : list A) :
  Permutation l (insertionSort comp l).
Proof.
  induction l as [|x l IH]; cbn.
  - apply perm_nil.
  - eapply perm_trans; [apply perm_skip; exact IH|]. apply insertBy_perm.
Qed.

Lemma strictWeakOrder_asym (A : Type) (comp : A -> A -> bool) (l : list A) x y :
  strictWeakOrder comp l -> In x l -> In y l -> comp x y = true -> comp y x = false.
Proof.
  intros (Hirr & Htr & _) Hx Hy Hxy.
  destruct (comp y x) eqn:Hyx; [|reflexivity].
  rewrite <- (Hirr x Hx). symmetry. apply (Htr x y x); assumption.
Qed.

(** Negative transitivity: not after, twice, is not after. *)
Lemma strictWeakOrder_negtrans (A : Type) (comp : A -> A -> bool) (l : list A) x y z :
  strictWeakOrder comp l -> In x l -> In y l -> In z l ->
  comp y x = false -> comp z y = false -> comp z x = false.
Proof.
  intros Hswo Hx Hy Hz Hyx Hzy.
  destruct (comp z x) eqn:Hzx; [|reflexivity].
  pose proof Hswo as (Hirr & Htr & Heq).
  destruct (comp x y) eqn:Hxy.
  { rewrite <- Hzy. symmetry. apply (Htr z x y); assumption. }
  destruct (comp y z) eqn:Hyz.
  { rewrite <- Hyx. symmetry. apply (Htr y z x); assumption. }
  destruct (Heq x y z Hx Hy Hz Hxy Hyx Hyz Hzy) as [_ Hc]. congruence.
Qed.

Lemma insertBy_sorted (A : Type) (comp : A -> A -> bool) (l : list A) (x : A) (s : list A) :
  strictWeakOrder comp l -> In x l -> (forall y, In y s -> In y l) ->
  sortedBy comp s -> sortedBy comp (insertBy comp x s).
Proof.
  intros Hswo Hx. unfold sortedBy.
  induction s as [|y s IH]; intros Hin Hs; cbn.
  - constructor; [constructor | constructor].
  - inversion Hs as [|? ? Hs' Hall]; subst.
    destruct (comp y x) eqn:Hyx.
    + constructor.
      * apply IH; [intros; apply Hin; right; assumption | assumption].
      * apply Forall_forall. intros z Hz.
        apply (Permutation_in _ (Permutation_sym (insertBy_perm comp x s))) in Hz.
        destruct Hz as [<-|Hz].
        -- apply (@strictWeakOrder_asym A comp l y x Hswo); auto. apply Hin. left. reflexivity.
        -- rewrite Forall_forall in Hall. apply Hall. exact Hz.
    + constructor; [exact Hs|].
      constructor; [exact Hyx|].
      apply Forall_forall. intros z Hz.
      rewrite Forall_forall in Hall.
      exact (@strictWeakOrder_negtrans A comp l x y z Hswo Hx
               (Hin y (or_introl eq_refl)) (Hin z (or_intror Hz)) Hyx (Hall z Hz)).
Qed.

Lemma insertionSort_sorted (A : Type) (comp : A -> A -> bool) (l : list A) :
  strictWeakOrder comp l -> sortedBy comp (insertionSort comp l).
Proof.
  intros Hswo.
  assert (Hgen : forall s, (forall y, In y s -> In y l) -> sortedBy comp (insertionSort comp s)).
  { induction s as [|x s IH]; intros Hin; cbn.
    - constructor.
    - apply insertBy_sorted with (l := l); auto.
      + apply Hin. left. reflexivity.
      + intros y Hy. apply Hin. right.
        apply (Permutation_in _ (Permutation_sym (insertionSort_perm comp s))). exact Hy.
      + apply IH. intros y Hy. apply Hin. right. exact Hy. }
  apply Hgen. auto.
Qed.

#[export] Instance insertionStdSort : StdSort := {|
  std_sort := @insertionSort;
  std_sort_permutation := fun A comp l _ => insertionSort_perm comp l;
  std_sort_sorted := @insertionSort_sorted |}.

(** ** Renderer: the order of execution *)

Definition numbered (cmds : list Renderer.RenderCommand) : Prop :=
  Forall (fun c => F32.is_nan (Renderer.distanceToCamera c) = false) cmds.

Lemma farther_strictWeakOrder (cmds : list Renderer.RenderCommand) :
  numbered cmds -> strictWeakOrder Renderer.farther cmds.
Proof.
  unfold numbered. rewrite Forall_forall. intros Hn. unfold Renderer.farther.
  split; [|split].
  - intros x _. apply ltb_irrefl.
  - intros x y z Hx Hy Hz Hxy Hyz. forder.
  - intros x y z Hx Hy Hz H1 H2 H3 H4.
    pose proof (Hn x Hx). pose proof (Hn y Hy). pose proof (Hn z Hz).
    split; forder.
Qed.

Lemma sortedBy_farthestFirst (cmds : list Renderer.RenderCommand) :
  numbered cmds -> sortedBy Renderer.farther cmds -> Renderer.farthestFirst cmds.
Proof.
  unfold numbered, sortedBy, Renderer.farthestFirst. intros Hn Hs.
  induction Hs as [|a l Hs IH Hall].
  - constructor.
  - inversion Hn as [|? ? Ha Hl]; subst. constructor; [apply IH; exact Hl|].
    rewrite Forall_forall in *. intros b Hb.
    pose proof (Hall b Hb) as Hab. pose proof (Hl b Hb) as Hbn.
    unfold Renderer.farther in Hab. forder.
Qed.

Section RendererProperties.
Context `{StdSort}.

Lemma executeCommand_calls models r cmd :
  snd (Renderer.executeCommand models r cmd) = Renderer.drawOf models cmd /\
  Renderer.m_transparentCommands (fst (Renderer.executeCommand models r cmd)) =
    Renderer.m_transparentCommands r /\
  Renderer.m_opaqueCommands (fst (Renderer.executeCommand models r cmd)) =
    Renderer.m_opaqueCommands r.
Proof.
  unfold Renderer.executeCommand, Renderer.drawOf.
  destruct (models (Renderer.model cmd)) as [m|]; [destruct (Model.m_visible m)|]; auto.
Qed.

Lemma executeAll_calls models cmds :
  forall r calls,
    snd (fold_left (fun acc cmd =>
                      let '(r, calls) := acc in
                      let '(r, drawn) := Renderer.executeCommand models r cmd in
                      (r, calls ++ drawn)) cmds (r, calls))
      = calls ++ flat_map (Renderer.drawOf models) cmds /\
    Renderer.m_transparentCommands
      (fst (fold_left (fun acc cmd =>
                      let '(r, calls) := acc in
                      let '(r, drawn) := Renderer.executeCommand models r cmd in
                      (r, calls ++ drawn)) cmds (r, calls)))
      = Renderer.m_transparentCommands r.
Proof.
  induction cmds as [|cmd cmds IH]; intros r calls; cbn [fold_left flat_map].
  - rewrite app_nil_r. auto.
  - destruct (executeCommand_calls models r cmd) as (Hc & Ht & _).
    destruct (Renderer.executeCommand models r cmd) as [r' drawn]. cbn [fst snd] in *.
    destruct (IH r' (calls ++ drawn)) as [IH1 IH2].
    rewrite IH1, IH2, Hc, Ht, <- app_assoc. auto.
Qed.

Lemma submitAll_snoc r subs s unset :
  Renderer.submitAll r (subs ++ [s]) unset =
  Renderer.submit (Renderer.submitAll r subs unset) (fst (fst s)) (snd (fst s)) (snd s) unset.
Proof. unfold Renderer.submitAll. rewrite fold_left_app. reflexivity. Qed.

End RendererProperties.

Lemma sorted_perm_unique (A : Type) (R : A -> A -> Prop) (l1 : list A) :
  (forall x y, In x l1 -> In y l1 -> R x y -> R y x -> x = y) ->
  StronglySorted R l1 ->
  forall l2, StronglySorted R l2 -> Permutation l1 l2 -> l1 = l2.
Proof.
  induction l1 as [|a l1 IH]; intros Hanti Hs1 l2 Hs2 Hp.
  - apply Permutation_nil in Hp. congruence.
  - destruct l2 as [|b l2].
    { apply Permutation_sym, Permutation_nil in Hp. discriminate. }
    inversion Hs1 as [|? ? Hs1' Hall1]; subst.
    inversion Hs2 as [|? ? Hs2' Hall2]; subst.
    rewrite Forall_forall in Hall1, Hall2.
    assert (Hab : a = b).
    { assert (Ha : In a (b :: l2)) by (apply (Permutation_in _ Hp); left; reflexivity).
      assert (Hb : In b (a :: l1))
        by (apply (Permutation_in _ (Permutation_sym Hp)); left; reflexivity).
      destruct Ha as [Ha|Ha]; [congruence|].
      destruct Hb as [Hb|Hb]; [congruence|].
      apply Hanti; [left; reflexivity | right; exact Hb | apply Hall1; exact Hb
                   | apply Hall2; exact Ha]. }
    subst b. f_equal.
    apply IH; auto.
    + intros x y Hx Hy. apply Hanti; right; assumption.
    + apply Permutation_cons_inv with (a := a). exact Hp.
Qed.

Lemma submit_queues (r : Renderer.t) (s : Renderer.submission) (unset : F32.float) :
  let r' := Renderer.submit r (fst (fst s)) (snd (fst s)) (snd s) unset in
  Renderer.m_cameraPosition r' = Renderer.m_cameraPosition r /\
  Renderer.m_opaqueCommands r' =
    Renderer.m_opaqueCommands r ++
    (if submittedTransparent s then [] else [commandOf (Renderer.m_cameraPosition r) unset s]) /\
  Renderer.m_transparentCommands r' =
    Renderer.m_transparentCommands r ++
    (if submittedTransparent s then [commandOf (Renderer.m_cameraPosition r) unset s] else []).
Proof.
  unfold Renderer.submit, commandOf, submittedTransparent.
  destruct (isTransparent (Model.m_material (snd (fst s))));
    cbn [Renderer.m_cameraPosition Renderer.m_opaqueCommands Renderer.m_transparentCommands
         Renderer.set_transparentCommands Renderer.set_opaqueCommands];
    rewrite ?app_nil_r; auto.
Qed.

Lemma submitAll_queues (r : Renderer.t) (subs : list Renderer.submission) (unset : F32.float) :
  Renderer.m_cameraPosition (Renderer.submitAll r subs unset) = Renderer.m_cameraPosition r /\
  Renderer.m_opaqueCommands (Renderer.submitAll r subs unset) =
    Renderer.m_opaqueCommands r ++
    map (commandOf (Renderer.m_cameraPosition r) unset)
        (filter (fun s => negb (submittedTransparent s)) subs) /\
  Renderer.m_transparentCommands (Renderer.submitAll r subs unset) =
    Renderer.m_transparentCommands r ++
    map (commandOf (Renderer.m_cameraPosition r) unset) (filter submittedTransparent subs).
Proof.
  induction subs as [|s subs IH] using rev_ind.
  - cbn. rewrite !app_nil_r. auto.
  - rewrite submitAll_snoc. destruct IH as (IHc & IHo & IHt).
    destruct (submit_queues (Renderer.submitAll r subs unset) s unset) as (Hc & Ho & Ht).
    cbv zeta in Hc, Ho, Ht. rewrite Hc, Ho, Ht, IHc, IHo, IHt.
    rewrite !filter_app, !map_app. cbn [filter].
    destruct (submittedTransparent s); cbn [negb map]; rewrite <- ?app_assoc, ?app_nil_r; auto.
Qed.

Section FrameOrder.
Context `{StdSort}.

Lemma endFrame_order (models : N -> option Model.t) (r : Renderer.t) :
  numbered (Renderer.m_transparentCommands r) ->
  exists T,
    Permutation (Renderer.m_transparentCommands r) T /\
    Renderer.farthestFirst T /\
    Renderer.m_transparentCommands (fst (Renderer.endFrame models r)) = T /\
    snd (Renderer.endFrame models r) =
      frameHeader r ++ flat_map (Renderer.drawOf models) (Renderer.m_opaqueCommands r)
      ++ blendOn ++ flat_map (Renderer.drawOf models) T ++ blendOff.
Proof.
  intros Hn.
  pose proof (farther_strictWeakOrder Hn) as Hswo.
  exists (std_sort Renderer.farther (Renderer.m_transparentCommands r)).
  pose proof (std_sort_permutation Hswo) as Hp.
  split; [exact Hp|]. split.
  { apply sortedBy_farthestFirst; [|apply std_sort_sorted; exact Hswo].
    unfold numbered in *. rewrite Forall_forall in *. intros c Hc.
    apply Hn. apply (Permutation_in _ (Permutation_sym Hp)). exact Hc. }
  unfold Renderer.endFrame, Renderer.executeAll.
  destruct (executeAll_calls models (Renderer.m_opaqueCommands r) r []) as [Hc1 Ht1].
  destruct (fold_left _ (Renderer.m_opaqueCommands r) (r, [])) as [r1 drawn1].
  cbn [fst snd] in Hc1, Ht1.
  unfold Renderer.sortTransparentCommands.
  cbn [Renderer.m_transparentCommands Renderer.set_transparentCommands].
  rewrite Ht1.
  destruct (executeAll_calls models
              (std_sort Renderer.farther (Renderer.m_transparentCommands r))
              (Renderer.set_transparentCommands r1
                 (std_sort Renderer.farther (Renderer.m_transparentCommands r))) [])
    as [Hc2 Ht2].
  destruct (fold_left _ (std_sort Renderer.farther (Renderer.m_transparentCommands r)) _)
    as [r2 drawn2].
  cbn [fst snd] in Hc2, Ht2 |- *.
  rewrite Ht2, Hc1, Hc2. cbn [app Renderer.m_transparentCommands Renderer.set_transparentCommands].
  split; [reflexivity|].
  unfold frameHeader, blendOn, blendOff. cbn [app].
  rewrite <- !app_assoc. reflexivity.
Qed.

End FrameOrder.

Section TransparencyOrder.
Context `{StdSort}.

(** C1.  [endFrame] executes the opaque commands first, in the order of their
    list, which is the order of submission, then the transparent commands
    by descending stored distance (the distances being numbers), the distance
    being the one [submit] computed from the camera position of that moment;
    three transparent commands submitted at the distances 3, 1 and 5 are
    executed in the order 5, 3, 1. *)
Theorem endFrame_opaque_then_farthest_first :
  (forall (models : N -> option Model.t) (r : Renderer.t),
      numbered (Renderer.m_transparentCommands r) ->
      exists T,
        Permutation (Renderer.m_transparentCommands r) T /\
        Renderer.farthestFirst T /\
        Renderer.m_transparentCommands (fst (Renderer.endFrame models r)) = T /\
        snd (Renderer.endFrame models r) =
          frameHeader r ++ flat_map (Renderer.drawOf models) (Renderer.m_opaqueCommands r)
          ++ blendOn ++ flat_map (Renderer.drawOf models) T ++ blendOff) /\
  (forall (r : Renderer.t) (subs : list Renderer.submission) (unset : F32.float),
      Renderer.m_opaqueCommands (Renderer.submitAll r subs unset) =
        Renderer.m_opaqueCommands r ++
        map (commandOf (Renderer.m_cameraPosition r) unset)
            (filter (fun s => negb (submittedTransparent s)) subs) /\
      Renderer.m_transparentCommands (Renderer.submitAll r subs unset) =
        Renderer.m_transparentCommands r ++
        map (commandOf (Renderer.m_cameraPosition r) unset)
            (filter submittedTransparent subs)) /\
  (forall (models : N -> option Model.t) (r0 : Renderer.t) (m1 m2 m3 : Model.t)
          (unset : F32.float),
      Renderer.m_cameraPosition r0 = vec3i 0 0 0 ->
      isTransparent (Model.m_material m1) = true ->
      isTransparent (Model.m_material m2) = true ->
      isTransparent (Model.m_material m3) = true ->
      let r := Renderer.submitAll (fst (Renderer.beginFrame r0))
                 (exampleSubmissions m1 m2 m3) unset in
      Renderer.m_transparentCommands r =
        [exampleCommand 1 3; exampleCommand 2 1; exampleCommand 3 5] /\
      Renderer.m_transparentCommands (fst (Renderer.endFrame models r)) =
        [exampleCommand 3 5; exampleCommand 1 3; exampleCommand 2 1] /\
      snd (Renderer.endFrame models r) =
        frameHeader r ++ blendOn
        ++ flat_map (Renderer.drawOf models)
             [exampleCommand 3 5; exampleCommand 1 3; exampleCommand 2 1]
        ++ blendOff).
Proof.
  split; [|split].
  - intros models r Hn. apply endFrame_order. exact Hn.
  - intros r subs unset. destruct (submitAll_queues r subs unset) as (_ & Ho & Ht). auto.
  - intros models r0 m1 m2 m3 unset Hcam H1 H2 H3 r.
    destruct (submitAll_queues (fst (Renderer.beginFrame r0)) (exampleSubmissions m1 m2 m3) unset)
      as (_ & Ho & Ht).
    fold r in Ho, Ht.
    assert (HT : Renderer.m_transparentCommands r =
                 [exampleCommand 1 3; exampleCommand 2 1; exampleCommand 3 5]).
    { rewrite Ht. unfold exampleSubmissions, submittedTransparent, commandOf.
      cbn [filter map fst snd Renderer.beginFrame Renderer.m_transparentCommands
           Renderer.m_cameraPosition
           Renderer.set_drawCallCount Renderer.set_triangleCount Renderer.set_opaqueCommands
           Renderer.set_transparentCommands Renderer.set_pointLights Renderer.set_spotLights
           Renderer.set_directionalLight app].
      rewrite H1, H2, H3. cbn [filter map fst snd app]. rewrite H1, H2, H3, Hcam.
      vm_compute. reflexivity. }
    assert (HO : Renderer.m_opaqueCommands r = []).
    { rewrite Ho. unfold exampleSubmissions, submittedTransparent.
      cbn [filter map fst snd Renderer.beginFrame Renderer.m_opaqueCommands
           Renderer.set_drawCallCount Renderer.set_triangleCount Renderer.set_opaqueCommands
           Renderer.set_transparentCommands Renderer.set_pointLights Renderer.set_spotLights
           Renderer.set_directionalLight app].
      rewrite H1, H2, H3. reflexivity. }
    split; [exact HT|].
    assert (Hn : numbered (Renderer.m_transparentCommands r)).
    { rewrite HT. repeat constructor. }
    destruct (@endFrame_order _ models r Hn) as (T & Hp & Hs & HeqT & Hcalls).
    assert (HTeq : [exampleCommand 3 5; exampleCommand 1 3; exampleCommand 2 1] = T).
    { apply sorted_perm_unique
        with (R := fun a b => F32.leb (Renderer.distanceToCamera b)
                                      (Renderer.distanceToCamera a) = true).
      - intros x y [<-|[<-|[<-|[]]]] [<-|[<-|[<-|[]]]]; intros Hxy Hyx;
          try reflexivity; vm_compute in Hxy; vm_compute in Hyx; discriminate.
      - repeat constructor.
      - exact Hs.
      - rewrite HT in Hp. eapply perm_trans; [|exact Hp].
        eapply perm_trans; [apply perm_swap|]. apply perm_skip. apply perm_swap. }
    rewrite HeqT, Hcalls, HO, <- HTeq. split; reflexivity.
Qed.

End TransparencyOrder.

Lemma endFrame_order_witness :
  let cmds := [exampleCommand 1 3; exampleCommand 2 1; exampleCommand 3 5] in
  let r := Renderer.mk 800 600 (Glm.diag F32.one) (Glm.diag F32.one) (vec3i 0 0 0)
             [exampleCommand 7 2] cmds None [] [] (vec3i 0 0 0) false true 0 0 in
  exists T,
    Permutation cmds T /\
    Renderer.farthestFirst T /\
    Renderer.m_transparentCommands
      (fst (@Renderer.endFrame insertionStdSort (fun _ => None) r)) = T /\
    snd (@Renderer.endFrame insertionStdSort (fun _ => None) r) =
      frameHeader r ++ flat_map (Renderer.drawOf (fun _ => None)) [exampleCommand 7 2]
      ++ blendOn ++ flat_map (Renderer.drawOf (fun _ => None)) T ++ blendOff.
Proof.
  intros cmds r.
  apply (proj1 (@endFrame_opaque_then_farthest_first insertionStdSort) (fun _ => None) r).
  repeat constructor.
Defined.

(** ** Easing and animation *)

(** C8.  Every supplied easing function maps 0 to 0 and 1 to 1 exactly
    (whatever libm computes for [pow] and [sin]). *)
Theorem easing_endpoints_exact `{Libm} :
  Forall (fun f => f (F32.lit 0 1) = F32.lit 0 1 /\ f (F32.lit 1 1) = F32.lit 1 1 /\
                   F32.eqb (f (F32.lit 0 1)) (F32.lit 0 1) = true /\
                   F32.eqb (f (F32.lit 1 1)) (F32.lit 1 1) = true)
         Easing.supplied.
Proof.
  unfold Easing.supplied. repeat constructor; vm_compute; reflexivity.
Qed.

Lemma update_frozen (a : Animation.t) (dt : F32.float) :
  Animation.m_complete a || Animation.m_paused a = true ->
  Animation.update a dt = (Animation.m_currentValue a, a, []).
Proof. intros Hf. unfold Animation.update. rewrite Hf. reflexivity. Qed.

Lemma update_callback (a : Animation.t) (dt : F32.float) :
  let '(_, a', invoked) := Animation.update a dt in
  Animation.m_completionCallback a' = Animation.m_completionCallback a /\
  (Animation.m_complete a = true -> Animation.m_complete a' = true) /\
  invoked = (if negb (Animation.m_complete a) && Animation.m_complete a'
             then Animation.invoke (Animation.m_completionCallback a) else []).
Proof.
  unfold Animation.update.
  destruct (Animation.m_complete a) eqn:Hc; cbn [orb negb andb].
  - rewrite Hc. auto.
  - destruct (Animation.m_paused a) eqn:Hp.
    + rewrite Hc. auto.
    + destruct (F32.geb _ _); cbn [Animation.m_completionCallback Animation.m_complete];
        repeat split; auto; discriminate.
Qed.

Lemma updates_snoc (a : Animation.t) (deltas : list F32.float) (dt : F32.float) :
  Animation.updates a (deltas ++ [dt]) =
  (snd (fst (Animation.update (fst (Animation.updates a deltas)) dt)),
   snd (Animation.updates a deltas) ++ snd (Animation.update (fst (Animation.updates a deltas)) dt)).
Proof.
  unfold Animation.updates. rewrite fold_left_app. cbn [fold_left].
  destruct (fold_left _ deltas (a, [])) as [a1 inv1]. cbn [fst snd].
  destruct (Animation.update a1 dt) as [[v a2] now]. reflexivity.
Qed.

Lemma updates_callback (a : Animation.t) (deltas : list F32.float) :
  Animation.m_completionCallback (fst (Animation.updates a deltas)) =
    Animation.m_completionCallback a /\
  (Animation.m_complete a = true ->
   Animation.m_complete (fst (Animation.updates a deltas)) = true) /\
  snd (Animation.updates a deltas) =
    (if negb (Animation.m_complete a) && Animation.m_complete (fst (Animation.updates a deltas))
     then Animation.invoke (Animation.m_completionCallback a) else []).
Proof.
  induction deltas as [|dt deltas IH] using rev_ind.
  - cbn. destruct (Animation.m_complete a); auto.
  - rewrite updates_snoc. cbn [fst snd].
    destruct IH as (IHcb & IHmono & IHinv).
    pose proof (update_callback (fst (Animation.updates a deltas)) dt) as Hu.
    destruct (Animation.update (fst (Animation.updates a deltas)) dt) as [[v a2] now].
    cbn [fst snd]. destruct Hu as (Hcb & Hmono & Hinv).
    rewrite IHinv, Hinv, Hcb, IHcb.
    split; [reflexivity|]. split; [intros Hc; auto|].
    destruct (Animation.m_complete a) eqn:Hc;
      destruct (Animation.m_complete (fst (Animation.updates a deltas))) eqn:Hc1;
      destruct (Animation.m_complete a2) eqn:Hc2;
      cbn [negb andb app]; rewrite ?app_nil_r; try reflexivity; exfalso;
      try (specialize (IHmono eq_refl); discriminate);
      try (specialize (Hmono eq_refl); discriminate).
Qed.

(** C9.  [update] on a complete or paused animation returns the current
    value and changes nothing.  Otherwise it adds [dt] to the elapsed time,
    takes [t = elapsed / duration] replaced by 1 when [t >= 1], sets the
    current value to [start + (end - start) * easing(t)], and when [t >= 1]
    sets the complete flag and invokes the completion callback, if there is
    one.  Over any run of updates the callback is invoked once if the run
    takes the animation from incomplete to complete, and not at all
    otherwise.  An animation from 0 to 10 over 2 seconds updated by 1 and then
    by 1.5 is complete with value 10, its callback invoked once, by the second
    update. *)
Theorem update_advances_and_completes_once :
  (forall (a : Animation.t) (dt : F32.float),
      Animation.m_complete a || Animation.m_paused a = true ->
      Animation.update a dt = (Animation.m_currentValue a, a, [])) /\
  (forall (a : Animation.t) (dt : F32.float),
      Animation.m_complete a = false -> Animation.m_paused a = false ->
      let elapsed := F32.add (Animation.m_elapsed a) dt in
      let reached := F32.geb (F32.div elapsed (Animation.m_duration a)) (F32.lit 1 1) in
      let t := if reached then F32.lit 1 1 else F32.div elapsed (Animation.m_duration a) in
      let value := F32.add (Animation.m_startValue a)
                     (F32.mul (F32.sub (Animation.m_endValue a) (Animation.m_startValue a))
                              (Animation.m_easing a t)) in
      Animation.update a dt =
        (value,
         Animation.mk (Animation.m_startValue a) (Animation.m_endValue a) value
           (Animation.m_duration a) elapsed reached false (Animation.m_easing a)
           (Animation.m_completionCallback a),
         if reached then Animation.invoke (Animation.m_completionCallback a) else [])) /\
  (forall (a : Animation.t) (deltas : list F32.float),
      snd (Animation.updates a deltas) =
        (if negb (Animation.m_complete a) && Animation.m_complete (fst (Animation.updates a deltas))
         then Animation.invoke (Animation.m_completionCallback a) else []) /\
      (List.length (snd (Animation.updates a deltas)) <= 1)%nat) /\
  (let a0 := Animation.onComplete
               (Animation.init (F32.of_Z 0) (F32.of_Z 10) (F32.of_Z 2) Easing.linear) 7%N in
   let '(v1, a1, c1) := Animation.update a0 (F32.of_Z 1) in
   let '(v2, a2, c2) := Animation.update a1 (F32.lit 15 10) in
   v1 = F32.of_Z 5 /\ Animation.isComplete a1 = false /\ c1 = [] /\
   v2 = F32.of_Z 10 /\ Animation.isComplete a2 = true /\
   Animation.getValue a2 = F32.of_Z 10 /\ c2 = [7%N] /\
   Animation.update a2 (F32.of_Z 1) = (F32.of_Z 10, a2, [])).
Proof.
  split; [|split; [|split]].
  - exact update_frozen.
  - intros a dt Hc Hp. cbv zeta. unfold Animation.update. rewrite Hc, Hp. cbn [orb].
    destruct (F32.geb _ _); reflexivity.
  - intros a deltas. destruct (updates_callback a deltas) as (_ & _ & Hinv).
    split; [exact Hinv|]. rewrite Hinv.
    destruct (negb _ && _); [|cbn; lia].
    destruct (Animation.m_completionCallback a); cbn; lia.
  - vm_compute. repeat split.
Qed.

Lemma update_witness :
  Animation.update
    (Animation.setPaused (Animation.init (F32.of_Z 0) (F32.of_Z 10) (F32.of_Z 2) Easing.linear)
                         true)
    (F32.of_Z 1)
  = (F32.of_Z 0,
     Animation.setPaused (Animation.init (F32.of_Z 0) (F32.of_Z 10) (F32.of_Z 2) Easing.linear)
                         true,
     []).
Proof.
  apply (proj1 update_advances_and_completes_once). reflexivity.
Defined.

(** C10.  [reverse] swaps the start and end values, resets the elapsed time
    to 0 and clears the complete flag; the current value, the paused flag,
    the duration, the easing function and the callback stay, so [getValue]
    answers as before the call; [reset] differs in the current value, which
    it rewinds to the start value, and leaves start and end in place. *)
Theorem reverse_keeps_current_value (a : Animation.t) :
  Animation.reverse a =
    Animation.mk (Animation.m_endValue a) (Animation.m_startValue a)
      (Animation.m_currentValue a) (Animation.m_duration a) (F32.lit 0 1) false
      (Animation.m_paused a) (Animation.m_easing a) (Animation.m_completionCallback a) /\
  Animation.getValue (Animation.reverse a) = Animation.getValue a /\
  Animation.isPaused (Animation.reverse a) = Animation.isPaused a /\
  Animation.isComplete (Animation.reverse a) = false /\
  Animation.getValue (Animation.reset a) = Animation.m_startValue a /\
  Animation.m_startValue (Animation.reset a) = Animation.m_startValue a /\
  Animation.m_endValue (Animation.reset a) = Animation.m_endValue a /\
  Animation.isComplete (Animation.reset a) = false /\
  (let done :=
     snd (fst (Animation.update
                 (Animation.init (F32.of_Z 0) (F32.of_Z 10) (F32.of_Z 2) Easing.linear)
                 (F32.of_Z 3))) in
   Animation.getValue done = F32.of_Z 10 /\
   Animation.getValue (Animation.reverse done) = F32.of_Z 10 /\
   Animation.m_startValue (Animation.reverse done) = F32.of_Z 10 /\
   Animation.getValue (Animation.reset done) = F32.of_Z 0).
Proof.
  repeat split.
Qed.

(* ================================================================== *)
(** * Part III: further properties of the code                         *)
(* ================================================================== *)

(** ** Collision: the slab test *)

(** X1.  [testAABBvsAABB] is symmetric: it answers the same for [a], [b] and
    for [b], [a], whatever the numbers (NaN included). *)
Theorem testAABBvsAABB_symmetric (F : Type) `{Scalar F} (a b : AABB F) :
  Collision.testAABBvsAABB a b = Collision.testAABBvsAABB b a.
Proof.
  unfold Collision.testAABBvsAABB, s_gtb.
  destruct (Glm.x (max a) <? Glm.x (min b))%s, (Glm.x (max b) <? Glm.x (min a))%s,
           (Glm.y (max a) <? Glm.y (min b))%s, (Glm.y (max b) <? Glm.y (min a))%s,
           (Glm.z (max a) <? Glm.z (min b))%s, (Glm.z (max b) <? Glm.z (min a))%s;
    reflexivity.
Qed.

(** ** AABB: points and growth *)

Lemma min_below_new (m p : F32.float) :
  F32.is_nan m = false -> F32.is_nan p = false -> F32.leb (Std.min m p) p = true.
Proof.
  intros Hm Hp. unfold Std.min. cbn [s_ltb Scalar_float].
  destruct (F32.ltb p m) eqn:E; forder.
Qed.

Lemma max_above_new (M p : F32.float) :
  F32.is_nan M = false -> F32.is_nan p = false -> F32.leb p (Std.max M p) = true.
Proof.
  intros HM Hp. unfold Std.max. cbn [s_ltb Scalar_float].
  destruct (F32.ltb M p) eqn:E; forder.
Qed.

Lemma min_below_old (m p q : F32.float) :
  F32.leb m q = true -> F32.leb (Std.min m p) q = true.
Proof.
  intros Hq. unfold Std.min. cbn [s_ltb Scalar_float].
  destruct (F32.ltb p m) eqn:E; forder.
Qed.

Lemma max_above_old (M p q : F32.float) :
  F32.leb q M = true -> F32.leb q (Std.max M p) = true.
Proof.
  intros Hq. unfold Std.max. cbn [s_ltb Scalar_float].
  destruct (F32.ltb M p) eqn:E; forder.
Qed.

Lemma min_below_other (m o q : F32.float) :
  F32.is_nan m = false -> F32.leb o q = true -> F32.leb (Std.min m o) q = true.
Proof.
  intros Hm Hq. unfold Std.min. cbn [s_ltb Scalar_float].
  destruct (F32.ltb o m) eqn:E; forder.
Qed.

Lemma max_above_other (M o q : F32.float) :
  F32.is_nan M = false -> F32.leb q o = true -> F32.leb q (Std.max M o) = true.
Proof.
  intros HM Hq. unfold Std.max. cbn [s_ltb Scalar_float].
  destruct (F32.ltb M o) eqn:E; forder.
Qed.

(** [containsPoint] as six comparisons. *)
Lemma containsPoint_spec (a : AABB F32.float) (p : Glm.vec3 F32.float) :
  containsPoint a p = true <->
  (F32.leb (Glm.x (min a)) (Glm.x p) = true /\ F32.leb (Glm.x p) (Glm.x (max a)) = true) /\
  (F32.leb (Glm.y (min a)) (Glm.y p) = true /\ F32.leb (Glm.y p) (Glm.y (max a)) = true) /\
  (F32.leb (Glm.z (min a)) (Glm.z p) = true /\ F32.leb (Glm.z p) (Glm.z (max a)) = true).
Proof.
  unfold containsPoint, s_geb. cbn [s_leb Scalar_float].
  rewrite !andb_true_iff. tauto.
Qed.

(** X2.  After [expandToInclude(point)] the box contains the point, when
    neither the box nor the point has a NaN component. *)
Theorem expandToInclude_contains_point (a : AABB F32.float) (p : Glm.vec3 F32.float) :
  numberBox a -> numberVec p -> containsPoint (expandToInclude a p) p = true.
Proof.
  intros [(Hx & Hy & Hz) (HX & HY & HZ)] (Hpx & Hpy & Hpz).
  apply containsPoint_spec. unfold expandToInclude.
  cbn [min max Glm.min Glm.max Glm.x Glm.y Glm.z].
  repeat split; first [apply min_below_new | apply max_above_new]; assumption.
Qed.

Lemma expandToInclude_contains_point_witness :
  containsPoint
    (expandToInclude (mkAABB (vec3i 0 0 0) (vec3i 1 1 1)) (vec3i 3 (-2) 0)) (vec3i 3 (-2) 0)
  = true.
Proof.
  apply (@expandToInclude_contains_point (mkAABB (vec3i 0 0 0) (vec3i 1 1 1)) (vec3i 3 (-2) 0));
    repeat split; reflexivity.
Defined.

(** X3.  [expandToInclude(point)] only grows the box: a point the box
    contained is still contained, whatever the point added (NaN included). *)
Theorem expandToInclude_keeps_points (a : AABB F32.float) (p q : Glm.vec3 F32.float) :
  containsPoint a q = true -> containsPoint (expandToInclude a p) q = true.
Proof.
  intros Hq. apply containsPoint_spec in Hq.
  destruct Hq as ((Hx & HX) & (Hy & HY) & (Hz & HZ)).
  apply containsPoint_spec. unfold expandToInclude.
  cbn [min max Glm.min Glm.max Glm.x Glm.y Glm.z].
  repeat split; first [apply min_below_old | apply max_above_old]; assumption.
Qed.

Lemma expandToInclude_keeps_points_witness :
  containsPoint
    (expandToInclude (mkAABB (vec3i 0 0 0) (vec3i 2 2 2)) (vec3i 5 5 5)) (vec3i 1 1 1)
  = true.
Proof.
  apply (@expandToInclude_keeps_points (mkAABB (vec3i 0 0 0) (vec3i 2 2 2))
           (vec3i 5 5 5) (vec3i 1 1 1)).
  reflexivity.
Defined.

(** X4.  After [expandToInclude(other)] the box contains every point it
    contained before, and every point of [other] when the box itself had no
    NaN component. *)
Theorem expandToIncludeAABB_contains_both (a other : AABB F32.float) (q : Glm.vec3 F32.float) :
  containsPoint a q = true \/ (numberBox a /\ containsPoint other q = true) ->
  containsPoint (expandToIncludeAABB a other) q = true.
Proof.
  intros [Hq | [[(Hx & Hy & Hz) (HX & HY & HZ)] Hq]];
    apply containsPoint_spec in Hq; destruct Hq as ((Hqx & HqX) & (Hqy & HqY) & (Hqz & HqZ));
    apply containsPoint_spec; unfold expandToIncludeAABB;
    cbn [min max Glm.min Glm.max Glm.x Glm.y Glm.z].
  - repeat split; first [apply min_below_old | apply max_above_old]; assumption.
  - repeat split; first [apply min_below_other | apply max_above_other]; assumption.
Qed.

Lemma expandToIncludeAABB_contains_both_witness :
  containsPoint
    (expandToIncludeAABB (mkAABB (vec3i 0 0 0) (vec3i 1 1 1))
                         (mkAABB (vec3i 4 4 4) (vec3i 6 6 6)))
    (vec3i 5 5 5) = true.
Proof.
  apply (@expandToIncludeAABB_contains_both (mkAABB (vec3i 0 0 0) (vec3i 1 1 1))
           (mkAABB (vec3i 4 4 4) (vec3i 6 6 6)) (vec3i 5 5 5)).
  right. repeat split; reflexivity.
Defined.

(** ** The closest point of a box *)

Lemma clamp1_in_range (p lo hi : F32.float) :
  F32.leb lo hi = true -> F32.is_nan p = false ->
  F32.leb lo (Std.min (Std.max p lo) hi) = true /\
  F32.leb (Std.min (Std.max p lo) hi) hi = true.
Proof.
  intros Hlh Hp. unfold Std.min, Std.max. cbn [s_ltb Scalar_float].
  destruct (F32.ltb p lo) eqn:E1.
  - destruct (F32.ltb hi lo) eqn:E2; split; forder.
  - destruct (F32.ltb hi p) eqn:E2; split; forder.
Qed.

Lemma clamp1_inside (p lo hi : F32.float) :
  F32.leb lo p = true -> F32.leb p hi = true -> Std.min (Std.max p lo) hi = p.
Proof.
  intros Hl Hh. unfold Std.min, Std.max. cbn [s_ltb Scalar_float].
  destruct (F32.ltb p lo) eqn:E1; [exfalso; forder|].
  destruct (F32.ltb hi p) eqn:E2; [exfalso; forder|]. reflexivity.
Qed.

(** X5.  The closest point of a well-formed box to a point without a NaN
    component is a point of the box. *)
Theorem closestPointOnAABB_in_box (box : AABB F32.float) (p : Glm.vec3 F32.float) :
  wellFormed box -> numberVec p ->
  containsPoint box (Collision.closestPointOnAABB box p) = true.
Proof.
  intros (Hx & Hy & Hz) (Hpx & Hpy & Hpz).
  apply containsPoint_spec. unfold Collision.closestPointOnAABB, Glm.clamp.
  cbn [Glm.min Glm.max Glm.x Glm.y Glm.z].
  repeat split; apply clamp1_in_range; assumption.
Qed.

Lemma closestPointOnAABB_in_box_witness :
  containsPoint (mkAABB (vec3i (-1) 0 (-1)) (vec3i 1 1 1))
    (Collision.closestPointOnAABB (mkAABB (vec3i (-1) 0 (-1)) (vec3i 1 1 1)) (vec3i 0 5 0))
  = true.
Proof.
  apply (@closestPointOnAABB_in_box (mkAABB (vec3i (-1) 0 (-1)) (vec3i 1 1 1)) (vec3i 0 5 0));
    repeat split; reflexivity.
Defined.

(** X6.  A point of the box is its own closest point. *)
Theorem closestPointOnAABB_fixes_inside (box : AABB F32.float) (p : Glm.vec3 F32.float) :
  containsPoint box p = true -> Collision.closestPointOnAABB box p = p.
Proof.
  intros Hp. apply containsPoint_spec in Hp.
  destruct Hp as ((Hx & HX) & (Hy & HY) & (Hz & HZ)).
  unfold Collision.closestPointOnAABB, Glm.clamp, Glm.min, Glm.max.
  destruct p as [px py pz]. cbn [Glm.x Glm.y Glm.z] in *.
  rewrite !clamp1_inside by assumption. reflexivity.
Qed.

Lemma closestPointOnAABB_fixes_inside_witness :
  Collision.closestPointOnAABB (mkAABB (vec3i (-1) 0 (-1)) (vec3i 1 1 1))
                               (vec3f (1, 2%positive) (1, 4%positive) (0, 1%positive))
  = vec3f (1, 2%positive) (1, 4%positive) (0, 1%positive).
Proof.
  apply (@closestPointOnAABB_fixes_inside (mkAABB (vec3i (-1) 0 (-1)) (vec3i 1 1 1))
           (vec3f (1, 2%positive) (1, 4%positive) (0, 1%positive))).
  reflexivity.
Defined.

(** ** Rays *)

Lemma slab_ordered ray box st i st' :
  slabOrdered st -> Collision.slab ray box st i = Some st' -> slabOrdered st'.
Proof.
  destruct st as [tmin tmax]. unfold slabOrdered, Collision.slab. cbn [fst snd].
  rewrite zero_lit. unfold F32.FLT_MAX. intros (H0 & H1 & H2).
  destruct (F32.ltb (F32.abs _) _).
  { destruct (_ || _); intros E; inversion E; subst; cbn [fst snd]; auto. }
  remember (F32.mul (F32.sub (Glm.component (min box) i) (Glm.component (Collision.origin ray) i))
                    (F32.div (F32.lit 1 1) (Glm.component (Collision.direction ray) i)))
    as u1 eqn:E1.
  remember (F32.mul (F32.sub (Glm.component (max box) i) (Glm.component (Collision.origin ray) i))
                    (F32.div (F32.lit 1 1) (Glm.component (Collision.direction ray) i)))
    as u2 eqn:E2.
  clear E1 E2.
  assert (Hgen : forall t1 t2,
             (if F32.gtb (Std.max tmin t1) (Std.min tmax t2) then None
              else Some (Std.max tmin t1, Std.min tmax t2)) = Some st' ->
             F32.leb (S754_zero false) (fst st') = true /\
             F32.leb (fst st') (snd st') = true /\
             F32.leb (snd st') (S754_finite false 16777215 104) = true).
  { intros t1 t2. unfold Std.max, Std.min, F32.gtb. cbn [s_ltb Scalar_float].
    destruct (F32.ltb tmin t1) eqn:Ea; destruct (F32.ltb t2 tmax) eqn:Eb;
      match goal with |- context [F32.ltb ?x ?y] => destruct (F32.ltb x y) eqn:Ec end;
      intros E; inversion E; subst; cbn [fst snd]; repeat split; forder. }
  destruct (F32.gtb u1 u2); apply Hgen.
Qed.

Lemma testRayVsAABB_ordered ray box t :
  Collision.testRayVsAABB ray box = Some t ->
  F32.leb (F32.lit 0 1) t = true /\ F32.leb t F32.FLT_MAX = true.
Proof.
  unfold Collision.testRayVsAABB. cbn [fold_left].
  assert (H0 : slabOrdered (F32.lit 0 1, F32.FLT_MAX)) by (repeat split; reflexivity).
  destruct (Collision.slab ray box (F32.lit 0 1, F32.FLT_MAX) 0) as [s0|] eqn:E0; [|discriminate].
  pose proof (@slab_ordered _ _ _ _ _ H0 E0) as H1.
  destruct (Collision.slab ray box s0 1) as [s1|] eqn:E1; [|discriminate].
  pose proof (@slab_ordered _ _ _ _ _ H1 E1) as H2.
  destruct (Collision.slab ray box s1 2) as [[tmin tmax]|] eqn:E2; [|discriminate].
  pose proof (@slab_ordered _ _ _ _ _ H2 E2) as (Ha & Hb & Hc). cbn [fst snd] in *.
  intros E; inversion E; subst. split; [assumption|].
  unfold F32.FLT_MAX in *. forder.
Qed.

(** X7.  Whenever [testRayVsAABB] reports a hit, the distance it writes is a
    number between 0 and [FLT_MAX]: never negative, never a NaN, never
    infinite, whatever the ray and the box. *)
Theorem testRayVsAABB_distance_in_range (ray : Collision.Ray) (box : AABB F32.float)
                                        (t : F32.float) :
  Collision.testRayVsAABB ray box = Some t ->
  F32.leb (F32.lit 0 1) t = true /\ F32.leb t F32.FLT_MAX = true /\ F32.is_finite t = true.
Proof.
  intros Ht. destruct (@testRayVsAABB_ordered _ _ _ Ht) as [H0 H1].
  repeat split; try assumption.
  rewrite zero_lit in H0. unfold F32.FLT_MAX in H1.
  destruct t as [s|s| |s m e]; try reflexivity; exfalso; try destruct s; forder.
Qed.

Lemma testRayVsAABB_distance_witness :
  let ray := Collision.mkRay (vec3i 0 5 0) (vec3i 0 (-1) 0) in
  let box := mkAABB (vec3i (-1) 0 (-1)) (vec3i 1 1 1) in
  Collision.testRayVsAABB ray box = Some (F32.of_Z 4) /\
  F32.leb (F32.lit 0 1) (F32.of_Z 4) = true /\ F32.leb (F32.of_Z 4) F32.FLT_MAX = true /\
  F32.is_finite (F32.of_Z 4) = true.
Proof.
  intros ray box. split; [reflexivity|].
  apply (@testRayVsAABB_distance_in_range ray box (F32.of_Z 4)). reflexivity.
Defined.

Lemma indexed_from_snoc (A : Type) (w : list A) (b : A) :
  forall n, combine (seq n (List.length (w ++ [b]))) (w ++ [b]) =
            combine (seq n (List.length w)) w ++ [((n + List.length w)%nat, b)].
Proof.
  induction w as [|a w IH]; intros n; cbn [List.length app seq combine].
  - rewrite Nat.add_0_r. reflexivity.
  - rewrite IH. rewrite Nat.add_succ_r. reflexivity.
Qed.

Lemma indexed_snoc (A : Type) (w : list A) (b : A) :
  combine (seq 0 (List.length (w ++ [b]))) (w ++ [b]) =
  combine (seq 0 (List.length w)) w ++ [(List.length w, b)].
Proof. apply indexed_from_snoc. Qed.

Lemma raycast_snoc w b ray maxDistance hitIndex :
  CollisionWorld.raycast (w ++ [b]) ray maxDistance hitIndex =
  let r := CollisionWorld.raycast w ray maxDistance hitIndex in
  let st := CollisionWorld.nearer ray (snd (fst r), snd r, fst (fst r)) (List.length w, b) in
  (snd st, fst (fst st), snd (fst st)).
Proof.
  unfold CollisionWorld.raycast. rewrite indexed_snoc, fold_left_app. cbn [fold_left fst snd].
  destruct (fold_left _ _ _) as [[hitT idx] any]. reflexivity.
Qed.

Lemma nth_error_snoc_inv (A : Type) (w : list A) (b c : A) (i : nat) :
  nth_error (w ++ [b]) i = Some c ->
  ((i < List.length w)%nat /\ nth_error w i = Some c) \/ (i = List.length w /\ c = b).
Proof.
  intros Hi. destruct (Nat.lt_ge_cases i (List.length w)) as [Hlt|Hge].
  - left. split; [assumption|]. rewrite nth_error_app1 in Hi; assumption.
  - right. rewrite nth_error_app2 in Hi by assumption.
    destruct (i - List.length w)%nat as [|n] eqn:En; cbn in Hi.
    + inversion Hi. split; [lia | reflexivity].
    + destruct n; discriminate.
Qed.

Lemma raycast_nearest w ray maxDistance hitIndex :
  nearestHit w ray maxDistance hitIndex (CollisionWorld.raycast w ray maxDistance hitIndex).
Proof.
  induction w as [|b w IH] using rev_ind.
  - unfold nearestHit. cbn. repeat split. intros [|i] c t Hc; discriminate.
  - rewrite raycast_snoc.
    destruct (CollisionWorld.raycast w ray maxDistance hitIndex) as [[any hitT] idx].
    cbv zeta. cbn [fst snd]. unfold CollisionWorld.nearer. cbn [fst snd].
    unfold nearestHit in IH. cbn [fst snd] in IH. cbv zeta in IH.
    destruct (Collision.testRayVsAABB ray b) as [t|] eqn:Et.
    + destruct (@testRayVsAABB_ordered _ _ _ Et) as [Ht0 _].
      assert (Hge : F32.geb t (F32.lit 0 1) = true) by exact Ht0.
      rewrite Hge, andb_true_r. rewrite zero_lit in Ht0.
      destruct (F32.ltb t hitT) eqn:Elt.
      * (* the new box is nearer *)
        unfold nearestHit. cbn [fst snd]. cbv zeta. exists b.
        split; [rewrite nth_error_app2 by lia; rewrite Nat.sub_diag; reflexivity|].
        split; [assumption|].
        assert (Hall : forall i c u, nth_error w i = Some c ->
                   Collision.testRayVsAABB ray c = Some u -> F32.ltb t u = true).
        { intros i c u Hc Hu. destruct (@testRayVsAABB_ordered _ _ _ Hu) as [Hu0 _].
          rewrite zero_lit in Hu0.
          destruct any.
          - destruct IH as (box & _ & _ & _ & Hnear & _).
            pose proof (Hnear i c u Hc Hu) as Hn. forder.
          - destruct IH as (-> & _ & Hnear).
            pose proof (Hnear i c u Hc Hu) as Hn. forder. }
        split; [|split].
        -- destruct any.
           ++ destruct IH as (box & _ & _ & Hmax & _). forder.
           ++ destruct IH as (-> & _). assumption.
        -- intros i c u Hc Hu. apply nth_error_snoc_inv in Hc.
           destruct Hc as [[Hi Hc]|[-> ->]].
           ++ pose proof (Hall i c u Hc Hu). forder.
           ++ rewrite Et in Hu. inversion Hu; subst. apply ltb_irrefl.
        -- intros i c u Hi Hc Hu. rewrite nth_error_app1 in Hc by assumption.
           exact (Hall i c u Hc Hu).
      * (* the new box is not nearer *)
        unfold nearestHit. cbn [fst snd]. cbv zeta. destruct any.
        -- destruct IH as (box & Hbox & Hbt & Hmax & Hnear & Hfirst).
           assert (Hidx : (idx < List.length w)%nat).
           { apply nth_error_Some. rewrite Hbox. discriminate. }
           exists box. split; [rewrite nth_error_app1 by assumption; assumption|].
           split; [assumption|]. split; [assumption|]. split.
           ++ intros i c u Hc Hu. apply nth_error_snoc_inv in Hc.
              destruct Hc as [[Hi Hc]|[-> ->]].
              ** exact (Hnear i c u Hc Hu).
              ** rewrite Et in Hu. inversion Hu; subst. assumption.
           ++ intros i c u Hi Hc Hu. rewrite nth_error_app1 in Hc by lia.
              exact (Hfirst i c u Hi Hc Hu).
        -- destruct IH as (-> & -> & Hnear). repeat split.
           intros i c u Hc Hu. apply nth_error_snoc_inv in Hc.
           destruct Hc as [[Hi Hc]|[-> ->]].
           ++ exact (Hnear i c u Hc Hu).
           ++ rewrite Et in Hu. inversion Hu; subst. assumption.
    + (* the ray misses the new box *)
      unfold nearestHit. cbn [fst snd]. cbv zeta. destruct any.
      * destruct IH as (box & Hbox & Hbt & Hmax & Hnear & Hfirst).
        assert (Hidx : (idx < List.length w)%nat).
        { apply nth_error_Some. rewrite Hbox. discriminate. }
        exists box. split; [rewrite nth_error_app1 by assumption; assumption|].
        split; [assumption|]. split; [assumption|]. split.
        -- intros i c u Hc Hu. apply nth_error_snoc_inv in Hc.
           destruct Hc as [[Hi Hc]|[-> ->]].
           ++ exact (Hnear i c u Hc Hu).
           ++ rewrite Et in Hu. discriminate.
        -- intros i c u Hi Hc Hu. rewrite nth_error_app1 in Hc by lia.
           exact (Hfirst i c u Hi Hc Hu).
      * destruct IH as (-> & -> & Hnear). repeat split.
        intros i c u Hc Hu. apply nth_error_snoc_inv in Hc.
        destruct Hc as [[Hi Hc]|[-> ->]].
        -- exact (Hnear i c u Hc Hu).
        -- rewrite Et in Hu. discriminate.
Qed.

(** X8.  [raycast] answers with the nearest box the ray enters below the
    greatest distance, the first such box on a tie; with no such box it
    answers false, leaves the caller's index alone and sets the distance to
    the greatest distance. *)
Theorem raycast_nearest_hit (w : list (AABB F32.float)) (ray : Collision.Ray)
                            (maxDistance : F32.float) (hitIndex : nat) :
  nearestHit w ray maxDistance hitIndex (CollisionWorld.raycast w ray maxDistance hitIndex).
Proof. apply raycast_nearest. Qed.

(** ** The world and the scene *)

(** X11.  [constrainPosition] returns a valid position unchanged. *)
Theorem constrainPosition_keeps_valid (F : Type) `{Scalar F} (w : list (AABB F))
                                      (position size : Glm.vec3 F) :
  ShowroomScene.isPositionValid w position size = true ->
  ShowroomScene.constrainPosition w position size = position.
Proof.
  unfold ShowroomScene.isPositionValid, ShowroomScene.constrainPosition,
         CollisionWorld.resolveCollisions.
  intros Hv. cbn [CollisionWorld.resolveLoop]. rewrite Hv. reflexivity.
Qed.

Lemma constrainPosition_keeps_valid_witness :
  let wall := mkAABB (vec3i 15 0 (-10)) (vec3f (31, 2%positive) (10, 1%positive) (10, 1%positive)) in
  ShowroomScene.constrainPosition [wall] (vec3f (0, 1%positive) (1, 5%positive) (0, 1%positive))
                                  (vec3f (4, 1%positive) (3, 2%positive) (9, 5%positive))
  = vec3f (0, 1%positive) (1, 5%positive) (0, 1%positive).
Proof.
  intros wall.
  apply (@constrainPosition_keeps_valid F32.float _ [wall]
           (vec3f (0, 1%positive) (1, 5%positive) (0, 1%positive))
           (vec3f (4, 1%positive) (3, 2%positive) (9, 5%positive))).
  reflexivity.
Defined.

(** ** Camera: the limits of the modes *)

Lemma sub_finite_l_not_nan x y :
  F32.is_finite x = true -> F32.is_nan y = false -> F32.is_nan (F32.sub x y) = false.
Proof.
  destruct x as [sx|sx| |sx mx ex], y as [sy|sy| |sy my ey]; simpl;
    try discriminate; intros _ _; try reflexivity.
  - destruct sx, sy; reflexivity.
  - apply binary_normalize_not_nan.
Qed.

(** A number times a finite number that is not zero is a number. *)
Lemma mul_nonzero_not_nan x s m e :
  F32.is_nan x = false -> F32.is_nan (F32.mul x (S754_finite s m e)) = false.
Proof.
  destruct x as [sx|sx| |sx mx ex]; simpl; try discriminate; intros _; try reflexivity.
  apply binary_round_aux_not_nan. lia.
Qed.

Lemma between_finite (lo hi x : F32.float) :
  F32.is_finite lo = true -> F32.is_finite hi = true ->
  F32.leb lo x = true -> F32.leb x hi = true -> F32.is_finite x = true.
Proof.
  intros Hlo Hhi H1 H2.
  destruct x as [s|s| |s m e]; try reflexivity; exfalso.
  - destruct s.
    + destruct lo; try discriminate; forder.
    + destruct hi; try discriminate; forder.
  - forder.
Qed.

Lemma lit_20 : Camera.lit 20 = S754_finite false 10485760 (-19).
Proof. reflexivity. Qed.

Lemma lit_2 : Camera.lit 2 = S754_finite false 8388608 (-22).
Proof. reflexivity. Qed.

Section CameraLimits.
Context `{Libm}.

Lemma inputs_snoc (c : Camera.t) l i :
  Camera.inputs c (l ++ [i]) = Camera.handle (Camera.inputs c l) i.
Proof. unfold Camera.inputs. rewrite fold_left_app. reflexivity. Qed.

(** [updateCameraVectors] writes the axes only; [updateOrbitPosition] the
    position and the axes only. *)
Lemma updateCameraVectors_keeps (c : Camera.t) :
  Camera.m_mode (Camera.updateCameraVectors c) = Camera.m_mode c /\
  Camera.m_yaw (Camera.updateCameraVectors c) = Camera.m_yaw c /\
  Camera.m_pitch (Camera.updateCameraVectors c) = Camera.m_pitch c /\
  Camera.m_position (Camera.updateCameraVectors c) = Camera.m_position c /\
  Camera.m_mouseSensitivity (Camera.updateCameraVectors c) = Camera.m_mouseSensitivity c /\
  Camera.m_driverSeatYawLimit (Camera.updateCameraVectors c) = Camera.m_driverSeatYawLimit c /\
  Camera.m_driverSeatPitchLimit (Camera.updateCameraVectors c) =
    Camera.m_driverSeatPitchLimit c.
Proof. repeat split. Qed.

Lemma updateOrbitPosition_keeps (c : Camera.t) :
  Camera.m_mode (Camera.updateOrbitPosition c) = Camera.m_mode c /\
  Camera.m_orbitPitch (Camera.updateOrbitPosition c) = Camera.m_orbitPitch c /\
  Camera.m_orbitRadius (Camera.updateOrbitPosition c) = Camera.m_orbitRadius c /\
  Camera.m_orbitTarget (Camera.updateOrbitPosition c) = Camera.m_orbitTarget c /\
  Camera.m_mouseSensitivity (Camera.updateOrbitPosition c) = Camera.m_mouseSensitivity c /\
  Camera.m_movementSpeed (Camera.updateOrbitPosition c) = Camera.m_movementSpeed c.
Proof. repeat split. Qed.

(** One input in driver-seat mode. *)
Lemma driverSeat_step (c : Camera.t) (i : Camera.input) :
  Camera.m_mode c = Camera.DRIVER_SEAT ->
  Camera.m_driverSeatYawLimit c = Camera.lit 120 ->
  Camera.m_driverSeatPitchLimit c = Camera.lit 45 ->
  F32.is_finite (Camera.m_mouseSensitivity c) = true ->
  Camera.driverSeatView c ->
  Camera.finiteInput i ->
  Camera.m_mode (Camera.handle c i) = Camera.DRIVER_SEAT /\
  Camera.m_driverSeatYawLimit (Camera.handle c i) = Camera.lit 120 /\
  Camera.m_driverSeatPitchLimit (Camera.handle c i) = Camera.lit 45 /\
  Camera.m_mouseSensitivity (Camera.handle c i) = Camera.m_mouseSensitivity c /\
  Camera.m_position (Camera.handle c i) = Camera.m_position c /\
  Camera.driverSeatView (Camera.handle c i).
Proof.
  intros Hm Hy Hp Hs (Hy1 & Hy2 & Hp1 & Hp2) Hi.
  destruct i as [f r u dt | xo yo cp | yo]; cbn [Camera.handle].
  - unfold Camera.processKeyboard. rewrite Hm. repeat split; assumption.
  - unfold Camera.processMouseMovement. rewrite Hm. cbv zeta.
    unfold Camera.driverSeatView.
    match goal with |- context [Camera.updateCameraVectors ?d] =>
      destruct (updateCameraVectors_keeps d) as (-> & -> & -> & -> & -> & -> & ->) end.
    cbn [Camera.set_yaw Camera.set_pitch
         Camera.m_mode Camera.m_driverSeatYawLimit Camera.m_driverSeatPitchLimit
         Camera.m_mouseSensitivity Camera.m_position Camera.m_yaw Camera.m_pitch].
    repeat split; try assumption.
    all: rewrite ?Hy, ?Hp.
    all: change (F32.sub (Camera.lit (-90)) (Camera.lit 120)) with (Camera.lit (-210)).
    all: change (F32.add (Camera.lit (-90)) (Camera.lit 120)) with (Camera.lit 30).
    all: change (F32.neg (Camera.lit 45)) with (Camera.lit (-45)).
    all: destruct Hi as [Hxo Hyo].
    all: assert (Hyaw : F32.is_finite (Camera.m_yaw c) = true)
      by (apply (@between_finite (Camera.lit (-210)) (Camera.lit 30)); auto).
    all: assert (Hpitch : F32.is_finite (Camera.m_pitch c) = true)
      by (apply (@between_finite (Camera.lit (-45)) (Camera.lit 45)); auto).
    all: apply clamp_in_range; try reflexivity.
    all: apply add_finite_l_not_nan; [assumption|]; apply mul_finite_not_nan; assumption.
  - unfold Camera.processMouseScroll. rewrite Hm.
    cbn [Camera.set_fov Camera.m_mode Camera.m_driverSeatYawLimit
         Camera.m_driverSeatPitchLimit Camera.m_mouseSensitivity Camera.m_position].
    repeat split; assumption.
Qed.

(** X12.  Once switched to driver-seat mode, whatever finite inputs follow,
    the camera stays in that mode at the seat position, its yaw stays between
    -210 and 30 degrees and its pitch between -45 and 45 degrees (the limits of
    the constructor, 120 and 45 degrees, about the yaw -90). *)
Theorem driverSeat_view_stays_limited (c : Camera.t) (l : list Camera.input) :
  Camera.m_driverSeatYawLimit c = Camera.lit 120 ->
  Camera.m_driverSeatPitchLimit c = Camera.lit 45 ->
  F32.is_finite (Camera.m_mouseSensitivity c) = true ->
  Forall Camera.finiteInput l ->
  Camera.m_mode (Camera.inputs (Camera.setMode c Camera.DRIVER_SEAT) l) = Camera.DRIVER_SEAT /\
  Camera.m_position (Camera.inputs (Camera.setMode c Camera.DRIVER_SEAT) l) =
    Camera.m_driverSeatPosition c /\
  Camera.driverSeatView (Camera.inputs (Camera.setMode c Camera.DRIVER_SEAT) l).
Proof.
  intros Hy Hp Hs Hl.
  assert (Hgen :
    Camera.m_mode (Camera.inputs (Camera.setMode c Camera.DRIVER_SEAT) l) = Camera.DRIVER_SEAT /\
    Camera.m_driverSeatYawLimit (Camera.inputs (Camera.setMode c Camera.DRIVER_SEAT) l) =
      Camera.lit 120 /\
    Camera.m_driverSeatPitchLimit (Camera.inputs (Camera.setMode c Camera.DRIVER_SEAT) l) =
      Camera.lit 45 /\
    Camera.m_mouseSensitivity (Camera.inputs (Camera.setMode c Camera.DRIVER_SEAT) l) =
      Camera.m_mouseSensitivity c /\
    Camera.m_position (Camera.inputs (Camera.setMode c Camera.DRIVER_SEAT) l) =
      Camera.m_driverSeatPosition c /\
    Camera.driverSeatView (Camera.inputs (Camera.setMode c Camera.DRIVER_SEAT) l)).
  { induction l as [|i l IH] using rev_ind.
    - cbn. repeat split; try assumption; reflexivity.
    - apply Forall_app in Hl. destruct Hl as [Hl Hi].
      inversion Hi as [|? ? Hi' _]; subst.
      destruct (IH Hl) as (I1 & I2 & I3 & I4 & I5 & I6).
      rewrite inputs_snoc.
      destruct (@driverSeat_step _ i I1 I2 I3 (eq_trans (f_equal F32.is_finite I4) Hs) I6 Hi')
        as (J1 & J2 & J3 & J4 & J5 & J6).
      split; [exact J1|]. split; [exact J2|]. split; [exact J3|].
      split; [congruence|]. split; [congruence|]. exact J6. }
  destruct Hgen as (I1 & _ & _ & _ & I5 & I6). auto.
Qed.

(** One input in orbit mode. *)
Lemma orbit_step (c : Camera.t) (i : Camera.input) :
  Camera.m_mode c = Camera.ORBIT ->
  F32.is_finite (Camera.m_mouseSensitivity c) = true ->
  Camera.orbitInLimits c ->
  Camera.finiteInput i ->
  Camera.steadyInput (Camera.m_movementSpeed c) i ->
  Camera.m_mode (Camera.handle c i) = Camera.ORBIT /\
  Camera.m_mouseSensitivity (Camera.handle c i) = Camera.m_mouseSensitivity c /\
  Camera.m_movementSpeed (Camera.handle c i) = Camera.m_movementSpeed c /\
  Camera.m_orbitTarget (Camera.handle c i) = Camera.m_orbitTarget c /\
  Camera.orbitInLimits (Camera.handle c i).
Proof.
  intros Hm Hs (Hp1 & Hp2 & Hr1 & Hr2) Hi Hv.
  assert (Hpitch : F32.is_finite (Camera.m_orbitPitch c) = true).
  { apply (@between_finite (Camera.lit (-80)) (Camera.lit 80)); auto. }
  assert (Hradius : F32.is_finite (Camera.m_orbitRadius c) = true).
  { apply (@between_finite (Camera.lit 2) (Camera.lit 20)); auto. }
  destruct i as [f r u dt | xo yo cp | yo]; cbn [Camera.handle].
  - unfold Camera.processKeyboard. rewrite Hm.
    cbv zeta. unfold Camera.orbitInLimits.
    match goal with |- context [Camera.updateOrbitPosition ?d] =>
      destruct (updateOrbitPosition_keeps d) as (-> & -> & -> & -> & -> & ->) end.
    cbn [Camera.set_orbitYaw Camera.set_orbitPitch Camera.set_orbitRadius
         Camera.m_mode Camera.m_mouseSensitivity Camera.m_movementSpeed Camera.m_orbitTarget
         Camera.m_orbitPitch Camera.m_orbitRadius].
    split; [assumption|]. split; [reflexivity|]. split; [reflexivity|]. split; [reflexivity|].
    destruct Hi as (Hf & Hr & Hu & Hdt). cbn [Camera.steadyInput] in Hv.
    destruct (@clamp_in_range
                (F32.add (Camera.m_orbitPitch c)
                   (F32.mul (F32.mul u (F32.mul (Camera.m_movementSpeed c) dt)) (Camera.lit 20)))
                (Camera.lit (-80)) (Camera.lit 80)) as [A1 A2].
    { apply add_finite_l_not_nan; [assumption|]. rewrite lit_20.
      apply mul_nonzero_not_nan. apply mul_finite_not_nan; assumption. }
    { reflexivity. }
    destruct (@clamp_in_range
                (F32.sub (Camera.m_orbitRadius c)
                   (F32.mul (F32.mul f (F32.mul (Camera.m_movementSpeed c) dt)) (Camera.lit 2)))
                (Camera.lit 2) (Camera.lit 20)) as [B1 B2].
    { apply sub_finite_l_not_nan; [assumption|]. rewrite lit_2 at 1.
      apply mul_nonzero_not_nan. apply mul_finite_not_nan; assumption. }
    { reflexivity. }
    repeat split; assumption.
  - unfold Camera.processMouseMovement. rewrite Hm.
    cbv zeta. unfold Camera.orbitInLimits.
    match goal with |- context [Camera.updateOrbitPosition ?d] =>
      destruct (updateOrbitPosition_keeps d) as (-> & -> & -> & -> & -> & ->) end.
    cbn [Camera.set_orbitYaw Camera.set_orbitPitch Camera.set_orbitRadius
         Camera.m_mode Camera.m_mouseSensitivity Camera.m_movementSpeed Camera.m_orbitTarget
         Camera.m_orbitPitch Camera.m_orbitRadius].
    split; [assumption|]. split; [reflexivity|]. split; [reflexivity|]. split; [reflexivity|].
    destruct Hi as (Hxo & Hyo).
    destruct (@clamp_in_range
                (F32.add (Camera.m_orbitPitch c) (F32.mul yo (Camera.m_mouseSensitivity c)))
                (Camera.lit (-80)) (Camera.lit 80)) as [A1 A2].
    { apply add_finite_l_not_nan; [assumption|]. apply mul_finite_not_nan; assumption. }
    { reflexivity. }
    repeat split; assumption.
  - unfold Camera.processMouseScroll. rewrite Hm.
    cbv zeta. unfold Camera.orbitInLimits.
    match goal with |- context [Camera.updateOrbitPosition ?d] =>
      destruct (updateOrbitPosition_keeps d) as (-> & -> & -> & -> & -> & ->) end.
    cbn [Camera.set_orbitYaw Camera.set_orbitPitch Camera.set_orbitRadius
         Camera.m_mode Camera.m_mouseSensitivity Camera.m_movementSpeed Camera.m_orbitTarget
         Camera.m_orbitPitch Camera.m_orbitRadius].
    split; [assumption|]. split; [reflexivity|]. split; [reflexivity|]. split; [reflexivity|].
    cbn [Camera.finiteInput] in Hi.
    destruct (@clamp_in_range
                (F32.sub (Camera.m_orbitRadius c) (F32.mul yo (F32.lit 1 2)))
                (Camera.lit 2) (Camera.lit 20)) as [B1 B2].
    { apply sub_finite_l_not_nan; [assumption|]. apply mul_finite_not_nan; [assumption|reflexivity]. }
    { reflexivity. }
    repeat split; assumption.
Qed.

(** X13.  In orbit mode, whatever finite inputs follow (keyboard, mouse,
    scroll, the keyboard velocity not overflowing), the camera stays in orbit
    mode about the same target, its orbit pitch stays between -80 and 80
    degrees and its orbit radius between 2 and 20. *)
Theorem orbit_stays_in_limits (c : Camera.t) (l : list Camera.input) :
  Camera.m_mode c = Camera.ORBIT ->
  F32.is_finite (Camera.m_mouseSensitivity c) = true ->
  Camera.orbitInLimits c ->
  Forall Camera.finiteInput l ->
  Forall (Camera.steadyInput (Camera.m_movementSpeed c)) l ->
  Camera.m_mode (Camera.inputs c l) = Camera.ORBIT /\
  Camera.m_orbitTarget (Camera.inputs c l) = Camera.m_orbitTarget c /\
  Camera.orbitInLimits (Camera.inputs c l).
Proof.
  intros Hm Hs Hin Hl Hv.
  assert (Hgen :
    Camera.m_mode (Camera.inputs c l) = Camera.ORBIT /\
    Camera.m_mouseSensitivity (Camera.inputs c l) = Camera.m_mouseSensitivity c /\
    Camera.m_movementSpeed (Camera.inputs c l) = Camera.m_movementSpeed c /\
    Camera.m_orbitTarget (Camera.inputs c l) = Camera.m_orbitTarget c /\
    Camera.orbitInLimits (Camera.inputs c l)).
  { induction l as [|i l IH] using rev_ind.
    - cbn. auto.
    - apply Forall_app in Hl. destruct Hl as [Hl Hi].
      inversion Hi as [|? ? Hi' _]; subst.
      apply Forall_app in Hv. destruct Hv as [Hv Hvi].
      inversion Hvi as [|? ? Hvi' _]; subst.
      destruct (IH Hl Hv) as (I1 & I2 & I3 & I4 & I5).
      rewrite inputs_snoc. rewrite <- I3 in Hvi'.
      destruct (@orbit_step _ i I1 (eq_trans (f_equal F32.is_finite I2) Hs) I5 Hi' Hvi')
        as (J1 & J2 & J3 & J4 & J5).
      split; [exact J1|]. split; [congruence|]. split; [congruence|].
      split; [congruence|]. exact J5. }
  destruct Hgen as (I1 & _ & _ & I4 & I5). auto.
Qed.

(** X14.  A scroll of a finite amount leaves the field of view, if finite
    before, between 1 and 90 degrees in free-roam mode and between 30 and 60
    degrees in driver-seat mode; in orbit mode it leaves the field of view
    alone. *)
Theorem processMouseScroll_zoom_limits (c : Camera.t) (yoffset : F32.float) :
  F32.is_finite (Camera.m_fov c) = true ->
  F32.is_finite yoffset = true ->
  match Camera.m_mode c with
  | Camera.FREE_ROAM =>
      F32.leb (Camera.lit 1) (Camera.m_fov (Camera.processMouseScroll c yoffset)) = true /\
      F32.leb (Camera.m_fov (Camera.processMouseScroll c yoffset)) (Camera.lit 90) = true
  | Camera.ORBIT =>
      Camera.m_fov (Camera.processMouseScroll c yoffset) = Camera.m_fov c
  | Camera.DRIVER_SEAT =>
      F32.leb (Camera.lit 30) (Camera.m_fov (Camera.processMouseScroll c yoffset)) = true /\
      F32.leb (Camera.m_fov (Camera.processMouseScroll c yoffset)) (Camera.lit 60) = true
  end.
Proof.
  intros Hf Hy. unfold Camera.processMouseScroll.
  destruct (Camera.m_mode c); cbn [Camera.set_fov Camera.m_fov].
  - apply clamp_in_range; [|reflexivity].
    apply sub_finite_not_nan; assumption.
  - reflexivity.
  - apply clamp_in_range; [|reflexivity].
    apply sub_finite_not_nan; assumption.
Qed.

End CameraLimits.

Lemma driverSeat_view_witness :
  let c := @Camera.init taylorLibm in
  let l := [Camera.MouseMovement (F32.of_Z 4000) (F32.of_Z (-900)) true;
            Camera.Keyboard (F32.of_Z 1) (F32.of_Z 0) (F32.of_Z 0) (F32.lit 1 60);
            Camera.MouseScroll (F32.of_Z 3)] in
  Camera.m_mode (@Camera.inputs taylorLibm (@Camera.setMode taylorLibm c Camera.DRIVER_SEAT) l)
    = Camera.DRIVER_SEAT /\
  Camera.m_position (@Camera.inputs taylorLibm (@Camera.setMode taylorLibm c Camera.DRIVER_SEAT) l)
    = Camera.m_driverSeatPosition c /\
  Camera.driverSeatView
    (@Camera.inputs taylorLibm (@Camera.setMode taylorLibm c Camera.DRIVER_SEAT) l).
Proof.
  intros c l.
  apply (@driverSeat_view_stays_limited taylorLibm c l).
  - reflexivity.
  - reflexivity.
  - reflexivity.
  - repeat constructor.
Defined.

Lemma orbit_limits_witness :
  let c := @Camera.setMode taylorLibm (@Camera.init taylorLibm) Camera.ORBIT in
  let l := [Camera.MouseMovement (F32.of_Z 10) (F32.of_Z 2000) true;
            Camera.Keyboard (F32.of_Z 1) (F32.of_Z 0) (F32.of_Z (-1)) (F32.lit 1 60);
            Camera.MouseScroll (F32.of_Z (-100))] in
  Camera.m_mode (@Camera.inputs taylorLibm c l) = Camera.ORBIT /\
  Camera.m_orbitTarget (@Camera.inputs taylorLibm c l) = Camera.m_orbitTarget c /\
  Camera.orbitInLimits (@Camera.inputs taylorLibm c l).
Proof.
  intros c l.
  apply (@orbit_stays_in_limits taylorLibm c l).
  - reflexivity.
  - reflexivity.
  - repeat split; reflexivity.
  - repeat constructor.
  - repeat constructor.
Defined.

Lemma zoom_limits_witness :
  let c := @Camera.init taylorLibm in
  F32.leb (Camera.lit 1)
          (Camera.m_fov (@Camera.processMouseScroll taylorLibm c (F32.of_Z 100))) = true /\
  F32.leb (Camera.m_fov (@Camera.processMouseScroll taylorLibm c (F32.of_Z 100)))
          (Camera.lit 90) = true.
Proof.
  intros c.
  apply (@processMouseScroll_zoom_limits taylorLibm c (F32.of_Z 100)); reflexivity.
Defined.

(** ** Renderer: the lights and the counters of a frame *)

Lemma addPointLights_capped (lights : list PointLight) :
  forall r : Renderer.t,
    (List.length (Renderer.m_pointLights r) <= Renderer.MAX_POINT_LIGHTS)%nat ->
    Renderer.m_pointLights (fold_left Renderer.addPointLight lights r) =
      firstn Renderer.MAX_POINT_LIGHTS (Renderer.m_pointLights r ++ lights) /\
    Renderer.m_spotLights (fold_left Renderer.addPointLight lights r) = Renderer.m_spotLights r.
Proof.
  induction lights as [|l lights IH]; intros r Hlen; cbn [fold_left].
  - rewrite app_nil_r. split; [|reflexivity].
    symmetry. apply firstn_all2. exact Hlen.
  - unfold Renderer.addPointLight at 2 4.
    destruct (Nat.ltb_spec (List.length (Renderer.m_pointLights r)) Renderer.MAX_POINT_LIGHTS)
      as [Hlt|Hge].
    + destruct (IH (Renderer.set_pointLights r (Renderer.m_pointLights r ++ [l]))) as [I1 I2].
      { cbn [Renderer.m_pointLights Renderer.set_pointLights].
        rewrite length_app. cbn [List.length]. lia. }
      rewrite I1, I2. cbn [Renderer.m_pointLights Renderer.m_spotLights Renderer.set_pointLights].
      rewrite <- app_assoc. auto.
    + destruct (IH r Hlen) as [I1 I2]. rewrite I1, I2. split; [|reflexivity].
      rewrite !firstn_app.
      replace (Renderer.MAX_POINT_LIGHTS - List.length (Renderer.m_pointLights r))%nat
        with 0%nat by lia.
      reflexivity.
Qed.

Lemma addSpotLights_capped (lights : list SpotLight) :
  forall r : Renderer.t,
    (List.length (Renderer.m_spotLights r) <= Renderer.MAX_SPOT_LIGHTS)%nat ->
    Renderer.m_spotLights (fold_left Renderer.addSpotLight lights r) =
      firstn Renderer.MAX_SPOT_LIGHTS (Renderer.m_spotLights r ++ lights) /\
    Renderer.m_pointLights (fold_left Renderer.addSpotLight lights r) = Renderer.m_pointLights r.
Proof.
  induction lights as [|l lights IH]; intros r Hlen; cbn [fold_left].
  - rewrite app_nil_r. split; [|reflexivity].
    symmetry. apply firstn_all2. exact Hlen.
  - unfold Renderer.addSpotLight at 2 4.
    destruct (Nat.ltb_spec (List.length (Renderer.m_spotLights r)) Renderer.MAX_SPOT_LIGHTS)
      as [Hlt|Hge].
    + destruct (IH (Renderer.set_spotLights r (Renderer.m_spotLights r ++ [l]))) as [I1 I2].
      { cbn [Renderer.m_spotLights Renderer.set_spotLights].
        rewrite length_app. cbn [List.length]. lia. }
      rewrite I1, I2. cbn [Renderer.m_pointLights Renderer.m_spotLights Renderer.set_spotLights].
      rewrite <- app_assoc. auto.
    + destruct (IH r Hlen) as [I1 I2]. rewrite I1, I2. split; [|reflexivity].
      rewrite !firstn_app.
      replace (Renderer.MAX_SPOT_LIGHTS - List.length (Renderer.m_spotLights r))%nat
        with 0%nat by lia.
      reflexivity.
Qed.

(** X15.  In a frame (after [beginFrame]) the renderer keeps the first four
    point lights and the first two spot lights added, in the order added, and
    silently drops the others: the lists never outgrow the arrays of the
    shader. *)
Theorem lights_capped (r : Renderer.t) (points : list PointLight) (spots : list SpotLight) :
  let r' := fold_left Renderer.addSpotLight spots
              (fold_left Renderer.addPointLight points (fst (Renderer.beginFrame r))) in
  Renderer.m_pointLights r' = firstn 4 points /\
  Renderer.m_spotLights r' = firstn 2 spots /\
  (List.length (Renderer.m_pointLights r') <= 4)%nat /\
  (List.length (Renderer.m_spotLights r') <= 2)%nat.
Proof.
  cbv zeta.
  destruct (@addPointLights_capped points (fst (Renderer.beginFrame r))) as [P1 P2].
  { cbn. lia. }
  destruct (@addSpotLights_capped spots
              (fold_left Renderer.addPointLight points (fst (Renderer.beginFrame r)))) as [S1 S2].
  { rewrite P2. cbn. lia. }
  rewrite S1, S2, P1, P2.
  change (Renderer.m_pointLights (fst (Renderer.beginFrame r))) with (@nil PointLight).
  change (Renderer.m_spotLights (fst (Renderer.beginFrame r))) with (@nil SpotLight).
  cbn [app]. change Renderer.MAX_POINT_LIGHTS with 4%nat. change Renderer.MAX_SPOT_LIGHTS with 2%nat.
  repeat split; try reflexivity; rewrite length_firstn; lia.
Qed.

Lemma executeCommand_counts models r cmd :
  Renderer.m_drawCallCount (fst (Renderer.executeCommand models r cmd)) =
    Renderer.m_drawCallCount r + Z.of_nat (List.length (Renderer.drawOf models cmd)) /\
  Renderer.m_triangleCount (fst (Renderer.executeCommand models r cmd)) =
    Renderer.m_triangleCount r.
Proof.
  unfold Renderer.executeCommand, Renderer.drawOf.
  destruct (models (Renderer.model cmd)) as [m|]; [destruct (Model.m_visible m)|];
    cbn [fst List.length Renderer.m_drawCallCount Renderer.m_triangleCount
         Renderer.set_drawCallCount]; split; try reflexivity; lia.
Qed.

Lemma executeAll_counts models cmds :
  forall r calls,
    let run := fold_left (fun acc cmd =>
                      let '(r, calls) := acc in
                      let '(r, drawn) := Renderer.executeCommand models r cmd in
                      (r, calls ++ drawn)) cmds (r, calls) in
    Renderer.m_drawCallCount (fst run) =
      Renderer.m_drawCallCount r
      + Z.of_nat (List.length (flat_map (Renderer.drawOf models) cmds)) /\
    Renderer.m_triangleCount (fst run) = Renderer.m_triangleCount r.
Proof.
  induction cmds as [|cmd cmds IH]; intros r calls; cbv zeta; cbn [fold_left flat_map].
  - cbn [fst List.length]. split; [lia | reflexivity].
  - destruct (executeCommand_counts models r cmd) as [Hc Ht].
    destruct (Renderer.executeCommand models r cmd) as [r' drawn]. cbn [fst] in Hc, Ht.
    destruct (IH r' (calls ++ drawn)) as [IH1 IH2]. cbv zeta in IH1, IH2.
    rewrite IH1, IH2, Hc, Ht, length_app. split; [lia | reflexivity].
Qed.

Lemma drawOf_draws models cmds :
  filter Renderer.isModelDraw (flat_map (Renderer.drawOf models) cmds) =
  flat_map (Renderer.drawOf models) cmds.
Proof.
  induction cmds as [|cmd cmds IH]; cbn [flat_map]; [reflexivity|].
  rewrite filter_app, IH. f_equal.
  unfold Renderer.drawOf.
  destruct (models (Renderer.model cmd)) as [m|]; [destruct (Model.m_visible m)|]; reflexivity.
Qed.

Section FrameCounters.
Context `{StdSort}.

Lemma endFrame_counters (models : N -> option Model.t) (r : Renderer.t) :
  let T := std_sort Renderer.farther (Renderer.m_transparentCommands r) in
  snd (Renderer.endFrame models r) =
    frameHeader r ++ flat_map (Renderer.drawOf models) (Renderer.m_opaqueCommands r)
    ++ blendOn ++ flat_map (Renderer.drawOf models) T ++ blendOff /\
  Renderer.m_drawCallCount (fst (Renderer.endFrame models r)) =
    Renderer.m_drawCallCount r
    + Z.of_nat (List.length (flat_map (Renderer.drawOf models) (Renderer.m_opaqueCommands r)))
    + Z.of_nat (List.length (flat_map (Renderer.drawOf models) T)) /\
  Renderer.m_triangleCount (fst (Renderer.endFrame models r)) = Renderer.m_triangleCount r.
Proof.
  cbv zeta. unfold Renderer.endFrame, Renderer.executeAll.
  destruct (executeAll_calls models (Renderer.m_opaqueCommands r) r []) as [Hc1 Ht1].
  destruct (executeAll_counts models (Renderer.m_opaqueCommands r) r []) as [Hd1 Hn1].
  cbv zeta in Hd1, Hn1.
  destruct (fold_left _ (Renderer.m_opaqueCommands r) (r, [])) as [r1 drawn1].
  cbn [fst snd] in Hc1, Ht1, Hd1, Hn1.
  unfold Renderer.sortTransparentCommands.
  cbn [Renderer.m_transparentCommands Renderer.set_transparentCommands].
  rewrite Ht1.
  destruct (executeAll_calls models
              (std_sort Renderer.farther (Renderer.m_transparentCommands r))
              (Renderer.set_transparentCommands r1
                 (std_sort Renderer.farther (Renderer.m_transparentCommands r))) [])
    as [Hc2 Ht2].
  destruct (executeAll_counts models
              (std_sort Renderer.farther (Renderer.m_transparentCommands r))
              (Renderer.set_transparentCommands r1
                 (std_sort Renderer.farther (Renderer.m_transparentCommands r))) [])
    as [Hd2 Hn2].
  cbv zeta in Hd2, Hn2.
  destruct (fold_left _ (std_sort Renderer.farther (Renderer.m_transparentCommands r)) _)
    as [r2 drawn2].
  cbn [fst snd] in Hc2, Ht2, Hd2, Hn2 |- *.
  cbn [Renderer.m_drawCallCount Renderer.m_triangleCount Renderer.set_transparentCommands]
    in Hd2, Hn2.
  rewrite Hc1, Hc2, Hd2, Hn2, Hd1, Hn1. cbn [app].
  split; [|split; reflexivity].
  unfold frameHeader, blendOn, blendOff. cbn [app].
  rewrite <- !app_assoc. reflexivity.
Qed.

(** X16.  In a frame whose transparent commands carry numbers as distances,
    [endFrame] draws every queued command whose model is there and visible
    exactly once (the draws are a permutation of those of the two queues), and
    the triangle counter is left as it is; the draw-call counter is an [int]:
    when it is not negative and the draws of the two queues do not take it
    past [INT_MAX], it grows by the number of these draws and stays in
    range. *)
Theorem endFrame_draws_each_once (models : N -> option Model.t) (r : Renderer.t) :
  numbered (Renderer.m_transparentCommands r) ->
  0 <= Renderer.m_drawCallCount r ->
  Renderer.m_drawCallCount r
  + Z.of_nat (List.length (flat_map (Renderer.drawOf models)
                (Renderer.m_opaqueCommands r ++ Renderer.m_transparentCommands r)))
  <= Renderer.INT_MAX ->
  Permutation
    (filter Renderer.isModelDraw (snd (Renderer.endFrame models r)))
    (flat_map (Renderer.drawOf models)
       (Renderer.m_opaqueCommands r ++ Renderer.m_transparentCommands r)) /\
  Renderer.m_drawCallCount (fst (Renderer.endFrame models r)) =
    Renderer.m_drawCallCount r
    + Z.of_nat (List.length (filter Renderer.isModelDraw (snd (Renderer.endFrame models r)))) /\
  Renderer.m_drawCallCount (fst (Renderer.endFrame models r)) <= Renderer.INT_MAX /\
  Renderer.m_triangleCount (fst (Renderer.endFrame models r)) = Renderer.m_triangleCount r.
Proof.
  intros Hn H0 Hmax.
  pose proof (std_sort_permutation (farther_strictWeakOrder Hn)) as Hp.
  destruct (endFrame_counters models r) as (Hc & Hd & Ht). cbv zeta in Hc, Hd, Ht.
  assert (Hf : filter Renderer.isModelDraw (snd (Renderer.endFrame models r)) =
               flat_map (Renderer.drawOf models) (Renderer.m_opaqueCommands r)
               ++ flat_map (Renderer.drawOf models)
                    (std_sort Renderer.farther (Renderer.m_transparentCommands r))).
  { rewrite Hc. unfold frameHeader, blendOn, blendOff.
    rewrite !filter_app, !drawOf_draws. cbn [filter Renderer.isModelDraw app].
    rewrite app_nil_r. reflexivity. }
  assert (Hperm : Permutation
            (filter Renderer.isModelDraw (snd (Renderer.endFrame models r)))
            (flat_map (Renderer.drawOf models)
               (Renderer.m_opaqueCommands r ++ Renderer.m_transparentCommands r))).
  { rewrite Hf, flat_map_app. apply Permutation_app_head.
    apply Permutation_flat_map. apply Permutation_sym. exact Hp. }
  assert (Hcount : Renderer.m_drawCallCount (fst (Renderer.endFrame models r)) =
                   Renderer.m_drawCallCount r
                   + Z.of_nat (List.length (filter Renderer.isModelDraw
                                              (snd (Renderer.endFrame models r))))).
  { rewrite Hf, Hd, length_app. lia. }
  split; [exact Hperm|]. split; [exact Hcount|]. split; [|exact Ht].
  rewrite Hcount, (Permutation_length Hperm). exact Hmax.
Qed.

End FrameCounters.

Lemma endFrame_draws_witness :
  let mat := mkMaterial (vec3i 1 1 1) (vec3i 1 1 1) (vec3i 1 1 1) (F32.of_Z 32)
                        (F32.lit 1 2) 0 0 0 in
  let car := Model.init String.EmptyString mat in
  let models := fun addr : N => if (addr =? 9)%N then None else Some car in
  let r0 := Renderer.mk 800 600 (Glm.diag (F32.of_Z 1)) (Glm.diag (F32.of_Z 1)) (vec3i 0 0 0)
              [] [] None [] [] (vec3i 0 0 0) false true 0 0 in
  let r := Renderer.submitAll (fst (Renderer.beginFrame r0))
             [(1%N, car, Renderer.translationTo 3 0 0);
              (9%N, car, Renderer.translationTo 1 0 0);
              (3%N, car, Renderer.translationTo 5 0 0)] (F32.of_Z 0) in
  Renderer.m_drawCallCount (fst (@Renderer.endFrame insertionStdSort models r)) = 2 /\
  Renderer.m_triangleCount (fst (@Renderer.endFrame insertionStdSort models r)) = 0.
Proof.
  intros mat car models r0 r.
  destruct (@endFrame_draws_each_once insertionStdSort models r) as (_ & Hd & _ & Ht).
  - vm_compute. repeat constructor.
  - vm_compute. discriminate.
  - vm_compute. discriminate.
  - split; [rewrite Hd | rewrite Ht]; vm_compute; reflexivity.
Defined.

(** ** Model: every mesh is drawn with its own material *)

Lemma drawMeshes_own (d : Material) (meshes : list N) :
  forall (materials pre : list Material),
    List.length meshes = List.length materials ->
    flat_map (fun im : nat * N =>
                [Model.ApplyMaterial
                   (if (fst im <? List.length (pre ++ materials))%nat
                    then nth (fst im) (pre ++ materials) d else d);
                 Model.MeshDraw (snd im)])
             (combine (seq (List.length pre) (List.length meshes)) meshes) =
    flat_map (fun p : N * Material => [Model.ApplyMaterial (snd p); Model.MeshDraw (fst p)])
             (combine meshes materials).
Proof.
  induction meshes as [|mesh meshes IH]; intros materials pre Hlen.
  - reflexivity.
  - destruct materials as [|a materials]; [discriminate|].
    cbn [List.length seq combine flat_map fst snd app].
    assert (Hlt : (List.length pre <? List.length (pre ++ a :: materials))%nat = true).
    { apply Nat.ltb_lt. rewrite length_app. cbn [List.length]. lia. }
    rewrite Hlt, nth_middle. do 2 f_equal.
    specialize (IH materials (pre ++ [a])).
    replace (List.length (pre ++ [a])) with (S (List.length pre)) in IH
      by (rewrite length_app; cbn [List.length]; lia).
    rewrite <- app_assoc in IH. cbn [app] in IH. apply IH.
    cbn [List.length] in Hlen. lia.
Qed.

Lemma build_snoc (m : Model.t) calls c :
  Model.build m (calls ++ [c]) = Model.applyMeshCall (Model.build m calls) c.
Proof. unfold Model.build. rewrite fold_left_app. reflexivity. Qed.

Lemma build_paired (m : Model.t) (calls : list Model.meshCall) :
  List.length (Model.m_meshMaterials m) = List.length (Model.m_meshes m) ->
  List.length (Model.m_meshMaterials (Model.build m calls)) =
  List.length (Model.m_meshes (Model.build m calls)).
Proof.
  intros Hm. induction calls as [|c calls IH] using rev_ind; [exact Hm|].
  rewrite build_snoc.
  destruct c; cbn [Model.applyMeshCall Model.addMesh Model.addMeshWith Model.setMaterial
                   Model.m_meshMaterials Model.m_meshes];
    rewrite ?length_app, ?length_map; cbn [List.length]; lia.
Qed.

(** X17.  However meshes and materials are added to a new model
    ([addMesh] with or without a material, [setMaterial]), there are as many
    mesh materials as meshes, and the loop of [draw] applies to each mesh its
    own material, then draws it: the fallback to the default material is never
    taken. *)
Theorem draw_uses_own_materials (name : String.string) (mat : Material)
                                (calls : list Model.meshCall) :
  let m := Model.build (Model.init name mat) calls in
  List.length (Model.m_meshMaterials m) = List.length (Model.m_meshes m) /\
  Model.drawMeshes m =
    flat_map (fun p => [Model.ApplyMaterial (snd p); Model.MeshDraw (fst p)])
             (combine (Model.m_meshes m) (Model.m_meshMaterials m)).
Proof.
  cbv zeta.
  assert (Hlen : List.length (Model.m_meshMaterials (Model.build (Model.init name mat) calls)) =
                 List.length (Model.m_meshes (Model.build (Model.init name mat) calls))).
  { apply build_paired. reflexivity. }
  split; [exact Hlen|].
  unfold Model.drawMeshes, Model.drawMesh.
  apply (@drawMeshes_own _ _ _ []). symmetry. exact Hlen.
Qed.

(** X18.  After [setMaterial(material)] the loop of [draw] applies that
    material to every mesh, whatever materials the meshes had. *)
Theorem setMaterial_overrides_all (m : Model.t) (material : Material) :
  Model.drawMeshes (Model.setMaterial m material) =
  flat_map (fun mesh => [Model.ApplyMaterial material; Model.MeshDraw mesh]) (Model.m_meshes m).
Proof.
  unfold Model.drawMeshes, Model.drawMesh, Model.setMaterial.
  cbn [Model.m_meshes Model.m_meshMaterials Model.m_material].
  generalize 0%nat. generalize (Model.m_meshMaterials m). intros materials.
  induction (Model.m_meshes m) as [|mesh meshes IH]; intros k; [reflexivity|].
  cbn [List.length seq combine flat_map fst snd app]. rewrite IH. do 2 f_equal.
  destruct (k <? List.length (map (fun _ => material) materials))%nat eqn:E; [|reflexivity].
  apply Nat.ltb_lt in E. rewrite length_map in E.
  exact (map_nth (fun _ => material) materials material k).
Qed.

(** ** CarModel: the cache of the model matrix *)

Section CarProperties.
Context `{Libm} `{GlmTransform}.

Lemma car_step_fresh (c : CarModel.t) (k : CarModel.call) :
  Model.fresh (CarModel.base c) -> Model.fresh (CarModel.base (CarModel.step c k)).
Proof.
  intros Hf. destruct k as [amount dt | angle dt | k]; cbn [CarModel.step].
  - unfold Model.fresh. cbn. discriminate.
  - unfold Model.fresh. cbn. discriminate.
  - cbn [CarModel.set_base CarModel.base]. apply step_fresh. exact Hf.
Qed.

Lemma car_run_fresh (calls : list CarModel.call) (c : CarModel.t) :
  Model.fresh (CarModel.base c) -> Model.fresh (CarModel.base (CarModel.run c calls)).
Proof.
  revert c. induction calls as [|k calls IH]; intros c Hf; cbn.
  - exact Hf.
  - apply IH. apply car_step_fresh. exact Hf.
Qed.

(** X19.  [move] and [turn] write the position and the rotation of the base
    model directly and set the dirty flag: after any sequence of [move],
    [turn] and calls of the base class on a car whose cache is fresh,
    [getModelMatrix] returns the world matrix of the position, rotation and
    scale the car holds at that moment; and the rotation about Y that [turn]
    leaves is the heading. *)
Theorem car_matrix_never_stale :
  (forall (c : CarModel.t) (calls : list CarModel.call),
      Model.fresh (CarModel.base c) ->
      let m := CarModel.base (CarModel.run c calls) in
      fst (Model.getModelMatrix m) =
      Model.worldMatrix (Model.m_position m) (Model.m_rotation m) (Model.m_scale m)) /\
  (forall (c : CarModel.t) (amount angle dt : F32.float),
      Model.m_modelMatrixDirty (CarModel.base (CarModel.move c amount dt)) = true /\
      Model.m_modelMatrixDirty (CarModel.base (CarModel.turn c angle dt)) = true /\
      Glm.y (Model.m_rotation (CarModel.base (CarModel.turn c angle dt))) =
        CarModel.m_heading (CarModel.turn c angle dt)).
Proof.
  split.
  - intros c calls Hf m. apply getModelMatrix_fresh. apply car_run_fresh. exact Hf.
  - intros c amount angle dt. repeat split.
Qed.

End CarProperties.

Lemma car_matrix_witness :
  let L := taylorLibm in
  let G := GlmReference.builders taylorLibm in
  let mat := mkMaterial (vec3i 1 1 1) (vec3i 1 1 1) (vec3i 1 1 1) (F32.of_Z 32)
                        (F32.of_Z 1) 0 0 0 in
  let c := CarModel.mk (Model.init String.EmptyString mat) 0 [1; 2; 3; 4]%nat
             [0; 0; 0; 0]%nat 5 6 (F32.of_Z 0) (F32.of_Z 0)
             [F32.of_Z 0; F32.of_Z 0; F32.of_Z 0; F32.of_Z 0] [false; false; false; false]
             (F32.of_Z 90) (F32.of_Z 0) (F32.of_Z 0) false true
             (F32.of_Z 4) (F32.lit 18 10) (F32.lit 3 2) (F32.lit 4 10) in
  let m := CarModel.base (@CarModel.run L G c
             [CarModel.CallMove (F32.of_Z 5) (F32.lit 1 60);
              CarModel.CallModel Model.CallGetModelMatrix;
              CarModel.CallTurn (F32.of_Z 60) (F32.lit 1 60)]) in
  fst (@Model.getModelMatrix G m) =
  @Model.worldMatrix G (Model.m_position m) (Model.m_rotation m) (Model.m_scale m).
Proof.
  intros L G mat c m.
  apply (proj1 (@car_matrix_never_stale L G) c).
  unfold Model.fresh. cbn. discriminate.
Defined.

(** ** AnimationController: the identifiers *)

Lemma controller_update_map (deltaTime : F32.float) (c : AnimationController.t) :
  forall done invoked,
    fold_left (fun acc anim =>
                 let '(done, invoked) := acc in
                 let '(_, anim, now) := Animation.update anim deltaTime in
                 (done ++ [anim], invoked ++ now))
              c (done, invoked) =
    (done ++ map (fun a => snd (fst (Animation.update a deltaTime))) c,
     invoked ++ flat_map (fun a => snd (Animation.update a deltaTime)) c).
Proof.
  induction c as [|a c IH]; intros done invoked; cbn [fold_left map flat_map].
  - rewrite !app_nil_r. reflexivity.
  - destruct (Animation.update a deltaTime) as [[v a'] now] eqn:E. cbn [fst snd].
    rewrite IH, <- !app_assoc. reflexivity.
Qed.

(** X20.  [AnimationController::update] updates every animation in place:
    the animation at an identifier afterwards is the one that was there,
    updated once, no identifier appears or disappears, and the completion
    callbacks are invoked in the order of the identifiers. *)
Theorem controller_update_keeps_ids (c : AnimationController.t) (deltaTime : F32.float) :
  (forall id,
      AnimationController.getAnimation (fst (AnimationController.update c deltaTime)) id =
      option_map (fun a => snd (fst (Animation.update a deltaTime)))
                 (AnimationController.getAnimation c id)) /\
  snd (AnimationController.update c deltaTime) =
    flat_map (fun a => snd (Animation.update a deltaTime)) c.
Proof.
  unfold AnimationController.update. rewrite controller_update_map. cbn [fst snd app].
  split; [|reflexivity].
  intros id. unfold AnimationController.getAnimation. rewrite length_map.
  destruct (id <? List.length c)%nat; [|reflexivity].
  rewrite nth_error_map. reflexivity.
Qed.

(** X21.  The identifier [addAnimation] returns finds the animation added;
    the animations added before keep their identifiers; and [getAnimation]
    answers with the null pointer exactly for the identifiers never handed
    out. *)
Theorem addAnimation_id (c : AnimationController.t) (a : Animation.t) :
  let c' := fst (AnimationController.addAnimation c a) in
  let id := snd (AnimationController.addAnimation c a) in
  AnimationController.getAnimation c' id = Some a /\
  (forall j, (j < id)%nat ->
             AnimationController.getAnimation c' j = AnimationController.getAnimation c j) /\
  (forall j, AnimationController.getAnimation c' j = None <-> (id < j)%nat).
Proof.
  cbn [AnimationController.addAnimation fst snd]. unfold AnimationController.getAnimation.
  rewrite length_app. cbn [List.length]. split; [|split].
  - destruct (Nat.ltb_spec (List.length c) (List.length c + 1)); [|lia].
    rewrite nth_error_app2 by lia. rewrite Nat.sub_diag. reflexivity.
  - intros j Hj.
    destruct (Nat.ltb_spec j (List.length c + 1)); [|lia].
    destruct (Nat.ltb_spec j (List.length c)); [|lia].
    apply nth_error_app1. assumption.
  - intros j. destruct (Nat.ltb_spec j (List.length c + 1)) as [Hlt|Hge].
    + split; [|lia]. intros Hn. apply nth_error_None in Hn.
      rewrite length_app in Hn. cbn [List.length] in Hn. lia.
    + split; [lia | reflexivity].
Qed.

(** ** Input: the edges and the first mouse position *)

(** X22.  Right after [Input::update] no key and no mouse button counts as
    just pressed or just released: [isKeyPressed], [isKeyReleased] and
    [isMouseButtonPressed] answer false for every key until the next event
    arrives, while [isKeyHeld] answers as before. *)
Theorem no_edge_after_update (s : Input.t) (currentPos : Glm.vec2 F32.float) (key : Z) :
  Input.isKeyPressed (Input.update s currentPos) key = false /\
  Input.isKeyReleased (Input.update s currentPos) key = false /\
  Input.isMouseButtonPressed (Input.update s currentPos) key = false /\
  Input.isKeyHeld (Input.update s currentPos) key = Input.isKeyHeld s key.
Proof.
  unfold Input.isKeyPressed, Input.isKeyReleased, Input.isMouseButtonPressed, Input.isKeyHeld,
         Input.update.
  cbn [Input.m_keyStates Input.m_previousKeyStates Input.m_mouseButtonStates
       Input.m_previousMouseButtonStates].
  destruct (Input.down (Input.m_keyStates s) key);
    destruct (Input.down (Input.m_mouseButtonStates s) key); repeat split.
Qed.

Lemma sub_self (x : F32.float) : F32.is_finite x = true -> F32.sub x x = S754_zero false.
Proof.
  destruct x as [s|s| |s m e]; try discriminate; intros _.
  - destruct s; reflexivity.
  - unfold F32.sub, SFsub. rewrite Z.sub_diag. reflexivity.
Qed.

(** X23.  The first [update] after the construction or after
    [captureCursor] reports no mouse movement, wherever the cursor is (at a
    finite position): the delta is zero, and the position is remembered for
    the next call. *)
Theorem first_update_no_mouse_jump (s : Input.t) (currentPos : Glm.vec2 F32.float) :
  F32.is_finite (Glm.x2 currentPos) = true ->
  F32.is_finite (Glm.y2 currentPos) = true ->
  let s' := Input.update (Input.captureCursor s) currentPos in
  Input.m_mouseDelta s' = Glm.mkVec2 (F32.lit 0 1) (F32.lit 0 1) /\
  Input.m_lastMousePosition s' = currentPos /\
  Input.m_firstMouse s' = false.
Proof.
  intros Hx Hy. cbv zeta. unfold Input.update, Input.captureCursor.
  cbn [Input.m_firstMouse Input.m_mouseDelta Input.m_lastMousePosition].
  rewrite !sub_self by assumption. repeat split.
Qed.

Lemma first_update_witness :
  let s := Input.mk [] [] (Glm.mkVec2 (F32.of_Z 0) (F32.of_Z 0))
             (Glm.mkVec2 (F32.of_Z 0) (F32.of_Z 0)) (Glm.mkVec2 (F32.of_Z 0) (F32.of_Z 0))
             false [] [] (F32.of_Z 0) (F32.of_Z 0) false [] in
  let p := Glm.mkVec2 (F32.of_Z 640) (F32.of_Z 360) in
  Input.m_mouseDelta (Input.update (Input.captureCursor s) p) =
    Glm.mkVec2 (F32.lit 0 1) (F32.lit 0 1) /\
  Input.m_lastMousePosition (Input.update (Input.captureCursor s) p) = p /\
  Input.m_firstMouse (Input.update (Input.captureCursor s) p) = false.
Proof.
  intros s p. apply (@first_update_no_mouse_jump s p); reflexivity.
Defined.

Lemma find_assign (m : Input.keyMap) (key other : Z) (v : Input.KeyState) :
  Input.find (Input.assign m key v) other =
  if (key =? other)%Z then Some v else Input.find m other.
Proof. reflexivity. Qed.

(** X24.  A key event changes the state of its key only: after [handleKey]
    the key counts as held exactly when the action was a press or a repeat
    (for another action than press, release and repeat, as before), every
    other key is as before, and the key-press callbacks are notified, each
    once and in order, on a press only. *)
Theorem handleKey_sets_one_key (s : Input.t) (key action other : Z) :
  Input.isKeyHeld (fst (Input.handleKey s key action)) other =
    (if (key =? other)%Z then
       if (action =? Input.GLFW_PRESS)%Z || (action =? Input.GLFW_REPEAT)%Z then true
       else if (action =? Input.GLFW_RELEASE)%Z then false
       else Input.isKeyHeld s other
     else Input.isKeyHeld s other) /\
  snd (Input.handleKey s key action) =
    (if (action =? Input.GLFW_PRESS)%Z
     then map (fun callback => (callback, key)) (Input.m_keyPressCallbacks s) else []).
Proof.
  unfold Input.handleKey, Input.isKeyHeld, Input.down,
         Input.GLFW_PRESS, Input.GLFW_RELEASE, Input.GLFW_REPEAT.
  destruct (action =? 1)%Z eqn:E1; [|destruct (action =? 0)%Z eqn:E0;
                                     [|destruct (action =? 2)%Z eqn:E2]];
    cbn [fst snd Input.set_keyStates Input.m_keyStates orb]; rewrite ?find_assign;
    try (apply Z.eqb_eq in E1; subst action); try (apply Z.eqb_eq in E0; subst action);
    try (apply Z.eqb_eq in E2; subst action);
    cbn [Z.eqb orb]; destruct (key =? other)%Z; split; reflexivity.
Qed.

(** ** The mesh generators: every index names a vertex *)

Lemma length_upTo (n : Z) : List.length (MeshGenerator.upTo n) = Z.to_nat (n + 1).
Proof. unfold MeshGenerator.upTo. rewrite length_map, length_seq. reflexivity. Qed.

Lemma length_below (n : Z) : List.length (MeshGenerator.below n) = Z.to_nat n.
Proof. unfold MeshGenerator.below. rewrite length_map, length_seq. reflexivity. Qed.

Lemma In_below (n j : Z) : In j (MeshGenerator.below n) -> 0 <= j < n.
Proof.
  unfold MeshGenerator.below. rewrite in_map_iff. intros (k & <- & Hk).
  apply in_seq in Hk. lia.
Qed.

Lemma below_succ (n : nat) :
  MeshGenerator.below (Z.of_nat (S n)) = MeshGenerator.below (Z.of_nat n) ++ [Z.of_nat n].
Proof.
  unfold MeshGenerator.below. rewrite !Nat2Z.id, seq_S, map_app. reflexivity.
Qed.

Lemma length_flat_map_const (A B : Type) (f : A -> list B) (k : nat) (l : list A) :
  (forall x, In x l -> List.length (f x) = k) ->
  List.length (flat_map f l) = (k * List.length l)%nat.
Proof.
  induction l as [|a l IH]; intros Hk; cbn [flat_map List.length]; [lia|].
  rewrite length_app, IH; [|intros x Hx; apply Hk; right; exact Hx].
  rewrite (Hk a (or_introl eq_refl)). lia.
Qed.

Lemma Forall_flat_map_in (A B : Type) (P : B -> Prop) (f : A -> list B) (l : list A) :
  (forall x, In x l -> Forall P (f x)) -> Forall P (flat_map f l).
Proof.
  induction l as [|a l IH]; intros Hf; cbn [flat_map]; [constructor|].
  apply Forall_app. split; [apply Hf; left; reflexivity|].
  apply IH. intros x Hx. apply Hf. right. exact Hx.
Qed.

Section MeshProperties.
Context `{Libm}.

(** X25.  For a number of sectors that is not negative (and small enough
    for no [int] to overflow), the cylinder of [createCylinder] has
    [4 * sectors + 6] vertices and [12 * sectors] indices, and every index
    names one of its vertices; so do the indices of the wheel of
    [createWheel], a cylinder of 24 sectors with 102 vertices and 288
    indices. *)
Theorem createCylinder_indices_in_range (radius height : F32.float) (sectors : Z) :
  0 <= sectors -> 4 * sectors + 6 < 2 ^ 31 ->
  let m := MeshGenerator.createCylinder radius height sectors in
  Z.of_nat (List.length (MeshGenerator.vertices m)) = 4 * sectors + 6 /\
  Z.of_nat (List.length (MeshGenerator.indices m)) = 12 * sectors /\
  MeshGenerator.indicesInRange m.
Proof.
  intros H0 Hmax. cbv zeta. unfold MeshGenerator.indicesInRange, MeshGenerator.createCylinder.
  cbn [MeshGenerator.vertices MeshGenerator.indices].
  match goal with |- context [flat_map ?f (MeshGenerator.upTo 1)] => set (side := f) end.
  assert (Hside : List.length (flat_map side (MeshGenerator.upTo 1)) = Z.to_nat (2 * sectors + 2)).
  { rewrite (@length_flat_map_const _ _ side (Z.to_nat (sectors + 1))).
    - rewrite length_upTo. lia.
    - intros i _. unfold side. rewrite length_map, length_upTo. reflexivity. }
  rewrite !length_app. cbn [List.length]. rewrite !length_map, !length_upTo, Hside.
  rewrite !(@length_flat_map_const _ _ _ 6), !(@length_flat_map_const _ _ _ 3), !length_below
    by (intros; reflexivity).
  split; [lia|]. split; [lia|].
  rewrite !Forall_app. repeat split; apply Forall_flat_map_in; intros j Hj;
    apply In_below in Hj; repeat constructor; lia.
Qed.

Lemma sphereQuad_fold (stacks i : Z) (n : nat) :
  forall k1 k2 indices,
    fold_left (MeshGenerator.sphereQuad stacks i) (MeshGenerator.below (Z.of_nat n))
              (k1, k2, indices) =
    (k1 + Z.of_nat n, k2 + Z.of_nat n,
     indices ++ flat_map (fun j => MeshGenerator.sphereQuadAt stacks i (k1 + j) (k2 + j))
                         (MeshGenerator.below (Z.of_nat n))).
Proof.
  induction n as [|n IH]; intros k1 k2 indices.
  - cbn. rewrite !Z.add_0_r, app_nil_r. reflexivity.
  - rewrite below_succ, fold_left_app, IH. cbn [fold_left].
    unfold MeshGenerator.sphereQuad. rewrite flat_map_app. cbn [flat_map].
    rewrite app_nil_r. unfold MeshGenerator.sphereQuadAt.
    replace (k1 + Z.of_nat (S n)) with (k1 + Z.of_nat n + 1) by lia.
    replace (k2 + Z.of_nat (S n)) with (k2 + Z.of_nat n + 1) by lia.
    f_equal.
    destruct (negb (i =? 0)%Z), (negb (i =? stacks - 1)%Z);
      rewrite <- ?app_assoc, ?app_nil_r; reflexivity.
Qed.

Lemma sphereStack_spec (sectors stacks : Z) (indices : list Z) (i : Z) :
  0 <= sectors ->
  MeshGenerator.sphereStack sectors stacks indices i =
  indices ++ flat_map (fun j => MeshGenerator.sphereQuadAt stacks i (i * (sectors + 1) + j)
                                             (i * (sectors + 1) + sectors + 1 + j))
                      (MeshGenerator.below sectors).
Proof.
  intros H0. unfold MeshGenerator.sphereStack.
  pose proof (@sphereQuad_fold stacks i (Z.to_nat sectors) (i * (sectors + 1))
                (i * (sectors + 1) + sectors + 1) indices) as Hf.
  rewrite (Z2Nat.id sectors H0) in Hf. rewrite Hf. reflexivity.
Qed.

Lemma sphereStacks_fold (sectors stacks : Z) (l : list Z) :
  0 <= sectors ->
  forall indices,
    fold_left (MeshGenerator.sphereStack sectors stacks) l indices =
    indices ++ flat_map (fun i =>
                 flat_map (fun j => MeshGenerator.sphereQuadAt stacks i (i * (sectors + 1) + j)
                                                 (i * (sectors + 1) + sectors + 1 + j))
                          (MeshGenerator.below sectors)) l.
Proof.
  intros H0. induction l as [|i l IH]; intros indices; cbn [fold_left flat_map].
  - rewrite app_nil_r. reflexivity.
  - rewrite IH, sphereStack_spec by assumption. rewrite <- app_assoc. reflexivity.
Qed.

(** The number of indices of the stacks below [n]. *)
Lemma sphere_index_count (sectors stacks : Z) (n : nat) :
  0 <= sectors -> Z.of_nat n <= stacks ->
  Z.of_nat (List.length
    (flat_map (fun i =>
                 flat_map (fun j => MeshGenerator.sphereQuadAt stacks i (i * (sectors + 1) + j)
                                                 (i * (sectors + 1) + sectors + 1 + j))
                          (MeshGenerator.below sectors))
              (MeshGenerator.below (Z.of_nat n)))) =
  if (Z.of_nat n =? 0)%Z then 0
  else if (Z.of_nat n =? stacks)%Z then 6 * sectors * (stacks - 1)
  else sectors * (6 * Z.of_nat n - 3).
Proof.
  intros H0. induction n as [|n IH]; intros Hn.
  - reflexivity.
  - rewrite below_succ, flat_map_app, length_app. cbn [flat_map]. rewrite app_nil_r.
    rewrite Nat2Z.inj_add, IH by lia.
    assert (Hrow : Z.of_nat (List.length
               (flat_map (fun j => MeshGenerator.sphereQuadAt stacks (Z.of_nat n)
                                     (Z.of_nat n * (sectors + 1) + j)
                                     (Z.of_nat n * (sectors + 1) + sectors + 1 + j))
                         (MeshGenerator.below sectors))) =
             sectors * ((if (Z.of_nat n =? 0)%Z then 0 else 3)
                        + (if (Z.of_nat n =? stacks - 1)%Z then 0 else 3))).
    { rewrite (@length_flat_map_const _ _ _
                 ((if (Z.of_nat n =? 0)%Z then 0 else 3)
                  + (if (Z.of_nat n =? stacks - 1)%Z then 0 else 3))%nat).
      - rewrite length_below.
        destruct (Z.of_nat n =? 0)%Z, (Z.of_nat n =? stacks - 1)%Z; lia.
      - intros j _. unfold MeshGenerator.sphereQuadAt.
        destruct (Z.of_nat n =? 0)%Z, (Z.of_nat n =? stacks - 1)%Z; reflexivity. }
    rewrite Hrow.
    destruct (Z.eqb_spec (Z.of_nat n) 0) as [E0|E0];
      destruct (Z.eqb_spec (Z.of_nat n) (stacks - 1)) as [E1|E1];
      destruct (Z.eqb_spec (Z.of_nat (S n)) 0) as [E2|E2];
      destruct (Z.eqb_spec (Z.of_nat (S n)) stacks) as [E3|E3];
      destruct (Z.eqb_spec (Z.of_nat n) stacks) as [E4|E4]; try lia; nia.
Qed.

(** X26.  For numbers of sectors and stacks that are not negative (and small
    enough for no [int] to overflow), the sphere of [createSphere] has
    [(stacks + 1) * (sectors + 1)] vertices and [6 * sectors * (stacks - 1)]
    indices (none for fewer than two stacks), and every index names one of
    its vertices. *)
Theorem createSphere_indices_in_range (radius : F32.float) (sectors stacks : Z) :
  0 <= sectors -> 0 <= stacks -> (stacks + 1) * (sectors + 1) < 2 ^ 31 ->
  let m := MeshGenerator.createSphere radius sectors stacks in
  Z.of_nat (List.length (MeshGenerator.vertices m)) = (stacks + 1) * (sectors + 1) /\
  Z.of_nat (List.length (MeshGenerator.indices m)) = 6 * sectors * Z.max 0 (stacks - 1) /\
  MeshGenerator.indicesInRange m.
Proof.
  intros H0 H1 Hmax. cbv zeta. unfold MeshGenerator.indicesInRange, MeshGenerator.createSphere.
  cbn [MeshGenerator.vertices MeshGenerator.indices].
  rewrite sphereStacks_fold by assumption. cbn [app].
  match goal with |- context [flat_map ?f (MeshGenerator.upTo stacks)] => set (ring := f) end.
  assert (Hv : Z.of_nat (List.length (flat_map ring (MeshGenerator.upTo stacks))) =
               (stacks + 1) * (sectors + 1)).
  { rewrite (@length_flat_map_const _ _ ring (Z.to_nat (sectors + 1))).
    - rewrite length_upTo. nia.
    - intros i _. unfold ring. rewrite length_map, length_upTo. reflexivity. }
  rewrite Hv. split; [reflexivity|]. split.
  - pose proof (@sphere_index_count sectors stacks (Z.to_nat stacks) H0) as Hc.
    rewrite (Z2Nat.id stacks H1) in Hc. rewrite Hc by lia.
    rewrite Z.eqb_refl.
    destruct (Z.eqb_spec stacks 0) as [E|E]; [subst; rewrite Z.max_l by lia; lia|].
    rewrite Z.max_r by lia. reflexivity.
  - apply Forall_flat_map_in. intros i Hi. apply In_below in Hi.
    apply Forall_flat_map_in. intros j Hj. apply In_below in Hj.
    unfold MeshGenerator.sphereQuadAt.
    destruct (negb (i =? 0)%Z), (negb (i =? stacks - 1)%Z); cbn [app];
      repeat constructor; nia.
Qed.

End MeshProperties.

Lemma createCylinder_witness :
  let m := @MeshGenerator.createWheel taylorLibm (F32.lit 4 10) (F32.lit 2 10) in
  Z.of_nat (List.length (MeshGenerator.vertices m)) = 102 /\
  Z.of_nat (List.length (MeshGenerator.indices m)) = 288 /\
  MeshGenerator.indicesInRange m.
Proof.
  intros m.
  apply (@createCylinder_indices_in_range taylorLibm (F32.lit 4 10) (F32.lit 2 10) 24); lia.
Defined.

Lemma createSphere_witness :
  let m := @MeshGenerator.createSphere taylorLibm (F32.of_Z 1) 36 18 in
  Z.of_nat (List.length (MeshGenerator.vertices m)) = 703 /\
  Z.of_nat (List.length (MeshGenerator.indices m)) = 3672 /\
  MeshGenerator.indicesInRange m.
Proof.
  intros m.
  apply (@createSphere_indices_in_range taylorLibm (F32.of_Z 1) 36 18); lia.
Defined.

(** ** Animation: durations that are not positive *)

(** What rounding answers carries the sign it was given. *)
Lemma binary_round_aux_cases p e sx mx ex lx :
  binary_round_aux p e sx mx ex lx = S754_zero sx \/
  (exists m' e', binary_round_aux p e sx mx ex lx = S754_finite sx m' e') \/
  binary_round_aux p e sx mx ex lx = S754_infinity sx \/
  binary_round_aux p e sx mx ex lx = S754_nan.
Proof.
  unfold binary_round_aux.
  destruct (shr_fexp p e mx ex lx) as [mrs' e'].
  destruct (shr_fexp p e _ e' loc_Exact) as [mrs'' e''].
  destruct (shr_m mrs'') as [|q|q].
  - left. reflexivity.
  - destruct (e'' <=? e - p); [right; left; eauto | right; right; left; reflexivity].
  - right. right. right. reflexivity.
Qed.

(** The sum of two numbers that are not negative is a number that is not
    negative. *)
Lemma add_nonneg (x y : F32.float) :
  F32.leb (S754_zero false) x = true -> F32.leb (S754_zero false) y = true ->
  F32.leb (S754_zero false) (F32.add x y) = true.
Proof.
  intros Hx Hy.
  destruct x as [sx|sx| |sx mx ex]; try discriminate;
    destruct y as [sy|sy| |sy my ey]; try discriminate;
    try (destruct sx; try discriminate); try (destruct sy; try discriminate);
    try reflexivity.
  unfold F32.add, SFadd. cbn [cond_Zopp]. unfold binary_normalize.
  rewrite <- Pos2Z.inj_add. unfold binary_round.
  destruct (shl_align _ _ _) as [mz ez].
  pose proof (@binary_round_aux_not_nan F32.prec F32.emax false (Z.pos mz) ez loc_Exact
                ltac:(lia)) as Hn.
  destruct (binary_round_aux_cases F32.prec F32.emax false (Z.pos mz) ez loc_Exact)
    as [-> | [(m' & e' & ->) | [-> | E]]]; try reflexivity.
  rewrite E in Hn. discriminate.
Qed.

(** A number that is not negative divided by a negative number is not 1 or
    more. *)
Lemma div_by_negative (x y : F32.float) :
  F32.leb (S754_zero false) x = true -> F32.ltb y (S754_zero false) = true ->
  F32.geb (F32.div x y) (F32.lit 1 1) = false.
Proof.
  intros Hx Hy. unfold F32.geb.
  destruct x as [sx|sx| |sx mx ex]; try discriminate;
    destruct y as [sy|sy| |sy my ey]; try discriminate;
    try (destruct sx; try discriminate); try (destruct sy; try discriminate);
    try reflexivity.
  unfold F32.div, SFdiv. cbn [xorb].
  destruct (SFdiv_core_binary F32.prec F32.emax (Z.pos mx) ex (Z.pos my) ey) as [[mz ez] lz].
  destruct (binary_round_aux_cases F32.prec F32.emax true mz ez lz)
    as [-> | [(m' & e' & ->) | [-> | ->]]]; reflexivity.
Qed.

Lemma update_negative_duration (a : Animation.t) (dt : F32.float) :
  Animation.m_complete a = false ->
  F32.leb (F32.lit 0 1) (Animation.m_elapsed a) = true ->
  F32.ltb (Animation.m_duration a) (F32.lit 0 1) = true ->
  F32.leb (F32.lit 0 1) dt = true ->
  Animation.m_complete (snd (fst (Animation.update a dt))) = false /\
  F32.leb (F32.lit 0 1) (Animation.m_elapsed (snd (fst (Animation.update a dt)))) = true /\
  Animation.m_duration (snd (fst (Animation.update a dt))) = Animation.m_duration a /\
  snd (Animation.update a dt) = [].
Proof.
  rewrite zero_lit. intros Hc He Hd Hdt. unfold Animation.update. rewrite Hc. cbn [orb].
  destruct (Animation.m_paused a); cbn [fst snd]; [auto|].
  rewrite (@div_by_negative (F32.add (Animation.m_elapsed a) dt) (Animation.m_duration a))
    by (try apply add_nonneg; assumption).
  cbn [fst snd Animation.m_complete Animation.m_elapsed Animation.m_duration].
  repeat split; try assumption. apply add_nonneg; assumption.
Qed.

(** X27.  An animation with a negative duration never completes: whatever
    updates follow, by amounts that are not negative, it stays incomplete and
    its completion callback is never invoked. *)
Theorem negative_duration_never_completes (a : Animation.t) (deltas : list F32.float) :
  Animation.m_complete a = false ->
  F32.leb (F32.lit 0 1) (Animation.m_elapsed a) = true ->
  F32.ltb (Animation.m_duration a) (F32.lit 0 1) = true ->
  Forall (fun dt => F32.leb (F32.lit 0 1) dt = true) deltas ->
  Animation.isComplete (fst (Animation.updates a deltas)) = false /\
  snd (Animation.updates a deltas) = [].
Proof.
  intros Hc He Hd Hl.
  assert (Hgen :
    Animation.m_complete (fst (Animation.updates a deltas)) = false /\
    F32.leb (F32.lit 0 1) (Animation.m_elapsed (fst (Animation.updates a deltas))) = true /\
    Animation.m_duration (fst (Animation.updates a deltas)) = Animation.m_duration a /\
    snd (Animation.updates a deltas) = []).
  { induction deltas as [|dt deltas IH] using rev_ind.
    - cbn. auto.
    - apply Forall_app in Hl. destruct Hl as [Hl Hdt].
      inversion Hdt as [|? ? Hdt' _]; subst.
      destruct (IH Hl) as (I1 & I2 & I3 & I4).
      rewrite updates_snoc. cbn [fst snd]. rewrite I4. cbn [app].
      rewrite <- I3 in Hd.
      destruct (@update_negative_duration (fst (Animation.updates a deltas)) dt I1 I2 Hd Hdt')
        as (J1 & J2 & J3 & J4).
      rewrite I3 in J3. auto. }
  destruct Hgen as (I1 & _ & _ & I4). split; assumption.
Qed.

Lemma negative_duration_witness :
  let a := Animation.onComplete
             (Animation.init (F32.of_Z 0) (F32.of_Z 10) (F32.of_Z (-2)) Easing.linear) 7%N in
  Animation.isComplete (fst (Animation.updates a [F32.of_Z 1; F32.of_Z 5; F32.of_Z 100])) = false /\
  snd (Animation.updates a [F32.of_Z 1; F32.of_Z 5; F32.of_Z 100]) = [].
Proof.
  intros a.
  apply (@negative_duration_never_completes a [F32.of_Z 1; F32.of_Z 5; F32.of_Z 100]);
    try reflexivity.
  repeat constructor.
Defined.



(** ** BoundingSphere: the radius *)

Lemma sqrt_nonneg (x : F32.float) :
  F32.is_nan (F32.sqrt x) = true \/ F32.leb (S754_zero false) (F32.sqrt x) = true.
Proof.
  destruct x as [s|s| |s m e]; try destruct s; try (left; reflexivity); try (right; reflexivity).
  unfold F32.sqrt, SFsqrt.
  destruct (SFsqrt_core_binary F32.prec F32.emax (Z.pos m) e) as [[mz ez] lz].
  destruct (binary_round_aux_cases F32.prec F32.emax false mz ez lz)
    as [-> | [(m' & e' & ->) | [-> | ->]]];
    try (right; reflexivity). left. reflexivity.
Qed.

(** X29.  A sphere of negative radius contains no point, not even its
    centre; a sphere whose centre is finite contains its centre exactly when
    its radius is zero or more (and a number). *)
Theorem boundingSphere_radius (s : BoundingSphere.t) (point : Glm.vec3 F32.float) :
  (F32.ltb (BoundingSphere.radius s) (F32.lit 0 1) = true ->
   BoundingSphere.containsPoint s point = false) /\
  (finiteVec (BoundingSphere.center s) ->
   BoundingSphere.containsPoint s (BoundingSphere.center s) =
   F32.leb (F32.lit 0 1) (BoundingSphere.radius s)).
Proof.
  unfold BoundingSphere.containsPoint. rewrite zero_lit. split.
  - intros Hr. unfold Glm.length.
    destruct (@sqrt_nonneg (Glm.dot (Glm.sub point (BoundingSphere.center s))
                                   (Glm.sub point (BoundingSphere.center s)))) as [Hn|Hp].
    + destruct (F32.sqrt _); try discriminate. reflexivity.
    + generalize dependent (F32.sqrt (Glm.dot (Glm.sub point (BoundingSphere.center s))
                                              (Glm.sub point (BoundingSphere.center s)))).
      intros l Hl. forder.
  - intros (Hx & Hy & Hz). unfold Glm.sub. cbn [s_sub Scalar_float].
    rewrite !sub_self by assumption. reflexivity.
Qed.

Lemma boundingSphere_witness :
  let s := BoundingSphere.mk (vec3i 1 2 3) (F32.of_Z (-1)) in
  BoundingSphere.containsPoint s (vec3i 1 2 3) = false /\
  BoundingSphere.containsPoint s (BoundingSphere.center s) =
    F32.leb (F32.lit 0 1) (BoundingSphere.radius s).
Proof.
  intros s. split.
  - apply (proj1 (@boundingSphere_radius s (vec3i 1 2 3))). reflexivity.
  - apply (proj2 (@boundingSphere_radius s (vec3i 1 2 3))). repeat split.
Defined.

(** ** Shader: every program is deleted once *)

Lemma assign_split (s : Shader.store) (i : nat) (old v : Shader.t) :
  nth_error s i = Some old ->
  exists A B, s = A ++ old :: B /\ Shader.assign s i v = A ++ v :: B /\ List.length A = i.
Proof.
  intros Hi. exists (firstn i s), (skipn (S i) s).
  assert (Hlt : (i < List.length s)%nat) by (apply nth_error_Some; rewrite Hi; discriminate).
  split; [|split].
  - rewrite <- (firstn_skipn i s) at 1. f_equal.
    clear Hlt. revert i Hi. induction s as [|a s IH]; intros [|i] Hi; try discriminate.
    + inversion Hi. reflexivity.
    + cbn [skipn]. apply IH. exact Hi.
  - reflexivity.
  - rewrite length_firstn. lia.
Qed.

Lemma destroyAll_assign (s : Shader.store) (i : nat) (old v : Shader.t) :
  nth_error s i = Some old ->
  Permutation (Shader.destroy old ++ Shader.destroyAll (Shader.assign s i v))
              (Shader.destroy v ++ Shader.destroyAll s).
Proof.
  intros Hi. destruct (@assign_split s i old v Hi) as (A & B & Hs & Ha & _).
  rewrite Ha, Hs at 1. clear Hs Ha. unfold Shader.destroyAll.
  rewrite !flat_map_app. cbn [flat_map].
  eapply perm_trans; [apply Permutation_app_head; apply Permutation_app_swap_app|].
  eapply perm_trans; [apply Permutation_app_swap_app|].
  apply Permutation_app_head. apply Permutation_app_swap_app.
Qed.

Lemma nth_error_assign_other (s : Shader.store) (i j : nat) (old v : Shader.t) :
  i <> j -> nth_error s i = Some old -> nth_error (Shader.assign s i v) j = nth_error s j.
Proof.
  intros Hij Hi. destruct (@assign_split s i old v Hi) as (A & B & Hs & Ha & Hlen).
  rewrite Ha, Hs at 1.
  destruct (Nat.lt_ge_cases j i) as [Hlt|Hge].
  - rewrite !nth_error_app1 by lia. reflexivity.
  - rewrite !nth_error_app2 by lia.
    destruct (j - List.length A)%nat as [|k] eqn:Ek; [lia|]. reflexivity.
Qed.

Lemma step_keeps_deletions (st : Shader.store * list Shader.GLCall) (o : Shader.op) :
  Permutation (snd (Shader.step st o) ++ Shader.destroyAll (fst (Shader.step st o)))
              (snd st ++ Shader.destroyAll (fst st)).
Proof.
  destruct st as [s calls]. destruct o as [other | this other]; cbn [Shader.step fst snd].
  - destruct (nth_error s other) as [theirs|] eqn:Ho; cbn [fst snd]; [|apply Permutation_refl].
    apply Permutation_app_head. unfold Shader.destroyAll at 1. rewrite flat_map_app.
    cbn [flat_map]. rewrite app_nil_r.
    eapply perm_trans; [apply Permutation_app_comm|].
    exact (@destroyAll_assign s other theirs 0 Ho).
  - destruct (nth_error s this) as [mine|] eqn:Ht; [|apply Permutation_refl].
    destruct (nth_error s other) as [theirs|] eqn:Ho; [|apply Permutation_refl].
    destruct (Nat.eqb_spec this other) as [E|E]; cbn [negb fst snd]; [apply Permutation_refl|].
    rewrite <- app_assoc. apply Permutation_app_head.
    pose proof (@destroyAll_assign s this mine theirs Ht) as P1.
    assert (Ho' : nth_error (Shader.assign s this theirs) other = Some theirs)
      by (rewrite (@nth_error_assign_other s this other mine theirs E Ht); exact Ho).
    pose proof (@destroyAll_assign (Shader.assign s this theirs) other theirs 0 Ho') as P2.
    cbn [Shader.destroy Z.eqb negb app] in P2.
    apply (Permutation_app_inv_l (Shader.destroy theirs)).
    eapply perm_trans; [apply Permutation_app_swap_app|].
    eapply perm_trans; [apply Permutation_app_head; exact P2|].
    exact P1.
Qed.

(** X30.  Through any sequence of move constructions and move assignments of
    shader objects (self-assignment included), followed by the destruction of
    all the objects, each program the objects owned at the start is deleted
    exactly once: the deletions are a permutation of those the destructors
    would have made at the start, so no program is deleted twice if none was
    owned twice. *)
Theorem shader_programs_deleted_once (s : Shader.store) (ops : list Shader.op) :
  Permutation (snd (Shader.run s ops) ++ Shader.destroyAll (fst (Shader.run s ops)))
              (Shader.destroyAll s) /\
  (NoDup (Shader.destroyAll s) ->
   NoDup (snd (Shader.run s ops) ++ Shader.destroyAll (fst (Shader.run s ops)))).
Proof.
  assert (Hp : Permutation
                 (snd (Shader.run s ops) ++ Shader.destroyAll (fst (Shader.run s ops)))
                 (Shader.destroyAll s)).
  { unfold Shader.run. induction ops as [|o ops IH] using rev_ind.
    - apply Permutation_refl.
    - rewrite fold_left_app. cbn [fold_left].
      eapply perm_trans; [apply step_keeps_deletions | exact IH]. }
  split; [exact Hp|].
  intros Hn. apply (Permutation_NoDup (Permutation_sym Hp)). exact Hn.
Qed.

